(** * nw_wrld projector: orchestration core

    A shallow embedding of [src/projector/Projector.js] (the [ElementPool] and
    [Projector] singletons) and of [src/shared/utils/methodOptions.js], with
    the properties of the specification proved about it.

    Modelling conventions.
    - JavaScript numbers are IEEE 754 doubles ([Double.num]): a finite double
      is the rational it denotes, and there are the two infinities and NaN.
      The sampling arithmetic of the random ranges rounds each result to the
      nearest double ([Double.round64]) and overflows as the hardware does.
      The two zeros are not told apart.  The percentages of the grid layout
      are the exact quotients of the formulas of the code.
    - The program is single threaded.  Every awaited operation is run to
      completion at its call; interleavings with other tasks at suspension
      points are outside the model.  A rejected promise is an exception; a
      promise that never settles, or a loop that never ends, is the result
      [Never].  The constructor batches that [handleTrackSelection] detaches
      are run once it has resolved.
    - [Math.random], the dynamic [import] of a module file and the behaviour
      of a module constructor or method are the environment: the first two
      are oracles indexed by the number of calls made so far, the others are
      fields of the module class and of the live instance.  Of what module
      code does, the model keeps whether it returns or throws.  What it does
      to the document (the constructor of [ModuleBase] hides its element, its
      [destroy] takes the element out of the container) is not modelled:
      [modulesContainer] and [pool] are what the statements of [Projector]
      and [ElementPool] make of them.
    - Of the console and logger output only the warnings, the errors and the
      markers the properties speak about are recorded, in [trace]. *)

From Stdlib Require Import QArith Qround Lqa Qpower Ascii.
From stdpp Require Import gmap strings list pretty.

Open Scope Z_scope.
Open Scope string_scope.
Open Scope list_scope.

(** ** IEEE 754 binary64

    The numbers of JavaScript.  A finite double is the rational it denotes;
    the two zeros are not told apart (no operation of the program does).  An
    arithmetic operation rounds its exact result to the nearest double, ties
    to even, and overflows to an infinity. *)

Module Double.

Inductive num : Type :=
| Fin (q : Q)
| Inf (negative : bool)
| NaN.

(** The exponent of the smallest subnormal. *)
Definition emin : Z := -1074.

Definition pow2 (e : Z) : Q := (2 ^ e)%Q.

(** The [k] with [2^k <= q < 2^(k+1)], for [q > 0]. *)
Definition ilog2 (q : Q) : Z :=
  if Qle_bool 1 q then Z.log2 (Qfloor q)
  else - Z.log2_up (Qceiling (/ q)).

(** The nearest integer, ties to even. *)
Definition rne (y : Q) : Z :=
  let f := Qfloor y in
  match (y - inject_Z f ?= 1 # 2)%Q with
  | Lt => f
  | Gt => f + 1
  | Eq => if Z.even f then f else f + 1
  end.

(** The exponent of the unit in the last place of the doubles around [q]:
    53 bits of precision, down to the subnormals. *)
Definition scale (q : Q) : Z := Z.max (ilog2 q - 52) emin.

(** The double nearest to [q > 0]. *)
Definition roundPos (q : Q) : num :=
  let e := scale q in
  let v := (inject_Z (rne (q / pow2 e)) * pow2 e)%Q in
  if Qle_bool (pow2 1024) v then Inf false else Fin (Qred v).

Definition opp (x : num) : num :=
  match x with
  | Fin q => Fin (- q)
  | Inf b => Inf (negb b)
  | NaN => NaN
  end.

(** The double nearest to [q]. *)
Definition round64 (q : Q) : num :=
  match (q ?= 0)%Q with
  | Eq => Fin 0
  | Gt => roundPos q
  | Lt => opp (roundPos (- q))
  end.

(** [x + y] *)
Definition add (x y : num) : num :=
  match x, y with
  | NaN, _ | _, NaN => NaN
  | Inf a, Inf b => if Bool.eqb a b then Inf a else NaN
  | Inf a, Fin _ | Fin _, Inf a => Inf a
  | Fin a, Fin b => round64 (a + b)
  end.

(** [x - y] *)
Definition sub (x y : num) : num := add x (opp y).

(** [x * y] *)
Definition mul (x y : num) : num :=
  match x, y with
  | NaN, _ | _, NaN => NaN
  | Inf a, Inf b => Inf (xorb a b)
  | Inf a, Fin q | Fin q, Inf a =>
      if Qeq_bool q 0 then NaN else Inf (xorb a (Qnum q <? 0)%Z)
  | Fin a, Fin b => round64 (a * b)
  end.

(** [Math.floor(x)] *)
Definition floor (x : num) : num :=
  match x with
  | Fin q => Fin (inject_Z (Qfloor q))
  | _ => x
  end.

(** [x > y] *)
Definition gtb (x y : num) : bool :=
  match x, y with
  | Fin a, Fin b => negb (Qle_bool a b)
  | Inf false, Fin _ | Inf false, Inf true | Fin _, Inf true => true
  | _, _ => false
  end.

(** [x < y] *)
Definition ltb (x y : num) : bool := gtb y x.

(** [x === y] *)
Definition eqb (x y : num) : bool :=
  match x, y with
  | Fin a, Fin b => Qeq_bool a b
  | Inf a, Inf b => Bool.eqb a b
  | _, _ => false
  end.

(** [Number.isInteger(x)] *)
Definition isInteger (x : num) : bool :=
  match x with
  | Fin q => Pos.eqb (Qden (Qred q)) 1
  | _ => false
  end.

(** The order of the numbers, NaN apart. *)
Definition le (x y : num) : Prop :=
  match x, y with
  | Fin a, Fin b => (a <= b)%Q
  | Inf true, Fin _ | Inf true, Inf _ | Fin _, Inf false | Inf false, Inf false => True
  | _, _ => False
  end.

(** [q] is a finite double, in lowest terms. *)
Definition isDouble (q : Q) : Prop := round64 q = Fin q.

(** The rounded value of [q > 0], before the test for overflow. *)
Definition mant (q : Q) : Z := rne (q / pow2 (scale q)).
Definition rounded (q : Q) : Q := (inject_Z (mant q) * pow2 (scale q))%Q.

End Double.

Coercion Double.Fin : Q >-> Double.num.
Bind Scope Q_scope with Double.num.

(** ** JavaScript values *)

Module JS.

(** The values of the user configuration and of the messages.
    [JUndefined] stands for an absent property. *)
#[local] Unset Elimination Schemes.
Inductive jsval : Type :=
| JUndefined
| JNull
| JBool (b : bool)
| JNum (x : Double.num)
| JStr (s : string)
| JArr (l : list jsval)
| JObj (fields : list (string * jsval)).
#[local] Set Elimination Schemes.

(** ToBoolean. *)
Definition truthy (v : jsval) : bool :=
  match v with
  | JUndefined | JNull => false
  | JBool b => b
  | JNum (Double.Fin q) => negb (Qeq_bool q 0)
  | JNum (Double.Inf _) => true
  | JNum Double.NaN => false
  | JStr s => negb (String.eqb s "")
  | JArr _ | JObj _ => true
  end.

(** [a || b] *)
Definition or_else (a b : jsval) : jsval := if truthy a then a else b.

(** [typeof v === "number"] *)
Definition isNumber (v : jsval) : bool :=
  match v with JNum _ => true | _ => false end.

(** [Number.isInteger] on a finite number, as [Double.isInteger]. *)
Definition isInteger (q : Q) : bool := Pos.eqb (Qden (Qred q)) 1.

(** [a > b] on finite numbers, as [Double.gtb]. *)
Definition Qgtb (a b : Q) : bool := negb (Qle_bool a b).

(** Property read [o.k] and index read [a[i]]. *)
Fixpoint assoc {A} (k : string) (l : list (string * A)) : option A :=
  match l with
  | [] => None
  | (k', v) :: l' => if String.eqb k k' then Some v else assoc k l'
  end.

Definition prop (k : string) (fields : list (string * jsval)) : jsval :=
  default JUndefined (assoc k fields).

Definition index (i : nat) (l : list jsval) : jsval :=
  default JUndefined (l !! i).

(** [v === s] for a string [s]. *)
Definition strict_eq_str (s : string) (v : jsval) : bool :=
  match v with JStr s' => String.eqb s' s | _ => false end.

(** [String.prototype.includes]. *)
Fixpoint str_includes (needle hay : string) : bool :=
  String.prefix needle hay
  || match hay with
     | EmptyString => false
     | String _ hay' => str_includes needle hay'
     end.

(** lodash [fromPairs]: a later pair overrides an earlier one. *)
Definition fromPairs (l : list (string * jsval)) : gmap string jsval :=
  foldl (fun acc kv => <[kv.1 := kv.2]> acc) ∅ l.

End JS.
Import JS.

(** ** Configuration: tracks, placements, method calls *)

Record OptionValue := mkOption {
  oname : string;
  ovalue : jsval;
  orandomRange : jsval;       (* [JUndefined] when absent *)
  orandomValues : jsval       (* [JUndefined] when absent; read by methodOptions.js only *)
}.

(** [{ name, options }]; [options: null] is the empty list (lodash [map]
    of [null] is [[]]). *)
Record MethodCall := mkCall {
  mname : string;
  moptions : list OptionValue
}.

(** A value of [modulesData[id].methods[channel]]. *)
Inductive MethodsEntry :=
| NotAnArray
| Methods (l : list MethodCall).

(** [modulesData[id]]: [{ constructor, methods }]. *)
Record ModuleData := mkModuleData {
  dconstructor : list MethodCall;
  dmethods : gmap string MethodsEntry
}.

(** A placement of the track: [{ id, type }]. *)
Record ModuleRef := mkRef {
  rid : string;
  rtype : string
}.

(** [modules] is [None] when the property is not an array. *)
Record Track := mkTrack {
  tname : string;
  modules : option (list ModuleRef);
  modulesData : gmap string ModuleData
}.

(** ** DOM elements and live instances *)

(** The inline style written by [updateMatrix]; lengths are percentages. *)
Record Css := mkCss {
  width : Q;
  height : Q;
  top : Q;
  left : Q;
  zIndex : Z;
  border : bool               (* [true]: "1px solid white", [false]: "none" *)
}.

Record Elem := mkElem {
  eid : nat;                          (* node identity *)
  classList : list string;
  dataInstanceId : option string;     (* [dataset.instanceId] *)
  cssText : option Css;
  visibilityHidden : bool
}.

(** What a call of a module constructor or method does, as far as the
    orchestrator sees. *)
Inductive Behaviour := Returns | Throws.

(** A constructed module. [imethods] lists its function-valued properties,
    [destroy] included. *)
Record Instance := mkInstance {
  iid : nat;
  ielem : nat;                        (* [eid] of the element it was built on *)
  imethods : list (string * Behaviour)
}.

(** The default export of a module file: what [new ModuleClass(elem)] does,
    and the functions its instances have. *)
Record ModuleClass := mkClass {
  cname : string;
  cconstructor : Behaviour;
  cmethods : list (string * Behaviour)
}.

(** [{ instanceId, moduleType }], an entry of the channel handler map. *)
Record Target := mkTarget {
  instanceId : string;
  moduleType : string
}.

(** ** The orchestrator state *)

(** Exceptions (rejected promises). *)
Inductive Exn :=
| TypeError                               (* a property read or call on a non-object *)
| ImportError (moduleType : string)       (* the dynamic import rejected *)
| MethodError (iid : nat) (method : string)   (* a module method threw *)
| ConstructorError (moduleType : string).   (* a module constructor threw *)

(** The recorded console, logger, IPC and module events, oldest first. *)
Inductive Event :=
| WarnInvalidRandomRange (name : string) (min max value : jsval)
| WarnSwapRandomRange (name : string) (min max : Double.num)
| WarnMethodMissing (method instanceId : string)
| ErrTrackNotFound (trackName : string)
| ErrNoContainer
| ErrInvalidModules (trackName : string)
| ErrDestroy (instanceId : string) (iid : nat)
| ErrLoadModule (moduleType : string)
| ErrNoModuleType (instanceId : string)
| LogMatrixStart (instanceId : string)
| LogMatrixEnd (instanceId : string)
| Import (moduleType : string)
| Construct (iid : nat) (moduleType : string) (eid : nat)
| Invoke (iid : nat) (method : string) (options : gmap string jsval) (isConstructor : bool)
| Destroy (iid : nat)
| SendProjectorReady
| UnhandledRejection (instanceId : string) (e : Exn).

(** The promise [loadModuleClass] returns: the dynamic import of [ptype],
    the [pattempt]-th import the program started. *)
Record LoaderPromise := mkPromise {
  ptype : string;
  pattempt : nat
}.

Record State := mkState {
  activeTrack : option Track;
  activeModules : list (string * list Instance);  (* object, keys in insertion order *)
  activeChannelHandlers : gmap string (list Target);
  moduleClassCache : gmap string nat;           (* type -> cached promise, by its import number *)
  userData : list Track;
  isDeactivating : bool;
  debugOverlayActive : bool;
  debugLogQueue : list (string * gmap string jsval);
  modulesContainer : option (list Elem);  (* children of [document.querySelector(".modules")] *)
  pool : gmap string (list Elem);         (* [ElementPool.pool] *)
  nextId : nat;                           (* next fresh node or instance identity *)
  imports : nat;                          (* dynamic imports attempted so far *)
  draws : nat;                            (* [Math.random] calls made so far *)
  trace : list Event
}.

Definition set_activeTrack v (s : State) : State :=
  mkState v (activeModules s) (activeChannelHandlers s) (moduleClassCache s)
    (userData s) (isDeactivating s) (debugOverlayActive s) (debugLogQueue s)
    (modulesContainer s) (pool s) (nextId s) (imports s) (draws s) (trace s).
Definition set_activeModules v (s : State) : State :=
  mkState (activeTrack s) v (activeChannelHandlers s) (moduleClassCache s)
    (userData s) (isDeactivating s) (debugOverlayActive s) (debugLogQueue s)
    (modulesContainer s) (pool s) (nextId s) (imports s) (draws s) (trace s).
Definition set_activeChannelHandlers v (s : State) : State :=
  mkState (activeTrack s) (activeModules s) v (moduleClassCache s)
    (userData s) (isDeactivating s) (debugOverlayActive s) (debugLogQueue s)
    (modulesContainer s) (pool s) (nextId s) (imports s) (draws s) (trace s).
Definition set_moduleClassCache v (s : State) : State :=
  mkState (activeTrack s) (activeModules s) (activeChannelHandlers s) v
    (userData s) (isDeactivating s) (debugOverlayActive s) (debugLogQueue s)
    (modulesContainer s) (pool s) (nextId s) (imports s) (draws s) (trace s).
Definition set_isDeactivating v (s : State) : State :=
  mkState (activeTrack s) (activeModules s) (activeChannelHandlers s) (moduleClassCache s)
    (userData s) v (debugOverlayActive s) (debugLogQueue s)
    (modulesContainer s) (pool s) (nextId s) (imports s) (draws s) (trace s).
Definition set_debugLogQueue v (s : State) : State :=
  mkState (activeTrack s) (activeModules s) (activeChannelHandlers s) (moduleClassCache s)
    (userData s) (isDeactivating s) (debugOverlayActive s) v
    (modulesContainer s) (pool s) (nextId s) (imports s) (draws s) (trace s).
Definition set_modulesContainer v (s : State) : State :=
  mkState (activeTrack s) (activeModules s) (activeChannelHandlers s) (moduleClassCache s)
    (userData s) (isDeactivating s) (debugOverlayActive s) (debugLogQueue s)
    v (pool s) (nextId s) (imports s) (draws s) (trace s).
Definition set_pool v (s : State) : State :=
  mkState (activeTrack s) (activeModules s) (activeChannelHandlers s) (moduleClassCache s)
    (userData s) (isDeactivating s) (debugOverlayActive s) (debugLogQueue s)
    (modulesContainer s) v (nextId s) (imports s) (draws s) (trace s).
Definition set_nextId v (s : State) : State :=
  mkState (activeTrack s) (activeModules s) (activeChannelHandlers s) (moduleClassCache s)
    (userData s) (isDeactivating s) (debugOverlayActive s) (debugLogQueue s)
    (modulesContainer s) (pool s) v (imports s) (draws s) (trace s).
Definition set_imports v (s : State) : State :=
  mkState (activeTrack s) (activeModules s) (activeChannelHandlers s) (moduleClassCache s)
    (userData s) (isDeactivating s) (debugOverlayActive s) (debugLogQueue s)
    (modulesContainer s) (pool s) (nextId s) v (draws s) (trace s).
Definition set_draws v (s : State) : State :=
  mkState (activeTrack s) (activeModules s) (activeChannelHandlers s) (moduleClassCache s)
    (userData s) (isDeactivating s) (debugOverlayActive s) (debugLogQueue s)
    (modulesContainer s) (pool s) (nextId s) (imports s) v (trace s).
Definition set_trace v (s : State) : State :=
  mkState (activeTrack s) (activeModules s) (activeChannelHandlers s) (moduleClassCache s)
    (userData s) (isDeactivating s) (debugOverlayActive s) (debugLogQueue s)
    (modulesContainer s) (pool s) (nextId s) (imports s) (draws s) v.

(** ** A state and exception monad

    A computation returns a value, throws, never completes (it awaits a
    promise that never settles, or runs a loop that never ends), or runs out
    of the fuel that bounds the mutual recursion of [executeMethods] and
    [updateMatrix].  The state reached is kept in each case: JavaScript does
    not roll back on a throw. *)

Inductive Result (A : Type) :=
| Ok (a : A)
| Raise (e : Exn)
| OutOfFuel
| Never.
Arguments Ok {A} a.
Arguments Raise {A} e.
Arguments OutOfFuel {A}.
Arguments Never {A}.

Definition M (A : Type) : Type := State -> Result A * State.

Definition ret {A} (a : A) : M A := fun s => (Ok a, s).
Definition throw {A} (e : Exn) : M A := fun s => (Raise e, s).
Definition bind {A B} (m : M A) (k : A -> M B) : M B :=
  fun s =>
    match m s with
    | (Ok a, s') => k a s'
    | (Raise e, s') => (Raise e, s')
    | (OutOfFuel, s') => (OutOfFuel, s')
    | (Never, s') => (Never, s')
    end.
Definition gets {A} (f : State -> A) : M A := fun s => (Ok (f s), s).
Definition modify (f : State -> State) : M unit := fun s => (Ok tt, f s).
Definition emit (e : Event) : M unit := modify (fun s => set_trace (trace s ++ [e]) s).

(** A computation that never completes; the state is the one it starts
    from. *)
Definition hang {A} : M A := fun s => (Never, s).

(** [try { m } catch (error) { h error }]; there is nothing to catch when
    [m] never completes. *)
Definition try_catch {A} (m : M A) (h : Exn -> M A) : M A :=
  fun s =>
    match m s with
    | (Raise e, s') => h e s'
    | r => r
    end.

#[global] Instance M_ret : MRet M := @ret.
#[global] Instance M_bind : MBind M := fun A B k m => bind m k.

(** lodash [forEach] over a list with a callback that may throw: the first
    throw leaves the loop. *)
Fixpoint forEach {A} (f : A -> M unit) (l : list A) : M unit :=
  match l with
  | [] => ret tt
  | x :: l' => f x;; forEach f l'
  end.

(** [await Promise.all(l.map(async x => f x))]: every [f x] is started, in
    order; the whole rejects with the first rejection once all are started,
    and never settles when one of them never does and none rejects.
    Running out of fuel stops at once. *)
Fixpoint promiseAll {A} (f : A -> M unit) (l : list A) : M unit :=
  match l with
  | [] => ret tt
  | x :: l' =>
      fun s =>
        match f x s with
        | (Ok _, s') => promiseAll f l' s'
        | (Raise e, s') =>
            match promiseAll f l' s' with
            | (OutOfFuel, s'') => (OutOfFuel, s'')
            | (_, s'') => (Raise e, s'')
            end
        | (Never, s') =>
            match promiseAll f l' s' with
            | (Ok _, s'') => (Never, s'')
            | r => r
            end
        | (OutOfFuel, s') => (OutOfFuel, s')
        end
  end.

(** [await new Promise((resolve) => requestAnimationFrame(() => { m;
    resolve(); }))]: an exception thrown by [m] leaves the callback before
    [resolve] is called, and the promise never settles. *)
Definition animationFrame {A} (m : M A) : M A :=
  fun s =>
    match m s with
    | (Raise _, s') => (Never, s')
    | r => r
    end.

(** A promise that nobody awaits: the caller goes on whatever becomes of
    it, and its rejection is reported by the runtime as unhandled. *)
Definition detached (instanceId : string) (m : M unit) : M unit :=
  fun s =>
    match m s with
    | (Raise e, s') => (Ok tt, set_trace (trace s' ++ [UnhandledRejection instanceId e]) s')
    | (OutOfFuel, s') => (OutOfFuel, s')
    | (_, s') => (Ok tt, s')
    end.

(** Assignment [o[k] = v] on an object whose key order is the insertion
    order. *)
Fixpoint alist_set {A} (k : string) (v : A) (l : list (string * A)) : list (string * A) :=
  match l with
  | [] => [(k, v)]
  | (k', v') :: l' =>
      if String.eqb k k' then (k, v) :: l' else (k', v') :: alist_set k v l'
  end.

(** ** ElementPool *)

Module ElementPool.

(** [classList.add] *)
Definition classList_add (c : string) (l : list string) : list string :=
  if bool_decide (c ∈ l) then l else l ++ [c].

(** The classes of [ElementPool.template], set by [init]. *)
Definition template : list string := ["module"; "z-index-container"].

Definition getElement (moduleName : string) : M Elem :=
  fun s =>
    match last (default [] (pool s !! moduleName)) with
    | None =>
        (* clone from template *)
        let elem := mkElem (nextId s) (classList_add moduleName template) None None false in
        (Ok elem, set_nextId (S (nextId s)) s)
    | Some elem =>
        (* this.pool[moduleName].pop() *)
        (Ok elem,
         set_pool (<[moduleName := removelast (default [] (pool s !! moduleName))]> (pool s)) s)
    end.

Definition releaseElement (elem : Elem) : M unit :=
  match
    List.find (fun cls => negb (String.eqb cls "module") && negb (String.eqb cls "z-index-container"))
      (classList elem)
  with
  | Some moduleName =>
      modify (fun s =>
        set_pool (<[moduleName := default [] (pool s !! moduleName) ++ [elem]]> (pool s)) s)
  | None => mret tt
  end.

End ElementPool.

(** ** Projector *)

Section Projector.

(** [Math.random()]: the value of the [n]-th call. *)
Variable random : nat -> Q.
(** [import(`./modules/${moduleType}.js`)]: the default export the [n]-th
    import of the program resolves to, [None] when it rejects. *)
Variable importModule : string -> nat -> option ModuleClass.

Definition mathRandom : M Q :=
  fun s => (Ok (random (draws s)), set_draws (S (draws s)) s).

(** [loadModuleClass], up to the promise it returns; [None] is the resolved
    [null] of a falsy module type. *)
Definition loadModuleClass (moduleType : string) : M (option LoaderPromise) :=
  if decide (moduleType = "") then mret None
  else
    cache ← gets moduleClassCache;
    match cache !! moduleType with
    | Some n => mret (Some (mkPromise moduleType n))
    | None =>
        n ← gets imports;
        modify (set_imports (S n));;
        emit (Import moduleType);;
        let loaderPromise := mkPromise moduleType n in
        modify (fun s => set_moduleClassCache (<[moduleType := n]> (moduleClassCache s)) s);;
        mret (Some loaderPromise)
    end.

(** [await] of the promise of [loadModuleClass].  A rejected import runs the
    [.catch] handler of the promise, once, while the promise is the cached
    one: it deletes the cache entry, and the error is thrown again. *)
Definition awaitLoader (p : option LoaderPromise) : M (option ModuleClass) :=
  match p with
  | None => mret None
  | Some p =>
      match importModule (ptype p) (pattempt p) with
      | Some c => mret (Some c)
      | None =>
          modify (fun s =>
            if decide (moduleClassCache s !! ptype p = Some (pattempt p))
            then set_moduleClassCache (delete (ptype p) (moduleClassCache s)) s
            else s);;
          throw (ImportError (ptype p))
      end
  end.

(** [await this.loadModuleClass(moduleType)] *)
Definition awaitLoadModuleClass (moduleType : string) : M (option ModuleClass) :=
  p ← loadModuleClass moduleType;
  awaitLoader p.

(** [queueDebugLog]; the timer that flushes the queue to the dashboard is
    outside the model. *)
Definition queueDebugLog (log : string * gmap string jsval) : M unit :=
  active ← gets debugOverlayActive;
  if active : bool then modify (fun s => set_debugLogQueue (debugLogQueue s ++ [log]) s)
  else mret tt.

(** [instance.destroy()], guarded by [isFunction(instance.destroy)].  What
    [destroy] does to the element of the instance is not modelled. *)
Definition destroyInstance (instance : Instance) : M unit :=
  match assoc "destroy" (imethods instance) with
  | Some b =>
      emit (Destroy (iid instance));;
      match b with
      | Returns => mret tt
      | Throws => throw (MethodError (iid instance) "destroy")
      end
  | None => mret tt
  end.

(** [modulesContainer.removeChild(moduleElem); ElementPool.releaseElement(moduleElem)] *)
Definition removeAndRelease (moduleElem : Elem) : M unit :=
  modify (fun s =>
    set_modulesContainer
      ((fun children => filter (fun e => eid e ≠ eid moduleElem) children) <$> modulesContainer s) s);;
  ElementPool.releaseElement moduleElem.

Definition hide (e : Elem) : Elem :=
  mkElem (eid e) (classList e) (dataInstanceId e) (cssText e) true.

(** The guarded [destroy] of [deactivateActiveTrack]. *)
Definition destroyGuarded (instanceId : string) (instance : Instance) : M unit :=
  try_catch (destroyInstance instance)
    (fun _ => emit (ErrDestroy instanceId (iid instance))).

(** [forEach(this.activeModules, (instances, instanceId) => ...)] *)
Definition destroyAll : M unit :=
  registry ← gets activeModules;
  forEach (fun entry => forEach (destroyGuarded entry.1) entry.2) registry.

(** Remove all module elements from the DOM. *)
Definition releaseAll : M unit :=
  moduleElems ← gets (fun s => default [] (modulesContainer s));
  forEach removeAndRelease moduleElems.

Definition deactivateActiveTrack : M unit :=
  track ← gets activeTrack;
  deactivating ← gets isDeactivating;
  if negb (bool_decide (is_Some track)) || deactivating then mret tt
  else
    modify (set_isDeactivating true);;
    container ← gets modulesContainer;
    match container with
    | None => modify (set_isDeactivating false)
    | Some allModules =>
        (* Immediately hide all modules *)
        modify (set_modulesContainer (Some (hide <$> allModules)));;
        destroyAll;;
        releaseAll;;
        modify (set_activeModules []);;
        modify (set_activeTrack None);;
        modify (set_activeChannelHandlers ∅);;
        modify (set_isDeactivating false)
    end.

(** The callback of [Object.entries(methodEntries).forEach], for the target
    [t] of the placement at hand. *)
Definition addTarget (t : Target) (map : gmap string (list Target))
    (entry : string * MethodsEntry) : gmap string (list Target) :=
  let channelNumber := entry.1 in
  match entry.2 with
  | Methods (_ :: _) => <[channelNumber := default [] (map !! channelNumber) ++ [t]]> map
  | _ => map
  end.

(** The callback of [track.modules.forEach]. *)
Definition addPlacement (track : Track) (map : gmap string (list Target)) (r : ModuleRef)
  : gmap string (list Target) :=
  match modulesData track !! rid r with
  | None => map
  | Some d => foldl (addTarget (mkTarget (rid r) (rtype r))) map (map_to_list (dmethods d))
  end.

Definition buildChannelHandlerMap (track : Track) : gmap string (list Target) :=
  match modules track with
  | None => ∅
  | Some ms => foldl (addPlacement track) ∅ ms
  end.

(** The expression bound to [randomValue], for the draw [r] of
    [Math.random()]. *)
Definition randomValue (min max : Double.num) (r : Q) : Double.num :=
  if Double.isInteger min && Double.isInteger max
  then Double.add (Double.floor (Double.mul r (Double.add (Double.sub max min) 1))) min
  else Double.add (Double.mul r (Double.sub max min)) min.

(** Specification of the channel handler map, in the words of the
    specification: the placements whose data has a non-empty method list for
    the channel, in placement order, as [{ instanceId, moduleType }]. *)
Definition nonEmptyMethods (e : MethodsEntry) : bool :=
  match e with Methods (_ :: _) => true | _ => false end.

Definition hasChannelMethods (track : Track) (channelNumber : string) (r : ModuleRef) : bool :=
  match modulesData track !! rid r with
  | Some d =>
      match dmethods d !! channelNumber with
      | Some e => nonEmptyMethods e
      | None => false
      end
  | None => false
  end.

Definition channelTargets (track : Track) (channelNumber : string) : list Target :=
  List.map (fun r => mkTarget (rid r) (rtype r))
    (List.filter (hasChannelMethods track channelNumber) (default [] (modules track))).

(** The callback of [map(methodOptions, ...)] in [executeMethods]. *)
Definition resolveOption (o : OptionValue) : M (string * jsval) :=
  match orandomRange o with
  | JArr [JNum min; JNum max] =>
      '(min, max) ← (if Double.gtb min max
                     then emit (WarnSwapRandomRange (oname o) min max);; mret (max, min)
                     else mret (min, max));
      r ← mathRandom;
      mret (oname o, JNum (randomValue min max r))
  | JArr [min; max] =>
      emit (WarnInvalidRandomRange (oname o) min max (ovalue o));;
      mret (oname o, ovalue o)
  | _ => mret (oname o, ovalue o)
  end.

Fixpoint mapM {A B} (f : A -> M B) (l : list A) : M (list B) :=
  match l with
  | [] => mret []
  | x :: l' => y ← f x; ys ← mapM f l'; mret (y :: ys)
  end.

Definition resolveOptions (methodOptions : list OptionValue) : M (gmap string jsval) :=
  pairs ← mapM resolveOption methodOptions;
  mret (fromPairs pairs).

(** The loop that separates the "matrix" method from the others. *)
Definition separate (methods : list MethodCall)
  : bool * list OptionValue * list MethodCall :=
  foldl (fun '(needsMatrixUpdate, matrixOptions, otherMethods) method =>
           if decide (mname method = "matrix")
           then (true, moptions method, otherMethods)
           else (needsMatrixUpdate, matrixOptions, otherMethods ++ [method]))
        (false, [], []) methods.

(** The body run for one instance by the inner [Promise.all]. *)
Definition invokeOn (methodName instanceId : string) (options : gmap string jsval)
    (isConstructor : bool) (instance : Instance) : M unit :=
  match assoc methodName (imethods instance) with
  | Some b =>
      emit (Invoke (iid instance) methodName options isConstructor);;
      match b with
      | Returns => mret tt
      | Throws => throw (MethodError (iid instance) methodName)
      end
  | None => emit (WarnMethodMissing methodName instanceId)
  end.

(** The body run for one method by the outer [Promise.all].
    [moduleInstances] is [None] when it is [undefined]. *)
Definition runMethod (instanceId : string) (moduleInstances : option (list Instance))
    (isConstructor : bool) (method : MethodCall) : M unit :=
  options ← resolveOptions (moptions method);
  queueDebugLog (mname method, options);;
  match moduleInstances with
  | None => throw TypeError
  | Some l => promiseAll (invokeOn (mname method) instanceId options isConstructor) l
  end.

(** [await Promise.all(otherMethods.map(...))] *)
Definition executeOthers (instanceId : string) (moduleInstances : option (list Instance))
    (isConstructor : bool) (otherMethods : list MethodCall) : M unit :=
  promiseAll (runMethod instanceId moduleInstances isConstructor) otherMethods.

(** *** updateMatrix *)

(** [matrixOptions] of [updateMatrix], as decoded from the method options. *)
Record MatrixOptions := mkMatrixOptions {
  rows : jsval;
  cols : jsval;
  excludedCells : jsval;
  borderOption : jsval
}.

Definition decodeMatrixOptions (methodOptions : list OptionValue) : MatrixOptions :=
  let options := fromPairs (List.map (fun o => (oname o, ovalue o)) methodOptions) in
  let m := default JUndefined (options !! "matrix") in
  let border := default JUndefined (options !! "border") in
  match m with
  | JArr l =>
      mkMatrixOptions (or_else (index 0 l) (JNum 1)) (or_else (index 1 l) (JNum 1))
        (JArr []) border
  | JObj f =>
      mkMatrixOptions (or_else (prop "rows" f) (JNum 1)) (or_else (prop "cols" f) (JNum 1))
        (or_else (prop "excludedCells" f) (JArr [])) border
  | _ => mkMatrixOptions (JNum 1) (JNum 1) (JArr []) (JBool false)
  end.

(** The number a loop bound or a divisor is read as.  Numeric strings and
    arrays, which JavaScript would coerce, are outside the model and are
    taken as NaN. *)
Definition toNumber (v : jsval) : Double.num :=
  match v with
  | JNum x => x
  | JBool b => Double.Fin (if b then 1 else 0)
  | JNull => Double.Fin 0
  | _ => Double.NaN
  end.

(** The values of [i] in [for (let i = 1; i <= n; i++)], for a bound other
    than [Infinity]. *)
Definition range1 (n : Double.num) : list Z :=
  match n with
  | Double.Fin q => seqZ 1 (Qfloor q)
  | _ => []
  end.

(** The two nested loops never end: the outer bound is [Infinity], or the
    inner one is and the outer loop is entered. *)
Definition loopsForever (rows cols : jsval) : bool :=
  match toNumber rows, toNumber cols with
  | Double.Inf false, _ => true
  | Double.Fin q, Double.Inf false => Qle_bool 1 q
  | _, _ => false
  end.

(** The inner loop is entered in the first row: [1 <= cols]. *)
Definition entersColumns (cols : jsval) : bool :=
  match toNumber cols with
  | Double.Fin q => Qle_bool 1 q
  | Double.Inf false => true
  | _ => false
  end.

(** The divisor of a percentage of a cell; cells are placed for finite
    numbers of rows and columns only. *)
Definition divisor (v : jsval) : Q :=
  match toNumber v with
  | Double.Fin q => q
  | _ => 0
  end.

(** The cells visited by the two nested loops, rows outer, columns inner. *)
Definition gridCells (rows cols : jsval) : list (Z * Z) :=
  flat_map (fun row => (fun col => (row, col)) <$> range1 (toNumber cols))
           (range1 (toNumber rows)).

(** [`${row}-${col}`] *)
Definition cellKey (row col : Z) : string := pretty row +:+ "-" +:+ pretty col.

(** [excludedCells.includes(cellKey)]; [None] when the value has no
    [includes] method. *)
Definition includes (excludedCells : jsval) (key : string) : option bool :=
  match excludedCells with
  | JArr l => Some (existsb (strict_eq_str key) l)
  | JStr s => Some (str_includes key s)
  | _ => None
  end.

(** The inline style of the cell at [row], [col]. *)
Definition cellCss (rows cols : Q) (row col : Z) (zIndex : Z) (border : jsval) : Css :=
  mkCss (100 / cols) (100 / rows)
        ((100 / rows) * (inject_Z row - 1)) ((100 / cols) * (inject_Z col - 1))
        zIndex (truthy border).

(** One iteration of the inner loop. *)
Definition placeCell (instanceId moduleType : string) (mo : MatrixOptions) (zIndex : Z)
    (moduleElemsToInstantiate : list Elem) (cell : Z * Z) : M (list Elem) :=
  let '(row, col) := cell in
  match includes (excludedCells mo) (cellKey row col) with
  | None => throw TypeError
  | Some true => mret moduleElemsToInstantiate     (* Skip this cell *)
  | Some false =>
      e ← ElementPool.getElement moduleType;
      let css := cellCss (divisor (rows mo)) (divisor (cols mo))
                   row col zIndex (borderOption mo) in
      let moduleElem := mkElem (eid e) (classList e) (Some instanceId) (Some css) false in
      mret (moduleElemsToInstantiate ++ [moduleElem])
  end.

Fixpoint foldM {A B} (f : B -> A -> M B) (b : B) (l : list A) : M B :=
  match l with
  | [] => mret b
  | x :: l' => b' ← f b x; foldM f b' l'
  end.

(** [new ModuleClass(moduleElem)].  What the constructor does to the element
    is not modelled. *)
Definition construct (c : ModuleClass) (moduleType : string) (moduleElem : Elem) : M Instance :=
  n ← gets nextId;
  modify (set_nextId (S n));;
  emit (Construct n moduleType (eid moduleElem));;
  match cconstructor c with
  | Returns => mret (mkInstance n (eid moduleElem) (cmethods c))
  | Throws => throw (ConstructorError moduleType)
  end.

(** [instanceId.replace(/^preview_/, "")] *)
Definition stripPreview (instanceId : string) : string :=
  if String.prefix "preview_" instanceId
  then String.substring 8 (String.length instanceId - 8) instanceId
  else instanceId.

(** [modules.findIndex((m) => m.id === instanceId)] *)
Fixpoint findIndex (instanceId : string) (ms : list ModuleRef) : Z :=
  match ms with
  | [] => -1
  | r :: ms' =>
      if decide (rid r = instanceId) then 0
      else let i := findIndex instanceId ms' in if decide (i = -1) then -1 else i + 1
  end.

(** The elements matched by
    [`.module.${moduleType}[data-instance-id="${instanceId}"]`]. *)
Definition matchesSelector (moduleType instanceId : string) (e : Elem) : bool :=
  bool_decide ("module" ∈ classList e) && bool_decide (moduleType ∈ classList e)
  && bool_decide (dataInstanceId e = Some instanceId).

(** Remove existing module instances and release elements to the pool. *)
Definition teardownPlacement (moduleType instanceId : string) : M unit :=
  moduleInstances ← gets (fun s => default [] (assoc instanceId (activeModules s)));
  forEach destroyInstance moduleInstances;;
  moduleElems ← gets (fun s =>
    List.filter (matchesSelector moduleType instanceId) (default [] (modulesContainer s)));
  forEach removeAndRelease moduleElems;;
  modify (fun s => set_activeModules (alist_set instanceId [] (activeModules s)) s).

(** The two nested loops that create the module elements.  Loops that never
    end stop at their first cell when [excludedCells] has no [includes]
    method. *)
Definition placeCells (instanceId moduleType : string) (mo : MatrixOptions) (zIndex : Z)
  : M (list Elem) :=
  if loopsForever (rows mo) (cols mo) then
    match includes (excludedCells mo) (cellKey 1 1) with
    | None => if entersColumns (cols mo) then throw TypeError else hang
    | Some _ => hang
    end
  else foldM (placeCell instanceId moduleType mo zIndex) [] (gridCells (rows mo) (cols mo)).

(** Find the module instance to get its type; for preview mode (no
    [activeTrack]), strip the "preview_" prefix from [instanceId]. *)
Definition findModuleType (instanceId : string) : M string :=
  track ← gets activeTrack;
  moduleInstance ←
    match track with
    | Some t =>
        match modules t with
        | Some ms => mret (List.find (fun m => bool_decide (rid m = instanceId)) ms)
        | None => throw TypeError
        end
    | None => mret None
    end;
  mret match moduleInstance with
       | Some r => rtype r
       | None => stripPreview instanceId
       end.

(** Execute any constructor methods excluding "matrix", only with an active
    track (not in preview mode). *)
Definition runConstructorMethods
    (executeMethods : list MethodCall -> string -> option (list Instance) -> bool -> M unit)
    (instanceId : string) (newModuleInstances : list Instance) : M unit :=
  track ← gets activeTrack;
  match track with
  | Some t =>
      let constructorMethods :=
        default [] (dconstructor <$> modulesData t !! instanceId) in
      let filteredConstructorMethods :=
        List.filter (fun method => negb (bool_decide (mname method = "matrix")))
          constructorMethods in
      match filteredConstructorMethods with
      | [] => mret tt
      | _ :: _ =>
          executeMethods filteredConstructorMethods instanceId
            (Some newModuleInstances) true
      end
  | None => mret tt
  end.

(** [updateMatrix], with the [executeMethods] it calls at its end as a
    parameter. *)
Definition updateMatrixWith
    (executeMethods : list MethodCall -> string -> option (list Instance) -> bool -> M unit)
    (instanceId : string) (methodOptions : list OptionValue) : M unit :=
  let matrixOptions := decodeMatrixOptions methodOptions in
  container ← gets modulesContainer;
  if negb (bool_decide (is_Some container)) then mret tt
  else
    moduleType ← findModuleType instanceId;
    if decide (moduleType = "") then emit (ErrNoModuleType instanceId)
    else
      teardownPlacement moduleType instanceId;;
      (* Create new module elements and instances *)
      loaded ← try_catch
                 (c ← awaitLoadModuleClass moduleType; mret (Some c))
                 (fun _ => emit (ErrLoadModule moduleType);; mret None);
      match loaded with
      | None => mret tt
      | Some None => throw TypeError
      | Some (Some ModuleClass) =>
          track ← gets activeTrack;
          let zIndex :=
            match track with
            | Some t => findIndex instanceId (default [] (modules t)) + 1
            | None => 1
            end in
          moduleElemsToInstantiate ← placeCells instanceId moduleType matrixOptions zIndex;
          (* Append all elements at once *)
          modify (fun s =>
            set_modulesContainer
              ((fun children => children ++ moduleElemsToInstantiate) <$> modulesContainer s) s);;
          (* Instantiate modules in a single RAF *)
          newModuleInstances ←
            animationFrame (mapM (construct ModuleClass moduleType) moduleElemsToInstantiate);
          (* Store the new instances *)
          modify (fun s =>
            set_activeModules (alist_set instanceId newModuleInstances (activeModules s)) s);;
          runConstructorMethods executeMethods instanceId newModuleInstances
      end.

(** *** executeMethods *)

Fixpoint executeMethods (fuel : nat) (methods : list MethodCall) (instanceId : string)
    (moduleInstances : option (list Instance)) (isConstructor : bool) : M unit :=
  match fuel with
  | O => fun s => (OutOfFuel, s)
  | S fuel' =>
      let '(needsMatrixUpdate, matrixOptions, otherMethods) := separate methods in
      (* Handle "matrix" method if present *)
      moduleInstances ←
        (if needsMatrixUpdate : bool
         then
           emit (LogMatrixStart instanceId);;
           updateMatrixWith (executeMethods fuel') instanceId matrixOptions;;
           emit (LogMatrixEnd instanceId);;
           (* Update moduleInstances with the newly created instances *)
           gets (fun s => assoc instanceId (activeModules s))
         else mret moduleInstances);
      (* Execute other methods in parallel *)
      executeOthers instanceId moduleInstances isConstructor otherMethods
  end.

Definition updateMatrix (fuel : nat) : string -> list OptionValue -> M unit :=
  updateMatrixWith (executeMethods fuel).

(** *** handleTrackSelection

    The placements of a track are initialised by concurrent tasks.  The model
    runs them in two rounds, each in placement order: every task calls
    [loadModuleClass]; every task resumes from its [await], registers its
    empty instance list and schedules its constructor batch.  A batch is a
    microtask that nothing awaits: [handleTrackSelection] sets the track,
    sends the ready signal and resolves without it, before a module of the
    track is constructed.  The model runs the scheduled batches, in the
    order they were scheduled, once the signal is sent; what a batch does
    before its first suspension is not told apart from the rest of it. *)

Definition startModule (moduleInstance : ModuleRef)
  : M (ModuleRef * option LoaderPromise) :=
  p ← loadModuleClass (rtype moduleInstance);
  mret (moduleInstance, p).

Definition resumeModule (track : Track) (task : ModuleRef * option LoaderPromise)
  : M (list (string * list MethodCall)) :=
  let '(moduleInstance, p) := task in
  loaded ← try_catch (awaitLoader p;; mret true)
             (fun _ => emit (ErrLoadModule (rtype moduleInstance));; mret false);
  if loaded : bool then
    let constructorMethods :=
      default [] (dconstructor <$> modulesData track !! rid moduleInstance) in
    (* Initialize an empty array for module instances *)
    modify (fun s => set_activeModules (alist_set (rid moduleInstance) [] (activeModules s)) s);;
    match constructorMethods with
    | [] => mret []
    | _ :: _ => mret [(rid moduleInstance, constructorMethods)]
    end
  else mret [].

(** [Promise.resolve().then(() => { this.executeMethods(...); })] *)
Definition runScheduled (fuel : nat) (job : string * list MethodCall) : M unit :=
  let '(instanceId, constructorMethods) := job in
  moduleInstances ← gets (fun s => assoc instanceId (activeModules s));
  detached instanceId
    (executeMethods fuel constructorMethods instanceId moduleInstances true).

Definition handleTrackSelection (fuel : nat) (trackName : string) : M unit :=
  found ← gets (fun s => List.find (fun t => bool_decide (tname t = trackName)) (userData s));
  match found with
  | None =>
      emit (ErrTrackNotFound trackName);;
      deactivateActiveTrack
  | Some track =>
      current ← gets activeTrack;
      (match current with
       | Some a => if decide (tname a = trackName) then mret tt else deactivateActiveTrack
       | None => mret tt
       end);;
      current ← gets activeTrack;
      if bool_decide (tname <$> current = Some trackName) then mret tt
      else
        container ← gets modulesContainer;
        match container, modules track with
        | None, _ => emit ErrNoContainer
        | Some _, None => emit (ErrInvalidModules trackName)
        | Some _, Some ms =>
            (* Ensure activeTrack is set before executing constructor methods *)
            modify (set_activeTrack (Some track));;
            modify (set_activeChannelHandlers (buildChannelHandlerMap track));;
            tasks ← mapM startModule ms;
            jobs ← mapM (resumeModule track) tasks;
            modify (set_activeTrack (Some track));;
            emit SendProjectorReady;;
            (* the microtasks scheduled by the tasks *)
            forEach (runScheduled fuel) (concat jobs)
        end
  end.

(** The two rounds that initialise the placements [ms] of [track]; the
    result is the list of the scheduled batches. *)
Definition initialiseModules (track : Track) (ms : list ModuleRef)
  : M (list (string * list MethodCall)) :=
  tasks ← mapM startModule ms;
  jobs ← mapM (resumeModule track) tasks;
  mret (concat jobs).

(** *** handleChannelMessage *)

(** [\d] *)
Definition isDigit (a : ascii) : bool :=
  (48 <=? nat_of_ascii a)%nat && (nat_of_ascii a <=? 57)%nat.

Fixpoint allDigits (s : string) : bool :=
  match s with
  | EmptyString => true
  | String a s' => isDigit a && allDigits s'
  end.

(** [channelPath.match(/^\/Ableton\/(\d+)$/)], as the captured group. *)
Definition channelOfPath (channelPath : string) : option string :=
  if String.prefix "/Ableton/" channelPath then
    let digits := String.substring 9 (String.length channelPath - 9) channelPath in
    if negb (String.eqb digits "") && allDigits digits then Some digits else None
  else None.

(** The body run for one target by the [Promise.all] of
    [handleChannelMessage].  A [NotAnArray] entry stands here for [null], a
    boolean or a number, in which lodash's [forEach] finds nothing to
    iterate; a string or an object in the place of a method list is outside
    the model. *)
Definition triggerTarget (fuel : nat) (track : Track) (channelNumber : string) (t : Target)
  : M unit :=
  match modulesData track !! instanceId t with
  | None => mret tt
  | Some moduleData =>
      match dmethods moduleData !! channelNumber with
      | Some (Methods methods) =>
          moduleInstances ←
            gets (fun s => default [] (assoc (instanceId t) (activeModules s)));
          executeMethods fuel methods (instanceId t) (Some moduleInstances) false
      | _ => mret tt
      end
  end.

(** The two warnings of [handleChannelMessage] (no module mapped to the
    channel, invalid channel path) are not recorded. *)
Definition handleChannelMessage (fuel : nat) (channelPath : string) : M unit :=
  active ← gets activeTrack;
  match active with
  | None => mret tt
  | Some track =>
      match channelOfPath channelPath with
      | Some channelNumber =>
          handlers ← gets activeChannelHandlers;
          (if bool_decide (is_Some (handlers !! channelNumber)) then mret tt
           else modify (set_activeChannelHandlers (buildChannelHandlerMap track)));;
          handlers ← gets activeChannelHandlers;
          match default [] (handlers !! channelNumber) with
          | [] => mret tt
          | targets => promiseAll (triggerTarget fuel track channelNumber) targets
          end
      | None => mret tt
      end
  end.

(** *** Module preview

    [previewModuleName] is the one field of the singleton that only the three
    preview functions read and write: they take its value as an argument and
    [clearPreview] and [previewModule] return the value they leave in it.
    [None] is [null].  The logger output of the preview is not recorded. *)

(** [`preview_${moduleName}`] *)
Definition previewKey (moduleName : string) : string := "preview_" +:+ moduleName.

(** [delete o[k]] *)
Definition alist_delete {A} (k : string) (l : list (string * A)) : list (string * A) :=
  List.filter (fun entry => negb (String.eqb k entry.1)) l.

(** The guarded [destroy] of [clearPreview]. *)
Definition destroyPreview (instance : Instance) : M unit :=
  try_catch (destroyInstance instance) (fun _ => mret tt).

Definition clearPreview (previewModuleName : option string) : M (option string) :=
  match previewModuleName with
  | None => mret None
  | Some moduleName =>
      if String.eqb moduleName "" then mret (Some moduleName)
      else
        container ← gets modulesContainer;
        match container with
        | None => mret None
        | Some _ =>
            instances ←
              gets (fun s => default [] (assoc (previewKey moduleName) (activeModules s)));
            forEach destroyPreview instances;;
            (* Only remove preview elements *)
            moduleElems ← gets (fun s =>
              List.filter (matchesSelector moduleName (previewKey moduleName))
                (default [] (modulesContainer s)));
            forEach removeAndRelease moduleElems;;
            modify (fun s =>
              set_activeModules (alist_delete (previewKey moduleName) (activeModules s)) s);;
            mret None
        end
  end.

Definition previewModule (fuel : nat) (previewModuleName : option string)
    (moduleName : string) (moduleData : option ModuleData) : M (option string) :=
  previewModuleName ← clearPreview previewModuleName;
  container ← gets modulesContainer;
  match container with
  | None => mret previewModuleName
  | Some _ =>
      try_catch
        ((* this.previewModuleName = moduleName *)
         modify (fun s =>
           set_activeModules (alist_set (previewKey moduleName) [] (activeModules s)) s);;
         match default [] (dconstructor <$> moduleData) with
         | [] => mret tt
         | constructorMethods =>
             moduleInstances ← gets (fun s => assoc (previewKey moduleName) (activeModules s));
             executeMethods fuel constructorMethods (previewKey moduleName) moduleInstances true
         end;;
         mret (Some moduleName))
        (fun _ => clearPreview (Some moduleName))
  end.

(** The call of the method and the warning for an instance without it are
    recorded as those of [executeMethods] are, under the preview key. *)
Definition triggerPreviewMethod (previewModuleName : option string)
    (moduleName methodName : string) (options : gmap string jsval) : M unit :=
  match previewModuleName with
  | Some name =>
      if String.eqb name "" || negb (String.eqb name moduleName) then mret tt
      else
        instances ←
          gets (fun s => default [] (assoc (previewKey moduleName) (activeModules s)));
        match instances with
        | [] => mret tt
        | _ :: _ =>
            try_catch
              (promiseAll (invokeOn methodName (previewKey moduleName) options false) instances)
              (fun _ => mret tt)
        end
  | None => mret tt
  end.

End Projector.

(** ** shared/utils/methodOptions.js *)

Module MethodOptions.

(** The second argument of [buildMethodOptions].  A hook is [Some b] when a
    function is supplied, [b] telling whether its call throws;
    [noRepeatCache] tells whether an object with [get] and [set] functions (a
    [Map]) is supplied. *)
Record Hooks := mkHooks {
  onInvalidRandomRange : option Behaviour;
  onSwapRandomRange : option Behaviour;
  noRepeatCache : bool;
  noRepeatKeyPrefix : jsval
}.

(** The calls made to the hooks. *)
Inductive HookCall :=
| InvalidRandomRange (name : string) (min max value : jsval)
| SwapRandomRange (name : string) (min max : Double.num).

(** What [buildMethodOptions] reads and writes besides its result. *)
Record Env := mkEnv {
  edraws : nat;                       (* [Math.random] calls made so far *)
  ecache : gmap string jsval;         (* the content of [noRepeatCache] *)
  ecalls : list HookCall
}.

(** [a === b]; two arrays or two objects are taken as distinct references. *)
Definition strictEq (a b : jsval) : bool :=
  match a, b with
  | JUndefined, JUndefined | JNull, JNull => true
  | JBool x, JBool y => Bool.eqb x y
  | JNum x, JNum y => Double.eqb x y
  | JStr x, JStr y => String.eqb x y
  | _, _ => false
  end.

Definition isUndefined (v : jsval) : bool :=
  match v with JUndefined => true | _ => false end.

(** [canNoRepeat], as the key prefix when it holds. *)
Definition canNoRepeat (h : Hooks) : option string :=
  match noRepeatCache h, noRepeatKeyPrefix h with
  | true, JStr p => if String.eqb p "" then None else Some p
  | _, _ => None
  end.

Definition cacheGet (key : option string) (e : Env) : jsval :=
  match key with
  | Some k => default JUndefined (ecache e !! k)
  | None => JUndefined
  end.

Definition cacheSet (key : option string) (v : jsval) (e : Env) : Env :=
  match key with
  | Some k => mkEnv (edraws e) (<[k := v]> (ecache e)) (ecalls e)
  | None => e
  end.

(** A guarded hook call: [try { hook(...) } catch {}]. *)
Definition callHook (hook : option Behaviour) (c : HookCall) (e : Env) : Env :=
  match hook with
  | Some _ => mkEnv (edraws e) (ecache e) (ecalls e ++ [c])
  | None => e
  end.

(** The integer drawn from [[min, max]] for the draw [r] of [Math.random()];
    with a key ([hasKey]) the value drawn last time, [last], is stepped over. *)
Definition pickInteger (hasKey : bool) (min max : Double.num) (r : Q) (last : jsval)
  : Double.num :=
  let range := Double.add (Double.sub max min) 1 in
  let picked := Double.add (Double.floor (Double.mul r range)) min in
  if hasKey && Double.gtb range 1 && strictEq (JNum picked) last
  then (if Double.gtb max picked then Double.add picked 1 else min)
  else picked.

Section Build.

Variable random : nat -> Q.

Definition draw (e : Env) : Q * Env :=
  (random (edraws e), mkEnv (S (edraws e)) (ecache e) (ecalls e)).

(** One iteration of [for (const entry of list)]. *)
Definition buildEntry (h : Hooks) (acc : gmap string jsval * Env) (entry : OptionValue)
  : gmap string jsval * Env :=
  let '(out, e) := acc in
  let name := oname entry in
  if String.eqb name "" then (out, e)
  else
    match orandomValues entry with
    | JArr (rv0 :: rvs) =>
        let rv := rv0 :: rvs in
        let key := (fun p => p +:+ ":" +:+ name +:+ ":rv") <$> canNoRepeat h in
        let last := cacheGet key e in
        let candidates :=
          if negb (isUndefined last) && bool_decide (1 < length rv)%nat
          then List.filter (fun v => negb (strictEq v last)) rv
          else rv in
        let '(r, e) := draw e in
        let picked :=
          index (Z.to_nat (Qfloor (r * inject_Z (Z.max 1 (Z.of_nat (length candidates))))))
                candidates in
        (<[name := picked]> out, cacheSet key picked e)
    | _ =>
        match orandomRange entry with
        | JArr [JNum min; JNum max] =>
            let '(min, max, e) :=
              if Double.gtb min max
              then (max, min, callHook (onSwapRandomRange h) (SwapRandomRange name min max) e)
              else (min, max, e) in
            if Double.isInteger min && Double.isInteger max then
              let key := (fun p => p +:+ ":" +:+ name +:+ ":rrInt") <$> canNoRepeat h in
              let last := cacheGet key e in
              let '(r, e) := draw e in
              let picked := pickInteger (bool_decide (is_Some key)) min max r last in
              (<[name := JNum picked]> out, cacheSet key (JNum picked) e)
            else
              let '(r, e) := draw e in
              (<[name := JNum (Double.add (Double.mul r (Double.sub max min)) min)]> out, e)
        | JArr [min; max] =>
            (<[name := ovalue entry]> out,
             callHook (onInvalidRandomRange h)
               (InvalidRandomRange name min max (ovalue entry)) e)
        | _ => (<[name := ovalue entry]> out, e)
        end
    end.

Definition buildMethodOptions (methodOptions : list OptionValue) (h : Hooks) (e : Env)
  : gmap string jsval * Env :=
  foldl (buildEntry h) (∅, e) methodOptions.

(** *** parseMatrixOptions *)

(** [Number(v)] of a string, an array or an object, which goes through the
    text of the value. *)
Variable numberOfText : jsval -> Double.num.

(** [Number(v)] *)
Definition Number (v : jsval) : Double.num :=
  match v with
  | JNum x => x
  | JBool b => Double.Fin (if b then 1 else 0)
  | JNull => Double.Fin 0
  | JUndefined => Double.NaN
  | _ => numberOfText v
  end.

Definition mathMin (a b : Q) : Q := if Qle_bool a b then a else b.
Definition mathMax (a b : Q) : Q := if Qle_bool a b then b else a.

(** [Math.max(1, Math.min(5, Number(v) || 1))]: zero and NaN give way to 1,
    and an infinity is cut to the bound on its side. *)
Definition clampDimension (v : jsval) : Q :=
  match Number v with
  | Double.Fin q => mathMax 1 (mathMin 5 (if Qeq_bool q 0 then 1 else q))
  | Double.Inf false => 5
  | Double.Inf true => 1
  | Double.NaN => 1
  end.

Record ParsedMatrix := mkParsedMatrix {
  prows : Q;
  pcols : Q;
  pexcludedCells : list jsval;
  pborder : bool
}.

(** Called without a second argument: no hook, no cache. *)
Definition parseMatrixOptions (methodOptions : list OptionValue) (e : Env)
  : ParsedMatrix * Env :=
  let '(options, e) := buildMethodOptions methodOptions (mkHooks None None false JUndefined) e in
  let border := truthy (default JUndefined (options !! "border")) in
  let m := default JUndefined (options !! "matrix") in
  let '(rows, cols, excludedCells) :=
    match m with
    | JArr l => (or_else (index 0 l) (JNum 1), or_else (index 1 l) (JNum 1), [])
    | JObj f =>
        (or_else (prop "rows" f) (JNum 1), or_else (prop "cols" f) (JNum 1),
         match prop "excludedCells" f with JArr l => l | _ => [] end)
    | _ => (JNum 1, JNum 1, [])
    end in
  (mkParsedMatrix (clampDimension rows) (clampDimension cols) excludedCells border, e).

End Build.

End MethodOptions.

(** ** Specification-side definitions *)

(** The events of the guarded [destroy] of one instance: the call, when the
    instance has a [destroy] function, and the logged error when it throws. *)
Definition destroyEvents (instanceId : string) (i : Instance) : list Event :=
  match assoc "destroy" (imethods i) with
  | Some Returns => [Destroy (iid i)]
  | Some Throws => [Destroy (iid i); ErrDestroy instanceId (iid i)]
  | None => []
  end.

(** The events of the teardown of a whole registry. *)
Definition teardownEvents (registry : list (string * list Instance)) : list Event :=
  flat_map (fun entry => flat_map (destroyEvents entry.1) entry.2) registry.

(** [deactivateActiveTrack] goes past its guards: a track is active, no
    deactivation is in flight and the modules container exists. *)
Definition willDeactivate (s : State) : bool :=
  bool_decide (is_Some (activeTrack s)) && negb (isDeactivating s)
  && bool_decide (is_Some (modulesContainer s)).

(** A call named "matrix". *)
Definition isMatrixCall (m : MethodCall) : bool := bool_decide (mname m = "matrix").

(** The options of the last call named "matrix" of a batch. *)
Definition lastMatrixOptions (methods : list MethodCall) : list OptionValue :=
  match last (List.filter isMatrixCall methods) with
  | Some m => moptions m
  | None => []
  end.

(** The calls of a batch other than "matrix", in their order. *)
Definition otherCalls (methods : list MethodCall) : list MethodCall :=
  List.filter (fun m => negb (isMatrixCall m)) methods.

(** What a call named [name] with the resolved [options] leaves in the trace
    for the instance [i]: the invocation when [i] has a function of that
    name, the warning when it has not. *)
Definition invocationEvent (instanceId name : string) (options : gmap string jsval)
    (isConstructor : bool) (i : Instance) : Event :=
  match assoc name (imethods i) with
  | Some _ => Invoke (iid i) name options isConstructor
  | None => WarnMethodMissing name instanceId
  end.

Definition throwsOn (name : string) (i : Instance) : bool :=
  match assoc name (imethods i) with
  | Some Throws => true
  | _ => false
  end.

(** The result of the fan-out of one call: the error of the first instance
    whose method throws. *)
Definition fanResult (name : string) (l : list Instance) : Result unit :=
  match List.find (throwsOn name) l with
  | Some i => Raise (MethodError (iid i) name)
  | None => Ok tt
  end.

Definition isRangeWarning (e : Event) : Prop :=
  match e with
  | WarnInvalidRandomRange _ _ _ _ | WarnSwapRandomRange _ _ _ => True
  | _ => False
  end.

(** The events of the calls [others] on the instances [l]. *)
Definition batchEvent (instanceId : string) (isConstructor : bool) (l : list Instance)
    (others : list MethodCall) (e : Event) : Prop :=
  isRangeWarning e
  \/ exists m i options,
       m ∈ others /\ i ∈ l
       /\ e = invocationEvent instanceId (mname m) options isConstructor i.

(** An event other than the two markers around the matrix step. *)
Definition notMarker (e : Event) : Prop :=
  match e with
  | LogMatrixStart _ | LogMatrixEnd _ => False
  | _ => True
  end.

Definition isMatrixStart (e : Event) : bool :=
  match e with LogMatrixStart _ => true | _ => false end.


(** The module type [updateMatrix] finds for a placement; [None] when the
    lookup throws. *)
Definition placementType (s : State) (instanceId : string) : option string :=
  match activeTrack s with
  | Some t =>
      match modules t with
      | Some ms =>
          Some match List.find (fun m => bool_decide (rid m = instanceId)) ms with
               | Some r => rtype r
               | None => stripPreview instanceId
               end
      | None => None
      end
  | None => Some (stripPreview instanceId)
  end.

(** What a load of the module type [t] resolves to from the state [s]: the
    cached import when there is one, the next import otherwise. *)
Definition loadOutcome (importModule : string -> nat -> option ModuleClass)
    (s : State) (t : string) : option ModuleClass :=
  match moduleClassCache s !! t with
  | Some n => importModule t n
  | None => importModule t (imports s)
  end.

(** The cells of a grid of [r] rows and [c] columns, rows outer, columns
    inner. *)
Definition rowMajor (r c : Z) : list (Z * Z) :=
  flat_map (fun row => (fun col => (row, col)) <$> seqZ 1 c) (seqZ 1 r).

Definition keyOf (cell : Z * Z) : string := cellKey cell.1 cell.2.

(** The cells that are not excluded, in the same order. *)
Definition retainedCells (r c : Z) (E : list string) : list (Z * Z) :=
  List.filter (fun cell => negb (bool_decide (keyOf cell ∈ E))) (rowMajor r c).

(** The keys of the cells of the grid. *)
Definition validCells (r c : Z) : gset string :=
  list_to_set (keyOf <$> rowMajor r c).

(** The element [e] is tagged with the placement and carries the geometry
    of [cell] in a grid of [r] rows and [c] columns, in percent. *)
Definition cellGeometry (instanceId : string) (r c : Z) (e : Elem) (cell : Z * Z) : Prop :=
  dataInstanceId e = Some instanceId
  /\ exists css,
       cssText e = Some css
       /\ (width css == 100 / inject_Z c)%Q
       /\ (height css == 100 / inject_Z r)%Q
       /\ (top css == (100 / inject_Z r) * (inject_Z cell.1 - 1))%Q
       /\ (left css == (100 / inject_Z c) * (inject_Z cell.2 - 1))%Q.

(** No character of the string is a dash. *)
Fixpoint noDash (s : string) : bool :=
  match s with
  | EmptyString => true
  | String a s' => negb (Ascii.eqb a "-"%char) && noDash s'
  end.

(** The parts of the state the creation of elements and instances leaves
    alone. *)
Definition sameRegistry (s s' : State) : Prop :=
  activeTrack s' = activeTrack s
  /\ activeModules s' = activeModules s
  /\ modulesContainer s' = modulesContainer s.

(** The integers [min] and [max] lie within [-2^53, 2^53] and their
    difference is below [2^53]: every step of the integer formula is then
    exact. *)
Definition safeIntegers (min max : Q) : Prop :=
  isInteger min = true /\ isInteger max = true
  /\ (- inject_Z (2 ^ 53) <= min)%Q /\ (max <= inject_Z (2 ^ 53))%Q
  /\ (max - min < inject_Z (2 ^ 53))%Q.

(** The range [[min, max]] is one the sampling arithmetic stays finite on:
    safe integers, or a bound that is not an integer and a difference that
    does not overflow. *)
Definition samplable (min max : Q) : Prop :=
  if isInteger min && isInteger max then safeIntegers min max
  else exists d, Double.sub max min = Double.Fin d.

(** ** Definitions for the further properties *)

(** The value of the last option named [k]; [undefined] when there is none. *)
Definition optionValue (k : string) (l : list OptionValue) : jsval :=
  match last (List.filter (fun o => String.eqb (oname o) k) l) with
  | Some o => ovalue o
  | None => JUndefined
  end.

Definition hasRandomValues (o : OptionValue) : bool :=
  match orandomValues o with JArr (_ :: _) => true | _ => false end.

Definition hasRandomRange (o : OptionValue) : bool :=
  match orandomRange o with JArr [_; _] => true | _ => false end.

Definition isPlain (o : OptionValue) : bool :=
  negb (hasRandomValues o) && negb (hasRandomRange o).

Definition plainStep (acc : gmap string jsval) (o : OptionValue) : gmap string jsval :=
  if String.eqb (oname o) "" then acc else <[oname o := ovalue o]> acc.

(** The module class of an element: its first class other than the two of
    the template. *)
Definition moduleClassOf (e : Elem) : option string :=
  List.find
    (fun cls => negb (String.eqb cls "module") && negb (String.eqb cls "z-index-container"))
    (classList e).

(** ** Relations kept by the writes of the pipeline *)

(** [R] is a preorder on states that every write of [executeMethods] and
    [updateMatrix] respects, the registry being written for the placements
    of [okId] only. *)
Record Kept (R : State -> State -> Prop) (okId : string -> Prop) : Prop := mkKept {
  kept_preorder : PreOrder R;
  kept_trace : forall e s, R s (set_trace (trace s ++ [e]) s);
  kept_nextId : forall v s, R s (set_nextId v s);
  kept_draws : forall v s, R s (set_draws v s);
  kept_imports : forall v s, R s (set_imports v s);
  kept_cache : forall v s, R s (set_moduleClassCache v s);
  kept_queue : forall v s, R s (set_debugLogQueue v s);
  kept_container : forall (f : list Elem -> list Elem) s,
    R s (set_modulesContainer (f <$> modulesContainer s) s);
  kept_pop : forall k s,
    R s (set_pool (<[k := removelast (default [] (pool s !! k))]> (pool s)) s);
  kept_push : forall e k s,
    moduleClassOf e = Some k ->
    R s (set_pool (<[k := default [] (pool s !! k) ++ [e]]> (pool s)) s);
  kept_entry : forall id v s,
    okId id -> R s (set_activeModules (alist_set id v (activeModules s)) s)
}.

(** [R] is also respected by the writes of the entry points. *)
Record KeptByAll (R : State -> State -> Prop) : Prop := mkKeptByAll {
  kept_pipeline : Kept R (fun _ => True);
  kept_modules : forall v s, R s (set_activeModules v s);
  kept_track : forall v s, R s (set_activeTrack v s);
  kept_handlers : forall v s, R s (set_activeChannelHandlers v s);
  kept_deactivating : forall v s, R s (set_isDeactivating v s);
  kept_children : forall l s, R s (set_modulesContainer (Some l) s)
}.

(** [m] returns from every state: it neither throws nor runs out of fuel. *)
Definition returns {A} (m : M A) : Prop :=
  forall s, exists a s', m s = (Ok a, s').

(** The fields that say which track is selected. *)
Definition sameSelection (s s' : State) : Prop :=
  activeTrack s' = activeTrack s
  /\ activeChannelHandlers s' = activeChannelHandlers s
  /\ userData s' = userData s
  /\ isDeactivating s' = isDeactivating s.

(** The modules container, once found, is still found. *)
Definition keepsContainer (s s' : State) : Prop :=
  is_Some (modulesContainer s) -> is_Some (modulesContainer s').

(** The registry gains keys among [ids] only. *)
Definition keysWithin (ids : list string) (s s' : State) : Prop :=
  forall k, is_Some (assoc k (activeModules s')) ->
            is_Some (assoc k (activeModules s)) \/ k ∈ ids.

(** The registry keeps the key [k]. *)
Definition keepsKey (k : string) (s s' : State) : Prop :=
  is_Some (assoc k (activeModules s)) -> is_Some (assoc k (activeModules s')).

(** Every pooled element lies under its module class. *)
Definition poolSorted (s : State) : Prop :=
  forall k l e, pool s !! k = Some l -> e ∈ l -> moduleClassOf e = Some k.

Definition preserves (I : State -> Prop) (s s' : State) : Prop := I s -> I s'.

(** The method list the data of the placement [r] holds for the channel. *)
Definition channelMethods (track : Track) (channelNumber : string) (r : ModuleRef)
  : list MethodCall :=
  match modulesData track !! rid r with
  | Some d =>
      match dmethods d !! channelNumber with
      | Some (Methods l) => l
      | _ => []
      end
  | None => []
  end.

(** The [destroy] calls made on the instances [l], in order. *)
Definition destroyCalls (l : list Instance) : list Event :=
  flat_map (fun i => match assoc "destroy" (imethods i) with
                     | Some _ => [Destroy (iid i)]
                     | None => []
                     end) l.

(** The result of the fan-out of the calls [others] over the instances
    [l]: the error of the first call, in the order of the batch, that an
    instance throws on, for the first such instance. *)
Definition batchResult (l : list Instance) (others : list MethodCall) : Result unit :=
  match List.find (fun m => existsb (throwsOn (mname m)) l) others with
  | Some m => fanResult (mname m) l
  | None => Ok tt
  end.

(** The element [e] is tagged with the placement [id] and styled with the
    z-index [z] and the border [b]. *)
Definition stacked (id : string) (z : Z) (b : bool) (e : Elem) : Prop :=
  dataInstanceId e = Some id
  /\ exists css, cssText e = Some css /\ zIndex css = z /\ border css = b.

(** A dimension [x] of a validated matrix and the value [updateMatrix]
    decodes it as: a number between 1 and 5 as it stands, NaN as 1. *)
Definition validDimension (x : Double.num) (decoded : jsval) : Prop :=
  (x = Double.NaN /\ decoded = JNum 1)
  \/ exists q : Q, x = Double.Fin q /\ (1 <= q <= 5)%Q /\ decoded = JNum q.

(** ** The option validator

    [validateOptionValue], [validateRandomRange] and [validateMethodOptions]
    on an array of options, with option definitions typed as
    [MethodOptionDefinition] declares them ([min] and [max] numbers, [values]
    an array of strings, each optional).  The warnings of the validator are
    not recorded. *)

Module Validator.

Record OptionDef := mkOptionDef {
  dname : string;
  dtype : string;
  ddefaultVal : jsval;
  dmin : option Double.num;
  dmax : option Double.num;
  dvalues : option (list string)
}.

(** [[0-9A-F]], case-insensitive *)
Definition isHexDigit (a : ascii) : bool :=
  let n := nat_of_ascii a in
  ((48 <=? n) && (n <=? 57) || (65 <=? n) && (n <=? 70) || (97 <=? n) && (n <=? 102))%nat.

Fixpoint allHex (s : string) : bool :=
  match s with
  | EmptyString => true
  | String a s' => isHexDigit a && allHex s'
  end.

(** [/^#([0-9A-F]{3}){1,2}$/i] on a string *)
Definition isHexColor (s : string) : bool :=
  match s with
  | String "#" digits =>
      allHex digits
      && (Nat.eqb (String.length digits) 3 || Nat.eqb (String.length digits) 6)
  | _ => false
  end.

(** The test of the pattern on a value, which goes through the text of the
    value: the text of a one-element array is the text of its element, the
    text of a longer array holds a comma, and no other text starts with a
    hash. *)
Fixpoint matchesHexColor (v : jsval) : bool :=
  match v with
  | JStr s => isHexColor s
  | JArr [x] => matchesHexColor x
  | _ => false
  end.

(** [values.includes(value)] on an array of strings *)
Definition includesValue (values : list string) (value : jsval) : bool :=
  match value with
  | JStr s => existsb (String.eqb s) values
  | _ => false
  end.

(** [{ ...value, excludedCells: [] }] *)
Definition withoutExcludedCells (f : list (string * jsval)) : jsval :=
  JObj (alist_set "excludedCells" (JArr []) f).

Section Validate.

(** [String(value)] of a value that is not a string. *)
Variable stringOf : jsval -> string.

Definition validateOptionValue (opt : OptionDef) (value : jsval) : jsval :=
  if String.eqb (dtype opt) "number" then
    match value with
    | JNum Double.NaN => ddefaultVal opt
    | JNum v =>
        match dmin opt with
        | Some min =>
            if Double.ltb v min then JNum min
            else match dmax opt with
                 | Some max => if Double.gtb v max then JNum max else value
                 | None => value
                 end
        | None =>
            match dmax opt with
            | Some max => if Double.gtb v max then JNum max else value
            | None => value
            end
        end
    | _ => ddefaultVal opt
    end
  else if String.eqb (dtype opt) "select" then
    match dvalues opt with
    | Some values =>
        if negb (includesValue values value) && negb (strict_eq_str "random" value)
        then ddefaultVal opt else value
    | None => value
    end
  else if String.eqb (dtype opt) "color" then
    if matchesHexColor value then value else ddefaultVal opt
  else if String.eqb (dtype opt) "boolean" then
    match value with
    | JBool _ => value
    | _ => ddefaultVal opt
    end
  else if String.eqb (dtype opt) "text" then
    match value with
    | JStr _ => value
    | _ => JStr (stringOf value)
    end
  else if String.eqb (dtype opt) "matrix" then
    match value with
    | JObj f =>
        match prop "rows" f, prop "cols" f with
        | JNum rows, JNum cols =>
            if Double.ltb rows 1 || Double.gtb rows 5 then ddefaultVal opt
            else if Double.ltb cols 1 || Double.gtb cols 5 then ddefaultVal opt
            else match prop "excludedCells" f with
                 | JArr _ => value
                 | _ => withoutExcludedCells f
                 end
        | _, _ => ddefaultVal opt
        end
    | _ => ddefaultVal opt    (* an array has no rows *)
    end
  else value.

(** [None] is [null]. *)
Definition validateRandomRange (opt : OptionDef) (randomRange : jsval) : option jsval :=
  match randomRange with
  | JArr [JNum min; JNum max] =>
      if Double.gtb min max then Some (JArr [JNum max; JNum min])
      else
        match dmin opt with
        | Some omin =>
            if Double.ltb max omin then Some (JArr [JNum omin; JNum omin])
            else match dmax opt with
                 | Some omax =>
                     if Double.gtb min omax then Some (JArr [JNum omax; JNum omax])
                     else Some randomRange
                 | None => Some randomRange
                 end
        | None =>
            match dmax opt with
            | Some omax =>
                if Double.gtb min omax then Some (JArr [JNum omax; JNum omax])
                else Some randomRange
            | None => Some randomRange
            end
        end
  | _ => None
  end.

(** The callback of [optionsToValidate.map]; [definitions] is
    [methodDefinition.options], empty when absent. *)
Definition validateOption (definitions : list OptionDef) (o : OptionValue)
  : OptionValue :=
  match List.find (fun d => String.eqb (dname d) (oname o)) definitions with
  | None => o
  | Some optionDef =>
      mkOption (oname o)
        (match ovalue o with
         | JUndefined => JUndefined
         | value => validateOptionValue optionDef value
         end)
        (match orandomRange o with
         | JUndefined => JUndefined
         | randomRange =>
             match validateRandomRange optionDef randomRange with
             | Some validatedRange => validatedRange
             | None => JUndefined       (* delete validated.randomRange *)
             end
         end)
        (orandomValues o)
  end.

Definition validateMethodOptions (definitions : list OptionDef)
    (optionsToValidate : list OptionValue) : list OptionValue :=
  List.map (validateOption definitions) optionsToValidate.

End Validate.

End Validator.

(** ** Sample configurations *)

Module Sample.

(** A draw of one half at every call. *)
Definition half : nat -> Q := fun _ => 1 # 2.
(** A draw of zero at every call. *)
Definition zero : nat -> Q := fun _ => 0%Q.

Definition emptyState : State :=
  mkState None [] ∅ ∅ [] false false [] (Some []) ∅ 0 0 0 [].

Definition noHooks : MethodOptions.Hooks :=
  MethodOptions.mkHooks None (Some Returns) false JUndefined.

Definition emptyEnv : MethodOptions.Env := MethodOptions.mkEnv 0 ∅ [].

(** [{ name: "x", value: 0, randomRange: [5, 2] }] *)
Definition inverted : OptionValue :=
  mkOption "x" (JNum 0) (JArr [JNum 5; JNum 2]) JUndefined.

(** [{ name: "x", value: 0, randomRange: [2, 5] }] *)
Definition dice : OptionValue :=
  mkOption "x" (JNum 0) (JArr [JNum 2; JNum 5]) JUndefined.

(** [{ name: "x", value: 0, randomRange: [0.5, 0.5] }] *)
Definition degenerate : OptionValue :=
  mkOption "x" (JNum 0) (JArr [JNum (1 # 2); JNum (1 # 2)]) JUndefined.

(** A module class with [show] and [destroy]. *)
Definition frame : ModuleClass :=
  mkClass "Frame" Returns [("show", Returns); ("destroy", Returns)].

(** An import that rejects at the first attempt of the program and resolves
    to [frame] from then on. *)
Definition flaky : string -> nat -> option ModuleClass :=
  fun _ n => match n with O => None | S _ => Some frame end.

(** A track with [P1] (channel "3" -> [methodA]) and [P2] (no channel
    methods). *)
Definition twoPlacements : Track :=
  mkTrack "T" (Some [mkRef "P1" "Frame"; mkRef "P2" "Text"])
    {[ "P1" := mkModuleData [] {[ "3" := Methods [mkCall "methodA" []] ]};
       "P2" := mkModuleData [] ∅ ]}.

(** The track "A" with one placement "p" of type "Frame". *)
Definition trackA : Track :=
  mkTrack "A" (Some [mkRef "p" "Frame"]) {[ "p" := mkModuleData [] ∅ ]}.

(** An instance whose [destroy] throws, and one whose [destroy] returns. *)
Definition faulty : Instance := mkInstance 1 11 [("destroy", Throws)].
Definition sound : Instance := mkInstance 2 12 [("destroy", Returns)].

(** An instance with a [show] method. *)
Definition shower : Instance := mkInstance 3 13 [("show", Returns)].

(** "A" is active and "p" has the two instances [faulty] and [sound]. *)
Definition activeA : State :=
  mkState (Some trackA) [("p", [faulty; sound])] ∅ ∅ [trackA] false false []
    (Some []) ∅ 20 0 0 [].

(** [{ name: "matrix", options: [{ name: "matrix",
      value: { rows: 2, cols: 2, excludedCells: ["1-1"] } }] }] *)
Definition matrix22 : MethodCall :=
  mkCall "matrix"
    [mkOption "matrix"
       (JObj [("rows", JNum 2); ("cols", JNum 2); ("excludedCells", JArr [JStr "1-1"])])
       JUndefined JUndefined].

(** A "matrix" call for three rows and three columns. *)
Definition matrix33 : MethodCall :=
  mkCall "matrix" [mkOption "matrix" (JArr [JNum 3; JNum 3]) JUndefined JUndefined].

Definition show : MethodCall := mkCall "show" [].

(** A source of imports that always resolves to [frame]. *)
Definition always : string -> nat -> option ModuleClass := fun _ _ => Some frame.

End Sample.

(** Further configurations. *)

Module Sample2.

(** Two options named "a" around one without a name. *)
Definition plainOptions : list OptionValue :=
  [mkOption "a" (JNum 1) JUndefined JUndefined;
   mkOption "" (JNum 2) JUndefined JUndefined;
   mkOption "a" (JNum 3) JUndefined JUndefined].

(** A no-repeat cache under the key prefix "k". *)
Definition noRepeat : MethodOptions.Hooks :=
  MethodOptions.mkHooks None None true (JStr "k").

(** The cache after a draw of 4 for the option "x". *)
Definition drewFour : MethodOptions.Env :=
  MethodOptions.mkEnv 0 {[ "k:x:rrInt" := JNum 4 ]} [].

(** [{ name: "c", value: 0, randomValues: ["a", "b"] }] *)
Definition choice : OptionValue :=
  mkOption "c" (JNum 0) JUndefined (JArr [JStr "a"; JStr "b"]).

(** No text is a number. *)
Definition noNumber : jsval -> Double.num := fun _ => Double.NaN.

(** An element of the module "Frame" placed for "p". *)
Definition cell : Elem :=
  mkElem 12 ["module"; "z-index-container"; "Frame"] (Some "p") None false.

(** "A" is active, "p" has the instance [sound] on the element [cell]. *)
Definition staged : State :=
  mkState (Some Sample.trackA) [("p", [Sample.sound])] ∅ ∅
    [Sample.trackA; Sample.twoPlacements] false false []
    (Some [cell]) ∅ 20 0 0 [].

(** No track is active; the configuration holds "A" and "T". *)
Definition idle : State :=
  mkState None [] ∅ ∅ [Sample.trackA; Sample.twoPlacements] false false []
    (Some []) ∅ 20 0 0 [].

(** An instance with a [methodA] method. *)
Definition actor : Instance := mkInstance 4 14 [("methodA", Returns)].

(** "T" is active, "P1" has the instance [actor]; the handler map is
    empty. *)
Definition activeT : State :=
  mkState (Some Sample.twoPlacements) [("P1", [actor])] ∅ ∅
    [Sample.trackA; Sample.twoPlacements] false false []
    (Some []) ∅ 20 0 0 [].

(** A source of imports that always rejects. *)
Definition never : string -> nat -> option ModuleClass := fun _ _ => None.

(** The greatest double below one, [1 - 2^-53]. *)
Definition greatestDraw : Q := 9007199254740991 # 9007199254740992.

(** A draw of [1 - 2^-52] at every call. *)
Definition almostOne : nat -> Q := fun _ => 4503599627370495 # 4503599627370496.

(** The doubles written [1.1] and [2.2]. *)
Definition onePointOne : Q := 2476979795053773 # 2251799813685248.
Definition twoPointTwo : Q := 2476979795053773 # 1125899906842624.

(** [{ name: "x", value: 0, randomRange: [1.1, 2.2] }] *)
Definition tenths : OptionValue :=
  mkOption "x" (JNum 0) (JArr [JNum onePointOne; JNum twoPointTwo]) JUndefined.

(** [2^1023], a double. *)
Definition huge : Q := inject_Z (2 ^ 1023).

(** [{ name: "x", value: 0, randomRange: [2^1023, -2^1023] }] *)
Definition overflowing : OptionValue :=
  mkOption "x" (JNum 0) (JArr [JNum huge; JNum (- huge)%Q]) JUndefined.

(** The data of a preview: a matrix of two by two, then [show]. *)
Definition previewData : ModuleData :=
  mkModuleData [Sample.matrix22; Sample.show] ∅.

(** A module class whose constructor throws. *)
Definition broken : ModuleClass := mkClass "Frame" Throws [("show", Returns)].

(** A source of imports that always resolves to [broken]. *)
Definition alwaysBroken : string -> nat -> option ModuleClass := fun _ _ => Some broken.

End Sample2.

Module ValidatorSample.

(** Every value has the empty text. *)
Definition noText : jsval -> string := fun _ => "".

(** [{ name: "speed", type: "number", defaultVal: 1, min: 0, max: 10 }] *)
Definition speed : Validator.OptionDef :=
  Validator.mkOptionDef "speed" "number" (JNum 1) (Some (Double.Fin 0))
    (Some (Double.Fin 10)) None.

(** [{ name: "matrix", type: "matrix",
       defaultVal: { rows: 1, cols: 1, excludedCells: [] } }] *)
Definition grid : Validator.OptionDef :=
  Validator.mkOptionDef "matrix" "matrix"
    (JObj [("rows", JNum 1); ("cols", JNum 1); ("excludedCells", JArr [])])
    None None None.

(** [{ name: "speed", value: 3, randomRange: [8, 2] }] *)
Definition fast : OptionValue :=
  mkOption "speed" (JNum 3) (JArr [JNum 8; JNum 2]) JUndefined.

(** [{ rows: 2, cols: 3 }] *)
Definition twoByThree : jsval := JObj [("rows", JNum 2); ("cols", JNum 3)].

End ValidatorSample.

(** ** Reasoning about computations *)

(** Every run of [m] relates the state it starts from to the state it ends
    in by [R], whatever its result. *)
Definition steps {A} (R : State -> State -> Prop) (m : M A) : Prop :=
  forall s r s', m s = (r, s') -> R s s'.

(** [m] never runs out of fuel. *)
Definition fueled {A} (m : M A) : Prop :=
  forall s s', m s <> (OutOfFuel, s').

(** [m] completes from every state: it returns, throws or runs out of
    fuel. *)
Definition settles {A} (m : M A) : Prop :=
  forall s s', m s <> (Never, s').

(** The trace grows by events that satisfy [P]. *)
Definition appends (P : Event -> Prop) (s s' : State) : Prop :=
  exists evs, trace s' = trace s ++ evs /\ Forall P evs.

(** * Properties *)

(** ** Rounding to the nearest double *)

Section Rounding.

Import Double.

Lemma pow2_pos (e : Z) : (0 < pow2 e)%Q.
Proof. apply Qpower_0_lt. reflexivity. Qed.

Lemma pow2_plus (a b : Z) : (pow2 (a + b) == pow2 a * pow2 b)%Q.
Proof. apply Qpower_plus. discriminate. Qed.

Lemma pow2_le (a b : Z) : a <= b -> (pow2 a <= pow2 b)%Q.
Proof. intros H. apply Qpower_le_compat_l; [exact H | discriminate]. Qed.

Lemma pow2_lt (a b : Z) : a < b -> (pow2 a < pow2 b)%Q.
Proof. intros H. apply Qpower_lt_compat_l; [exact H | reflexivity]. Qed.

Lemma pow2_lt_inv (a b : Z) : (pow2 a < pow2 b)%Q -> a < b.
Proof. intros H. eapply Qpower_lt_compat_l_inv; [exact H | reflexivity]. Qed.

Lemma pow2_Z (e : Z) : 0 <= e -> (pow2 e == inject_Z (2 ^ e))%Q.
Proof. intros H. symmetry. exact (Zpower_Qpower 2 e H). Qed.

Lemma pow2_opp (e : Z) : (pow2 (- e) == / pow2 e)%Q.
Proof. apply Qpower_opp. Qed.

Lemma pow2_succ (e : Z) : (pow2 (e + 1) == 2 * pow2 e)%Q.
Proof. rewrite pow2_plus. change (pow2 1) with 2%Q. ring. Qed.

(** *** The binary logarithm *)

Lemma ilog2_spec (q : Q) :
  (0 < q)%Q -> (pow2 (ilog2 q) <= q < pow2 (ilog2 q + 1))%Q.
Proof.
  intros Hq. unfold ilog2. destruct (Qle_bool 1 q) eqn:E.
  - apply Qle_bool_iff in E.
    assert (Hf : 1 <= Qfloor q).
    { change 1 with (Qfloor 1). apply Qfloor_resp_le. exact E. }
    destruct (Z.log2_spec (Qfloor q) ltac:(lia)) as [L1 L2].
    pose proof (Z.log2_nonneg (Qfloor q)) as Hk.
    rewrite !pow2_Z by lia. split.
    + eapply Qle_trans; [|apply Qfloor_le]. rewrite <- Zle_Qle. exact L1.
    + eapply Qlt_le_trans; [apply Qlt_floor|]. rewrite <- Zle_Qle.
      replace (Z.log2 (Qfloor q) + 1) with (Z.succ (Z.log2 (Qfloor q))) by lia. lia.
  - assert (Hlt : (q < 1)%Q).
    { apply Qnot_le_lt. intros H. apply Qle_bool_iff in H. congruence. }
    clear E.
    assert (Hx : (q * / q == 1)%Q) by (apply Qmult_inv_r; lra).
    assert (Hxpos : (0 < / q)%Q) by (apply Qinv_lt_0_compat; exact Hq).
    set (x := (/ q)%Q) in *.
    assert (Hx1 : (1 < x)%Q).
    { destruct (Qlt_le_dec 1 x) as [H|H]; [exact H|]. exfalso.
      assert (Hm : (0 <= q * (1 - x))%Q) by (apply Qmult_le_0_compat; lra). lra. }
    pose proof (Qle_ceiling x) as Hc1. pose proof (Qceiling_lt x) as Hc2.
    set (c := Qceiling x) in *.
    assert (Hc : 1 < c).
    { rewrite Zlt_Qlt. change (inject_Z 1) with 1%Q. lra. }
    destruct (Z.log2_up_spec c Hc) as [U1 U2].
    pose proof (Z.log2_up_pos c Hc) as Hu.
    set (u := Z.log2_up c) in *.
    assert (P1 : (x <= pow2 u)%Q).
    { rewrite pow2_Z by lia. eapply Qle_trans; [exact Hc1|]. rewrite <- Zle_Qle. exact U2. }
    assert (P2 : (pow2 (u - 1) < x)%Q).
    { rewrite pow2_Z by lia. eapply Qle_lt_trans; [|exact Hc2].
      rewrite <- Zle_Qle. replace (Z.pred u) with (u - 1) in U1 by lia. lia. }
    pose proof (pow2_pos u) as Hpu. pose proof (pow2_pos (u - 1)) as Hpu1.
    split.
    + rewrite pow2_opp. apply Qle_shift_inv_r; [exact Hpu|]. nra.
    + replace (- u + 1) with (- (u - 1)) by lia. rewrite pow2_opp.
      apply Qlt_shift_inv_l; [exact Hpu1|]. nra.
Qed.

Lemma ilog2_unique (q : Q) (k : Z) :
  (pow2 k <= q < pow2 (k + 1))%Q -> ilog2 q = k.
Proof.
  intros [H1 H2].
  assert (Hq : (0 < q)%Q) by (pose proof (pow2_pos k); lra).
  destruct (ilog2_spec q Hq) as [L1 L2].
  assert (A : ilog2 q < k + 1) by (apply pow2_lt_inv; lra).
  assert (B : k < ilog2 q + 1) by (apply pow2_lt_inv; lra).
  lia.
Qed.

Lemma ilog2_mono (x y : Q) : (0 < x)%Q -> (x <= y)%Q -> ilog2 x <= ilog2 y.
Proof.
  intros Hx Hxy.
  destruct (ilog2_spec x Hx) as [X1 _].
  destruct (ilog2_spec y ltac:(lra)) as [_ Y2].
  assert (A : ilog2 x < ilog2 y + 1) by (apply pow2_lt_inv; lra).
  lia.
Qed.

Lemma ilog2_comp (x y : Q) : (0 < x)%Q -> (x == y)%Q -> ilog2 x = ilog2 y.
Proof.
  intros Hx Hxy. symmetry. apply ilog2_unique.
  destruct (ilog2_spec x Hx). split; lra.
Qed.

(** *** Rounding to an integer *)

Lemma rne_spec (y : Q) :
  (inject_Z (rne y) - (1 # 2) <= y <= inject_Z (rne y) + (1 # 2))%Q.
Proof.
  unfold rne. pose proof (Qfloor_le y) as F1. pose proof (Qlt_floor y) as F2.
  rewrite inject_Z_plus in F2. change (inject_Z 1) with 1%Q in F2.
  destruct (Qcompare_spec (y - inject_Z (Qfloor y)) (1 # 2)) as [H|H|H].
  - destruct (Z.even (Qfloor y)).
    + lra.
    + rewrite inject_Z_plus. change (inject_Z 1) with 1%Q. lra.
  - lra.
  - rewrite inject_Z_plus. change (inject_Z 1) with 1%Q. lra.
Qed.

Lemma rne_comp (y y' : Q) : (y == y')%Q -> rne y = rne y'.
Proof.
  intros H. unfold rne. rewrite (Qfloor_comp _ _ H).
  assert (E : (y - inject_Z (Qfloor y') ?= 1 # 2)%Q = (y' - inject_Z (Qfloor y') ?= 1 # 2)%Q).
  { apply Qcompare_comp; [rewrite H|]; reflexivity. }
  rewrite E. reflexivity.
Qed.

Lemma rne_Z (z : Z) : rne (inject_Z z) = z.
Proof.
  unfold rne. rewrite Qfloor_Z.
  assert (E : (inject_Z z - inject_Z z ?= 1 # 2)%Q = Lt).
  { apply Qlt_alt. ring_simplify (inject_Z z - inject_Z z)%Q. reflexivity. }
  rewrite E. reflexivity.
Qed.

Lemma rne_mono (y y' : Q) : (y <= y')%Q -> rne y <= rne y'.
Proof.
  intros H. destruct (Z_le_gt_dec (rne y) (rne y')) as [Hle|Hgt]; [exact Hle|].
  exfalso.
  assert (Hq : (inject_Z (rne y') + 1 <= inject_Z (rne y))%Q).
  { change 1%Q with (inject_Z 1). rewrite <- inject_Z_plus, <- Zle_Qle. lia. }
  pose proof (rne_spec y) as [A _]. pose proof (rne_spec y') as [_ B].
  assert (E : (y == y')%Q) by lra.
  apply rne_comp in E. lia.
Qed.

Lemma rne_below (y : Q) (M : Z) : (y < inject_Z M - (1 # 2))%Q -> rne y <= M - 1.
Proof.
  intros H. pose proof (rne_spec y) as [A _].
  assert (L : (inject_Z (rne y) < inject_Z M)%Q) by lra.
  rewrite <- Zlt_Qlt in L. lia.
Qed.

(** *** The structure of a rounded value *)

Lemma scale_emin (q : Q) : emin <= scale q.
Proof. unfold scale. lia. Qed.

Lemma scaled_lt (q : Q) : (0 < q)%Q -> (q / pow2 (scale q) < inject_Z (2 ^ 53))%Q.
Proof.
  intros Hq. destruct (ilog2_spec q Hq) as [_ H].
  pose proof (pow2_pos (scale q)) as Hp.
  apply Qlt_shift_div_r; [exact Hp|].
  rewrite <- pow2_Z by lia. rewrite <- pow2_plus.
  eapply Qlt_le_trans; [exact H|]. apply pow2_le. unfold scale. lia.
Qed.

Lemma scaled_ge (q : Q) :
  (0 < q)%Q -> emin < scale q -> (inject_Z (2 ^ 52) <= q / pow2 (scale q))%Q.
Proof.
  intros Hq He. destruct (ilog2_spec q Hq) as [H _].
  pose proof (pow2_pos (scale q)) as Hp.
  apply Qle_shift_div_l; [exact Hp|].
  rewrite <- pow2_Z by lia. rewrite <- pow2_plus.
  eapply Qle_trans; [|exact H]. apply pow2_le. unfold scale in *. lia.
Qed.

Lemma scaled_nonneg (q : Q) (e : Z) : (0 <= q)%Q -> (0 <= q / pow2 e)%Q.
Proof.
  intros Hq. pose proof (pow2_pos e) as Hp.
  apply Qle_shift_div_l; [exact Hp|]. lra.
Qed.

Lemma rne_nonneg (y : Q) : (0 <= y)%Q -> 0 <= rne y.
Proof. intros H. rewrite <- (rne_Z 0). apply rne_mono. exact H. Qed.

Lemma roundPos_eq (q : Q) :
  roundPos q = if Qle_bool (pow2 1024) (rounded q) then Inf false else Fin (Qred (rounded q)).
Proof. reflexivity. Qed.

Lemma mant_le (q : Q) : (0 < q)%Q -> 0 <= mant q <= 2 ^ 53.
Proof.
  intros Hq. unfold mant. split.
  - apply rne_nonneg. apply scaled_nonneg. lra.
  - rewrite <- (rne_Z (2 ^ 53)). apply rne_mono. apply Qlt_le_weak, scaled_lt. exact Hq.
Qed.

Lemma mant_ge (q : Q) : (0 < q)%Q -> emin < scale q -> 2 ^ 52 <= mant q.
Proof.
  intros Hq He. unfold mant. rewrite <- (rne_Z (2 ^ 52)). apply rne_mono.
  apply scaled_ge; assumption.
Qed.

Lemma rounded_nonneg (q : Q) : (0 < q)%Q -> (0 <= rounded q)%Q.
Proof.
  intros Hq. unfold rounded. pose proof (pow2_pos (scale q)) as Hp.
  destruct (mant_le q Hq) as [H _]. rewrite Zle_Qle in H. change (inject_Z 0) with 0%Q in H.
  nra.
Qed.

Lemma rounded_le_top (q : Q) : (0 < q)%Q -> (rounded q <= pow2 (scale q + 53))%Q.
Proof.
  intros Hq. unfold rounded. rewrite Z.add_comm, pow2_plus, (pow2_Z 53) by lia.
  pose proof (pow2_pos (scale q)) as Hp.
  destruct (mant_le q Hq) as [_ H]. rewrite Zle_Qle in H. nra.
Qed.

Lemma rounded_ge_bottom (q : Q) :
  (0 < q)%Q -> emin < scale q -> (pow2 (scale q + 52) <= rounded q)%Q.
Proof.
  intros Hq He. unfold rounded. rewrite Z.add_comm, pow2_plus, (pow2_Z 52) by lia.
  pose proof (pow2_pos (scale q)) as Hp.
  pose proof (mant_ge q Hq He) as H. rewrite Zle_Qle in H. nra.
Qed.

Lemma scale_mono (x y : Q) : (0 < x)%Q -> (x <= y)%Q -> scale x <= scale y.
Proof. intros Hx Hxy. unfold scale. pose proof (ilog2_mono x y Hx Hxy). lia. Qed.

Lemma rounded_mono (x y : Q) : (0 < x)%Q -> (x <= y)%Q -> (rounded x <= rounded y)%Q.
Proof.
  intros Hx Hxy. assert (Hy : (0 < y)%Q) by lra.
  pose proof (scale_mono x y Hx Hxy) as Hs.
  destruct (Z.eq_dec (scale x) (scale y)) as [E|N].
  - unfold rounded, mant. rewrite E.
    pose proof (pow2_pos (scale y)) as Hp.
    assert (Hm : rne (x / pow2 (scale y)) <= rne (y / pow2 (scale y))).
    { apply rne_mono. apply Qle_shift_div_l; [exact Hp|].
      assert (Hd : (x / pow2 (scale y) * pow2 (scale y) == x)%Q) by (field; lra).
      lra. }
    rewrite Zle_Qle in Hm. nra.
  - assert (He : emin < scale y) by (pose proof (scale_emin x); lia).
    eapply Qle_trans; [apply rounded_le_top; exact Hx|].
    eapply Qle_trans; [|apply rounded_ge_bottom; assumption].
    apply pow2_le. lia.
Qed.

Lemma rounded_comp (x y : Q) : (0 < x)%Q -> (x == y)%Q -> (rounded x == rounded y)%Q.
Proof.
  intros Hx E. apply Qle_antisym; apply rounded_mono; lra.
Qed.

(** *** The order of the rounded values *)

Lemma num_le_refl (x : num) : x <> NaN -> le x x.
Proof. destruct x as [q|[]|]; intros H; cbn; try done. lra. Qed.

Lemma num_le_trans (x y z : num) : le x y -> le y z -> le x z.
Proof.
  destruct x as [a|[]|], y as [b|[]|], z as [c|[]|]; cbn; try done. lra.
Qed.

Lemma num_le_opp (x y : num) : le x y -> le (opp y) (opp x).
Proof. destruct x as [a|[]|], y as [b|[]|]; cbn; try done. lra. Qed.

Lemma roundPos_cases (q : Q) :
  (roundPos q = Inf false /\ (pow2 1024 <= rounded q)%Q)
  \/ (roundPos q = Fin (Qred (rounded q)) /\ (rounded q < pow2 1024)%Q).
Proof.
  rewrite roundPos_eq. destruct (Qle_bool (pow2 1024) (rounded q)) eqn:E.
  - left. split; [reflexivity|]. apply Qle_bool_iff. exact E.
  - right. split; [reflexivity|]. apply Qnot_le_lt. intros H.
    apply Qle_bool_iff in H. congruence.
Qed.

Lemma roundPos_mono (x y : Q) : (0 < x)%Q -> (x <= y)%Q -> le (roundPos x) (roundPos y).
Proof.
  intros Hx Hxy. pose proof (rounded_mono x y Hx Hxy) as H.
  destruct (roundPos_cases x) as [[-> X]|[-> X]], (roundPos_cases y) as [[-> Y]|[-> Y]];
    cbn; try done.
  - lra.
  - rewrite !Qred_correct. exact H.
Qed.

Lemma roundPos_nonneg (x : Q) : (0 < x)%Q -> le (Fin 0) (roundPos x).
Proof.
  intros Hx. pose proof (rounded_nonneg x Hx) as H.
  destruct (roundPos_cases x) as [[-> X]|[-> X]]; cbn; [done|].
  rewrite Qred_correct. exact H.
Qed.

Lemma round64_pos (x : Q) : (0 < x)%Q -> round64 x = roundPos x.
Proof.
  intros H. unfold round64.
  destruct (Qcompare_spec x 0) as [E|E|E]; [exfalso; lra | exfalso; lra | reflexivity].
Qed.

Lemma round64_neg (x : Q) : (x < 0)%Q -> round64 x = opp (roundPos (- x)).
Proof.
  intros H. unfold round64.
  destruct (Qcompare_spec x 0) as [E|E|E]; [exfalso; lra | reflexivity | exfalso; lra].
Qed.

Lemma round64_zero (x : Q) : (x == 0)%Q -> round64 x = Fin 0.
Proof.
  intros H. unfold round64.
  destruct (Qcompare_spec x 0) as [E|E|E]; [reflexivity | exfalso; lra | exfalso; lra].
Qed.

Lemma round64_not_NaN (x : Q) : round64 x <> NaN.
Proof.
  destruct (Qcompare_spec x 0) as [H|H|H].
  - rewrite round64_zero by exact H. discriminate.
  - rewrite round64_neg by exact H.
    destruct (roundPos_cases (- x)) as [[-> _]|[-> _]]; discriminate.
  - rewrite round64_pos by exact H.
    destruct (roundPos_cases x) as [[-> _]|[-> _]]; discriminate.
Qed.

(** Rounding is monotone. *)
Lemma round64_mono (x y : Q) : (x <= y)%Q -> le (round64 x) (round64 y).
Proof.
  intros Hxy.
  destruct (Qcompare_spec x 0) as [Hx|Hx|Hx], (Qcompare_spec y 0) as [Hy|Hy|Hy];
    try (exfalso; lra).
  - rewrite !round64_zero by assumption. cbn. lra.
  - rewrite (round64_zero x), (round64_pos y) by assumption. apply roundPos_nonneg. exact Hy.
  - rewrite (round64_neg x), (round64_zero y) by assumption.
    change (Fin 0) with (opp (Fin 0)). apply num_le_opp, roundPos_nonneg. lra.
  - rewrite !round64_neg by assumption. apply num_le_opp, roundPos_mono; lra.
  - rewrite (round64_neg x), (round64_pos y) by assumption.
    eapply num_le_trans; [|apply roundPos_nonneg; exact Hy].
    change (Fin 0) with (opp (Fin 0)). apply num_le_opp, roundPos_nonneg. lra.
  - rewrite !round64_pos by assumption. apply roundPos_mono; assumption.
Qed.

Lemma round64_comp (x y : Q) : (x == y)%Q -> round64 x = round64 y.
Proof.
  intros E.
  assert (Hp : forall a b, (0 < a)%Q -> (a == b)%Q -> roundPos a = roundPos b).
  { intros a b Ha Hab. rewrite !roundPos_eq.
    pose proof (rounded_comp a b Ha Hab) as R.
    rewrite (Qred_complete _ _ R).
    assert (L : Qle_bool (pow2 1024) (rounded a) = Qle_bool (pow2 1024) (rounded b)).
    { apply Qleb_comp; [reflexivity | exact R]. }
    rewrite L. reflexivity. }
  destruct (Qcompare_spec x 0) as [Hx|Hx|Hx].
  - rewrite !round64_zero; [reflexivity | lra | exact Hx].
  - rewrite !round64_neg by lra. f_equal. apply Hp; lra.
  - rewrite !round64_pos by lra. apply Hp; lra.
Qed.

(** *** Values that rounding leaves alone *)

Lemma rounded_exact (q : Q) (z : Z) :
  (0 < q)%Q -> (q / pow2 (scale q) == inject_Z z)%Q -> (rounded q == q)%Q.
Proof.
  intros Hq Hz. unfold rounded, mant. rewrite (rne_comp _ _ Hz), rne_Z, <- Hz.
  pose proof (pow2_pos (scale q)). field. lra.
Qed.

Lemma scale_le (q : Q) (e : Z) :
  (0 < q)%Q -> emin <= e -> (q < pow2 (e + 53))%Q -> scale q <= e.
Proof.
  intros Hq He H. destruct (ilog2_spec q Hq) as [L _].
  assert (A : ilog2 q < e + 53) by (apply pow2_lt_inv; lra).
  unfold scale. lia.
Qed.

Lemma pow2_split (a b : Z) : (pow2 a == pow2 (a - b) * pow2 b)%Q.
Proof. rewrite <- pow2_plus. replace (a - b + b) with a by lia. reflexivity. Qed.

(** A multiple of a power of two of at most 53 bits is left alone. *)
Lemma grid_exact (m e : Z) :
  emin <= e -> 0 < m <= 2 ^ 53 ->
  (rounded (inject_Z m * pow2 e) == inject_Z m * pow2 e)%Q.
Proof.
  intros He [Hm0 Hm].
  pose proof (pow2_pos e) as Hp.
  assert (Hm0' : (0 < inject_Z m)%Q) by (change 0%Q with (inject_Z 0); rewrite <- Zlt_Qlt; lia).
  assert (Hq : (0 < inject_Z m * pow2 e)%Q) by nra.
  set (q := (inject_Z m * pow2 e)%Q) in *.
  assert (Eq : (q == inject_Z m * pow2 e)%Q) by reflexivity. clearbody q.
  destruct (Z_lt_le_dec m (2 ^ 53)) as [Hlt|Hge].
  - assert (Hs : scale q <= e).
    { apply scale_le; [exact Hq | exact He |].
      rewrite Z.add_comm, pow2_plus, (pow2_Z 53) by lia.
      rewrite Zlt_Qlt in Hlt. nra. }
    apply (rounded_exact q (m * 2 ^ (e - scale q)) Hq).
    rewrite inject_Z_mult, <- pow2_Z by lia.
    pose proof (pow2_split e (scale q)) as Hsp.
    set (sc := scale q) in *. pose proof (pow2_pos sc) as Hps.
    rewrite Eq, Hsp. field. lra.
  - assert (Em : m = 2 ^ 53) by lia. subst m.
    assert (Eq' : (q == pow2 (e + 53))%Q).
    { rewrite Eq, Z.add_comm, pow2_plus, (pow2_Z 53) by lia. reflexivity. }
    assert (Ek : ilog2 q = e + 53).
    { apply ilog2_unique. rewrite Eq'. split; [lra|]. apply pow2_lt. lia. }
    assert (Es : scale q = e + 1) by (unfold scale; lia).
    apply (rounded_exact q (2 ^ 52) Hq).
    rewrite Es, <- pow2_Z by lia.
    pose proof (pow2_split (e + 53) (e + 1)) as Hsp.
    replace (e + 53 - (e + 1)) with 52 in Hsp by lia.
    pose proof (pow2_pos (e + 1)).
    rewrite Eq', Hsp. field. lra.
Qed.

Lemma roundPos_exact (q : Q) :
  (0 < q)%Q -> (rounded q == q)%Q -> (q < pow2 1024)%Q -> roundPos q = Fin (Qred q).
Proof.
  intros Hq E Hlt. destruct (roundPos_cases q) as [[_ X]|[-> _]]; [exfalso; lra|].
  rewrite (Qred_complete _ _ E). reflexivity.
Qed.

(** What rounding returns is a double. *)
Lemma roundPos_idem (y p : Q) :
  (0 < y)%Q -> roundPos y = Fin p ->
  Qred p = p /\ (0 <= p)%Q /\ ((0 < p)%Q -> roundPos p = Fin p).
Proof.
  intros Hy H. destruct (roundPos_cases y) as [[E _]|[E Hlt]]; [congruence|].
  rewrite E in H. injection H as <-.
  pose proof (mant_le y Hy) as [M0 M1].
  pose proof (Qred_correct (rounded y)) as C.
  pose proof (rounded_nonneg y Hy) as N.
  split; [apply Qcanon.Qred_involutive|]. split; [lra|]. intros Hr'.
  assert (NZ : mant y <> 0).
  { intros Z0. assert (R0 : (rounded y == 0)%Q) by (unfold rounded; rewrite Z0; ring). lra. }
  pose proof (grid_exact (mant y) (scale y) (scale_emin y) ltac:(lia)) as G.
  fold (rounded y) in G.
  rewrite (roundPos_exact (Qred (rounded y)) Hr').
  - rewrite Qcanon.Qred_involutive. reflexivity.
  - rewrite (rounded_comp _ _ Hr' C). rewrite G. lra.
  - lra.
Qed.

Lemma canonical_zero (p : Q) : Qred p = p -> (p == 0)%Q -> p = 0%Q.
Proof.
  intros C Z. rewrite <- C. change 0%Q with (Qred 0). apply Qred_complete. exact Z.
Qed.

Lemma round64_idem (x q : Q) : round64 x = Fin q -> isDouble q.
Proof.
  unfold isDouble. intros H.
  destruct (Qcompare_spec x 0) as [Hx|Hx|Hx].
  - rewrite round64_zero in H by exact Hx. injection H as <-. reflexivity.
  - rewrite round64_neg in H by exact Hx.
    destruct (roundPos (- x)) as [p| |] eqn:E; try discriminate.
    cbn in H. injection H as <-.
    destruct (roundPos_idem (- x)%Q p ltac:(lra) E) as (C & N & I).
    destruct (Qcompare_spec p 0) as [P0|P0|P0]; [|exfalso; lra|].
    + rewrite (canonical_zero p C P0). reflexivity.
    + rewrite round64_neg by lra.
      assert (Eo : (- - p)%Q = p) by (destruct p as [n d]; unfold Qopp; cbn; f_equal; lia).
      rewrite Eo, (I P0). reflexivity.
  - rewrite round64_pos in H by exact Hx.
    destruct (roundPos_idem x q Hx H) as (C & N & I).
    destruct (Qcompare_spec q 0) as [P0|P0|P0]; [|exfalso; lra|].
    + rewrite (canonical_zero q C P0). reflexivity.
    + rewrite round64_pos by exact P0. exact (I P0).
Qed.

Lemma inject_Z_pos (z : Z) : 0 < z -> (0 < inject_Z z)%Q.
Proof. intros H. change 0%Q with (inject_Z 0). rewrite <- Zlt_Qlt. exact H. Qed.

Lemma inject_Z_sub (a b : Z) : (inject_Z (a - b) == inject_Z a - inject_Z b)%Q.
Proof. unfold Z.sub, Qminus. rewrite inject_Z_plus, inject_Z_opp. reflexivity. Qed.

Lemma pow2_0 : (pow2 0 == 1)%Q.
Proof. reflexivity. Qed.

(** The integers up to [2^53] in magnitude are doubles. *)
Lemma round64_Z (z : Z) : - 2 ^ 53 <= z <= 2 ^ 53 -> isDouble (inject_Z z).
Proof.
  assert (Hp : forall m, 0 < m <= 2 ^ 53 -> roundPos (inject_Z m) = Fin (inject_Z m)).
  { intros m Hm. pose proof (inject_Z_pos m ltac:(lia)) as Hq.
    assert (E : (inject_Z m == inject_Z m * pow2 0)%Q) by (rewrite pow2_0; ring).
    rewrite (roundPos_exact (inject_Z m) Hq).
    - rewrite inject_Z_Qred. reflexivity.
    - rewrite (rounded_comp _ _ Hq E).
      rewrite (grid_exact m 0 ltac:(unfold emin; lia) Hm). lra.
    - rewrite (pow2_Z 1024) by lia. rewrite <- Zlt_Qlt.
      assert (2 ^ 53 < 2 ^ 1024) by (apply Z.pow_lt_mono_r; lia). lia. }
  intros Hz. unfold isDouble.
  destruct (Z.compare_spec z 0) as [E|L|G].
  - subst z. reflexivity.
  - rewrite round64_neg by (change 0%Q with (inject_Z 0); rewrite <- Zlt_Qlt; exact L).
    rewrite <- inject_Z_opp, Hp by lia. cbn.
    f_equal. rewrite <- inject_Z_opp. f_equal. lia.
  - rewrite round64_pos by (apply inject_Z_pos; lia). apply Hp. lia.
Qed.

(** A positive double, as its 53-bit multiple of a power of two. *)
Lemma double_grid (q : Q) :
  isDouble q -> (0 < q)%Q ->
  (q == inject_Z (mant q) * pow2 (scale q))%Q /\ 0 < mant q < 2 ^ 53
  /\ (q < pow2 1024)%Q.
Proof.
  unfold isDouble. intros H Hq. rewrite round64_pos in H by exact Hq.
  destruct (roundPos_cases q) as [[E _]|[E Hlt]]; [congruence|].
  rewrite E in H. injection H as H.
  assert (Eq : (q == rounded q)%Q) by (rewrite <- H at 1; apply Qred_correct).
  split; [exact Eq|].
  pose proof (scaled_lt q Hq) as S. pose proof (pow2_pos (scale q)) as Hp.
  assert (Em : (q / pow2 (scale q) == inject_Z (mant q))%Q).
  { rewrite Eq at 1. unfold rounded. field. lra. }
  rewrite Em in S. rewrite <- Zlt_Qlt in S.
  split; [|lra]. split; [|exact S].
  destruct (mant_le q Hq) as [M0 _].
  destruct (Z.eq_dec (mant q) 0) as [Z0|NZ]; [|lia].
  exfalso. unfold rounded in Eq. rewrite Z0 in Eq.
  assert ((inject_Z 0 * pow2 (scale q) == 0)%Q) by ring. lra.
Qed.

(** Every double is a multiple of the smallest subnormal. *)
Lemma double_multiple (q : Q) :
  isDouble q -> exists z : Z, (q == inject_Z z * pow2 emin)%Q.
Proof.
  assert (Hp : forall p, isDouble p -> (0 < p)%Q ->
                 exists z : Z, (p == inject_Z z * pow2 emin)%Q).
  { intros p Hd Hpos. destruct (double_grid p Hd Hpos) as (E & _ & _).
    pose proof (scale_emin p) as Hs.
    exists (mant p * 2 ^ (scale p - emin)).
    rewrite inject_Z_mult, <- pow2_Z by lia.
    rewrite E at 1. rewrite (pow2_split (scale p) emin). ring. }
  intros Hd. destruct (Qcompare_spec q 0) as [E|L|G].
  - exists 0. rewrite E. ring.
  - assert (Hd' : isDouble (- q)).
    { unfold isDouble in *. rewrite round64_neg in Hd by exact L.
      destruct (roundPos (- q)) as [p| |] eqn:Ep; try discriminate.
      cbn in Hd. injection Hd as Hd.
      assert (Eo : (- q)%Q = p).
      { rewrite <- Hd. destruct p as [n d]. unfold Qopp. cbn. f_equal. lia. }
      rewrite round64_pos by lra. rewrite Ep, Eo. reflexivity. }
    destruct (Hp (- q)%Q Hd' ltac:(lra)) as [z Hz].
    exists (- z). rewrite inject_Z_opp.
    assert (X : (q == - (- q))%Q) by ring. rewrite X, Hz. ring.
  - apply Hp; assumption.
Qed.

(** The doubles below one. *)
Lemma double_below_one (r : Q) :
  isDouble r -> (0 <= r < 1)%Q -> (r <= 1 - pow2 (-53))%Q.
Proof.
  intros Hd [H0 H1].
  assert (P53 : (pow2 (-53) * inject_Z (2 ^ 53) == 1)%Q) by reflexivity.
  pose proof (pow2_pos (-53)) as Hp53.
  destruct (Qcompare_spec r 0) as [E|L|G]; [|exfalso; lra|].
  - rewrite E. assert ((pow2 (-53) <= pow2 0)%Q) by (apply pow2_le; lia).
    rewrite pow2_0 in *. lra.
  - destruct (double_grid r Hd G) as (E & [M0 M1] & _).
    destruct (ilog2_spec r G) as [L _].
    assert (Hk : ilog2 r < 0) by (apply pow2_lt_inv; rewrite pow2_0; lra).
    assert (Hs : scale r <= -53) by (unfold scale, emin; lia).
    pose proof (pow2_le _ _ Hs) as Hle. pose proof (pow2_pos (scale r)) as Hps.
    assert (Hm : (inject_Z (mant r) <= inject_Z (2 ^ 53) - 1)%Q).
    { change 1%Q with (inject_Z 1). rewrite <- inject_Z_sub, <- Zle_Qle. lia. }
    assert (Hm0 : (0 < inject_Z (mant r))%Q) by (apply inject_Z_pos; lia).
    rewrite E. nra.
Qed.

Lemma round64_between (lo hi x : Q) :
  isDouble lo -> isDouble hi -> (lo <= x <= hi)%Q ->
  exists v, round64 x = Fin v /\ (lo <= v <= hi)%Q /\ isDouble v.
Proof.
  intros Hlo Hhi [H1 H2].
  pose proof (round64_mono lo x H1) as A. pose proof (round64_mono x hi H2) as B.
  rewrite Hlo in A. rewrite Hhi in B.
  destruct (round64 x) as [v|[]|] eqn:E; cbn in A, B; try done.
  exists v. split; [reflexivity|]. split; [split; assumption|].
  eapply round64_idem. exact E.
Qed.

Lemma isDouble_0 : isDouble 0.
Proof. reflexivity. Qed.

(** The product of a double with a draw of [Math.random()] is rounded to a
    double below it: for [M] of 53 bits, to one no greater than the double
    before [M * 2^e]. *)
Lemma round64_scaled (M e : Z) (r x : Q) :
  emin <= e -> 2 ^ 52 < M <= 2 ^ 53 ->
  (inject_Z M * pow2 e <= pow2 1024)%Q ->
  (0 <= r <= 1 - pow2 (-53))%Q ->
  (x == r * (inject_Z M * pow2 e))%Q ->
  exists t, round64 x = Fin t /\ (0 <= t <= inject_Z (M - 1) * pow2 e)%Q /\ isDouble t.
Proof.
  intros He [HM0 HM1] Hov [Hr0 Hr1] Ex.
  pose proof (pow2_pos e) as Hpe.
  assert (HMq : (inject_Z (2 ^ 52) + 1 <= inject_Z M <= inject_Z (2 ^ 53))%Q).
  { change 1%Q with (inject_Z 1). rewrite <- inject_Z_plus, <- !Zle_Qle. lia. }
  assert (P53 : (pow2 (-53) * inject_Z (2 ^ 53) == 1)%Q) by reflexivity.
  assert (P52 : (inject_Z (2 ^ 53) == 2 * inject_Z (2 ^ 52))%Q) by reflexivity.
  pose proof (pow2_pos (-53)) as Hp53.
  pose proof (inject_Z_sub M 1) as HMm. change (inject_Z 1) with 1%Q in HMm.
  assert (HM : (0 < inject_Z M)%Q) by lra.
  assert (HD : (0 < inject_Z M * pow2 e)%Q) by (apply Qmult_lt_0_compat; assumption).
  assert (Hx0 : (0 <= x)%Q) by (rewrite Ex; apply Qmult_le_0_compat; lra).
  assert (Hx1 : (x <= (1 - pow2 (-53)) * (inject_Z M * pow2 e))%Q).
  { rewrite Ex. apply Qmult_le_compat_r; lra. }
  assert (Hhalf : (1 # 2 < inject_Z M * pow2 (-53))%Q) by nra.
  assert (Hx2 : (x < (inject_Z M - (1 # 2)) * pow2 e)%Q).
  { eapply Qle_lt_trans; [exact Hx1|].
    assert (Hd : ((inject_Z M - (1 # 2)) * pow2 e - (1 - pow2 (-53)) * (inject_Z M * pow2 e)
                  == (inject_Z M * pow2 (-53) - (1 # 2)) * pow2 e)%Q) by ring.
    assert (Hpos : (0 < (inject_Z M * pow2 (-53) - (1 # 2)) * pow2 e)%Q)
      by (apply Qmult_lt_0_compat; lra).
    lra. }
  destruct (Qcompare_spec x 0) as [E|L|G].
  - exists 0%Q. split; [apply round64_zero; exact E|].
    split; [rewrite HMm; nra | apply isDouble_0].
  - exfalso. lra.
  - assert (Hs : scale x <= e).
    { apply scale_le; [exact G | exact He |].
      rewrite Z.add_comm, pow2_plus, (pow2_Z 53) by lia. nra. }
    assert (Hb : (rounded x <= (inject_Z M - 1) * pow2 e)%Q).
    { destruct (Z.eq_dec (scale x) e) as [Es|Ns].
      - unfold rounded, mant. rewrite Es.
        assert (Hm : rne (x / pow2 e) <= M - 1).
        { apply rne_below. apply Qlt_shift_div_r; [exact Hpe|]. exact Hx2. }
        rewrite Zle_Qle, HMm in Hm. nra.
      - eapply Qle_trans; [apply rounded_le_top; exact G|].
        assert (Hle : (pow2 (scale x + 53) <= pow2 (e + 52))%Q) by (apply pow2_le; lia).
        rewrite (Z.add_comm e 52), (pow2_plus 52 e), (pow2_Z 52) in Hle by lia. nra. }
    rewrite round64_pos by exact G.
    destruct (roundPos_cases x) as [[_ X]|[E X]]; [exfalso; nra|].
    exists (Qred (rounded x)). split; [exact E|].
    pose proof (Qred_correct (rounded x)) as C. pose proof (rounded_nonneg x G) as N.
    split; [rewrite HMm; lra|]. eapply round64_idem. rewrite round64_pos by exact G. exact E.
Qed.

(** *** The two sampling formulas *)

(** [Math.random() * (b - a) + a] lies between [a] and [b], whatever the
    three roundings do, when [b - a] does not overflow. *)
Lemma float_sample (a b r d : Q) :
  isDouble a -> isDouble b -> isDouble r -> (a <= b)%Q -> (0 <= r < 1)%Q ->
  sub (Fin b) (Fin a) = Fin d ->
  exists v, add (mul (Fin r) (Fin d)) (Fin a) = Fin v /\ (a <= v <= b)%Q /\ isDouble v.
Proof.
  intros Ha Hb Hr Hab Hr01 Hd. cbn in Hd |- *.
  set (D := (b + - a)%Q) in *.
  assert (HD0 : (0 <= D)%Q) by (unfold D; lra).
  pose proof (round64_idem _ _ Hd) as Hdd.
  assert (Hd0 : (0 <= d)%Q).
  { pose proof (round64_mono 0 D HD0) as A. rewrite Hd, isDouble_0 in A. exact A. }
  pose proof (double_below_one r Hr Hr01) as Hr1.
  pose proof (pow2_pos (-53)) as Hp53.
  assert (Ht : exists t, round64 (r * d) = Fin t /\ (0 <= t <= D)%Q).
  { destruct (Qlt_le_dec D d) as [Hlt|Hle].
    - (* the difference was rounded up *)
      assert (HDpos : (0 < D)%Q).
      { destruct (Qlt_le_dec 0 D) as [H|H]; [exact H|]. exfalso.
        rewrite (round64_zero D) in Hd by lra. injection Hd as <-. lra. }
      rewrite round64_pos in Hd by exact HDpos.
      destruct (roundPos_cases D) as [[E _]|[E Hfin]]; [congruence|].
      rewrite E in Hd. injection Hd as Hd.
      assert (Ed : (d == rounded D)%Q) by (rewrite <- Hd; apply Qred_correct).
      pose proof (pow2_pos (scale D)) as Hps.
      destruct (Z.eq_dec (scale D) emin) as [Es|Ns].
      + exfalso.
        destruct (double_multiple a Ha) as [za Hza].
        destruct (double_multiple b Hb) as [zb Hzb].
        assert (Ex : (D / pow2 (scale D) == inject_Z (zb - za))%Q).
        { rewrite Es, inject_Z_sub. unfold D. rewrite Hza, Hzb.
          pose proof (pow2_pos emin). field. lra. }
        pose proof (rounded_exact D _ HDpos Ex). lra.
      + pose proof (scale_emin D) as Hem.
        pose proof (mant_ge D HDpos ltac:(lia)) as M0.
        pose proof (mant_le D HDpos) as [_ M1].
        pose proof (scaled_ge D HDpos ltac:(lia)) as S0.
        pose proof (rne_spec (D / pow2 (scale D))) as [R1 _]. fold (mant D) in R1.
        assert (EDs : (D == D / pow2 (scale D) * pow2 (scale D))%Q) by (field; lra).
        assert (HM : 2 ^ 52 < mant D).
        { unfold rounded in Ed.
          assert (X : (D / pow2 (scale D) < inject_Z (mant D))%Q) by nra.
          rewrite Zlt_Qlt. lra. }
        destruct (round64_scaled (mant D) (scale D) r (r * d) Hem ltac:(lia))
          as (t & Et & [T0 T1] & _).
        * unfold rounded in Hfin. lra.
        * lra.
        * rewrite Ed. reflexivity.
        * exists t. split; [exact Et|]. split; [exact T0|].
          rewrite inject_Z_sub in T1. change (inject_Z 1) with 1%Q in T1. nra.
    - destruct (round64_between 0 d (r * d) isDouble_0 Hdd) as (t & Et & [T0 T1] & _).
      + split; [apply Qmult_le_0_compat; lra|]. nra.
      + exists t. split; [exact Et|]. lra. }
  destruct Ht as (t & Et & T0 & T1). rewrite Et.
  destruct (round64_between a b (t + a) Ha Hb) as (v & Ev & Hv & Hvd).
  - unfold D in T1. lra.
  - exists v. split; [exact Ev|]. split; assumption.
Qed.

Lemma isDouble_one : isDouble 1.
Proof. reflexivity. Qed.

(** A positive integer of at most 54 bits, as a multiple of a power of two by
    an integer between [2^52] and [2^53]. *)
Lemma integer_grid (n : Z) :
  1 <= n <= 2 ^ 53 ->
  exists M e, emin <= e <= 0 /\ 2 ^ 52 < M <= 2 ^ 53
              /\ (inject_Z n == inject_Z M * pow2 e)%Q
              /\ (inject_Z (M - 1) * pow2 e < inject_Z n)%Q.
Proof.
  intros [H1 H2].
  destruct (Z.log2_spec n ltac:(lia)) as [L1 L2].
  pose proof (Z.log2_nonneg n) as Hk0.
  assert (Hk : Z.log2 n <= 53).
  { assert (Z.log2 n < 54) by (apply Z.log2_lt_pow2; lia). lia. }
  set (k := Z.log2 n) in *.
  destruct (Z.eq_dec n (2 ^ k)) as [E|N].
  - exists (2 ^ 53), (k - 53). split; [unfold emin; lia|]. split; [lia|].
    pose proof (pow2_pos (k - 53)) as Hp.
    assert (Ek : (inject_Z n == inject_Z (2 ^ 53) * pow2 (k - 53))%Q).
    { rewrite E, <- !pow2_Z, <- pow2_plus by lia. replace (53 + (k - 53)) with k by lia.
      reflexivity. }
    split; [exact Ek|]. rewrite inject_Z_sub. change (inject_Z 1) with 1%Q. lra.
  - assert (Hk' : k <= 52).
    { destruct (Z.eq_dec k 53) as [E53|]; [|lia]. exfalso. rewrite E53 in *. lia. }
    exists (n * 2 ^ (52 - k)), (k - 52). split; [unfold emin; lia|].
    assert (Hpw : 2 ^ k * 2 ^ (52 - k) = 2 ^ 52).
    { rewrite <- Z.pow_add_r by lia. f_equal. lia. }
    assert (Hpw' : 2 ^ Z.succ k * 2 ^ (52 - k) = 2 ^ 53).
    { rewrite <- Z.pow_add_r by lia. f_equal. lia. }
    assert (Hpos : 0 < 2 ^ (52 - k)) by (apply Z.pow_pos_nonneg; lia).
    split; [nia|].
    pose proof (pow2_pos (k - 52)) as Hp.
    assert (Ek : (inject_Z n == inject_Z (n * 2 ^ (52 - k)) * pow2 (k - 52))%Q).
    { rewrite inject_Z_mult, <- pow2_Z by lia.
      rewrite <- Qmult_assoc, <- pow2_plus. replace (52 - k + (k - 52)) with 0 by lia.
      rewrite pow2_0. ring. }
    split; [exact Ek|]. rewrite inject_Z_sub. change (inject_Z 1) with 1%Q. lra.
Qed.

(** The product of an integer of at most 54 bits with a draw is rounded to a
    double below the integer. *)
Lemma round64_draw (n : Z) (r : Q) :
  1 <= n <= 2 ^ 53 -> isDouble r -> (0 <= r < 1)%Q ->
  exists t, round64 (r * inject_Z n) = Fin t /\ (0 <= t < inject_Z n)%Q
            /\ ((1 - pow2 (-53) <= r)%Q -> (inject_Z n - 1 <= t)%Q).
Proof.
  intros Hn Hr Hr01.
  destruct (integer_grid n Hn) as (M & e & He & HM & En & Hlt).
  pose proof (double_below_one r Hr Hr01) as Hr1.
  destruct (round64_scaled M e r (r * inject_Z n) ltac:(lia) HM)
    as (t & Et & [T0 T1] & _).
  - rewrite <- En, (pow2_Z 1024), <- Zle_Qle by lia.
    assert (2 ^ 53 <= 2 ^ 1024) by (apply Z.pow_le_mono_r; lia). lia.
  - lra.
  - rewrite En. reflexivity.
  - exists t. split; [exact Et|]. split; [lra|]. intros Hmax.
    assert (Hn1 : isDouble (inject_Z (n - 1))) by (apply round64_Z; lia).
    assert (Hle : (inject_Z (n - 1) <= r * inject_Z n)%Q).
    { rewrite inject_Z_sub. change (inject_Z 1) with 1%Q.
      assert (P53 : (pow2 (-53) * inject_Z (2 ^ 53) == 1)%Q) by reflexivity.
      pose proof (pow2_pos (-53)).
      assert (Hn' : (1 <= inject_Z n <= inject_Z (2 ^ 53))%Q).
      { change 1%Q with (inject_Z 1). rewrite <- !Zle_Qle. lia. }
      nra. }
    pose proof (round64_mono _ _ Hle) as Hm. rewrite Hn1, Et in Hm. cbn in Hm.
    rewrite inject_Z_sub in Hm. exact Hm.
Qed.

(** [Math.floor(Math.random() * (b - a + 1)) + a] on integers whose
    difference has at most 53 bits is exact. *)
Lemma int_sample (za zb : Z) (r : Q) :
  - 2 ^ 53 <= za -> za <= zb -> zb <= 2 ^ 53 -> zb - za < 2 ^ 53 ->
  isDouble r -> (0 <= r < 1)%Q ->
  exists w : Z,
    add (floor (mul (Fin r)
                  (add (sub (Fin (inject_Z zb)) (Fin (inject_Z za))) (Fin 1))))
        (Fin (inject_Z za))
    = Fin (inject_Z w)
    /\ za <= w <= zb
    /\ ((r == 0)%Q -> w = za)
    /\ ((1 - pow2 (-53) <= r)%Q -> w = zb).
Proof.
  intros H1 H2 H3 H4 Hr Hr01.
  assert (Es : sub (Fin (inject_Z zb)) (Fin (inject_Z za)) = Fin (inject_Z (zb - za))).
  { cbn. rewrite (round64_comp _ (inject_Z (zb - za))).
    - apply round64_Z. lia.
    - rewrite inject_Z_sub. reflexivity. }
  rewrite Es. clear Es.
  assert (Ea : add (Fin (inject_Z (zb - za))) (Fin 1) = Fin (inject_Z (zb - za + 1))).
  { cbn. rewrite (round64_comp _ (inject_Z (zb - za + 1))).
    - apply round64_Z. lia.
    - rewrite inject_Z_plus. reflexivity. }
  rewrite Ea. clear Ea.
  destruct (round64_draw (zb - za + 1) r ltac:(lia) Hr Hr01) as (t & Et & [T0 T1] & Tmax).
  cbn [mul floor]. rewrite Et. cbn [floor add].
  assert (F0 : 0 <= Qfloor t).
  { change 0 with (Qfloor 0). apply Qfloor_resp_le. exact T0. }
  assert (F1 : Qfloor t < zb - za + 1).
  { rewrite Zlt_Qlt. eapply Qle_lt_trans; [apply Qfloor_le | exact T1]. }
  exists (Qfloor t + za). split.
  - rewrite (round64_comp _ (inject_Z (Qfloor t + za))).
    + apply round64_Z. lia.
    + rewrite inject_Z_plus. reflexivity.
  - split; [lia|]. split.
    + intros E0. assert (Et0 : (r * inject_Z (zb - za + 1) == 0)%Q) by (rewrite E0; ring).
      rewrite (round64_zero _ Et0) in Et. injection Et as <-. reflexivity.
    + intros Hmax. specialize (Tmax Hmax).
      assert (F2 : zb - za <= Qfloor t).
      { rewrite <- (Qfloor_Z (zb - za)). apply Qfloor_resp_le.
        rewrite inject_Z_plus in Tmax. change (inject_Z 1) with 1%Q in Tmax. lra. }
      lia.
Qed.

End Rounding.

(** ** Arithmetic of the random draw *)

Lemma isInteger_inject q : isInteger q = true -> (q == inject_Z (Qnum (Qred q)))%Q.
Proof.
  unfold isInteger. intros H. apply Pos.eqb_eq in H.
  rewrite <- (Qred_correct q) at 1.
  destruct (Qred q) as [n d]. simpl in *. subst d. reflexivity.
Qed.

Lemma Qgtb_lt a b : Qgtb a b = true <-> (b < a)%Q.
Proof.
  unfold Qgtb. rewrite negb_true_iff. split; intros H.
  - apply Qnot_le_lt. intros Hle. apply Qle_bool_iff in Hle. congruence.
  - destruct (Qle_bool a b) eqn:E; [|done].
    apply Qle_bool_iff in E. lra.
Qed.

Lemma Qgtb_le a b : Qgtb a b = false <-> (a <= b)%Q.
Proof. unfold Qgtb. rewrite negb_false_iff. apply Qle_bool_iff. Qed.

Lemma floor_draw_bounds (r : Q) (k : Z) :
  (0 <= r < 1)%Q -> (1 <= k)%Z -> (0 <= Qfloor (r * inject_Z k) <= k - 1)%Z.
Proof.
  intros [H0 H1] Hk.
  assert (Hk' : (1 <= inject_Z k)%Q) by (rewrite Zle_Qle in Hk; exact Hk).
  split.
  - change 0%Z with (Qfloor 0). apply Qfloor_resp_le. nra.
  - assert (Hlt : (inject_Z (Qfloor (r * inject_Z k)) < inject_Z k)%Q).
    { eapply Qle_lt_trans; [apply Qfloor_le|]. nra. }
    rewrite <- Zlt_Qlt in Hlt. lia.
Qed.

(** A double is in lowest terms. *)
Lemma isDouble_canonical (q : Q) : Double.isDouble q -> Qred q = q.
Proof.
  unfold Double.isDouble. intros H.
  destruct (Qcompare_spec q 0) as [E|L|G].
  - rewrite round64_zero in H by exact E. injection H as H. rewrite <- H. reflexivity.
  - rewrite round64_neg in H by exact L.
    destruct (Double.roundPos (- q)) as [p| |] eqn:Ep; try discriminate.
    cbn in H. injection H as H.
    destruct (roundPos_idem (- q)%Q p ltac:(lra) Ep) as (C & _).
    rewrite <- H, Qred_opp, C. reflexivity.
  - rewrite round64_pos in H by exact G.
    by destruct (roundPos_idem q q G H) as (C & _).
Qed.

(** An integer double is the injection of its numerator. *)
Lemma integer_double (q : Q) :
  Double.isDouble q -> isInteger q = true -> q = inject_Z (Qnum q).
Proof.
  intros Hd Hi. apply isDouble_canonical in Hd. unfold isInteger in Hi.
  rewrite Hd in Hi. apply Pos.eqb_eq in Hi. destruct q as [n d]. cbn in *. by subst d.
Qed.

Lemma safeIntegers_bounds (min max : Q) :
  Double.isDouble min -> Double.isDouble max -> safeIntegers min max ->
  min = inject_Z (Qnum min) /\ max = inject_Z (Qnum max)
  /\ - 2 ^ 53 <= Qnum min /\ Qnum max <= 2 ^ 53 /\ Qnum max - Qnum min < 2 ^ 53.
Proof.
  intros Hdmin Hdmax (Hi1 & Hi2 & H1 & H2 & H3).
  pose proof (integer_double min Hdmin Hi1) as E1.
  pose proof (integer_double max Hdmax Hi2) as E2.
  split; [exact E1|]. split; [exact E2|].
  rewrite E1 in H1, H3. rewrite E2 in H2, H3.
  rewrite <- inject_Z_opp, <- Zle_Qle in H1. rewrite <- Zle_Qle in H2.
  rewrite <- inject_Z_sub, <- Zlt_Qlt in H3. lia.
Qed.

(** The integer formula on safe integers: an integer between the bounds,
    the lower one for the draw 0 and the upper one for the greatest draw. *)
Lemma randomValue_integers (min max r : Q) :
  Double.isDouble min -> Double.isDouble max -> safeIntegers min max -> (min <= max)%Q ->
  Double.isDouble r -> (0 <= r < 1)%Q ->
  exists z : Z,
    randomValue min max r = Double.Fin (inject_Z z)
    /\ (min <= inject_Z z <= max)%Q
    /\ ((r == 0)%Q -> inject_Z z = min)
    /\ ((1 - Double.pow2 (-53) <= r)%Q -> inject_Z z = max).
Proof.
  intros Hdmin Hdmax Hsafe Hle Hr Hr01.
  pose proof Hsafe as (Hi1 & Hi2 & _).
  destruct (safeIntegers_bounds min max Hdmin Hdmax Hsafe) as (E1 & E2 & B1 & B2 & B3).
  assert (Hz : Qnum min <= Qnum max).
  { rewrite Zle_Qle, <- E1, <- E2. exact Hle. }
  destruct (int_sample (Qnum min) (Qnum max) r B1 Hz B2 B3 Hr Hr01)
    as (w & Hw & Hb & H0 & H1).
  exists w. unfold randomValue. cbn [Double.isInteger]. fold (isInteger min) (isInteger max).
  rewrite Hi1, Hi2. cbn [andb]. rewrite !Zle_Qle in Hb.
  rewrite <- E1, <- E2 in Hw, Hb.
  split; [exact Hw|]. split; [exact Hb|]. split.
  - intros Hr0. rewrite (H0 Hr0). by rewrite <- E1.
  - intros Hr1. rewrite (H1 Hr1). by rewrite <- E2.
Qed.

(** The float formula on a range whose difference is finite. *)
Lemma randomValue_floats (min max r d : Q) :
  Double.isDouble min -> Double.isDouble max -> (min <= max)%Q ->
  isInteger min && isInteger max = false ->
  Double.sub max min = Double.Fin d ->
  Double.isDouble r -> (0 <= r < 1)%Q ->
  exists v, randomValue min max r = Double.Fin v /\ (min <= v <= max)%Q.
Proof.
  intros Hdmin Hdmax Hle Hni Hd Hr Hr01.
  unfold randomValue. cbn [Double.isInteger]. fold (isInteger min) (isInteger max).
  rewrite Hni, Hd.
  destruct (float_sample min max r d Hdmin Hdmax Hr Hle Hr01 Hd) as (v & Hv & Hb & _).
  exists v. split; assumption.
Qed.

Lemma randomValue_bounds (min max r : Q) :
  Double.isDouble min -> Double.isDouble max -> (min <= max)%Q -> samplable min max ->
  Double.isDouble r -> (0 <= r < 1)%Q ->
  exists v, randomValue min max r = Double.Fin v /\ (min <= v <= max)%Q.
Proof.
  intros Hdmin Hdmax Hle Hs Hr Hr01. unfold samplable in Hs.
  destruct (isInteger min && isInteger max) eqn:E.
  - destruct (randomValue_integers min max r Hdmin Hdmax Hs Hle Hr Hr01) as (z & Hz & Hb & _).
    exists (inject_Z z). split; assumption.
  - destruct Hs as [d Hd]. by eapply randomValue_floats.
Qed.

(** Stepping over the last value keeps the integer between the bounds. *)
Lemma pickInteger_bounds (k : bool) (min max r : Q) (last : jsval) :
  Double.isDouble min -> Double.isDouble max -> safeIntegers min max -> (min <= max)%Q ->
  Double.isDouble r -> (0 <= r < 1)%Q ->
  exists z : Z,
    randomValue min max r = Double.Fin (inject_Z z)
    /\ (min <= inject_Z z <= max)%Q
    /\ MethodOptions.pickInteger k min max r last
       = if k && Qgtb (max - min + 1) 1
            && MethodOptions.strictEq (JNum (inject_Z z)) last
         then (if Qgtb max (inject_Z z) then Double.Fin (inject_Z (z + 1)) else Double.Fin min)
         else Double.Fin (inject_Z z).
Proof.
  intros Hdmin Hdmax Hsafe Hle Hr Hr01.
  destruct (randomValue_integers min max r Hdmin Hdmax Hsafe Hle Hr Hr01)
    as (z & Hz & Hb & _).
  exists z. split; [exact Hz|]. split; [exact Hb|].
  pose proof Hsafe as (Hi1 & Hi2 & _).
  destruct (safeIntegers_bounds min max Hdmin Hdmax Hsafe) as (E1 & E2 & B1 & B2 & B3).
  assert (Hzb : Qnum min <= z <= Qnum max).
  { rewrite !Zle_Qle, <- E1, <- E2. exact Hb. }
  unfold randomValue in Hz. cbn [Double.isInteger] in Hz.
  fold (isInteger min) (isInteger max) in Hz. rewrite Hi1, Hi2 in Hz. cbn [andb] in Hz.
  unfold MethodOptions.pickInteger. cbv zeta. rewrite Hz.
  assert (Hrange : Double.add (Double.sub max min) 1
                   = Double.Fin (inject_Z (Qnum max - Qnum min + 1))).
  { cbn [Double.sub Double.add Double.opp].
    rewrite (round64_comp _ (inject_Z (Qnum max - Qnum min))).
    - rewrite (round64_Z (Qnum max - Qnum min)) by lia. cbn [Double.add].
      rewrite (round64_comp _ (inject_Z (Qnum max - Qnum min + 1))).
      + apply round64_Z. lia.
      + rewrite inject_Z_plus. reflexivity.
    - rewrite inject_Z_sub, <- E1, <- E2. ring. }
  rewrite Hrange. cbn [Double.gtb].
  assert (Eg : negb (Qle_bool (inject_Z (Qnum max - Qnum min + 1)) 1)
               = Qgtb (max - min + 1) 1).
  { unfold Qgtb. f_equal. apply Qleb_comp; [|reflexivity].
    rewrite E1 at 2. rewrite E2 at 2. rewrite inject_Z_plus, inject_Z_sub. reflexivity. }
  rewrite Eg.
  assert (Eg2 : negb (Qle_bool max (inject_Z z)) = Qgtb max (inject_Z z)) by reflexivity.
  rewrite Eg2.
  destruct (k && Qgtb (max - min + 1) 1 && MethodOptions.strictEq (JNum (inject_Z z)) last);
    [|reflexivity].
  destruct (Qgtb max (inject_Z z)) eqn:Eq; [|reflexivity].
  apply Qgtb_lt in Eq. rewrite E2 in Eq. rewrite <- Zlt_Qlt in Eq.
  cbn. rewrite (round64_comp _ (inject_Z (z + 1))).
  - apply round64_Z. lia.
  - rewrite inject_Z_plus. reflexivity.
Qed.

(** ** Option resolution *)

Section OptionResolution.

Variable random : nat -> Q.

Lemma resolveOption_numeric (o : OptionValue) (min max : Double.num) (s : State) :
  orandomRange o = JArr [JNum min; JNum max] ->
  resolveOption random o s =
    if Double.gtb min max
    then (Ok (oname o, JNum (randomValue max min (random (draws s)))),
          set_draws (S (draws s))
            (set_trace (trace s ++ [WarnSwapRandomRange (oname o) min max]) s))
    else (Ok (oname o, JNum (randomValue min max (random (draws s)))),
          set_draws (S (draws s)) s).
Proof.
  intros H. unfold resolveOption. rewrite H.
  destruct (Double.gtb min max); reflexivity.
Qed.

Lemma resolveOption_invalid (o : OptionValue) (a b : jsval) (s : State) :
  orandomRange o = JArr [a; b] ->
  isNumber a = false \/ isNumber b = false ->
  resolveOption random o s =
    (Ok (oname o, ovalue o),
     set_trace (trace s ++ [WarnInvalidRandomRange (oname o) a b (ovalue o)]) s).
Proof.
  intros H Hnum. unfold resolveOption. rewrite H.
  destruct a, b; try reflexivity; destruct Hnum; discriminate.
Qed.

(** Resolving the options of a call never throws. *)
Lemma resolveOption_returns (o : OptionValue) (s : State) :
  exists p s', resolveOption random o s = (Ok p, s').
Proof.
  assert (Hdefault : resolveOption random o s = (Ok (oname o, ovalue o), s) ->
            exists p s', resolveOption random o s = (Ok p, s')) by eauto.
  destruct (orandomRange o) as [| | | | |l|] eqn:E;
    try (apply Hdefault; unfold resolveOption; rewrite E; reflexivity).
  destruct l as [|a l];
    [apply Hdefault; unfold resolveOption; rewrite E; reflexivity|].
  destruct l as [|b l];
    [apply Hdefault; unfold resolveOption; rewrite E; destruct a; reflexivity|].
  destruct l as [|c l];
    [|apply Hdefault; unfold resolveOption; rewrite E; destruct a, b; reflexivity].
  clear Hdefault.
  destruct (isNumber a) eqn:Ea; [destruct (isNumber b) eqn:Eb|].
  - destruct a as [| | |qa| | |]; try discriminate.
    destruct b as [| | |qb| | |]; try discriminate.
    rewrite (resolveOption_numeric o qa qb s E).
    destruct (Double.gtb qa qb); eexists _, _; reflexivity.
  - rewrite (resolveOption_invalid o a b s E); [|by right]. eexists _, _; reflexivity.
  - rewrite (resolveOption_invalid o a b s E); [|by left]. eexists _, _; reflexivity.
Qed.

Lemma mapM_resolveOption_returns (l : list OptionValue) (s : State) :
  exists ps s', mapM (resolveOption random) l s = (Ok ps, s').
Proof.
  revert s. induction l as [|o l IH]; intros s.
  - eexists _, _. reflexivity.
  - destruct (resolveOption_returns o s) as (p & s1 & H1).
    destruct (IH s1) as (ps & s2 & H2).
    exists (p :: ps), s2. cbn. unfold mbind, M_bind, bind. rewrite H1, H2. reflexivity.
Qed.

Lemma resolveOptions_returns (l : list OptionValue) (s : State) :
  exists bag s', resolveOptions random l s = (Ok bag, s').
Proof.
  destruct (mapM_resolveOption_returns l s) as (ps & s' & H).
  exists (fromPairs ps), s'. unfold resolveOptions, mbind, M_bind, bind.
  rewrite H. reflexivity.
Qed.

(** [Math.random()] returns a double, at least 0 and less than 1. *)
Hypothesis random_unit : forall n, (0 <= random n < 1)%Q.
Hypothesis random_double : forall n, Double.isDouble (random n).

(** The entry [buildMethodOptions] computes for a named option without
    random values whose range is a pair of numbers. *)
Lemma buildEntry_numeric (h : MethodOptions.Hooks) (out : gmap string jsval)
    (e : MethodOptions.Env) (o : OptionValue) (min max : Double.num) :
  oname o <> "" -> (forall x l, orandomValues o <> JArr (x :: l)) ->
  orandomRange o = JArr [JNum min; JNum max] ->
  MethodOptions.buildEntry random h (out, e) o
  = let '(lo, hi, e1) :=
      if Double.gtb min max
      then (max, min,
            MethodOptions.callHook (MethodOptions.onSwapRandomRange h)
              (MethodOptions.SwapRandomRange (oname o) min max) e)
      else (min, max, e) in
    if Double.isInteger lo && Double.isInteger hi then
      let key := (fun p => p +:+ ":" +:+ oname o +:+ ":rrInt") <$> MethodOptions.canNoRepeat h in
      let picked :=
        MethodOptions.pickInteger (bool_decide (is_Some key)) lo hi
          (random (MethodOptions.edraws e1)) (MethodOptions.cacheGet key e1) in
      (<[oname o := JNum picked]> out,
       MethodOptions.cacheSet key (JNum picked) (MethodOptions.draw random e1).2)
    else
      (<[oname o := JNum (randomValue lo hi (random (MethodOptions.edraws e1)))]> out,
       (MethodOptions.draw random e1).2).
Proof.
  intros Hname Hrv Hrr. unfold MethodOptions.buildEntry.
  assert (Hn : String.eqb (oname o) "" = false) by (apply String.eqb_neq; exact Hname).
  rewrite Hn.
  assert (Hrv' : forall T (k1 : jsval -> list jsval -> T) (k2 : T),
            match orandomValues o with JArr (x :: l) => k1 x l | _ => k2 end = k2).
  { intros T k1 k2. destruct (orandomValues o) as [| | | | |[|x l]|]; try reflexivity.
    exfalso. apply (Hrv x l). reflexivity. }
  rewrite Hrv', Hrr.
  destruct (Double.gtb min max); cbv beta iota zeta.
  - destruct (Double.isInteger max && Double.isInteger min) eqn:Ei; [reflexivity|].
    unfold randomValue. rewrite Ei. reflexivity.
  - destruct (Double.isInteger min && Double.isInteger max) eqn:Ei; [reflexivity|].
    unfold randomValue. rewrite Ei. reflexivity.
Qed.

(** C5, as amended.  An option whose [randomRange] is [[min, max]] with
    numeric bounds and [min > max] is resolved without a throw: one warning
    about the swap is logged and the value is the one sampled from
    [[max, min]].  For finite bounds the value lies between [max] and [min]
    when the sampling arithmetic does not leave the doubles it is exact or
    finite on: integer bounds within [-2^53, 2^53] whose difference is below
    [2^53], or a non-integer bound and a difference that does not overflow.
    When a bound is not a number the static [value] is the result.
    [buildMethodOptions] of methodOptions.js resolves an entry (named,
    without [randomValues]) in the same way, the swap being reported to the
    [onSwapRandomRange] hook. *)
Theorem inverted_random_range_is_swapped
    (o : OptionValue) (a b : jsval) (s : State)
    (h : MethodOptions.Hooks) (out : gmap string jsval) (e : MethodOptions.Env) :
  orandomRange o = JArr [a; b] ->
  (forall min max : Double.num, a = JNum min -> b = JNum max -> Double.gtb min max = true ->
     resolveOption random o s
     = (Ok (oname o, JNum (randomValue max min (random (draws s)))),
        set_draws (S (draws s))
          (set_trace (trace s ++ [WarnSwapRandomRange (oname o) min max]) s))
     /\ (oname o <> "" -> (forall x l, orandomValues o <> JArr (x :: l)) ->
         exists v e',
           MethodOptions.buildEntry random h (out, e) o = (<[oname o := JNum v]> out, e')
           /\ (is_Some (MethodOptions.onSwapRandomRange h) ->
               MethodOptions.ecalls e' =
                 MethodOptions.ecalls e
                   ++ [MethodOptions.SwapRandomRange (oname o) min max])))
  /\ (forall min max : Q, a = JNum min -> b = JNum max -> (max < min)%Q ->
        Double.isDouble min -> Double.isDouble max -> samplable max min ->
        (exists v s',
           resolveOption random o s = (Ok (oname o, JNum (Double.Fin v)), s')
           /\ (max <= v <= min)%Q
           /\ trace s' = trace s ++ [WarnSwapRandomRange (oname o) min max])
        /\ (oname o <> "" -> (forall x l, orandomValues o <> JArr (x :: l)) ->
            exists v e',
              MethodOptions.buildEntry random h (out, e) o
              = (<[oname o := JNum (Double.Fin v)]> out, e')
              /\ (max <= v <= min)%Q))
  /\ (isNumber a = false \/ isNumber b = false ->
      resolveOption random o s =
        (Ok (oname o, ovalue o),
         set_trace (trace s ++ [WarnInvalidRandomRange (oname o) a b (ovalue o)]) s)
      /\ (oname o <> "" -> (forall x l, orandomValues o <> JArr (x :: l)) ->
          fst (MethodOptions.buildEntry random h (out, e) o) = <[oname o := ovalue o]> out)).
Proof.
  intros Hrr. split; [|split].
  - intros min max -> -> Hgt. split.
    + rewrite (resolveOption_numeric o min max s Hrr), Hgt. reflexivity.
    + intros Hname Hrv. rewrite (buildEntry_numeric h out e o min max Hname Hrv Hrr), Hgt.
      set (e1 := MethodOptions.callHook _ _ e).
      assert (Hcalls : is_Some (MethodOptions.onSwapRandomRange h) ->
                MethodOptions.ecalls e1 =
                  MethodOptions.ecalls e ++ [MethodOptions.SwapRandomRange (oname o) min max]).
      { intros [bh Hh]. unfold e1. rewrite Hh. reflexivity. }
      clearbody e1.
      destruct (Double.isInteger max && Double.isInteger min).
      * eexists _, _. split; [reflexivity|]. intros Hh. rewrite <- (Hcalls Hh).
        destruct (MethodOptions.canNoRepeat h); reflexivity.
      * eexists _, _. split; [reflexivity|]. exact Hcalls.
  - intros min max -> -> Hlt Hdmin Hdmax Hs.
    assert (Hgt : Double.gtb min max = true) by (apply Qgtb_lt; exact Hlt).
    split.
    + rewrite (resolveOption_numeric o min max s Hrr), Hgt.
      destruct (randomValue_bounds max min (random (draws s)) Hdmax Hdmin ltac:(lra) Hs
                  (random_double _) (random_unit _)) as (v & Hv & Hb).
      rewrite Hv. exists v. eexists. split; [reflexivity|]. split; [exact Hb | reflexivity].
    + intros Hname Hrv. rewrite (buildEntry_numeric h out e o min max Hname Hrv Hrr), Hgt.
      set (e1 := MethodOptions.callHook _ _ e). clearbody e1.
      cbn [Double.isInteger]. fold (isInteger max) (isInteger min).
      unfold samplable in Hs.
      destruct (isInteger max && isInteger min) eqn:Ei.
      * destruct (pickInteger_bounds
                    (bool_decide (is_Some ((fun p => p +:+ ":" +:+ oname o +:+ ":rrInt")
                                             <$> MethodOptions.canNoRepeat h)))
                    max min (random (MethodOptions.edraws e1))
                    (MethodOptions.cacheGet ((fun p => p +:+ ":" +:+ oname o +:+ ":rrInt")
                                               <$> MethodOptions.canNoRepeat h) e1)
                    Hdmax Hdmin Hs ltac:(lra) (random_double _) (random_unit _))
          as (z & _ & Hb & Hp).
        cbv zeta. rewrite Hp.
        destruct (safeIntegers_bounds max min Hdmax Hdmin Hs) as (E1 & E2 & B1 & B2 & B3).
        match goal with |- context [if ?c then _ else _] => destruct c end.
        -- destruct (Qgtb min (inject_Z z)) eqn:Eg.
           ++ exists (inject_Z (z + 1)). eexists. split; [reflexivity|].
              apply Qgtb_lt in Eg. rewrite E2 in Eg |- *. rewrite <- Zlt_Qlt in Eg.
              rewrite inject_Z_plus. change (inject_Z 1) with 1%Q.
              split; [lra|]. change 1%Q with (inject_Z 1).
              rewrite <- inject_Z_plus, <- Zle_Qle. lia.
           ++ exists max. eexists. split; [reflexivity|]. lra.
        -- exists (inject_Z z). eexists. split; [reflexivity | exact Hb].
      * destruct Hs as [d Hd].
        destruct (randomValue_floats max min (random (MethodOptions.edraws e1)) d
                    Hdmax Hdmin ltac:(lra) Ei Hd (random_double _) (random_unit _))
          as (v & Hv & Hb).
        cbv zeta. rewrite Hv. exists v. eexists. split; [reflexivity | exact Hb].
  - intros Hnum. split.
    + apply resolveOption_invalid; assumption.
    + intros Hname Hrv. unfold MethodOptions.buildEntry.
      assert (Hn : String.eqb (oname o) "" = false) by (apply String.eqb_neq; exact Hname).
      rewrite Hn.
      assert (Hrv' : forall T (k1 : jsval -> list jsval -> T) (k2 : T),
                match orandomValues o with JArr (x :: l) => k1 x l | _ => k2 end = k2).
      { intros T k1 k2. destruct (orandomValues o) as [| | | | |[|x l]|]; try reflexivity.
        exfalso. apply (Hrv x l). reflexivity. }
      rewrite Hrv', Hrr.
      destruct a, b; try reflexivity; destruct Hnum; discriminate.
Qed.

End OptionResolution.

Lemma half_unit : forall n : nat, (0 <= Sample.half n < 1)%Q.
Proof. intros n. split; [discriminate | reflexivity]. Qed.

Lemma zero_unit : forall n : nat, (0 <= Sample.zero n < 1)%Q.
Proof. intros n. split; [discriminate | reflexivity]. Qed.

Lemma half_double : forall n : nat, Double.isDouble (Sample.half n).
Proof. intros n. reflexivity. Qed.

Lemma inverted_random_range_is_swapped_witness :
  exists v s',
    resolveOption Sample.half Sample.inverted Sample.emptyState
    = (Ok ("x", JNum (Double.Fin v)), s')
    /\ (2 <= v <= 5)%Q
    /\ trace s' = [WarnSwapRandomRange "x" 5 2].
Proof.
  destruct (inverted_random_range_is_swapped Sample.half half_unit half_double Sample.inverted
              (JNum 5) (JNum 2) Sample.emptyState Sample.noHooks ∅ Sample.emptyEnv eq_refl)
    as (_ & H & _).
  destruct (H 5%Q 2%Q eq_refl eq_refl) as [H1 _];
    [reflexivity | reflexivity | reflexivity | |exact H1].
  repeat split; try reflexivity; discriminate.
Defined.

(** As the specification states it, the property fails when the arithmetic
    overflows: with [randomRange: [2^1023, -2^1023]] the difference of the
    swapped bounds is [Infinity], and so is the resolved value, which is
    above the greater bound. *)
Lemma inverted_range_overflows :
  resolveOption Sample.half Sample2.overflowing Sample.emptyState
  = (Ok ("x", JNum (Double.Inf false)),
     set_draws 1
       (set_trace [WarnSwapRandomRange "x" Sample2.huge (- Sample2.huge)%Q]
          Sample.emptyState))
  /\ Double.isDouble Sample2.huge /\ Double.isDouble (- Sample2.huge)
  /\ Double.gtb (Double.Inf false) Sample2.huge = true.
Proof.
  split; [|split; [|split]]; vm_compute; reflexivity.
Qed.

(** ** Sampling inside the range *)

Lemma almostOne_draw :
  Double.isDouble Sample2.greatestDraw /\ (0 <= Sample2.greatestDraw < 1)%Q
  /\ (1 - Double.pow2 (-53) <= Sample2.greatestDraw)%Q.
Proof.
  split; [vm_compute; reflexivity|]. split; [split; [discriminate | reflexivity]|].
  vm_compute. discriminate.
Qed.

Section Sampling.

Variable random : nat -> Q.
Hypothesis random_unit : forall n, (0 <= random n < 1)%Q.
Hypothesis random_double : forall n, Double.isDouble (random n).

(** C6, as amended.  For a numeric [randomRange] [[min, max]] of doubles with
    [min <= max] the resolved value is [randomValue min max r] for the draw
    [r] of [Math.random()].  With integer bounds within [-2^53, 2^53] whose
    difference is below [2^53] this is [floor(r * (max - min + 1)) + min], an
    integer between [min] and [max], and each bound is the value of some
    draw.  When a bound is not an integer and the difference does not
    overflow the value is [r * (max - min) + min], each operation rounded,
    and lies in the closed interval [[min, max]]. *)
Theorem random_range_sampling (o : OptionValue) (min max : Q) (s : State) :
  orandomRange o = JArr [JNum min; JNum max] ->
  Double.isDouble min -> Double.isDouble max -> (min <= max)%Q ->
  resolveOption random o s
  = (Ok (oname o, JNum (randomValue min max (random (draws s)))), set_draws (S (draws s)) s)
  /\ (safeIntegers min max ->
      randomValue min max (random (draws s))
      = Double.add
          (Double.floor (Double.mul (random (draws s)) (Double.add (Double.sub max min) 1)))
          min
      /\ (exists z : Z,
            randomValue min max (random (draws s)) = Double.Fin (inject_Z z)
            /\ (min <= inject_Z z <= max)%Q)
      /\ exists r0 r1 : Q,
           Double.isDouble r0 /\ Double.isDouble r1
           /\ (0 <= r0 < 1)%Q /\ (0 <= r1 < 1)%Q
           /\ randomValue min max r0 = Double.Fin min
           /\ randomValue min max r1 = Double.Fin max)
  /\ (isInteger min && isInteger max = false ->
      randomValue min max (random (draws s))
      = Double.add (Double.mul (random (draws s)) (Double.sub max min)) min
      /\ forall d, Double.sub max min = Double.Fin d ->
           exists v,
             randomValue min max (random (draws s)) = Double.Fin v /\ (min <= v <= max)%Q).
Proof.
  intros Hrr Hdmin Hdmax Hle.
  rewrite (resolveOption_numeric random o min max s Hrr).
  assert (Hng : Double.gtb min max = false) by (apply Qgtb_le; exact Hle).
  rewrite Hng. split; [reflexivity|].
  pose proof (random_unit (draws s)) as Hr. pose proof (random_double (draws s)) as Hrd.
  split.
  - intros Hsafe. pose proof Hsafe as (Hi1 & Hi2 & _).
    split.
    { unfold randomValue. cbn [Double.isInteger]. fold (isInteger min) (isInteger max).
      rewrite Hi1, Hi2. reflexivity. }
    split.
    { destruct (randomValue_integers min max _ Hdmin Hdmax Hsafe Hle Hrd Hr)
        as (z & Hz & Hb & _).
      exists z. split; assumption. }
    destruct almostOne_draw as (G1 & G2 & G3).
    destruct (randomValue_integers min max 0 Hdmin Hdmax Hsafe Hle
                ltac:(reflexivity) ltac:(split; [discriminate | reflexivity]))
      as (z0 & Hz0 & _ & H0 & _).
    destruct (randomValue_integers min max Sample2.greatestDraw Hdmin Hdmax Hsafe Hle G1 G2)
      as (z1 & Hz1 & _ & _ & H1).
    exists 0%Q, Sample2.greatestDraw.
    split; [reflexivity|]. split; [exact G1|].
    split; [split; [discriminate | reflexivity]|]. split; [exact G2|].
    split.
    + rewrite Hz0, (H0 ltac:(reflexivity)). reflexivity.
    + rewrite Hz1, (H1 G3). reflexivity.
  - intros Hni. split.
    { unfold randomValue. cbn [Double.isInteger]. fold (isInteger min) (isInteger max).
      rewrite Hni. reflexivity. }
    intros d Hd. by eapply randomValue_floats.
Qed.

End Sampling.

Lemma random_range_sampling_witness :
  resolveOption Sample.half Sample.dice Sample.emptyState
  = (Ok ("x", JNum 4), set_draws 1 Sample.emptyState)
  /\ exists z : Z,
       randomValue 2 5 (Sample.half 0) = Double.Fin (inject_Z z) /\ (2 <= inject_Z z <= 5)%Q.
Proof.
  destruct (random_range_sampling Sample.half half_unit half_double Sample.dice 2 5
              Sample.emptyState eq_refl ltac:(reflexivity) ltac:(reflexivity)
              ltac:(discriminate)) as (Hv & Hint & _).
  split; [exact Hv|].
  destruct (Hint ltac:(repeat split; try reflexivity; discriminate)) as (_ & Hz & _).
  exact Hz.
Defined.

(** As the specification states it, the property fails: the upper bound of a
    range with a non-integer bound is reached.  With
    [randomRange: [1.1, 2.2]] and the draw [1 - 2^-52] the product is
    rounded to the double below [1.1], and the sum to [2.2]; with
    [randomRange: [0.5, 0.5]] the value is [0.5], and the interval is
    empty.  With the integer bounds [-2^1023] and [2^1023] the number of
    values overflows, and the value for the draw [1/2] is [Infinity]. *)
Lemma sampled_value_leaves_the_stated_interval :
  resolveOption Sample2.almostOne Sample2.tenths Sample.emptyState
  = (Ok ("x", JNum Sample2.twoPointTwo), set_draws 1 Sample.emptyState)
  /\ isInteger Sample2.onePointOne && isInteger Sample2.twoPointTwo = false
  /\ Double.isDouble Sample2.onePointOne /\ Double.isDouble Sample2.twoPointTwo
  /\ Double.isDouble (Sample2.almostOne 0) /\ (0 <= Sample2.almostOne 0 < 1)%Q
  /\ ~ (Sample2.onePointOne <= Sample2.twoPointTwo < Sample2.twoPointTwo)%Q
  /\ resolveOption Sample.zero Sample.degenerate Sample.emptyState
     = (Ok ("x", JNum (1 # 2)), set_draws 1 Sample.emptyState)
  /\ isInteger (- Sample2.huge) && isInteger Sample2.huge = true
  /\ randomValue (- Sample2.huge)%Q Sample2.huge (Sample.half 0) = Double.Inf false.
Proof.
  split; [vm_compute; reflexivity|]. split; [reflexivity|].
  split; [vm_compute; reflexivity|]. split; [vm_compute; reflexivity|].
  split; [vm_compute; reflexivity|]. split; [split; [discriminate | reflexivity]|].
  split; [intros [_ H]; revert H; vm_compute; discriminate|].
  split; [vm_compute; reflexivity|]. split; vm_compute; reflexivity.
Qed.

(** ** Module registry *)

Ltac unfold_m :=
  unfold mbind, M_bind, bind, mret, M_ret, ret, gets, modify, emit, throw, try_catch.

Ltac run_m := repeat progress (unfold_m; cbn).

Section ModuleRegistry.

Variable importModule : string -> nat -> option ModuleClass.

(** A load that misses the cache starts one import, the next of the
    program, and returns or throws as that import does. *)
Lemma awaitLoadModuleClass_miss (t : string) (s : State) :
  t <> "" -> moduleClassCache s !! t = None ->
  awaitLoadModuleClass importModule t s =
    let s' := set_trace (trace s ++ [Import t]) (set_imports (S (imports s)) s) in
    match importModule t (imports s) with
    | Some c =>
        (Ok (Some c), set_moduleClassCache (<[t := imports s]> (moduleClassCache s)) s')
    | None => (Raise (ImportError t), set_moduleClassCache (moduleClassCache s) s')
    end.
Proof.
  intros Ht Hmiss. unfold awaitLoadModuleClass, loadModuleClass.
  destruct (decide (t = "")) as [|_]; [done|].
  unfold_m. rewrite Hmiss. cbn.
  destruct (importModule t (imports s)) as [c|]; [reflexivity|].
  unfold_m. cbn. rewrite lookup_insert_eq.
  destruct (decide (Some (imports s) = Some (imports s))) as [_|]; [|done].
  unfold set_moduleClassCache at 1. cbn. rewrite delete_insert_id by exact Hmiss. reflexivity.
Qed.

(** A load that hits the cache starts no import. *)
Lemma awaitLoadModuleClass_hit (t : string) (n : nat) (s : State) :
  t <> "" -> moduleClassCache s !! t = Some n ->
  awaitLoadModuleClass importModule t s =
    match importModule t n with
    | Some c => (Ok (Some c), s)
    | None => (Raise (ImportError t), set_moduleClassCache (delete t (moduleClassCache s)) s)
    end.
Proof.
  intros Ht Hhit. unfold awaitLoadModuleClass, loadModuleClass.
  destruct (decide (t = "")) as [|_]; [done|].
  unfold_m. rewrite Hhit. cbn.
  destruct (importModule t n) as [c|]; [reflexivity|].
  unfold_m. cbn. rewrite Hhit.
  destruct (decide (Some n = Some n)) as [_|]; [|done]. reflexivity.
Qed.

(** C8. A load of a module type that fails leaves no entry for the type in
    [moduleClassCache], so the next load of the type starts a new import and
    returns what that import gives; a load that succeeds leaves its entry,
    and the next load returns the same class without an import. *)
Theorem failed_load_is_purged (t : string) (s : State) :
  (forall e s1,
     awaitLoadModuleClass importModule t s = (Raise e, s1) ->
     moduleClassCache s1 !! t = None
     /\ exists r s2,
          awaitLoadModuleClass importModule t s1 = (r, s2)
          /\ trace s2 = trace s1 ++ [Import t]
          /\ imports s2 = S (imports s1)
          /\ r = match importModule t (imports s1) with
                 | Some c => Ok (Some c)
                 | None => Raise (ImportError t)
                 end)
  /\ (forall c s1,
        awaitLoadModuleClass importModule t s = (Ok (Some c), s1) ->
        is_Some (moduleClassCache s1 !! t)
        /\ awaitLoadModuleClass importModule t s1 = (Ok (Some c), s1)).
Proof.
  destruct (decide (t = "")) as [->|Ht].
  { split; intros ? s1 H; cbv in H; discriminate. }
  assert (Hretry : forall s1, moduleClassCache s1 !! t = None ->
            exists r s2,
              awaitLoadModuleClass importModule t s1 = (r, s2)
              /\ trace s2 = trace s1 ++ [Import t]
              /\ imports s2 = S (imports s1)
              /\ r = match importModule t (imports s1) with
                     | Some c => Ok (Some c)
                     | None => Raise (ImportError t)
                     end).
  { intros s1 Hnone. rewrite (awaitLoadModuleClass_miss t s1 Ht Hnone). cbv zeta.
    destruct (importModule t (imports s1)); eexists _, _; (split; [reflexivity|]); done. }
  destruct (moduleClassCache s !! t) as [n|] eqn:Hc.
  - rewrite (awaitLoadModuleClass_hit t n s Ht Hc).
    destruct (importModule t n) as [c|] eqn:Hi; split; intros ? s1 H;
      inversion H; subst; clear H.
    + split; [rewrite Hc; eauto|].
      rewrite (awaitLoadModuleClass_hit t n s1 Ht Hc), Hi. reflexivity.
    + assert (Hnone : moduleClassCache
                        (set_moduleClassCache (delete t (moduleClassCache s)) s) !! t = None)
        by apply lookup_delete_eq.
      split; [exact Hnone|]. apply Hretry, Hnone.
  - rewrite (awaitLoadModuleClass_miss t s Ht Hc). cbv zeta.
    destruct (importModule t (imports s)) as [c|] eqn:Hi; split; intros ? s1 H;
      inversion H; subst; clear H.
    + assert (Hsome : moduleClassCache
                        (set_moduleClassCache (<[t:=imports s]> (moduleClassCache s))
                           (set_trace (trace s ++ [Import t]) (set_imports (S (imports s)) s)))
                      !! t = Some (imports s)) by apply lookup_insert_eq.
      split; [rewrite Hsome; eauto|].
      rewrite (awaitLoadModuleClass_hit t _ _ Ht Hsome), Hi. reflexivity.
    + split; [exact Hc|]. apply Hretry, Hc.
Qed.

End ModuleRegistry.

(** A first load of "Frame" fails and is purged; the second load imports
    again and succeeds; the third is served from the cache. *)
Example retry_after_failed_load :
  exists s1 s2,
    awaitLoadModuleClass Sample.flaky "Frame" Sample.emptyState
      = (Raise (ImportError "Frame"), s1)
    /\ moduleClassCache s1 !! "Frame" = None
    /\ awaitLoadModuleClass Sample.flaky "Frame" s1 = (Ok (Some Sample.frame), s2)
    /\ trace s2 = [Import "Frame"; Import "Frame"]
    /\ awaitLoadModuleClass Sample.flaky "Frame" s2 = (Ok (Some Sample.frame), s2).
Proof.
  destruct (failed_load_is_purged Sample.flaky "Frame" Sample.emptyState) as [Hfail _].
  destruct (Hfail (ImportError "Frame")
              (set_moduleClassCache ∅
                 (set_trace [Import "Frame"] (set_imports 1%nat Sample.emptyState))))
    as (Hnone & r & s2 & Hretry & Htrace & _ & Hr).
  { rewrite awaitLoadModuleClass_miss; [reflexivity|done|reflexivity]. }
  eexists _, s2. split.
  { rewrite awaitLoadModuleClass_miss; [reflexivity|done|reflexivity]. }
  split; [exact Hnone|]. cbn in Hr. subst r.
  split; [exact Hretry|]. split; [exact Htrace|].
  destruct (failed_load_is_purged Sample.flaky "Frame"
              (set_moduleClassCache ∅
                 (set_trace [Import "Frame"] (set_imports 1%nat Sample.emptyState))))
    as [_ Hok].
  exact (proj2 (Hok _ _ Hretry)).
Defined.

(** ** Channel router *)

Section ChannelRouter.

Lemma addTarget_other t map entry c :
  entry.1 <> c -> addTarget t map entry !! c = map !! c.
Proof.
  intros Hne. unfold addTarget.
  destruct entry.2 as [|[|m l]]; try reflexivity.
  by rewrite lookup_insert_ne.
Qed.

Lemma foldl_addTarget_absent t (l : list (string * MethodsEntry)) map c :
  c ∉ l.*1 -> foldl (addTarget t) map l !! c = map !! c.
Proof.
  revert map. induction l as [|[k e] l IH]; intros map Hc; [reflexivity|].
  cbn in Hc. apply not_elem_of_cons in Hc as [Hk Hl].
  cbn [foldl]. rewrite IH by exact Hl. apply addTarget_other. cbn. congruence.
Qed.

Lemma foldl_addTarget t (l : list (string * MethodsEntry)) map c :
  NoDup l.*1 ->
  foldl (addTarget t) map l !! c =
    if existsb (fun entry => bool_decide (entry.1 = c) && nonEmptyMethods entry.2) l
    then Some (default [] (map !! c) ++ [t])
    else map !! c.
Proof.
  revert map. induction l as [|[k e] l IH]; intros map Hnd; [reflexivity|].
  cbn in Hnd. apply NoDup_cons in Hnd as [Hk Hnd].
  cbn [foldl existsb fst snd].
  destruct (decide (k = c)) as [->|Hkc].
  - rewrite bool_decide_eq_true_2 by reflexivity. cbn [andb].
    rewrite foldl_addTarget_absent by exact Hk.
    unfold addTarget. cbn [fst snd].
    destruct e as [|[|m ms]]; cbn [nonEmptyMethods orb].
    + destruct (existsb _ l) eqn:E; [|reflexivity].
      exfalso. apply existsb_exists in E as ([k' e'] & Hin & Hp).
      apply andb_true_iff in Hp as [Hp _]. apply bool_decide_eq_true in Hp.
      cbn in Hp. subst k'. apply Hk. apply list_elem_of_fmap.
      exists (c, e'). split; [reflexivity|]. apply list_elem_of_In. exact Hin.
    + destruct (existsb _ l) eqn:E; [|reflexivity].
      exfalso. apply existsb_exists in E as ([k' e'] & Hin & Hp).
      apply andb_true_iff in Hp as [Hp _]. apply bool_decide_eq_true in Hp.
      cbn in Hp. subst k'. apply Hk. apply list_elem_of_fmap.
      exists (c, e'). split; [reflexivity|]. apply list_elem_of_In. exact Hin.
    + by rewrite lookup_insert_eq.
  - rewrite bool_decide_eq_false_2 by exact Hkc. cbn [andb orb].
    rewrite IH by exact Hnd.
    rewrite (addTarget_other t map (k, e) c) by exact Hkc. reflexivity.
Qed.

Lemma existsb_map_to_list (m : gmap string MethodsEntry) (c : string) :
  existsb (fun entry => bool_decide (entry.1 = c) && nonEmptyMethods entry.2) (map_to_list m)
  = match m !! c with Some e => nonEmptyMethods e | None => false end.
Proof.
  destruct (existsb _ (map_to_list m)) eqn:E.
  - apply existsb_exists in E as ([k e] & Hin & Hp).
    apply andb_true_iff in Hp as [Hk He]. apply bool_decide_eq_true in Hk.
    cbn in Hk, He. subst k.
    apply list_elem_of_In, elem_of_map_to_list in Hin. rewrite Hin. by rewrite He.
  - destruct (m !! c) as [e|] eqn:Hc; [|reflexivity].
    destruct (nonEmptyMethods e) eqn:He; [|reflexivity].
    exfalso. apply not_true_iff_false in E. apply E.
    apply existsb_exists. exists (c, e). split.
    + apply list_elem_of_In, elem_of_map_to_list. exact Hc.
    + cbn. rewrite He. by rewrite bool_decide_eq_true_2.
Qed.

Lemma addPlacement_lookup track map r c :
  addPlacement track map r !! c =
    if hasChannelMethods track c r
    then Some (default [] (map !! c) ++ [mkTarget (rid r) (rtype r)])
    else map !! c.
Proof.
  unfold addPlacement, hasChannelMethods.
  destruct (modulesData track !! rid r) as [d|]; [|reflexivity].
  rewrite foldl_addTarget by apply NoDup_fst_map_to_list.
  rewrite existsb_map_to_list. reflexivity.
Qed.

Lemma foldl_addPlacement track (ms : list ModuleRef) map c :
  foldl (addPlacement track) map ms !! c =
    match List.map (fun r => mkTarget (rid r) (rtype r))
            (List.filter (hasChannelMethods track c) ms) with
    | [] => map !! c
    | t :: ts => Some (default [] (map !! c) ++ t :: ts)
    end.
Proof.
  revert map. induction ms as [|r ms IH]; intros map; [reflexivity|].
  cbn [foldl List.filter]. rewrite IH, addPlacement_lookup.
  destruct (hasChannelMethods track c r); cbn [List.map]; [|reflexivity].
  destruct (List.map _ (List.filter _ ms)) as [|t ts]; cbn [default]; [reflexivity|].
  unfold id. by rewrite <- app_assoc.
Qed.

(** C7. For every track and channel number, the map built by
    [buildChannelHandlerMap] holds under the channel exactly the
    [{ instanceId, moduleType }] pairs of the placements whose data has a
    non-empty method list for the channel, in placement order, and no entry
    when there is none; the track of the example of the specification gives
    [{"3": [{P1, its type}]}]. *)
Theorem channel_handler_map_lists_targets (track : Track) (channelNumber : string) :
  buildChannelHandlerMap track !! channelNumber =
    match channelTargets track channelNumber with
    | [] => None
    | targets => Some targets
    end
  /\ buildChannelHandlerMap Sample.twoPlacements = {[ "3" := [mkTarget "P1" "Frame"] ]}.
Proof.
  split; [|by vm_compute].
  unfold buildChannelHandlerMap, channelTargets.
  destruct (modules track) as [ms|]; [|reflexivity].
  rewrite foldl_addPlacement. cbn [default].
  destruct (List.map _ _); reflexivity.
Qed.

End ChannelRouter.

(** ** Rules for [steps] and [fueled] *)

#[global] Instance appends_preorder (P : Event -> Prop) : PreOrder (appends P).
Proof.
  split.
  - intros s. exists []. split; [by rewrite app_nil_r | constructor].
  - intros s1 s2 s3 (e1 & H1 & F1) (e2 & H2 & F2). exists (e1 ++ e2). split.
    + by rewrite H2, H1, app_assoc.
    + by apply Forall_app.
Qed.

Section Rules.

Context (R : State -> State -> Prop) `{!PreOrder R}.

Lemma steps_ret {A} (a : A) : steps R (mret a).
Proof. intros s r s' H. inversion H. reflexivity. Qed.

Lemma steps_throw {A} (e : Exn) : steps R (@throw A e).
Proof. intros s r s' H. inversion H. reflexivity. Qed.

Lemma steps_gets {A} (f : State -> A) : steps R (gets f).
Proof. intros s r s' H. inversion H. reflexivity. Qed.

Lemma steps_hang {A} : steps R (@hang A).
Proof. intros s r s' H. inversion H. reflexivity. Qed.

Lemma steps_modify (f : State -> State) : (forall s, R s (f s)) -> steps R (modify f).
Proof. intros Hf s r s' H. inversion H. apply Hf. Qed.

Lemma steps_bind {A B} (m : M A) (k : A -> M B) :
  steps R m -> (forall a, steps R (k a)) -> steps R (m ≫= k).
Proof.
  intros Hm Hk s r s' H. unfold mbind, M_bind, bind in H.
  destruct (m s) as [[a|e| |] s1] eqn:E.
  - etransitivity; [exact (Hm _ _ _ E) | exact (Hk _ _ _ _ H)].
  - inversion H; subst. exact (Hm _ _ _ E).
  - inversion H; subst. exact (Hm _ _ _ E).
  - inversion H; subst. exact (Hm _ _ _ E).
Qed.

Lemma steps_try_catch {A} (m : M A) (h : Exn -> M A) :
  steps R m -> (forall e, steps R (h e)) -> steps R (try_catch m h).
Proof.
  intros Hm Hh s r s' H. unfold try_catch in H.
  destruct (m s) as [[a|e| |] s1] eqn:E.
  - inversion H; subst. exact (Hm _ _ _ E).
  - etransitivity; [exact (Hm _ _ _ E) | exact (Hh _ _ _ _ H)].
  - inversion H; subst. exact (Hm _ _ _ E).
  - inversion H; subst. exact (Hm _ _ _ E).
Qed.

Lemma steps_animationFrame {A} (m : M A) : steps R m -> steps R (animationFrame m).
Proof.
  intros Hm s r s' H. unfold animationFrame in H.
  destruct (m s) as [[a|e| |] s1] eqn:E; inversion H; subst; exact (Hm _ _ _ E).
Qed.

Lemma steps_detached (i : string) (m : M unit) :
  steps R m ->
  (forall s e, R s (set_trace (trace s ++ [UnhandledRejection i e]) s)) ->
  steps R (detached i m).
Proof.
  intros Hm He s r s' H. unfold detached in H.
  destruct (m s) as [[a|e| |] s1] eqn:E; inversion H; subst; try exact (Hm _ _ _ E).
  etransitivity; [exact (Hm _ _ _ E) | apply He].
Qed.

Lemma steps_forEach {A} (f : A -> M unit) (l : list A) :
  (forall x, steps R (f x)) -> steps R (forEach f l).
Proof.
  intros Hf. induction l as [|x l IH]; cbn [forEach].
  - apply steps_ret.
  - apply steps_bind; [apply Hf | intros _; exact IH].
Qed.

Lemma steps_promiseAll {A} (f : A -> M unit) (l : list A) :
  (forall x, steps R (f x)) -> steps R (promiseAll f l).
Proof.
  intros Hf. induction l as [|x l IH]; cbn [promiseAll].
  - apply steps_ret.
  - intros s r s' H.
    destruct (f x s) as [[a|e| |] s1] eqn:E.
    + etransitivity; [exact (Hf _ _ _ _ E) | exact (IH _ _ _ H)].
    + destruct (promiseAll f l s1) as [[a|e'| |] s2] eqn:E2; inversion H; subst;
        (etransitivity; [exact (Hf _ _ _ _ E) | exact (IH _ _ _ E2)]).
    + inversion H; subst. exact (Hf _ _ _ _ E).
    + destruct (promiseAll f l s1) as [[a|e'| |] s2] eqn:E2; inversion H; subst;
        (etransitivity; [exact (Hf _ _ _ _ E) | exact (IH _ _ _ E2)]).
Qed.

Lemma steps_mapM {A B} (f : A -> M B) (l : list A) :
  (forall x, steps R (f x)) -> steps R (mapM f l).
Proof.
  intros Hf. induction l as [|x l IH]; cbn [mapM].
  - apply steps_ret.
  - apply steps_bind; [apply Hf | intros y].
    apply steps_bind; [exact IH | intros ys; apply steps_ret].
Qed.

Lemma steps_foldM {A B} (f : B -> A -> M B) (l : list A) (b : B) :
  (forall b x, steps R (f b x)) -> steps R (foldM f b l).
Proof.
  intros Hf. revert b. induction l as [|x l IH]; intros b; cbn [foldM].
  - apply steps_ret.
  - apply steps_bind; [apply Hf | intros b'; apply IH].
Qed.

End Rules.

Lemma fueled_ret {A} (a : A) : fueled (mret a).
Proof. intros s s' H. inversion H. Qed.

Lemma fueled_throw {A} (e : Exn) : fueled (@throw A e).
Proof. intros s s' H. inversion H. Qed.

Lemma fueled_gets {A} (f : State -> A) : fueled (gets f).
Proof. intros s s' H. inversion H. Qed.

Lemma fueled_hang {A} : fueled (@hang A).
Proof. intros s s' H. inversion H. Qed.

Lemma fueled_modify (f : State -> State) : fueled (modify f).
Proof. intros s s' H. inversion H. Qed.

Lemma fueled_emit (e : Event) : fueled (emit e).
Proof. apply fueled_modify. Qed.

Lemma fueled_bind {A B} (m : M A) (k : A -> M B) :
  fueled m -> (forall a, fueled (k a)) -> fueled (m ≫= k).
Proof.
  intros Hm Hk s s' H. unfold mbind, M_bind, bind in H.
  destruct (m s) as [[a|e| |] s1] eqn:E.
  - exact (Hk _ _ _ H).
  - inversion H.
  - exact (Hm _ _ E).
  - inversion H.
Qed.

Lemma fueled_try_catch {A} (m : M A) (h : Exn -> M A) :
  fueled m -> (forall e, fueled (h e)) -> fueled (try_catch m h).
Proof.
  intros Hm Hh s s' H. unfold try_catch in H.
  destruct (m s) as [[a|e| |] s1] eqn:E.
  - inversion H.
  - exact (Hh _ _ _ H).
  - exact (Hm _ _ E).
  - inversion H.
Qed.

Lemma fueled_animationFrame {A} (m : M A) : fueled m -> fueled (animationFrame m).
Proof.
  intros Hm s s' H. unfold animationFrame in H.
  destruct (m s) as [[a|e| |] s1] eqn:E; inversion H; subst. exact (Hm _ _ E).
Qed.

Lemma fueled_detached (i : string) (m : M unit) : fueled m -> fueled (detached i m).
Proof.
  intros Hm s s' H. unfold detached in H.
  destruct (m s) as [[a|e| |] s1] eqn:E; inversion H; subst. exact (Hm _ _ E).
Qed.

Lemma fueled_forEach {A} (f : A -> M unit) (l : list A) :
  (forall x, fueled (f x)) -> fueled (forEach f l).
Proof.
  intros Hf. induction l as [|x l IH]; cbn [forEach].
  - apply fueled_ret.
  - apply fueled_bind; [apply Hf | intros _; exact IH].
Qed.

Lemma fueled_promiseAll {A} (f : A -> M unit) (l : list A) :
  (forall x, fueled (f x)) -> fueled (promiseAll f l).
Proof.
  intros Hf. induction l as [|x l IH]; cbn [promiseAll].
  - apply fueled_ret.
  - intros s s' H.
    destruct (f x s) as [[a|e| |] s1] eqn:E.
    + exact (IH _ _ H).
    + destruct (promiseAll f l s1) as [[a|e'| |] s2] eqn:E2; inversion H; subst.
      exact (IH _ _ E2).
    + exact (Hf _ _ _ E).
    + destruct (promiseAll f l s1) as [[a|e'| |] s2] eqn:E2; inversion H; subst.
      exact (IH _ _ E2).
Qed.

Lemma fueled_mapM {A B} (f : A -> M B) (l : list A) :
  (forall x, fueled (f x)) -> fueled (mapM f l).
Proof.
  intros Hf. induction l as [|x l IH]; cbn [mapM].
  - apply fueled_ret.
  - apply fueled_bind; [apply Hf | intros y].
    apply fueled_bind; [exact IH | intros ys; apply fueled_ret].
Qed.

Lemma fueled_foldM {A B} (f : B -> A -> M B) (l : list A) (b : B) :
  (forall b x, fueled (f b x)) -> fueled (foldM f b l).
Proof.
  intros Hf. revert b. induction l as [|x l IH]; intros b; cbn [foldM].
  - apply fueled_ret.
  - apply fueled_bind; [apply Hf | intros b'; apply IH].
Qed.

(** ** Track deactivation *)

Lemma set_trace_same (s : State) : set_trace (trace s) s = s.
Proof. by destruct s. Qed.

Lemma bind_run {A B} (m : M A) (k : A -> M B) (s s1 : State) (a : A) :
  m s = (Ok a, s1) -> (m ≫= k) s = k a s1.
Proof. intros H. unfold mbind, M_bind, bind. by rewrite H. Qed.

Lemma destroyGuarded_run (instanceId : string) (i : Instance) (s : State) :
  destroyGuarded instanceId i s =
    (Ok tt, set_trace (trace s ++ destroyEvents instanceId i) s).
Proof.
  unfold destroyGuarded, destroyInstance, destroyEvents.
  destruct (assoc "destroy" (imethods i)) as [[|]|]; run_m.
  - reflexivity.
  - by rewrite <- app_assoc.
  - by rewrite app_nil_r, set_trace_same.
Qed.

Lemma forEach_destroyGuarded (instanceId : string) (l : list Instance) (s : State) :
  forEach (destroyGuarded instanceId) l s =
    (Ok tt, set_trace (trace s ++ flat_map (destroyEvents instanceId) l) s).
Proof.
  revert s. induction l as [|i l IH]; intros s; cbn [forEach flat_map].
  - cbn. by rewrite app_nil_r, set_trace_same.
  - rewrite (bind_run _ _ _ _ _ (destroyGuarded_run instanceId i s)), IH.
    cbn. by rewrite <- app_assoc.
Qed.

Lemma forEach_destroyRegistry (registry : list (string * list Instance)) (s : State) :
  forEach (fun entry => forEach (destroyGuarded entry.1) entry.2) registry s =
    (Ok tt, set_trace (trace s ++ teardownEvents registry) s).
Proof.
  revert s. induction registry as [|[id l] reg IH]; intros s;
    cbn [forEach teardownEvents flat_map fst snd].
  - cbn. by rewrite app_nil_r, set_trace_same.
  - rewrite (bind_run _ _ _ _ _ (forEach_destroyGuarded id l s)), IH.
    cbn. by rewrite <- app_assoc.
Qed.

Lemma destroyAll_run (s : State) :
  destroyAll s = (Ok tt, set_trace (trace s ++ teardownEvents (activeModules s)) s).
Proof. unfold destroyAll. unfold_m. apply forEach_destroyRegistry. Qed.

Lemma removeAndRelease_run (e : Elem) (s : State) :
  exists P C, removeAndRelease e s = (Ok tt, set_pool P (set_modulesContainer C s)).
Proof.
  unfold removeAndRelease, ElementPool.releaseElement. unfold_m.
  destruct (List.find _ (classList e)).
  - eexists _, _. reflexivity.
  - exists (pool s), ((fun children => filter (fun e' => eid e' ≠ eid e) children)
                      <$> modulesContainer s).
    cbn. by destruct s.
Qed.

Lemma forEach_removeAndRelease (l : list Elem) (s : State) :
  exists P C, forEach removeAndRelease l s = (Ok tt, set_pool P (set_modulesContainer C s)).
Proof.
  revert s. induction l as [|e l IH]; intros s; cbn [forEach].
  - exists (pool s), (modulesContainer s). by destruct s.
  - destruct (removeAndRelease_run e s) as (P1 & C1 & H1).
    destruct (IH (set_pool P1 (set_modulesContainer C1 s))) as (P2 & C2 & H2).
    exists P2, C2. rewrite (bind_run _ _ _ _ _ H1), H2. reflexivity.
Qed.

Lemma releaseAll_run (s : State) :
  exists P C, releaseAll s = (Ok tt, set_pool P (set_modulesContainer C s)).
Proof. unfold releaseAll. unfold_m. apply forEach_removeAndRelease. Qed.

(** Deactivation returns.  Past its guards it calls [destroy] on every
    instance of the registry, logging the ones that throw, and clears the
    active track, the registry and the handler map; stopped by a guard it
    leaves them as they are. *)
Lemma deactivateActiveTrack_run (s : State) :
  exists s',
    deactivateActiveTrack s = (Ok tt, s')
    /\ if willDeactivate s
       then activeTrack s' = None /\ activeModules s' = []
            /\ activeChannelHandlers s' = ∅
            /\ trace s' = trace s ++ teardownEvents (activeModules s)
       else activeTrack s' = activeTrack s /\ activeModules s' = activeModules s
            /\ activeChannelHandlers s' = activeChannelHandlers s
            /\ trace s' = trace s.
Proof.
  unfold deactivateActiveTrack, willDeactivate. unfold_m. cbn.
  destruct (activeTrack s) as [t|] eqn:Et; cbn; [|eexists; split; [reflexivity|done]].
  destruct (isDeactivating s) eqn:Ed; cbn; [eexists; split; [reflexivity|done]|].
  destruct (modulesContainer s) as [allModules|] eqn:Ec; cbn.
  - rewrite destroyAll_run. cbn.
    match goal with |- context [releaseAll ?s1] =>
      destruct (releaseAll_run s1) as (P & C & Hrel); rewrite Hrel
    end.
    eexists. split; [reflexivity|]. cbn. done.
  - eexists. split; [reflexivity|]. cbn. done.
Qed.

Lemma destroy_in_teardownEvents (registry : list (string * list Instance))
    (instanceId : string) (instances : list Instance) (i : Instance) :
  (instanceId, instances) ∈ registry -> i ∈ instances ->
  is_Some (assoc "destroy" (imethods i)) ->
  Destroy (iid i) ∈ teardownEvents registry.
Proof.
  intros Hreg Hi [b Hb]. unfold teardownEvents.
  apply list_elem_of_In, in_flat_map. exists (instanceId, instances).
  split; [by apply list_elem_of_In|]. cbn [fst snd].
  apply in_flat_map. exists i. split; [by apply list_elem_of_In|].
  unfold destroyEvents. rewrite Hb. destruct b; left; reflexivity.
Qed.

Section TrackSelection.

Variable random : nat -> Q.
Variable importModule : string -> nat -> option ModuleClass.

(** C2, as amended.  For a track name that no track of [userData] bears,
    [handleTrackSelection] logs the error and returns, without a throw, after
    running [deactivateActiveTrack]: when a track is active, no deactivation
    is in flight and the modules container exists, the active track becomes
    [null] and [activeModules] and the channel handler map become empty;
    otherwise the three are left as they are. *)
Theorem unknown_track_deactivates (fuel : nat) (trackName : string) (s : State) :
  List.find (fun t => bool_decide (tname t = trackName)) (userData s) = None ->
  exists s',
    handleTrackSelection random importModule fuel trackName s = (Ok tt, s')
    /\ (exists evs, trace s' = trace s ++ ErrTrackNotFound trackName :: evs)
    /\ if willDeactivate s
       then activeTrack s' = None /\ activeModules s' = []
            /\ activeChannelHandlers s' = ∅
       else activeTrack s' = activeTrack s /\ activeModules s' = activeModules s
            /\ activeChannelHandlers s' = activeChannelHandlers s.
Proof.
  intros Hfind. unfold handleTrackSelection.
  rewrite (bind_run _ _ s s None) by (unfold gets; by rewrite Hfind).
  set (s1 := set_trace (trace s ++ [ErrTrackNotFound trackName]) s).
  rewrite (bind_run _ _ s s1 tt) by reflexivity.
  destruct (deactivateActiveTrack_run s1) as (s' & Hrun & Hstate).
  exists s'. split; [exact Hrun|].
  change (willDeactivate s1) with (willDeactivate s) in Hstate.
  destruct (willDeactivate s).
  - destruct Hstate as (Ht & Hm & Hh & Htr). split; [|done].
    exists (teardownEvents (activeModules s)). rewrite Htr. cbn. by rewrite <- app_assoc.
  - destruct Hstate as (Ht & Hm & Hh & Htr). split; [|done].
    exists []. rewrite Htr. reflexivity.
Qed.

End TrackSelection.

Lemma unknown_track_deactivates_witness :
  List.find (fun t => bool_decide (tname t = "Nowhere")) (userData Sample.activeA) = None
  /\ exists s',
       handleTrackSelection Sample.half Sample.always 3 "Nowhere" Sample.activeA = (Ok tt, s')
       /\ activeTrack s' = None /\ activeModules s' = [] /\ activeChannelHandlers s' = ∅.
Proof.
  split; [reflexivity|].
  destruct (unknown_track_deactivates Sample.half Sample.always 3 "Nowhere" Sample.activeA
              eq_refl) as (s' & Hrun & _ & Hstate).
  exists s'. split; [exact Hrun | exact Hstate].
Defined.

(** As the specification states it, the property fails: selecting a track
    that does not exist while
    "A" is active leaves no active track and an empty registry. *)
Lemma unknown_track_changes_state :
  List.find (fun t => bool_decide (tname t = "Nowhere")) (userData Sample.activeA) = None
  /\ exists s',
       handleTrackSelection Sample.half Sample.always 3 "Nowhere" Sample.activeA = (Ok tt, s')
       /\ activeTrack s' <> activeTrack Sample.activeA
       /\ activeModules s' <> activeModules Sample.activeA.
Proof.
  split; [reflexivity|].
  eexists. split; [vm_compute; reflexivity|]. split; discriminate.
Qed.

(** ** Teardown of live instances *)

(** C4.  Track deactivation isolates a throwing [destroy]: every instance of
    the registry that has a [destroy] function has it called, each throw is
    logged for its instance, and deactivation returns.  The teardown at the
    start of [updateMatrix] does not: with the instances [faulty] and [sound]
    registered for "p", the throw of the first [destroy] leaves [updateMatrix]
    at once; [destroy] of the second instance is never called and the registry
    entry is not reset. *)
Theorem rematerialization_teardown_is_unguarded :
  (forall s, willDeactivate s = true ->
     exists s',
       deactivateActiveTrack s = (Ok tt, s')
       /\ trace s' = trace s ++ teardownEvents (activeModules s)
       /\ forall instanceId instances i,
            (instanceId, instances) ∈ activeModules s -> i ∈ instances ->
            is_Some (assoc "destroy" (imethods i)) ->
            Destroy (iid i) ∈ teardownEvents (activeModules s))
  /\ exists s',
       updateMatrix Sample.half Sample.always 2 "p" [] Sample.activeA
         = (Raise (MethodError 1 "destroy"), s')
       /\ trace s' = [Destroy 1]
       /\ ~ (Destroy 2 ∈ trace s')
       /\ activeModules s' = [("p", [Sample.faulty; Sample.sound])].
Proof.
  split.
  - intros s Hw. destruct (deactivateActiveTrack_run s) as (s' & Hrun & Hstate).
    rewrite Hw in Hstate. destruct Hstate as (_ & _ & _ & Htr).
    exists s'. split; [exact Hrun|]. split; [exact Htr|].
    intros id insts i. apply destroy_in_teardownEvents.
  - eexists. split; [vm_compute; reflexivity|].
    split; [reflexivity|]. split; [|reflexivity].
    cbn. intros H. apply list_elem_of_In in H. destruct H as [H|[]]. discriminate.
Qed.

(** ** Method execution pipeline *)

Lemma separate_acc (methods : list MethodCall) (n : bool) (mo : list OptionValue)
    (others : list MethodCall) :
  foldl (fun '(needsMatrixUpdate, matrixOptions, otherMethods) method =>
           if decide (mname method = "matrix")
           then (true, moptions method, otherMethods)
           else (needsMatrixUpdate, matrixOptions, otherMethods ++ [method]))
        (n, mo, others) methods
  = (n || existsb isMatrixCall methods,
     match last (List.filter isMatrixCall methods) with
     | Some m => moptions m
     | None => mo
     end,
     others ++ otherCalls methods).
Proof.
  revert n mo others. induction methods as [|m ms IH]; intros n mo others.
  - cbn. by rewrite orb_false_r, app_nil_r.
  - cbn [foldl]. unfold otherCalls in *. cbn [existsb List.filter].
    destruct (decide (mname m = "matrix")) as [Hm|Hm].
    + assert (Hb : isMatrixCall m = true) by (by apply bool_decide_eq_true).
      rewrite Hb. cbn [negb]. rewrite IH.
      rewrite orb_true_r. cbn [orb]. f_equal. f_equal.
      destruct (List.filter isMatrixCall ms) as [|x l] eqn:E; [reflexivity|].
      change (last (m :: x :: l)) with (last (x :: l)).
      destruct (last (x :: l)) eqn:El; [reflexivity|].
      by apply last_None in El.
    + assert (Hb : isMatrixCall m = false) by (by apply bool_decide_eq_false).
      rewrite Hb. cbn [negb orb]. rewrite IH.
      by rewrite <- app_assoc.
Qed.

Lemma separate_spec (methods : list MethodCall) :
  separate methods
  = (existsb isMatrixCall methods, lastMatrixOptions methods, otherCalls methods).
Proof. unfold separate. rewrite separate_acc. reflexivity. Qed.

Lemma otherCalls_id (methods : list MethodCall) :
  (forall m, m ∈ methods -> mname m <> "matrix") ->
  existsb isMatrixCall methods = false /\ otherCalls methods = methods.
Proof.
  induction methods as [|m ms IH]; intros H; [done|].
  destruct IH as [IH1 IH2]; [intros x Hx; apply H; by right|].
  assert (Hb : isMatrixCall m = false).
  { apply bool_decide_eq_false. apply H. by left. }
  unfold otherCalls in *. cbn [existsb List.filter]. rewrite Hb.
  cbn [negb orb]. by rewrite IH1, IH2.
Qed.

Lemma otherCalls_no_matrix (methods : list MethodCall) (m : MethodCall) :
  m ∈ otherCalls methods -> mname m <> "matrix".
Proof.
  unfold otherCalls. intros H. apply list_elem_of_In, filter_In in H as [_ H].
  apply negb_true_iff, bool_decide_eq_false in H. exact H.
Qed.

Lemma existsb_isMatrixCall (methods : list MethodCall) :
  (exists m, m ∈ methods /\ mname m = "matrix") ->
  existsb isMatrixCall methods = true.
Proof.
  intros (m & Hin & Hm). apply existsb_exists. exists m.
  split; [by apply list_elem_of_In|]. by apply bool_decide_eq_true.
Qed.

(** The options of the "matrix" call after which no other "matrix" call
    comes. *)
Lemma lastMatrixOptions_last (pre post : list MethodCall) (m : MethodCall) :
  mname m = "matrix" -> (forall x, x ∈ post -> mname x <> "matrix") ->
  lastMatrixOptions (pre ++ m :: post) = moptions m
  /\ otherCalls (pre ++ m :: post) = otherCalls (pre ++ post).
Proof.
  intros Hm Hpost. destruct (otherCalls_id post Hpost) as [Hex Hoth].
  assert (Hnone : List.filter isMatrixCall post = []).
  { clear -Hex. induction post as [|x l IH]; [done|].
    cbn in *. apply orb_false_iff in Hex as [Hx Hl]. rewrite Hx. by apply IH. }
  unfold lastMatrixOptions, otherCalls.
  assert (Hb : isMatrixCall m = true) by (by apply bool_decide_eq_true).
  rewrite !List.filter_app. cbn [List.filter]. rewrite Hb. cbn [negb].
  rewrite Hnone. split; [|reflexivity].
  by rewrite last_snoc.
Qed.

Section FanOut.

Variable random : nat -> Q.

Lemma resolveOption_warns (o : OptionValue) (s : State) :
  exists p s' evs,
    resolveOption random o s = (Ok p, s')
    /\ trace s' = trace s ++ evs /\ Forall isRangeWarning evs.
Proof.
  assert (Hdefault : resolveOption random o s = (Ok (oname o, ovalue o), s) ->
            exists p s' evs, resolveOption random o s = (Ok p, s')
              /\ trace s' = trace s ++ evs /\ Forall isRangeWarning evs).
  { intros H. exists (oname o, ovalue o), s, []. by rewrite app_nil_r. }
  destruct (orandomRange o) as [| | | | |l|] eqn:E;
    try (apply Hdefault; unfold resolveOption; rewrite E; reflexivity).
  destruct l as [|a l];
    [apply Hdefault; unfold resolveOption; rewrite E; reflexivity|].
  destruct l as [|b l];
    [apply Hdefault; unfold resolveOption; rewrite E; destruct a; reflexivity|].
  destruct l as [|c l];
    [|apply Hdefault; unfold resolveOption; rewrite E; destruct a, b; reflexivity].
  clear Hdefault.
  assert (Hinvalid : isNumber a = false \/ isNumber b = false ->
            exists p s' evs, resolveOption random o s = (Ok p, s')
              /\ trace s' = trace s ++ evs /\ Forall isRangeWarning evs).
  { intros H. rewrite (resolveOption_invalid random o a b s E H).
    eexists _, _, [_]. split; [reflexivity|]. split; [reflexivity|].
    by repeat constructor. }
  destruct (isNumber a) eqn:Ea; [destruct (isNumber b) eqn:Eb|];
    [|apply Hinvalid; by right|apply Hinvalid; by left].
  destruct a as [| | |qa| | |]; try discriminate.
  destruct b as [| | |qb| | |]; try discriminate.
  rewrite (resolveOption_numeric random o qa qb s E).
  destruct (Double.gtb qa qb).
  - eexists _, _, [_]. split; [reflexivity|]. split; [reflexivity|].
    by repeat constructor.
  - eexists _, _, []. split; [reflexivity|]. cbn. by rewrite app_nil_r.
Qed.

Lemma resolveOptions_warns (l : list OptionValue) (s : State) :
  exists bag s' evs,
    resolveOptions random l s = (Ok bag, s')
    /\ trace s' = trace s ++ evs /\ Forall isRangeWarning evs.
Proof.
  assert (H : exists ps s' evs, mapM (resolveOption random) l s = (Ok ps, s')
                /\ trace s' = trace s ++ evs /\ Forall isRangeWarning evs).
  { revert s. induction l as [|o l IH]; intros s.
    - exists [], s, []. by rewrite app_nil_r.
    - destruct (resolveOption_warns o s) as (p & s1 & e1 & H1 & T1 & F1).
      destruct (IH s1) as (ps & s2 & e2 & H2 & T2 & F2).
      exists (p :: ps), s2, (e1 ++ e2). cbn [mapM].
      rewrite (bind_run _ _ _ _ _ H1), (bind_run _ _ _ _ _ H2).
      split; [reflexivity|]. split; [by rewrite T2, T1, app_assoc | by apply Forall_app]. }
  destruct H as (ps & s' & evs & H & T & F).
  exists (fromPairs ps), s', evs. unfold resolveOptions.
  rewrite (bind_run _ _ _ _ _ H). done.
Qed.

Lemma queueDebugLog_run (log : string * gmap string jsval) (s : State) :
  exists s', queueDebugLog log s = (Ok tt, s') /\ trace s' = trace s.
Proof.
  unfold queueDebugLog. unfold_m. cbn.
  destruct (debugOverlayActive s); eexists; split; reflexivity.
Qed.

Lemma invokeOn_run (name instanceId : string) (options : gmap string jsval) (c : bool)
    (i : Instance) (s : State) :
  invokeOn name instanceId options c i s =
    (if throwsOn name i then Raise (MethodError (iid i) name) else Ok tt,
     set_trace (trace s ++ [invocationEvent instanceId name options c i]) s).
Proof.
  unfold invokeOn, throwsOn, invocationEvent.
  destruct (assoc name (imethods i)) as [[|]|]; reflexivity.
Qed.

Lemma promiseAll_invokeOn (name instanceId : string) (options : gmap string jsval)
    (c : bool) (l : list Instance) (s : State) :
  promiseAll (invokeOn name instanceId options c) l s =
    (fanResult name l,
     set_trace (trace s ++ List.map (invocationEvent instanceId name options c) l) s).
Proof.
  revert s. induction l as [|i l IH]; intros s; cbn [promiseAll List.map].
  - cbn. by rewrite app_nil_r, set_trace_same.
  - rewrite invokeOn_run, IH. unfold fanResult. cbn [List.find].
    destruct (throwsOn name i); cbn; rewrite <- app_assoc; cbn.
    + by destruct (List.find (throwsOn name) l).
    + reflexivity.
Qed.

Lemma runMethod_some (instanceId : string) (l : list Instance) (c : bool)
    (m : MethodCall) (s : State) :
  exists options wevs s',
    runMethod random instanceId (Some l) c m s = (fanResult (mname m) l, s')
    /\ trace s' = trace s ++ wevs
                  ++ List.map (invocationEvent instanceId (mname m) options c) l
    /\ Forall isRangeWarning wevs.
Proof.
  destruct (resolveOptions_warns (moptions m) s) as (options & s1 & wevs & H1 & T1 & F1).
  destruct (queueDebugLog_run (mname m, options) s1) as (s2 & H2 & T2).
  exists options, wevs. eexists. unfold runMethod.
  rewrite (bind_run _ _ _ _ _ H1), (bind_run _ _ _ _ _ H2), promiseAll_invokeOn.
  split; [reflexivity|]. split; [|exact F1].
  cbn. by rewrite T2, T1, <- app_assoc.
Qed.

Lemma runMethod_none (instanceId : string) (c : bool) (m : MethodCall) (s : State) :
  exists wevs s',
    runMethod random instanceId None c m s = (Raise TypeError, s')
    /\ trace s' = trace s ++ wevs /\ Forall isRangeWarning wevs.
Proof.
  destruct (resolveOptions_warns (moptions m) s) as (options & s1 & wevs & H1 & T1 & F1).
  destruct (queueDebugLog_run (mname m, options) s1) as (s2 & H2 & T2).
  exists wevs, s2. unfold runMethod.
  rewrite (bind_run _ _ _ _ _ H1), (bind_run _ _ _ _ _ H2).
  split; [reflexivity|]. split; [by rewrite T2, T1 | exact F1].
Qed.

Lemma fanResult_cases (name : string) (l : list Instance) :
  fanResult name l = Ok tt
  \/ exists i, i ∈ l /\ assoc name (imethods i) = Some Throws
               /\ fanResult name l = Raise (MethodError (iid i) name).
Proof.
  unfold fanResult. destruct (List.find (throwsOn name) l) as [i|] eqn:E; [|by left].
  right. apply find_some in E as [Hin Ht]. exists i.
  split; [by apply list_elem_of_In|]. split; [|reflexivity].
  unfold throwsOn in Ht. by destruct (assoc name (imethods i)) as [[|]|].
Qed.

(** The fan-out of the calls [others] over the instances [l]: what it
    returns and what it appends to the trace. *)
Lemma executeOthers_some (instanceId : string) (l : list Instance) (c : bool)
    (others : list MethodCall) (s : State) :
  exists r s' evs,
    executeOthers random instanceId (Some l) c others s = (r, s')
    /\ trace s' = trace s ++ evs
    /\ Forall (batchEvent instanceId c l others) evs
    /\ (forall m i, m ∈ others -> i ∈ l ->
          exists options, invocationEvent instanceId (mname m) options c i ∈ evs)
    /\ (r = Ok tt
        \/ exists m i, m ∈ others /\ i ∈ l /\ assoc (mname m) (imethods i) = Some Throws
                       /\ r = Raise (MethodError (iid i) (mname m)))
    /\ ((forall m i, m ∈ others -> i ∈ l -> assoc (mname m) (imethods i) <> Some Throws) ->
        r = Ok tt).
Proof.
  unfold executeOthers. revert s. induction others as [|m ms IH]; intros s.
  - exists (Ok tt), s, []. cbn. rewrite app_nil_r.
    split; [reflexivity|]. split; [reflexivity|]. split; [constructor|].
    split; [intros ? ? H; by apply elem_of_nil in H|]. split; [by left|done].
  - destruct (runMethod_some instanceId l c m s) as (options & wevs & s1 & H1 & T1 & F1).
    destruct (IH s1) as (r2 & s2 & evs2 & H2 & T2 & F2 & C2 & R2 & O2).
    set (inv := List.map (invocationEvent instanceId (mname m) options c) l) in *.
    assert (Hall : Forall (batchEvent instanceId c l (m :: ms)) ((wevs ++ inv) ++ evs2)).
    { apply Forall_app. split; [apply Forall_app; split|].
      - eapply Forall_impl; [exact F1|]. intros e He. by left.
      - apply Forall_forall. intros e He. right.
        apply list_elem_of_In, in_map_iff in He as (i & <- & Hi).
        exists m, i, options. split; [by left|]. split; [by apply list_elem_of_In|done].
      - eapply Forall_impl; [exact F2|]. intros e [He|(m' & i & o' & Hm' & Hi & ->)];
          [by left|right]. exists m', i, o'. split; [by right|done]. }
    assert (Hcov : forall m' i, m' ∈ m :: ms -> i ∈ l ->
              exists o', invocationEvent instanceId (mname m') o' c i
                         ∈ (wevs ++ inv) ++ evs2).
    { intros m' i Hm' Hi. apply elem_of_cons in Hm' as [->|Hm'].
      - exists options. apply elem_of_app. left. apply elem_of_app. right.
        apply list_elem_of_In, in_map. by apply list_elem_of_In.
      - destruct (C2 m' i Hm' Hi) as (o' & Ho'). exists o'. apply elem_of_app. by right. }
    assert (Htr : forall s', trace s' = trace s1 ++ evs2 ->
              trace s' = trace s ++ (wevs ++ inv) ++ evs2).
    { intros s' ->. rewrite T1. by rewrite <- !app_assoc. }
    cbn [promiseAll]. rewrite H1.
    destruct (fanResult_cases (mname m) l) as [Hok|(i & Hi & Hthrow & Hraise)].
    + rewrite Hok. rewrite H2. exists r2, s2, ((wevs ++ inv) ++ evs2).
      split; [reflexivity|]. split; [by apply Htr|]. split; [exact Hall|].
      split; [exact Hcov|]. split.
      * destruct R2 as [->|(m' & i & Hm' & Hi & Ht & ->)]; [by left|right].
        exists m', i. split; [by right|done].
      * intros Hno. apply O2. intros m' i Hm' Hi. apply Hno; [by right|done].
    + rewrite Hraise. rewrite H2.
      assert (Hr2 : r2 <> OutOfFuel).
      { destruct R2 as [->|(? & ? & _ & _ & _ & ->)]; discriminate. }
      exists (Raise (MethodError (iid i) (mname m))), s2, ((wevs ++ inv) ++ evs2).
      split; [by destruct r2|]. split; [by apply Htr|]. split; [exact Hall|].
      split; [exact Hcov|]. split.
      * right. exists m, i. split; [by left|done].
      * intros Hno. exfalso. apply (Hno m i); [by left|done|done].
Qed.

(** With [moduleInstances] undefined every call throws before it reaches an
    instance. *)
Lemma executeOthers_none (instanceId : string) (c : bool)
    (others : list MethodCall) (s : State) :
  exists r s' evs,
    executeOthers random instanceId None c others s = (r, s')
    /\ r <> OutOfFuel
    /\ trace s' = trace s ++ evs
    /\ Forall isRangeWarning evs.
Proof.
  unfold executeOthers. revert s. induction others as [|m ms IH]; intros s.
  - exists (Ok tt), s, []. cbn. rewrite app_nil_r. done.
  - destruct (runMethod_none instanceId c m s) as (wevs & s1 & H1 & T1 & F1).
    destruct (IH s1) as (r2 & s2 & evs2 & H2 & R2 & T2 & F2).
    exists (Raise TypeError), s2, (wevs ++ evs2).
    cbn [promiseAll]. rewrite H1, H2.
    split; [by destruct r2|]. split; [done|].
    split; [by rewrite T2, T1, app_assoc | by apply Forall_app].
Qed.

End FanOut.

Section Pipeline.

Variable random : nat -> Q.
Variable importModule : string -> nat -> option ModuleClass.

(** A batch without a "matrix" call is the fan-out of its calls over the
    instances it is given. *)
Lemma executeMethods_no_matrix (fuel : nat) (methods : list MethodCall)
    (instanceId : string) (moduleInstances : option (list Instance)) (c : bool) :
  (forall m, m ∈ methods -> mname m <> "matrix") ->
  executeMethods random importModule (S fuel) methods instanceId moduleInstances c
  = fun s => executeOthers random instanceId moduleInstances c methods s.
Proof.
  intros H. destruct (otherCalls_id methods H) as [Hex Hoth].
  cbn [executeMethods]. rewrite separate_spec, Hex, Hoth. reflexivity.
Qed.

(** C9. In the fan-out of a batch over the current instances of a placement,
    an instance without a function under the method name of a call is
    skipped with a warning and raises no error: every instance that has the
    function is invoked, an invocation only ever reaches an instance that has
    it, and the batch returns unless an invoked method throws. *)
Theorem missing_method_is_skipped (instanceId : string) (l : list Instance) (c : bool)
    (others : list MethodCall) (s : State) :
  exists r s' evs,
    executeOthers random instanceId (Some l) c others s = (r, s')
    /\ trace s' = trace s ++ evs
    /\ (forall m i, m ∈ others -> i ∈ l -> assoc (mname m) (imethods i) = None ->
          WarnMethodMissing (mname m) instanceId ∈ evs)
    /\ (forall m i, m ∈ others -> i ∈ l -> is_Some (assoc (mname m) (imethods i)) ->
          exists options, Invoke (iid i) (mname m) options c ∈ evs)
    /\ (forall j name options c',
          Invoke j name options c' ∈ evs ->
          exists i, i ∈ l /\ iid i = j /\ is_Some (assoc name (imethods i)))
    /\ ((forall m i, m ∈ others -> i ∈ l -> assoc (mname m) (imethods i) <> Some Throws) ->
        r = Ok tt)
    /\ (forall fuel, (forall m, m ∈ others -> mname m <> "matrix") ->
          executeMethods random importModule (S fuel) others instanceId (Some l) c s
          = (r, s')).
Proof.
  destruct (executeOthers_some random instanceId l c others s)
    as (r & s' & evs & Hrun & Htr & Hall & Hcov & _ & Hok).
  exists r, s', evs. split; [exact Hrun|]. split; [exact Htr|].
  split; [|split; [|split; [|split]]].
  - intros m i Hm Hi Hnone. destruct (Hcov m i Hm Hi) as (o & Ho).
    unfold invocationEvent in Ho. by rewrite Hnone in Ho.
  - intros m i Hm Hi [b Hb]. destruct (Hcov m i Hm Hi) as (o & Ho).
    unfold invocationEvent in Ho. rewrite Hb in Ho. by exists o.
  - intros j name o c' Hin.
    rewrite Forall_forall in Hall. destruct (Hall _ Hin) as [[]|(m & i & o' & Hm & Hi & Heq)].
    unfold invocationEvent in Heq.
    destruct (assoc (mname m) (imethods i)) as [b|] eqn:Eb; [|discriminate].
    inversion Heq; subst. exists i. split; [exact Hi|]. split; [reflexivity|].
    rewrite Eb. by eexists.
  - exact Hok.
  - intros fuel Hno. rewrite (executeMethods_no_matrix fuel others instanceId _ c Hno).
    exact Hrun.
Qed.

End Pipeline.

Lemma missing_method_is_skipped_witness :
  exists s',
    executeMethods Sample.half Sample.always 1 [Sample.show] "p"
      (Some [Sample.sound; Sample.shower]) false Sample.emptyState = (Ok tt, s')
    /\ trace s' = [WarnMethodMissing "show" "p"; Invoke 3 "show" ∅ false].
Proof.
  destruct (missing_method_is_skipped Sample.half Sample.always "p"
              [Sample.sound; Sample.shower] false [Sample.show] Sample.emptyState)
    as (r & s' & evs & Hrun & Htr & _ & _ & _ & Hok & Hbatch).
  assert (Hr : r = Ok tt).
  { apply Hok. intros m i Hm Hi. apply list_elem_of_singleton in Hm. subst m.
    apply elem_of_cons in Hi as [->|Hi]; [discriminate|].
    apply list_elem_of_singleton in Hi. subst i. discriminate. }
  subst r. exists s'. split.
  - apply Hbatch. intros m Hm. apply list_elem_of_singleton in Hm. by subst m.
  - assert (Hs' : trace s' = trace (executeOthers Sample.half "p"
                                      (Some [Sample.sound; Sample.shower]) false
                                      [Sample.show] Sample.emptyState).2)
      by (by rewrite Hrun).
    rewrite Hs'. reflexivity.
Defined.

(** ** Events and fuel of the matrix step *)

Lemma appends_same (P : Event -> Prop) (s s' : State) :
  trace s' = trace s -> appends P s s'.
Proof. intros H. exists []. by rewrite app_nil_r. Qed.

Lemma steps_emit (P : Event -> Prop) (e : Event) : P e -> steps (appends P) (emit e).
Proof.
  intros He s r s' H. inversion H; subst. exists [e]. split; [reflexivity|].
  by repeat constructor.
Qed.

Ltac steps_go :=
  repeat first
    [ match goal with |- PreOrder _ => apply _ end
    | apply steps_ret | apply steps_throw | apply steps_gets | apply steps_hang
    | apply steps_bind; [ | | intros ? ]
    | apply steps_try_catch; [ | | intros ? ]
    | apply steps_animationFrame; [ | ]
    | apply steps_forEach; [ | intros ? ]
    | apply steps_promiseAll; [ | intros ? ]
    | apply steps_mapM; [ | intros ? ]
    | apply steps_foldM; [ | intros ? ? ]
    | match goal with
      | |- steps _ (match ?x with _ => _ end) => destruct x eqn:?
      end
    | progress cbv zeta ].

Ltac fueled_go :=
  repeat first
    [ apply fueled_ret | apply fueled_throw | apply fueled_gets | apply fueled_hang
    | apply fueled_modify | apply fueled_emit
    | apply fueled_bind; [|intros ?]
    | apply fueled_try_catch; [|intros ?]
    | apply fueled_animationFrame
    | apply fueled_detached
    | apply fueled_forEach; intros ?
    | apply fueled_promiseAll; intros ?
    | apply fueled_mapM; intros ?
    | apply fueled_foldM; intros ? ?
    | match goal with
      | |- fueled (match ?x with _ => _ end) => destruct x eqn:?
      end
    | progress cbv zeta ].

Lemma filtered_non_matrix (l fl : list MethodCall) :
  List.filter (fun method => negb (bool_decide (mname method = "matrix"))) l = fl ->
  forall m, m ∈ fl -> mname m <> "matrix".
Proof.
  intros <- m Hm. apply list_elem_of_In, filter_In in Hm as [_ Hm].
  apply negb_true_iff, bool_decide_eq_false in Hm. exact Hm.
Qed.

Section MatrixStep.

Variable random : nat -> Q.
Variable importModule : string -> nat -> option ModuleClass.
Variable P : Event -> Prop.
Hypothesis P_not_marker : forall e, notMarker e -> P e.

Lemma getElement_appends (moduleName : string) :
  steps (appends P) (ElementPool.getElement moduleName).
Proof.
  intros s r s' H. unfold ElementPool.getElement in H.
  destruct (last _); inversion H; subst; by apply appends_same.
Qed.

Lemma destroyInstance_appends (i : Instance) : steps (appends P) (destroyInstance i).
Proof.
  unfold destroyInstance. steps_go; apply steps_emit, P_not_marker; exact I.
Qed.

Lemma resolveOptions_appends (l : list OptionValue) :
  steps (appends P) (resolveOptions random l).
Proof.
  intros s r s' H.
  destruct (resolveOptions_warns random l s) as (bag & s1 & evs & H1 & T1 & F1).
  rewrite H1 in H. inversion H; subst. exists evs. split; [exact T1|].
  eapply Forall_impl; [exact F1|]. intros e He. apply P_not_marker. by destruct e.
Qed.

Lemma resolveOption_appends (o : OptionValue) :
  steps (appends P) (resolveOption random o).
Proof.
  intros s r s' H.
  destruct (resolveOption_warns random o s) as (p & s1 & evs & H1 & T1 & F1).
  rewrite H1 in H. inversion H; subst. exists evs. split; [exact T1|].
  eapply Forall_impl; [exact F1|]. intros e He. apply P_not_marker. by destruct e.
Qed.

Ltac appends_leaf :=
  first
    [ apply getElement_appends
    | apply resolveOption_appends
    | apply destroyInstance_appends
    | apply resolveOptions_appends
    | apply steps_emit, P_not_marker; exact I
    | apply steps_modify; intros ?; apply appends_same; cbn;
      first [ reflexivity | by case_decide ] ].

Lemma releaseElement_appends (e : Elem) : steps (appends P) (ElementPool.releaseElement e).
Proof. unfold ElementPool.releaseElement. steps_go; appends_leaf. Qed.

Lemma loadModuleClass_appends (moduleType : string) :
  steps (appends P) (loadModuleClass moduleType).
Proof. unfold loadModuleClass. steps_go; appends_leaf. Qed.

Lemma awaitLoader_appends (p : option LoaderPromise) :
  steps (appends P) (awaitLoader importModule p).
Proof. unfold awaitLoader. steps_go; appends_leaf. Qed.

Lemma placeCell_appends (instanceId moduleType : string) (mo : MatrixOptions) (z : Z)
    (acc : list Elem) (cell : Z * Z) :
  steps (appends P) (placeCell instanceId moduleType mo z acc cell).
Proof. unfold placeCell. steps_go; appends_leaf. Qed.

Lemma placeCells_appends (instanceId moduleType : string) (mo : MatrixOptions) (z : Z) :
  steps (appends P) (placeCells instanceId moduleType mo z).
Proof. unfold placeCells. steps_go; apply placeCell_appends. Qed.

Ltac appends_call :=
  first
    [ apply releaseElement_appends
    | apply loadModuleClass_appends
    | apply awaitLoader_appends
    | apply placeCells_appends
    | apply placeCell_appends
    | appends_leaf ].

Lemma executeOthers_appends (instanceId : string) (l : option (list Instance)) (c : bool)
    (others : list MethodCall) :
  steps (appends P) (executeOthers random instanceId l c others).
Proof.
  unfold executeOthers, runMethod, queueDebugLog, invokeOn. steps_go; appends_call.
Qed.

Lemma updateMatrixWith_appends
    (exec : list MethodCall -> string -> option (list Instance) -> bool -> M unit)
    (instanceId : string) (methodOptions : list OptionValue) :
  (forall ms l, (forall m, m ∈ ms -> mname m <> "matrix") ->
     steps (appends P) (exec ms instanceId l true)) ->
  steps (appends P) (updateMatrixWith importModule exec instanceId methodOptions).
Proof.
  intros Hexec. unfold updateMatrixWith. cbv zeta. steps_go;
    first
      [ appends_call
      | apply Hexec; eapply filtered_non_matrix; eassumption ].
Qed.

(** Whatever fuel it has, the matrix step appends no marker of its own. *)
Lemma updateMatrix_appends (fuel : nat) (instanceId : string)
    (methodOptions : list OptionValue) :
  steps (appends P) (updateMatrix random importModule (S fuel) instanceId methodOptions).
Proof.
  unfold updateMatrix. apply updateMatrixWith_appends. intros ms l Hms.
  rewrite (executeMethods_no_matrix random importModule fuel ms instanceId l true Hms).
  apply executeOthers_appends.
Qed.

Lemma executeOthers_fueled (instanceId : string) (l : option (list Instance)) (c : bool)
    (others : list MethodCall) :
  fueled (executeOthers random instanceId l c others).
Proof.
  intros s s' H. destruct l as [l|].
  - destruct (executeOthers_some random instanceId l c others s)
      as (r & s1 & evs & Hrun & _ & _ & _ & Hr & _).
    rewrite Hrun in H. inversion H; subst.
    destruct Hr as [|(? & ? & _ & _ & _ & ?)]; discriminate.
  - destruct (executeOthers_none random instanceId c others s)
      as (r & s1 & evs & Hrun & Hr & _).
    rewrite Hrun in H. inversion H; subst. by apply Hr.
Qed.

Lemma getElement_fueled (moduleName : string) : fueled (ElementPool.getElement moduleName).
Proof.
  intros s s' H. unfold ElementPool.getElement in H. destruct (last _); inversion H.
Qed.

Lemma updateMatrixWith_fueled
    (exec : list MethodCall -> string -> option (list Instance) -> bool -> M unit)
    (instanceId : string) (methodOptions : list OptionValue) :
  (forall ms l, (forall m, m ∈ ms -> mname m <> "matrix") ->
     fueled (exec ms instanceId l true)) ->
  fueled (updateMatrixWith importModule exec instanceId methodOptions).
Proof.
  intros Hexec.
  unfold updateMatrixWith, runConstructorMethods, findModuleType, teardownPlacement,
    awaitLoadModuleClass, loadModuleClass,
    awaitLoader, placeCells, placeCell, construct, removeAndRelease, destroyInstance,
    ElementPool.releaseElement.
  cbv zeta. fueled_go; try apply getElement_fueled.
  apply Hexec. eapply filtered_non_matrix. eassumption.
Qed.

(** With fuel for one nested batch the matrix step does not run out. *)
Lemma updateMatrix_fueled (fuel : nat) (instanceId : string)
    (methodOptions : list OptionValue) :
  fueled (updateMatrix random importModule (S fuel) instanceId methodOptions).
Proof.
  unfold updateMatrix. apply updateMatrixWith_fueled. intros ms l Hms.
  rewrite (executeMethods_no_matrix random importModule fuel ms instanceId l true Hms).
  apply executeOthers_fueled.
Qed.

End MatrixStep.

(** ** Order of the matrix step and the other calls *)

Lemma filter_isMatrixStart_nil (Q : Event -> Prop) (l : list Event) :
  (forall e, Q e -> isMatrixStart e = false) -> Forall Q l ->
  List.filter isMatrixStart l = [].
Proof.
  intros HQ. induction 1 as [|e l He _ IH]; [reflexivity|].
  cbn. by rewrite (HQ e He).
Qed.

Lemma batchEvent_not_start (instanceId : string) (c : bool) (l : list Instance)
    (others : list MethodCall) (e : Event) :
  batchEvent instanceId c l others e -> isMatrixStart e = false.
Proof.
  intros [He|(m & i & o & _ & _ & ->)]; [by destruct e|].
  unfold invocationEvent. by destruct (assoc _ _).
Qed.

Section BatchOrder.

Variable random : nat -> Q.
Variable importModule : string -> nat -> option ModuleClass.

Lemma executeMethods_matrix_unfold (fuel : nat) (methods : list MethodCall)
    (instanceId : string) (insts : option (list Instance)) (c : bool) (s : State) :
  existsb isMatrixCall methods = true ->
  executeMethods random importModule (S fuel) methods instanceId insts c s
  = match updateMatrix random importModule fuel instanceId (lastMatrixOptions methods)
            (set_trace (trace s ++ [LogMatrixStart instanceId]) s) with
    | (Ok _, s1) =>
        executeOthers random instanceId (assoc instanceId (activeModules s1)) c
          (otherCalls methods) (set_trace (trace s1 ++ [LogMatrixEnd instanceId]) s1)
    | (Raise e, s1) => (Raise e, s1)
    | (OutOfFuel, s1) => (OutOfFuel, s1)
    | (Never, s1) => (Never, s1)
    end.
Proof.
  intros Hex. cbn [executeMethods]. rewrite separate_spec, Hex.
  unfold updateMatrix. unfold_m. unfold modify. cbv beta iota zeta.
  destruct (updateMatrixWith _ _ _ _ _) as [[[]|e| |] s1]; reflexivity.
Qed.

(** With fuel for the matrix step and its nested batch, a batch does not run
    out. *)
Lemma executeMethods_fueled (fuel : nat) (methods : list MethodCall)
    (instanceId : string) (insts : option (list Instance)) (c : bool) :
  fueled (executeMethods random importModule (S (S fuel)) methods instanceId insts c).
Proof.
  intros s s' H. destruct (existsb isMatrixCall methods) eqn:Hex.
  - rewrite (executeMethods_matrix_unfold (S fuel) methods instanceId insts c s Hex) in H.
    destruct (updateMatrix _ _ _ _ _ _) as [[[]|e| |] s1] eqn:Hupd.
    + exact (executeOthers_fueled random _ _ _ _ _ _ H).
    + discriminate.
    + exact (updateMatrix_fueled random importModule fuel _ _ _ _ Hupd).
    + discriminate.
  - cbn [executeMethods] in H. rewrite separate_spec, Hex in H.
    exact (executeOthers_fueled random _ _ _ _ _ _ H).
Qed.

(** A batch with a "matrix" call: the matrix step runs first, from the
    state with its start marker logged; when it throws the batch ends there;
    when it returns, the other calls fan out over the registry entry of the
    placement as the step left it. *)
Lemma executeMethods_matrix_run (fuel : nat) (methods : list MethodCall)
    (instanceId : string) (insts : option (list Instance)) (c : bool) (s : State) :
  existsb isMatrixCall methods = true ->
  exists r1 s1 mevs,
    updateMatrix random importModule (S fuel) instanceId (lastMatrixOptions methods)
      (set_trace (trace s ++ [LogMatrixStart instanceId]) s) = (r1, s1)
    /\ trace s1 = trace s ++ LogMatrixStart instanceId :: mevs
    /\ Forall notMarker mevs
    /\ match r1 with
       | Ok _ =>
           exists r s' oevs,
             executeMethods random importModule (S (S fuel)) methods instanceId insts c s
               = (r, s')
             /\ executeOthers random instanceId (assoc instanceId (activeModules s1)) c
                  (otherCalls methods)
                  (set_trace (trace s1 ++ [LogMatrixEnd instanceId]) s1) = (r, s')
             /\ trace s' = trace s ++ LogMatrixStart instanceId :: mevs
                             ++ LogMatrixEnd instanceId :: oevs
             /\ Forall (batchEvent instanceId c
                          (default [] (assoc instanceId (activeModules s1)))
                          (otherCalls methods)) oevs
             /\ (forall l, assoc instanceId (activeModules s1) = Some l ->
                   forall m i, m ∈ otherCalls methods -> i ∈ l ->
                     exists options,
                       invocationEvent instanceId (mname m) options c i ∈ oevs)
       | Raise e =>
           executeMethods random importModule (S (S fuel)) methods instanceId insts c s
             = (Raise e, s1)
       | Never =>
           executeMethods random importModule (S (S fuel)) methods instanceId insts c s
             = (Never, s1)
       | OutOfFuel => False
       end.
Proof.
  intros Hex.
  set (s0 := set_trace (trace s ++ [LogMatrixStart instanceId]) s).
  destruct (updateMatrix random importModule (S fuel) instanceId
              (lastMatrixOptions methods) s0) as [r1 s1] eqn:Hupd.
  destruct (updateMatrix_appends random importModule notMarker (fun e H => H)
              fuel instanceId _ _ _ _ Hupd) as (mevs & Hmevs & Fmevs).
  assert (Htr1 : trace s1 = trace s ++ LogMatrixStart instanceId :: mevs).
  { rewrite Hmevs. subst s0. cbn. by rewrite <- app_assoc. }
  exists r1, s1, mevs. split; [reflexivity|]. split; [exact Htr1|]. split; [exact Fmevs|].
  assert (Hexec : executeMethods random importModule (S (S fuel)) methods instanceId insts c s
            = match r1 with
              | Ok _ =>
                  executeOthers random instanceId (assoc instanceId (activeModules s1)) c
                    (otherCalls methods)
                    (set_trace (trace s1 ++ [LogMatrixEnd instanceId]) s1)
              | Raise e => (Raise e, s1)
              | OutOfFuel => (OutOfFuel, s1)
              | Never => (Never, s1)
              end).
  { rewrite (executeMethods_matrix_unfold (S fuel) methods instanceId insts c s Hex).
    fold s0. rewrite Hupd. by destruct r1 as [[]|e| |]. }
  destruct r1 as [[]|e| |].
  - destruct (assoc instanceId (activeModules s1)) as [l|] eqn:El.
    + destruct (executeOthers_some random instanceId l c (otherCalls methods)
                  (set_trace (trace s1 ++ [LogMatrixEnd instanceId]) s1))
        as (r & s' & oevs & Hrun & Htr & Hall & Hcov & _).
      exists r, s', oevs. rewrite Hexec. split; [exact Hrun|]. split; [exact Hrun|].
      split; [|split; [exact Hall|]].
      * rewrite Htr. cbn. rewrite Htr1. by rewrite <- !app_assoc.
      * intros l' [= <-]. exact Hcov.
    + destruct (executeOthers_none random instanceId c (otherCalls methods)
                  (set_trace (trace s1 ++ [LogMatrixEnd instanceId]) s1))
        as (r & s' & oevs & Hrun & _ & Htr & Hall).
      exists r, s', oevs. rewrite Hexec. split; [exact Hrun|]. split; [exact Hrun|].
      split; [|split; [|done]].
      * rewrite Htr. cbn. rewrite Htr1. by rewrite <- !app_assoc.
      * eapply Forall_impl; [exact Hall|]. intros ev Hev. by left.
  - exact Hexec.
  - exact (updateMatrix_fueled random importModule fuel instanceId _ _ _ Hupd).
  - exact Hexec.
Qed.

(** C3. In a batch with a call named "matrix" the matrix step runs first,
    between its two markers: every event of the materialization precedes the
    end marker, and every event of the other calls follows it.  The other
    calls reach only instances of the registry entry the step left for the
    placement, each of them for every call.  When the step throws, or
    never completes, no other call runs. *)
Theorem matrix_step_precedes_other_calls (fuel : nat) (methods : list MethodCall)
    (instanceId : string) (insts : option (list Instance)) (c : bool) (s : State) :
  (exists m, m ∈ methods /\ mname m = "matrix") ->
  exists r1 s1 mevs,
    updateMatrix random importModule (S fuel) instanceId (lastMatrixOptions methods)
      (set_trace (trace s ++ [LogMatrixStart instanceId]) s) = (r1, s1)
    /\ trace s1 = trace s ++ LogMatrixStart instanceId :: mevs
    /\ Forall notMarker mevs
    /\ match r1 with
       | Ok _ =>
           exists r s' oevs,
             executeMethods random importModule (S (S fuel)) methods instanceId insts c s
               = (r, s')
             /\ r <> OutOfFuel
             /\ trace s' = trace s ++ LogMatrixStart instanceId :: mevs
                             ++ LogMatrixEnd instanceId :: oevs
             /\ Forall (batchEvent instanceId c
                          (default [] (assoc instanceId (activeModules s1)))
                          (otherCalls methods)) oevs
             /\ (forall l, assoc instanceId (activeModules s1) = Some l ->
                   forall m i, m ∈ otherCalls methods -> i ∈ l ->
                     exists options,
                       invocationEvent instanceId (mname m) options c i ∈ oevs)
       | Raise e =>
           executeMethods random importModule (S (S fuel)) methods instanceId insts c s
             = (Raise e, s1)
       | Never =>
           executeMethods random importModule (S (S fuel)) methods instanceId insts c s
             = (Never, s1)
       | OutOfFuel => False
       end.
Proof.
  intros Hm. apply existsb_isMatrixCall in Hm.
  destruct (executeMethods_matrix_run fuel methods instanceId insts c s Hm)
    as (r1 & s1 & mevs & Hupd & Htr & Fm & Hrest).
  exists r1, s1, mevs. split; [exact Hupd|]. split; [exact Htr|]. split; [exact Fm|].
  destruct r1 as [[]|e| |]; [|exact Hrest|exact Hrest|exact Hrest].
  destruct Hrest as (r & s' & oevs & Hrun & _ & Htr' & Hall & Hcov).
  exists r, s', oevs. split; [exact Hrun|]. split; [|done].
  intros ->. exact (executeMethods_fueled fuel methods instanceId insts c _ _ Hrun).
Qed.

(** C10. In a batch the "matrix" call after which no other "matrix" call
    comes decides the materialization: the batch runs as the batch made of
    that call and the calls with other names, the earlier "matrix" calls
    having no effect; exactly one matrix step is started, with the options
    of that call. *)
Theorem last_matrix_call_wins (fuel : nat) (pre post : list MethodCall) (m : MethodCall)
    (instanceId : string) (insts : option (list Instance)) (c : bool) (s : State) :
  mname m = "matrix" ->
  (forall x, x ∈ post -> mname x <> "matrix") ->
  executeMethods random importModule (S (S fuel)) (pre ++ m :: post) instanceId insts c s
  = executeMethods random importModule (S (S fuel)) (m :: otherCalls (pre ++ post))
      instanceId insts c s
  /\ exists r s' evs r1 s1 rest,
       executeMethods random importModule (S (S fuel)) (pre ++ m :: post) instanceId insts c s
         = (r, s')
       /\ r <> OutOfFuel
       /\ trace s' = trace s ++ evs
       /\ length (List.filter isMatrixStart evs) = 1%nat
       /\ updateMatrix random importModule (S fuel) instanceId (moptions m)
            (set_trace (trace s ++ [LogMatrixStart instanceId]) s) = (r1, s1)
       /\ trace s' = trace s1 ++ rest.
Proof.
  intros Hm Hpost.
  destruct (lastMatrixOptions_last pre post m Hm Hpost) as [Hlast Hoth].
  assert (Hex : existsb isMatrixCall (pre ++ m :: post) = true).
  { apply existsb_isMatrixCall. exists m. split; [|exact Hm].
    apply elem_of_app. right. by left. }
  split.
  - assert (Hno : forall x, x ∈ otherCalls (pre ++ post) -> mname x <> "matrix")
      by apply otherCalls_no_matrix.
    destruct (lastMatrixOptions_last [] (otherCalls (pre ++ post)) m Hm Hno) as [Hlast' Hoth'].
    destruct (otherCalls_id _ Hno) as [_ Hid].
    cbn [app] in Hlast', Hoth'. rewrite Hid in Hoth'.
    cbn [executeMethods]. rewrite !separate_spec.
    rewrite Hex, Hlast, Hoth, Hlast', Hoth'.
    assert (Hex' : existsb isMatrixCall (m :: otherCalls (pre ++ post)) = true).
    { apply existsb_isMatrixCall. exists m. split; [by left | exact Hm]. }
    rewrite Hex'. reflexivity.
  - destruct (executeMethods_matrix_run fuel (pre ++ m :: post) instanceId insts c s Hex)
      as (r1 & s1 & mevs & Hupd & Htr & Fm & Hrest).
    rewrite Hlast in Hupd.
    assert (Hmevs : List.filter isMatrixStart mevs = []).
    { eapply filter_isMatrixStart_nil; [|exact Fm]. intros e He. by destruct e. }
    destruct r1 as [[]|e| |]; [| |done|].
    + destruct Hrest as (r & s' & oevs & Hrun & _ & Htr' & Hall & _).
      exists r, s', (LogMatrixStart instanceId :: mevs ++ LogMatrixEnd instanceId :: oevs),
        (Ok tt), s1, (LogMatrixEnd instanceId :: oevs).
      split; [exact Hrun|].
      split; [intros ->; exact (executeMethods_fueled fuel _ instanceId insts c _ _ Hrun)|].
      split; [exact Htr'|]. split; [|split; [exact Hupd|]].
      * cbn. rewrite List.filter_app, Hmevs. cbn.
        erewrite filter_isMatrixStart_nil; [reflexivity| |exact Hall].
        apply batchEvent_not_start.
      * rewrite Htr', Htr. rewrite <- !app_assoc. reflexivity.
    + exists (Raise e), s1, (LogMatrixStart instanceId :: mevs), (Raise e), s1, [].
      split; [exact Hrest|]. split; [discriminate|].
      split; [exact Htr|]. split; [|split; [exact Hupd|]].
      * cbn. by rewrite Hmevs.
      * by rewrite app_nil_r.
    + exists Never, s1, (LogMatrixStart instanceId :: mevs), Never, s1, [].
      split; [exact Hrest|]. split; [discriminate|].
      split; [exact Htr|]. split; [|split; [exact Hupd|]].
      * cbn. by rewrite Hmevs.
      * by rewrite app_nil_r.
Qed.

End BatchOrder.

Lemma matrix_step_precedes_other_calls_witness :
  (exists m, m ∈ [Sample.matrix22; Sample.show] /\ mname m = "matrix")
  /\ exists r s' mevs oevs,
       executeMethods Sample.half Sample.always 2 [Sample.matrix22; Sample.show]
         "preview_Frame" (Some []) true Sample.emptyState = (r, s')
       /\ trace s' = LogMatrixStart "preview_Frame" :: mevs
                       ++ LogMatrixEnd "preview_Frame" :: oevs
       /\ Forall notMarker mevs
       /\ Forall (fun e => exists i o c, e = Invoke i "show" o c) oevs
       /\ length oevs = 3%nat.
Proof.
  assert (Hm : exists m, m ∈ [Sample.matrix22; Sample.show] /\ mname m = "matrix").
  { exists Sample.matrix22. split; [by left | reflexivity]. }
  split; [exact Hm|].
  destruct (matrix_step_precedes_other_calls Sample.half Sample.always 0
              [Sample.matrix22; Sample.show] "preview_Frame" (Some []) true
              Sample.emptyState Hm) as (r1 & s1 & mevs & Hupd & Htr & Fm & Hrest).
  vm_compute in Hupd. inversion Hupd; subst r1 s1. clear Hupd.
  cbn in Htr. injection Htr as Hmevs. subst mevs.
  destruct Hrest as (r & s' & oevs & Hrun & _ & Htr' & Hall & Hcov).
  eexists r, s', _, oevs. split; [exact Hrun|]. split; [exact Htr'|].
  split; [exact Fm|].
  assert (Hs' : trace s' = trace (executeMethods Sample.half Sample.always 2
                                    [Sample.matrix22; Sample.show] "preview_Frame"
                                    (Some []) true Sample.emptyState).2)
    by (by rewrite Hrun).
  remember (trace s') as t eqn:Et. vm_compute in Hs'. rewrite Hs' in Htr'.
  cbn in Htr'. injection Htr' as Hoevs. subst oevs.
  split; [|reflexivity].
  repeat constructor; eexists _, _, _; reflexivity.
Defined.

Lemma last_matrix_call_wins_witness :
  mname Sample.matrix22 = "matrix"
  /\ (forall x, x ∈ [Sample.show] -> mname x <> "matrix")
  /\ executeMethods Sample.half Sample.always 2
       ([Sample.matrix33] ++ Sample.matrix22 :: [Sample.show])
       "preview_Frame" (Some []) true Sample.emptyState
     = executeMethods Sample.half Sample.always 2
         (Sample.matrix22 :: otherCalls ([Sample.matrix33] ++ [Sample.show]))
         "preview_Frame" (Some []) true Sample.emptyState.
Proof.
  assert (Hpost : forall x, x ∈ [Sample.show] -> mname x <> "matrix").
  { intros x Hx. apply list_elem_of_singleton in Hx. by subst x. }
  split; [reflexivity|]. split; [exact Hpost|].
  exact (proj1 (last_matrix_call_wins Sample.half Sample.always 0 [Sample.matrix33]
                  [Sample.show] Sample.matrix22 "preview_Frame" (Some []) true
                  Sample.emptyState eq_refl Hpost)).
Defined.

(** ** Grid layout *)

Lemma noDash_pretty_N_go (x : N) (s : string) :
  noDash s = true -> noDash (pretty_N_go x s) = true.
Proof.
  revert s. induction (N.lt_wf_0 x) as [x _ IH]; intros s Hs.
  assert (x = 0 \/ 0 < x)%N as [->|Hx] by lia.
  - by rewrite pretty_N_go_0.
  - rewrite pretty_N_go_step by done. apply IH.
    + by apply N.div_lt.
    + cbn [noDash]. rewrite Hs, andb_true_r.
      unfold pretty_N_char. by repeat case_match.
Qed.

Lemma noDash_pretty_Z (z : Z) : 0 <= z -> noDash (pretty z) = true.
Proof.
  intros Hz. destruct z as [|p|p]; [reflexivity| |lia].
  unfold pretty, pretty_Z, pretty, pretty_positive, pretty, pretty_N.
  case_decide; [reflexivity|]. by apply noDash_pretty_N_go.
Qed.

Lemma append_dash_inj (a1 a2 b1 b2 : string) :
  noDash a1 = true -> noDash a2 = true ->
  a1 +:+ "-" +:+ b1 = a2 +:+ "-" +:+ b2 -> a1 = a2 /\ b1 = b2.
Proof.
  revert a2. induction a1 as [|x a1 IH]; intros [|y a2] H1 H2 Heq; cbn in *.
  - by inversion Heq.
  - inversion Heq; subst. by rewrite Ascii.eqb_refl in H2.
  - inversion Heq; subst. by rewrite Ascii.eqb_refl in H1.
  - inversion Heq; subst.
    apply andb_true_iff in H1 as [_ H1]. apply andb_true_iff in H2 as [_ H2].
    destruct (IH a2 H1 H2) as [-> ->]; done.
Qed.

Lemma cellKey_inj (r1 c1 r2 c2 : Z) :
  0 <= r1 -> 0 <= r2 -> cellKey r1 c1 = cellKey r2 c2 -> r1 = r2 /\ c1 = c2.
Proof.
  intros H1 H2 Heq. unfold cellKey in Heq.
  apply append_dash_inj in Heq as [Hr Hc]; try by apply noDash_pretty_Z.
  split; by apply (inj pretty).
Qed.

Lemma flat_map_bind {A B} (f : A -> list B) (l : list A) : flat_map f l = l ≫= f.
Proof. induction l as [|x l IH]; [reflexivity|]. cbn. by rewrite IH. Qed.

Lemma elem_of_rowMajor (r c row col : Z) :
  (row, col) ∈ rowMajor r c <-> (1 <= row <= r) /\ (1 <= col <= c).
Proof.
  unfold rowMajor. rewrite flat_map_bind, list_elem_of_bind. split.
  - intros (row' & Hin & Hrow). apply list_elem_of_fmap in Hin as (col' & [= -> ->] & Hcol).
    apply elem_of_seqZ in Hcol. apply elem_of_seqZ in Hrow. lia.
  - intros [Hrow Hcol]. exists row. split.
    + apply list_elem_of_fmap. exists col. split; [reflexivity|]. apply elem_of_seqZ. lia.
    + apply elem_of_seqZ. lia.
Qed.

Lemma NoDup_rowMajor (r c : Z) : NoDup (rowMajor r c).
Proof.
  unfold rowMajor. rewrite flat_map_bind. apply NoDup_bind.
  - intros x1 x2 [row col] _ _ H1 H2.
    apply list_elem_of_fmap in H1 as (? & [= -> _] & _).
    apply list_elem_of_fmap in H2 as (? & [= -> _] & _). reflexivity.
  - intros row _. apply NoDup_fmap_2_strong; [|apply NoDup_seqZ].
    intros c1 c2 _ _ [= ->]. reflexivity.
  - apply NoDup_seqZ.
Qed.

Lemma length_rowMajor (r c : Z) :
  0 <= r -> 0 <= c -> length (rowMajor r c) = Z.to_nat (r * c).
Proof.
  intros Hr Hc. unfold rowMajor.
  assert (H : forall l : list Z,
            length (flat_map (fun row => (fun col => (row, col)) <$> seqZ 1 c) l)
            = (length l * Z.to_nat c)%nat).
  { induction l as [|x l IH]; [reflexivity|].
    cbn [flat_map]. rewrite length_app, IH, length_fmap, length_seqZ. cbn. lia. }
  rewrite H, length_seqZ. lia.
Qed.

Lemma NoDup_keys (r c : Z) : NoDup (keyOf <$> rowMajor r c).
Proof.
  apply (NoDup_fmap_2_strong keyOf); [|apply NoDup_rowMajor].
  intros [r1 c1] [r2 c2] H1 H2 Heq.
  apply elem_of_rowMajor in H1, H2. unfold keyOf in Heq. cbn in Heq.
  apply cellKey_inj in Heq as [-> ->]; [reflexivity|lia|lia].
Qed.

Lemma filter_split_length {A} (p : A -> bool) (l : list A) :
  (length (List.filter (fun x => negb (p x)) l) + length (List.filter p l) = length l)%nat.
Proof.
  induction l as [|x l IH]; [reflexivity|].
  cbn. destruct (p x); cbn; lia.
Qed.

(** The number of retained cells. *)
Lemma length_retainedCells (r c : Z) (E : list string) :
  0 <= r -> 0 <= c ->
  length (retainedCells r c E)
  = (Z.to_nat (r * c) - size (list_to_set E ∩ validCells r c : gset string))%nat.
Proof.
  intros Hr Hc. unfold retainedCells.
  pose proof (filter_split_length (fun cell => bool_decide (keyOf cell ∈ E)) (rowMajor r c))
    as Hsplit.
  rewrite length_rowMajor in Hsplit by assumption.
  assert (Hexcl : length (List.filter (fun cell => bool_decide (keyOf cell ∈ E)) (rowMajor r c))
                  = size (list_to_set E ∩ validCells r c : gset string)).
  { unfold validCells.
    assert (Hset : (list_to_set E ∩ list_to_set (keyOf <$> rowMajor r c) : gset string)
                   = list_to_set (List.filter (fun k => bool_decide (k ∈ E))
                                    (keyOf <$> rowMajor r c))).
    { apply set_eq. intros k. rewrite elem_of_intersection, !elem_of_list_to_set.
      split.
      - intros [HE Hk]. apply list_elem_of_In, filter_In.
        split; [by apply list_elem_of_In | by apply bool_decide_eq_true].
      - intros Hk. apply list_elem_of_In, filter_In in Hk as [Hk HE].
        split; [by apply bool_decide_eq_true in HE | by apply list_elem_of_In]. }
    rewrite Hset, size_list_to_set.
    - clear. induction (rowMajor r c) as [|x l IH]; [reflexivity|].
      cbn. destruct (bool_decide (keyOf x ∈ E)); cbn; by rewrite IH.
    - assert (Hnd := NoDup_keys r c).
      clear -Hnd. induction Hnd as [|k l Hk Hnd IH]; [constructor|].
      cbn. destruct (bool_decide (k ∈ E)); [|exact IH].
      constructor; [|exact IH]. intros Hin. apply Hk.
      apply list_elem_of_In, filter_In in Hin as [Hin _]. by apply list_elem_of_In. }
  lia.
Qed.

Lemma gridCells_rowMajor (r c : Z) :
  gridCells (JNum (inject_Z r)) (JNum (inject_Z c)) = rowMajor r c.
Proof. unfold gridCells, rowMajor, range1, toNumber. by rewrite !Qfloor_Z. Qed.

Lemma includes_strings (E : list string) (key : string) :
  includes (JArr (JStr <$> E)) key = Some (bool_decide (key ∈ E)).
Proof.
  unfold includes. f_equal. induction E as [|k E IH]; [reflexivity|].
  cbn [fmap list_fmap existsb strict_eq_str]. rewrite IH.
  destruct (String.eqb_spec k key) as [->|Hne]; cbn.
  - symmetry. apply bool_decide_eq_true. by left.
  - destruct (bool_decide (key ∈ E)) eqn:Hd.
    + symmetry. apply bool_decide_eq_true. right. by apply bool_decide_eq_true in Hd.
    + symmetry. apply bool_decide_eq_false. intros Hin.
      apply elem_of_cons in Hin as [->|Hin]; [done|].
      by apply bool_decide_eq_false in Hd.
Qed.

(** ** Materialization of a placement *)

#[global] Instance sameRegistry_preorder : PreOrder sameRegistry.
Proof.
  split.
  - intros s. by repeat split.
  - intros s1 s2 s3 (A1 & B1 & C1) (A2 & B2 & C2). unfold sameRegistry. by rewrite A2, B2, C2.
Qed.

Lemma assoc_alist_set {A} (k : string) (v : A) (l : list (string * A)) :
  assoc k (alist_set k v l) = Some v.
Proof.
  induction l as [|[k' v'] l IH]; cbn.
  - by rewrite String.eqb_refl.
  - destruct (String.eqb k k') eqn:E; cbn; [by rewrite String.eqb_refl | by rewrite E].
Qed.

Lemma findModuleType_run (s : State) (instanceId t : string) :
  placementType s instanceId = Some t -> findModuleType instanceId s = (Ok t, s).
Proof.
  unfold placementType, findModuleType. unfold_m. cbn.
  destruct (activeTrack s) as [tr|]; [|by intros [= <-]].
  destruct (modules tr) as [ms|]; [|done]. by intros [= <-].
Qed.

Lemma forEach_destroyInstance (l : list Instance) (s : State) :
  Forall (fun i => assoc "destroy" (imethods i) <> Some Throws) l ->
  exists evs, forEach destroyInstance l s = (Ok tt, set_trace (trace s ++ evs) s).
Proof.
  intros H. revert s. induction H as [|i l Hi _ IH]; intros s; cbn [forEach].
  - exists []. cbn. by rewrite app_nil_r, set_trace_same.
  - assert (Hone : exists ev, destroyInstance i s = (Ok tt, set_trace (trace s ++ ev) s)).
    { unfold destroyInstance. destruct (assoc "destroy" (imethods i)) as [[|]|]; [| done |].
      - by exists [Destroy (iid i)].
      - exists []. cbn. by rewrite app_nil_r, set_trace_same. }
    destruct Hone as (ev & Hone).
    destruct (IH (set_trace (trace s ++ ev) s)) as (evs & Hrest).
    exists (ev ++ evs). rewrite (bind_run _ _ _ _ _ Hone), Hrest. cbn.
    by rewrite <- app_assoc.
Qed.

Lemma forEach_removeAndRelease_some (l : list Elem) (s : State) :
  exists P C,
    forEach removeAndRelease l s = (Ok tt, set_pool P (set_modulesContainer C s))
    /\ (is_Some (modulesContainer s) -> is_Some C).
Proof.
  revert s. induction l as [|e l IH]; intros s; cbn [forEach].
  - exists (pool s), (modulesContainer s). split; [by destruct s | done].
  - assert (H1 : exists P1, removeAndRelease e s
                   = (Ok tt, set_pool P1
                               (set_modulesContainer
                                  ((fun children => filter (fun e' => eid e' ≠ eid e) children)
                                     <$> modulesContainer s) s))).
    { unfold removeAndRelease, ElementPool.releaseElement. unfold_m.
      destruct (List.find _ (classList e)).
      - eexists. reflexivity.
      - exists (pool s). cbn. by destruct s. }
    destruct H1 as (P1 & H1).
    match type of H1 with _ = (_, ?s1) => destruct (IH s1) as (P2 & C2 & H2 & HC2) end.
    exists P2, C2. rewrite (bind_run _ _ _ _ _ H1), H2. split; [reflexivity|].
    intros [ch Hch]. apply HC2. cbn. rewrite Hch. by eexists.
Qed.

Lemma teardownPlacement_run (moduleType instanceId : string) (s : State) :
  Forall (fun i => assoc "destroy" (imethods i) <> Some Throws)
    (default [] (assoc instanceId (activeModules s))) ->
  exists evs P C,
    teardownPlacement moduleType instanceId s
    = (Ok tt,
       set_activeModules (alist_set instanceId [] (activeModules s))
         (set_pool P (set_modulesContainer C (set_trace (trace s ++ evs) s))))
    /\ (is_Some (modulesContainer s) -> is_Some C).
Proof.
  intros Hsafe. unfold teardownPlacement.
  rewrite (bind_run _ _ s s (default [] (assoc instanceId (activeModules s)))) by reflexivity.
  destruct (forEach_destroyInstance _ s Hsafe) as (evs & Hd).
  rewrite (bind_run _ _ _ _ _ Hd).
  set (s1 := set_trace (trace s ++ evs) s).
  rewrite (bind_run _ _ s1 s1
             (List.filter (matchesSelector moduleType instanceId)
                (default [] (modulesContainer s1)))) by reflexivity.
  destruct (forEach_removeAndRelease_some
              (List.filter (matchesSelector moduleType instanceId)
                 (default [] (modulesContainer s1))) s1) as (P & C & Hr & HC).
  rewrite (bind_run _ _ _ _ _ Hr).
  exists evs, P, C. split; [reflexivity | exact HC].
Qed.

Section Materialize.

Variable random : nat -> Q.
Variable importModule : string -> nat -> option ModuleClass.

Ltac same_leaf :=
  first
    [ apply steps_modify; intros ?; unfold sameRegistry; cbn;
      first [ done | by case_decide ]
    | unfold emit; apply steps_modify; intros ?; unfold sameRegistry; cbn; done ].

Lemma getElement_same (moduleName : string) :
  steps sameRegistry (ElementPool.getElement moduleName).
Proof.
  intros s r s' H. unfold ElementPool.getElement in H.
  destruct (last _); inversion H; subst; by repeat split.
Qed.

Lemma mathRandom_same : steps sameRegistry (mathRandom random).
Proof. intros s r s' H. inversion H; subst. by repeat split. Qed.

Lemma awaitLoadModuleClass_same (moduleType : string) :
  steps sameRegistry (awaitLoadModuleClass importModule moduleType).
Proof.
  unfold awaitLoadModuleClass, loadModuleClass, awaitLoader. steps_go; same_leaf.
Qed.

Lemma placeCells_same (instanceId moduleType : string) (mo : MatrixOptions) (z : Z) :
  steps sameRegistry (placeCells instanceId moduleType mo z).
Proof.
  unfold placeCells, placeCell. steps_go; first [ apply getElement_same | same_leaf ].
Qed.

Lemma construct_same (c : ModuleClass) (moduleType : string) (l : list Elem) :
  steps sameRegistry (mapM (construct c moduleType) l).
Proof. unfold construct. steps_go; same_leaf. Qed.

Lemma executeOthers_same (instanceId : string) (l : option (list Instance)) (c : bool)
    (others : list MethodCall) :
  steps sameRegistry (executeOthers random instanceId l c others).
Proof.
  unfold executeOthers, runMethod, queueDebugLog, invokeOn, resolveOptions, resolveOption.
  steps_go; first [ apply mathRandom_same | same_leaf ].
Qed.

Lemma runConstructorMethods_same (fuel : nat) (instanceId : string) (l : list Instance) :
  steps sameRegistry
    (runConstructorMethods (executeMethods random importModule (S fuel)) instanceId l).
Proof.
  unfold runConstructorMethods. steps_go.
  rewrite executeMethods_no_matrix by (eapply filtered_non_matrix; eassumption).
  apply executeOthers_same.
Qed.

Lemma awaitLoadModuleClass_ok (t : string) (cls : ModuleClass) (s : State) :
  t <> "" -> loadOutcome importModule s t = Some cls ->
  exists s', awaitLoadModuleClass importModule t s = (Ok (Some cls), s').
Proof.
  intros Ht Hload. unfold loadOutcome in Hload.
  destruct (moduleClassCache s !! t) as [n|] eqn:Hc.
  - rewrite (awaitLoadModuleClass_hit importModule t n s Ht Hc), Hload. by eexists.
  - rewrite (awaitLoadModuleClass_miss importModule t s Ht Hc). cbv zeta.
    rewrite Hload. by eexists.
Qed.

End Materialize.

Lemma try_catch_run {A} (m : M A) (h : Exn -> M A) (s s' : State) (a : A) :
  m s = (Ok a, s') -> try_catch m h s = (Ok a, s').
Proof. intros H. unfold try_catch. by rewrite H. Qed.

Lemma getElement_returns (moduleName : string) (s : State) :
  exists e s', ElementPool.getElement moduleName s = (Ok e, s').
Proof. unfold ElementPool.getElement. destruct (last _); by eexists _, _. Qed.

Section Cells.

Variables (instanceId moduleType : string) (mo : MatrixOptions) (z r c : Z) (E : list string).
Hypothesis rows_mo : rows mo = JNum (inject_Z r).
Hypothesis cols_mo : cols mo = JNum (inject_Z c).
Hypothesis excluded_mo : excludedCells mo = JArr (JStr <$> E).

Lemma placeCell_run (acc : list Elem) (cell : Z * Z) (s : State) :
  exists s' new,
    placeCell instanceId moduleType mo z acc cell s = (Ok (acc ++ new), s')
    /\ Forall2 (cellGeometry instanceId r c) new
         (List.filter (fun cell => negb (bool_decide (keyOf cell ∈ E))) [cell]).
Proof.
  destruct cell as [row col]. unfold placeCell.
  rewrite excluded_mo, includes_strings. cbn [List.filter]. unfold keyOf. cbn [fst snd].
  destruct (bool_decide (cellKey row col ∈ E)); cbn [negb].
  - exists s, []. rewrite app_nil_r. split; [reflexivity | constructor].
  - destruct (getElement_returns moduleType s) as (e & s' & He).
    rewrite (bind_run _ _ _ _ _ He). eexists s', [_]. split; [reflexivity|].
    constructor; [|constructor]. split; [reflexivity|].
    eexists. split; [reflexivity|]. rewrite rows_mo, cols_mo. cbn. done.
Qed.

Lemma foldM_placeCell (cells : list (Z * Z)) (acc : list Elem) (s : State) :
  exists s' new,
    foldM (placeCell instanceId moduleType mo z) acc cells s = (Ok (acc ++ new), s')
    /\ Forall2 (cellGeometry instanceId r c) new
         (List.filter (fun cell => negb (bool_decide (keyOf cell ∈ E))) cells).
Proof.
  revert acc s. induction cells as [|cell cells IH]; intros acc s; cbn [foldM].
  - exists s, []. rewrite app_nil_r. split; [reflexivity | constructor].
  - destruct (placeCell_run acc cell s) as (s1 & new1 & H1 & F1).
    destruct (IH (acc ++ new1) s1) as (s2 & new2 & H2 & F2).
    exists s2, (new1 ++ new2). rewrite (bind_run _ _ _ _ _ H1), H2.
    split; [by rewrite app_assoc|].
    change (cell :: cells) with ([cell] ++ cells). rewrite List.filter_app.
    by apply Forall2_app.
Qed.

Lemma placeCells_run (s : State) :
  exists s' elems,
    placeCells instanceId moduleType mo z s = (Ok elems, s')
    /\ Forall2 (cellGeometry instanceId r c) elems (retainedCells r c E).
Proof.
  unfold placeCells, retainedCells. rewrite rows_mo, cols_mo, gridCells_rowMajor.
  destruct (foldM_placeCell (rowMajor r c) [] s) as (s' & new & H & F).
  by exists s', new.
Qed.

End Cells.

Lemma animationFrame_run {A} (m : M A) (s s' : State) (a : A) :
  m s = (Ok a, s') -> animationFrame m s = (Ok a, s').
Proof. intros H. unfold animationFrame. by rewrite H. Qed.

Lemma animationFrame_raise {A} (m : M A) (s s' : State) (e : Exn) :
  m s = (Raise e, s') -> animationFrame m s = (Never, s').
Proof. intros H. unfold animationFrame. by rewrite H. Qed.

Lemma construct_run (cls : ModuleClass) (moduleType : string) (e : Elem) (s : State) :
  construct cls moduleType e s
  = (match cconstructor cls with
     | Returns => Ok (mkInstance (nextId s) (eid e) (cmethods cls))
     | Throws => Raise (ConstructorError moduleType)
     end,
     set_trace (trace s ++ [Construct (nextId s) moduleType (eid e)])
       (set_nextId (S (nextId s)) s)).
Proof. unfold construct. unfold_m. cbn. by destruct (cconstructor cls). Qed.

(** With a constructor that returns, one instance of the class is built on
    each element. *)
Lemma mapM_construct_run (cls : ModuleClass) (moduleType : string) (elems : list Elem)
    (s : State) :
  cconstructor cls = Returns ->
  exists s' insts,
    mapM (construct cls moduleType) elems s = (Ok insts, s')
    /\ Forall2 (fun i e => ielem i = eid e) insts elems
    /\ Forall (fun i => imethods i = cmethods cls) insts.
Proof.
  intros Hctor. revert s. induction elems as [|e elems IH]; intros s; cbn [mapM].
  - exists s, []. split; [reflexivity|]. split; constructor.
  - pose proof (construct_run cls moduleType e s) as H1. rewrite Hctor in H1.
    match type of H1 with _ = (_, ?s1) => destruct (IH s1) as (s2 & insts & H2 & F2 & G2) end.
    eexists s2, (_ :: insts). rewrite (bind_run _ _ _ _ _ H1), (bind_run _ _ _ _ _ H2).
    split; [reflexivity|]. split; by constructor.
Qed.

(** With a constructor that throws, the first element ends the loop. *)
Lemma mapM_construct_throws (cls : ModuleClass) (moduleType : string) (e : Elem)
    (elems : list Elem) (s : State) :
  cconstructor cls = Throws ->
  mapM (construct cls moduleType) (e :: elems) s
  = (Raise (ConstructorError moduleType),
     set_trace (trace s ++ [Construct (nextId s) moduleType (eid e)])
       (set_nextId (S (nextId s)) s)).
Proof.
  intros Hctor. cbn [mapM]. unfold mbind, M_bind, bind.
  rewrite construct_run, Hctor. reflexivity.
Qed.

Section Grid.

Variable random : nat -> Q.
Variable importModule : string -> nat -> option ModuleClass.

(** C1. For a matrix specification of [r] rows and [c] columns with the
    excluded keys [E], when the materialization of a placement goes through
    (the modules container exists, the module type of the placement is found
    and loads, no [destroy] of a former instance throws and the constructor
    of the class returns), [updateMatrix] leaves, under the placement, as
    many live instances as there are cells less the excluded keys that are
    keys of cells.  The instances are instances of the loaded class, built,
    in this order, on one element per cell of the grid that is not excluded,
    rows outer and columns inner, each element tagged with the placement and
    styled with width [100/c], height [100/r], top [(100/r)*(row-1)] and
    left [(100/c)*(col-1)] percent. *)
Theorem matrix_materializes_grid (fuel : nat) (instanceId moduleType : string)
    (methodOptions : list OptionValue) (r c : Z) (E : list string) (brd : jsval)
    (cls : ModuleClass) (s : State) :
  decodeMatrixOptions methodOptions
    = mkMatrixOptions (JNum (inject_Z r)) (JNum (inject_Z c)) (JArr (JStr <$> E)) brd ->
  1 <= r -> 1 <= c ->
  is_Some (modulesContainer s) ->
  placementType s instanceId = Some moduleType -> moduleType <> "" ->
  Forall (fun i => assoc "destroy" (imethods i) <> Some Throws)
    (default [] (assoc instanceId (activeModules s))) ->
  loadOutcome importModule s moduleType = Some cls ->
  cconstructor cls = Returns ->
  exists res s' insts elems rest,
    updateMatrix random importModule (S fuel) instanceId methodOptions s = (res, s')
    /\ res <> OutOfFuel
    /\ assoc instanceId (activeModules s') = Some insts
    /\ length insts
       = (Z.to_nat (r * c) - size (list_to_set E ∩ validCells r c : gset string))%nat
    /\ modulesContainer s' = Some (rest ++ elems)
    /\ Forall2 (fun i e => ielem i = eid e) insts elems
    /\ Forall (fun i => imethods i = cmethods cls) insts
    /\ Forall2 (cellGeometry instanceId r c) elems (retainedCells r c E).
Proof.
  intros Hdec Hr Hc [children Hcont] Htype Hne Hsafe Hload Hctor.
  cut (exists res s' insts elems rest,
         updateMatrix random importModule (S fuel) instanceId methodOptions s = (res, s')
         /\ assoc instanceId (activeModules s') = Some insts
         /\ length insts
            = (Z.to_nat (r * c) - size (list_to_set E ∩ validCells r c : gset string))%nat
         /\ modulesContainer s' = Some (rest ++ elems)
         /\ Forall2 (fun i e => ielem i = eid e) insts elems
         /\ Forall (fun i => imethods i = cmethods cls) insts
         /\ Forall2 (cellGeometry instanceId r c) elems (retainedCells r c E)).
  { intros (res & s' & insts & elems & rest & Hrun & Hrest).
    exists res, s', insts, elems, rest. split; [exact Hrun|]. split; [|exact Hrest].
    intros ->. exact (updateMatrix_fueled random importModule fuel _ _ _ _ Hrun). }
  unfold updateMatrix, updateMatrixWith. cbv zeta. rewrite Hdec.
  rewrite (bind_run _ _ s s (Some children)) by (unfold gets; by rewrite Hcont).
  rewrite bool_decide_eq_true_2 by (by eexists). cbn [negb].
  rewrite (bind_run _ _ _ _ _ (findModuleType_run s instanceId moduleType Htype)).
  destruct (decide (moduleType = "")) as [|_]; [done|].
  (* teardown *)
  destruct (teardownPlacement_run moduleType instanceId s Hsafe)
    as (evs & P & C & Htear & HC).
  rewrite (bind_run _ _ _ _ _ Htear).
  destruct HC as [children1 ->]; [by rewrite Hcont; eexists|].
  set (s1 := set_activeModules _ _) in *.
  (* load *)
  destruct (awaitLoadModuleClass_ok importModule moduleType cls s1 Hne Hload) as (s2 & Hl).
  pose proof (awaitLoadModuleClass_same importModule moduleType _ _ _ Hl) as (_ & Hm2 & Hc2).
  rewrite (bind_run _ _ s1 s2 (Some (Some cls)))
    by (apply try_catch_run; by rewrite (bind_run _ _ _ _ _ Hl)).
  rewrite (bind_run _ _ s2 s2 (activeTrack s2)) by reflexivity.
  (* elements *)
  set (zIndex := match activeTrack s2 with Some t => _ | None => _ end).
  destruct (placeCells_run instanceId moduleType
              (mkMatrixOptions (JNum (inject_Z r)) (JNum (inject_Z c)) (JArr (JStr <$> E)) brd)
              zIndex r c E eq_refl eq_refl eq_refl s2) as (s3 & elems & Hp & Fgeo).
  pose proof (placeCells_same _ _ _ _ _ _ _ Hp) as (_ & Hm3 & Hc3).
  rewrite (bind_run _ _ _ _ _ Hp).
  set (s4 := set_modulesContainer ((fun children => children ++ elems) <$> modulesContainer s3) s3).
  rewrite (bind_run _ _ s3 s4 tt) by reflexivity.
  (* instances *)
  destruct (mapM_construct_run cls moduleType elems s4 Hctor) as (s5 & insts & Hi & Fi & Gi).
  pose proof (construct_same _ _ _ _ _ _ Hi) as (_ & Hm5 & Hc5).
  rewrite (bind_run _ _ _ _ _ (animationFrame_run _ _ _ _ Hi)).
  set (s6 := set_activeModules (alist_set instanceId insts (activeModules s5)) s5).
  rewrite (bind_run _ _ s5 s6 tt) by reflexivity.
  destruct (runConstructorMethods (executeMethods random importModule (S fuel))
              instanceId insts s6) as [res s7] eqn:Hrun.
  pose proof (runConstructorMethods_same random importModule fuel instanceId insts _ _ _ Hrun)
    as (_ & Hm7 & Hc7).
  exists res, s7, insts, elems, children1. split; [reflexivity|].
  split; [|split; [|split; [|split; [exact Fi | split; [exact Gi | exact Fgeo]]]]].
  - rewrite Hm7. subst s6. cbn. apply assoc_alist_set.
  - rewrite (Forall2_length _ _ _ Fi), (Forall2_length _ _ _ Fgeo).
    apply length_retainedCells; lia.
  - rewrite Hc7. subst s6. cbn. rewrite Hc5. subst s4. cbn. rewrite Hc3, Hc2.
    subst s1. reflexivity.
Qed.

End Grid.

Lemma matrix_materializes_grid_witness :
  decodeMatrixOptions (moptions Sample.matrix22)
    = mkMatrixOptions (JNum (inject_Z 2)) (JNum (inject_Z 2)) (JArr (JStr <$> ["1-1"]))
        JUndefined
  /\ 1 <= 2
  /\ is_Some (modulesContainer Sample.emptyState)
  /\ placementType Sample.emptyState "preview_Frame" = Some "Frame"
  /\ "Frame" <> ""
  /\ Forall (fun i => assoc "destroy" (imethods i) <> Some Throws)
       (default [] (assoc "preview_Frame" (activeModules Sample.emptyState)))
  /\ loadOutcome Sample.always Sample.emptyState "Frame" = Some Sample.frame
  /\ cconstructor Sample.frame = Returns
  /\ exists res s' insts,
       updateMatrix Sample.half Sample.always 1 "preview_Frame" (moptions Sample.matrix22)
         Sample.emptyState = (res, s')
       /\ assoc "preview_Frame" (activeModules s') = Some insts
       /\ length insts = 3%nat
       /\ Forall (fun i => imethods i = cmethods Sample.frame) insts.
Proof.
  assert (Hdec : decodeMatrixOptions (moptions Sample.matrix22)
                 = mkMatrixOptions (JNum (inject_Z 2)) (JNum (inject_Z 2))
                     (JArr (JStr <$> ["1-1"])) JUndefined) by reflexivity.
  assert (Hcont : is_Some (modulesContainer Sample.emptyState)) by (by eexists).
  assert (Hsafe : Forall (fun i => assoc "destroy" (imethods i) <> Some Throws)
                    (default [] (assoc "preview_Frame" (activeModules Sample.emptyState))))
    by constructor.
  assert (Hne : "Frame" <> "") by discriminate.
  repeat (split; [first [ exact Hdec | exact Hcont | exact Hsafe | exact Hne
                        | lia | reflexivity ] |]).
  destruct (matrix_materializes_grid Sample.half Sample.always 0 "preview_Frame" "Frame"
              (moptions Sample.matrix22) 2 2 ["1-1"] JUndefined Sample.frame
              Sample.emptyState Hdec ltac:(lia) ltac:(lia) Hcont eq_refl Hne Hsafe eq_refl
              eq_refl)
    as (res & s' & insts & elems & rest & Hrun & _ & Hreg & Hlen & _ & _ & Hcls & _).
  exists res, s', insts. split; [exact Hrun|]. split; [exact Hreg|].
  split; [|exact Hcls]. rewrite Hlen. by vm_compute.
Defined.

(** * Further properties of the code *)

Lemma fromPairs_snoc (l : list (string * jsval)) (kv : string * jsval) :
  fromPairs (l ++ [kv]) = <[kv.1 := kv.2]> (fromPairs l).
Proof. unfold fromPairs. by rewrite foldl_app. Qed.

Lemma filter_snoc {A} (p : A -> bool) (l : list A) (x : A) :
  List.filter p (l ++ [x]) = List.filter p l ++ (if p x then [x] else []).
Proof. rewrite List.filter_app. reflexivity. Qed.

Lemma fromPairs_options (l : list OptionValue) (k : string) :
  default JUndefined (fromPairs (List.map (fun o => (oname o, ovalue o)) l) !! k)
  = optionValue k l.
Proof.
  unfold optionValue. induction l as [|o l IH] using rev_ind; [reflexivity|].
  rewrite List.map_app, filter_snoc. cbn [List.map]. rewrite fromPairs_snoc. cbn [fst snd].
  destruct (String.eqb (oname o) k) eqn:E.
  - apply String.eqb_eq in E. subst k. rewrite lookup_insert_eq, last_snoc. reflexivity.
  - apply String.eqb_neq in E. rewrite lookup_insert_ne by exact E.
    rewrite app_nil_r. exact IH.
Qed.

Section BuildPlain.

Variable random : nat -> Q.

Lemma buildEntry_plain (h : MethodOptions.Hooks) (out : gmap string jsval)
    (e : MethodOptions.Env) (o : OptionValue) :
  isPlain o = true ->
  MethodOptions.buildEntry random h (out, e) o = (plainStep out o, e).
Proof.
  unfold isPlain, hasRandomValues, hasRandomRange, MethodOptions.buildEntry, plainStep.
  intros H. destruct (String.eqb (oname o) ""); [reflexivity|].
  destruct (orandomValues o) as [| | | | |[|v vs]|]; try discriminate H;
    destruct (orandomRange o) as [| | | | |[|x1 [|x2 [|x3 l']]]|]; try discriminate H;
    try reflexivity; try (destruct x1; reflexivity); destruct x1, x2; reflexivity.
Qed.

Lemma buildMethodOptions_plain (h : MethodOptions.Hooks) (l : list OptionValue)
    (acc : gmap string jsval) (e : MethodOptions.Env) :
  forallb isPlain l = true ->
  foldl (MethodOptions.buildEntry random h) (acc, e) l = (foldl plainStep acc l, e).
Proof.
  revert acc. induction l as [|o l IH]; intros acc H; [reflexivity|].
  cbn in H. apply andb_true_iff in H as [Ho Hl].
  cbn [foldl]. rewrite buildEntry_plain by exact Ho. apply IH, Hl.
Qed.

Lemma plainStep_lookup (l : list OptionValue) (k : string) :
  foldl plainStep ∅ l !! k =
    if String.eqb k "" then None
    else ovalue <$> last (List.filter (fun o => String.eqb (oname o) k) l).
Proof.
  induction l as [|o l IH] using rev_ind.
  - cbn. by destruct (String.eqb k "").
  - rewrite foldl_app, filter_snoc. cbn [foldl]. unfold plainStep at 1.
    destruct (String.eqb (oname o) "") eqn:En.
    + apply String.eqb_eq in En. rewrite IH.
      destruct (String.eqb k "") eqn:Ek; [reflexivity|].
      apply String.eqb_neq in Ek.
      destruct (String.eqb (oname o) k) eqn:E.
      * apply String.eqb_eq in E. congruence.
      * by rewrite app_nil_r.
    + apply String.eqb_neq in En.
      destruct (String.eqb (oname o) k) eqn:E.
      * apply String.eqb_eq in E. subst k. rewrite lookup_insert_eq, last_snoc.
        apply String.eqb_neq in En. by rewrite En.
      * apply String.eqb_neq in E. rewrite lookup_insert_ne by exact E.
        rewrite app_nil_r. exact IH.
Qed.

(** X1. [buildMethodOptions] on options that carry neither random values nor
    a random range pair draws no random number, calls no hook and leaves the
    cache alone; it drops the options without a name, and reading a name from
    its result gives the value of the last option of that name. *)
Theorem plain_options_pass_through (l : list OptionValue) (h : MethodOptions.Hooks)
    (e : MethodOptions.Env) :
  forallb isPlain l = true ->
  exists out,
    MethodOptions.buildMethodOptions random l h e = (out, e)
    /\ out !! "" = None
    /\ forall k, k <> "" ->
         default JUndefined (out !! k) = optionValue k l
         /\ (is_Some (out !! k) <-> k ∈ oname <$> l).
Proof.
  intros H. exists (foldl plainStep ∅ l).
  split; [apply buildMethodOptions_plain, H|].
  split; [by rewrite plainStep_lookup|].
  intros k Hk. rewrite plainStep_lookup. apply String.eqb_neq in Hk. rewrite Hk.
  unfold optionValue.
  split; [by destruct (last _)|].
  rewrite fmap_is_Some. split.
  - intros [o Ho]. apply last_Some_elem_of, list_elem_of_In, filter_In in Ho.
    destruct Ho as [Hin Hn]. apply String.eqb_eq in Hn. subst k.
    apply list_elem_of_fmap. exists o. split; [reflexivity|by apply list_elem_of_In].
  - intros Hin. apply list_elem_of_fmap in Hin as (o & -> & Hin).
    destruct (last (List.filter _ l)) eqn:E; [eauto|].
    apply last_None in E.
    assert (Hf : In o (List.filter (fun o0 => String.eqb (oname o0) (oname o)) l)).
    { apply filter_In. split; [by apply list_elem_of_In|apply String.eqb_refl]. }
    rewrite E in Hf. destruct Hf.
Qed.

End BuildPlain.

Section Agreement.

Variable random : nat -> Q.

Lemma buildEntry_agrees (h : MethodOptions.Hooks) (out : gmap string jsval)
    (e : MethodOptions.Env) (s : State) (o : OptionValue) :
  oname o <> "" -> hasRandomValues o = false ->
  MethodOptions.canNoRepeat h = None ->
  MethodOptions.edraws e = draws s ->
  exists v s' e',
    resolveOption random o s = (Ok (oname o, v), s')
    /\ MethodOptions.buildEntry random h (out, e) o = (<[oname o := v]> out, e')
    /\ MethodOptions.edraws e' = draws s'
    /\ MethodOptions.ecache e' = MethodOptions.ecache e.
Proof.
  intros Hn Hrv Hc Hd. apply String.eqb_neq in Hn.
  assert (Hplain : forall s0,
            resolveOption random o s = (Ok (oname o, ovalue o), s0) ->
            MethodOptions.buildEntry random h (out, e) o
              = (<[oname o := ovalue o]> out, e) ->
            draws s0 = draws s ->
            exists v s' e',
              resolveOption random o s = (Ok (oname o, v), s')
              /\ MethodOptions.buildEntry random h (out, e) o = (<[oname o := v]> out, e')
              /\ MethodOptions.edraws e' = draws s'
              /\ MethodOptions.ecache e' = MethodOptions.ecache e).
  { intros s0 H1 H2 H3. exists (ovalue o), s0, e. rewrite H3. done. }
  unfold hasRandomValues in Hrv.
  unfold MethodOptions.buildEntry. rewrite Hn.
  unfold MethodOptions.buildEntry in Hplain. rewrite Hn in Hplain.
  destruct (orandomRange o) as [| | | | |l|] eqn:E.
  1-5,7: apply (Hplain s); [unfold resolveOption; rewrite E; reflexivity
                          |destruct (orandomValues o) as [| | | | |[|? ?]|]; done|done].
  destruct l as [|x1 l].
  { apply (Hplain s); [unfold resolveOption; rewrite E; reflexivity
                      |destruct (orandomValues o) as [| | | | |[|? ?]|]; done|done]. }
  destruct l as [|x2 l].
  { apply (Hplain s); [unfold resolveOption; rewrite E; destruct x1; reflexivity
                      |destruct (orandomValues o) as [| | | | |[|? ?]|], x1; done|done]. }
  destruct l as [|x3 l].
  2:{ apply (Hplain s); [unfold resolveOption; rewrite E; destruct x1, x2; reflexivity
                      |destruct (orandomValues o) as [| | | | |[|? ?]|], x1, x2; done|done]. }
  clear Hplain.
  destruct (isNumber x1) eqn:E1; [destruct (isNumber x2) eqn:E2|].
  - destruct x1 as [| | |qa| | |]; try discriminate.
    destruct x2 as [| | |qb| | |]; try discriminate.
    rewrite (resolveOption_numeric random o qa qb s E).
    unfold randomValue, MethodOptions.pickInteger, MethodOptions.draw,
      MethodOptions.cacheGet, MethodOptions.cacheSet, MethodOptions.callHook.
    rewrite Hc. cbn [fmap option_fmap option_map bool_decide].
    rewrite <- Hd.
    destruct (orandomValues o) as [| | | | |[|? ?]|]; try discriminate Hrv;
      (destruct (Double.gtb qa qb);
       [destruct (Double.isInteger qb && Double.isInteger qa)
       |destruct (Double.isInteger qa && Double.isInteger qb)]);
      try destruct (MethodOptions.onSwapRandomRange h);
      eexists _, _, _; (split; [reflexivity|]); (split; [reflexivity|]); done.
  - rewrite (resolveOption_invalid random o x1 x2 s E) by (by right).
    exists (ovalue o).
    destruct (orandomValues o) as [| | | | |[|? ?]|]; try discriminate Hrv;
      destruct x1; try discriminate E1; destruct x2; try discriminate E2;
      unfold MethodOptions.callHook; destruct (MethodOptions.onInvalidRandomRange h);
      eexists _, _; (split; [reflexivity|]); (split; [reflexivity|]); done.
  - rewrite (resolveOption_invalid random o x1 x2 s E) by (by left).
    exists (ovalue o).
    destruct (orandomValues o) as [| | | | |[|? ?]|]; try discriminate Hrv;
      destruct x1; try discriminate E1; destruct x2;
      unfold MethodOptions.callHook; destruct (MethodOptions.onInvalidRandomRange h);
      eexists _, _; (split; [reflexivity|]); (split; [reflexivity|]); done.
Qed.

Lemma foldl_buildEntry_agrees (h : MethodOptions.Hooks) (l : list OptionValue)
    (acc : gmap string jsval) (e : MethodOptions.Env) (s : State) :
  Forall (fun o => oname o <> "" /\ hasRandomValues o = false) l ->
  MethodOptions.canNoRepeat h = None ->
  MethodOptions.edraws e = draws s ->
  exists pairs s' e',
    mapM (resolveOption random) l s = (Ok pairs, s')
    /\ foldl (MethodOptions.buildEntry random h) (acc, e) l
       = (foldl (fun acc kv => <[kv.1 := kv.2]> acc) acc pairs, e')
    /\ MethodOptions.edraws e' = draws s'
    /\ MethodOptions.ecache e' = MethodOptions.ecache e.
Proof.
  intros Hl Hc. revert acc e s.
  induction Hl as [|o l [Hn Hrv] Hl IH]; intros acc e s Hd.
  - exists [], s, e. done.
  - destruct (buildEntry_agrees h acc e s o Hn Hrv Hc Hd) as (v & s1 & e1 & H1 & B1 & D1 & C1).
    destruct (IH (<[oname o := v]> acc) e1 s1 D1) as (pairs & s2 & e2 & H2 & B2 & D2 & C2).
    exists ((oname o, v) :: pairs), s2, e2.
    split.
    { cbn [mapM]. rewrite (bind_run _ _ _ _ _ H1), (bind_run _ _ _ _ _ H2). reflexivity. }
    cbn [foldl]. rewrite B1, B2. cbn [fst snd]. split; [reflexivity|].
    split; [exact D2|congruence].
Qed.

(** X2. On options that all have a name and no random values, and without a
    usable no-repeat cache, [buildMethodOptions] computes the object the
    option callback of [Projector.executeMethods] computes, from the same
    draws of [Math.random()]: both consume as many draws, and the cache is
    left alone. *)
Theorem build_method_options_agrees_with_projector (l : list OptionValue)
    (h : MethodOptions.Hooks) (e : MethodOptions.Env) (s : State) :
  Forall (fun o => oname o <> "" /\ hasRandomValues o = false) l ->
  MethodOptions.canNoRepeat h = None ->
  MethodOptions.edraws e = draws s ->
  exists out s' e',
    resolveOptions random l s = (Ok out, s')
    /\ MethodOptions.buildMethodOptions random l h e = (out, e')
    /\ MethodOptions.edraws e' = draws s'
    /\ MethodOptions.ecache e' = MethodOptions.ecache e.
Proof.
  intros Hl Hc Hd.
  destruct (foldl_buildEntry_agrees h l ∅ e s Hl Hc Hd) as (pairs & s' & e' & H1 & B & D & C).
  exists (fromPairs pairs), s', e'. unfold resolveOptions.
  rewrite (bind_run _ _ _ _ _ H1). split; [reflexivity|].
  unfold MethodOptions.buildMethodOptions. rewrite B. done.
Qed.

End Agreement.

Lemma build_method_options_agrees_with_projector_witness :
  exists out s' e',
    resolveOptions Sample.half [Sample.inverted; Sample.dice] Sample.emptyState = (Ok out, s')
    /\ MethodOptions.buildMethodOptions Sample.half [Sample.inverted; Sample.dice]
         Sample.noHooks Sample.emptyEnv = (out, e')
    /\ MethodOptions.edraws e' = draws s'
    /\ MethodOptions.ecache e' = MethodOptions.ecache Sample.emptyEnv.
Proof.
  apply (build_method_options_agrees_with_projector Sample.half
           [Sample.inverted; Sample.dice] Sample.noHooks Sample.emptyEnv Sample.emptyState).
  - repeat constructor; discriminate.
  - reflexivity.
  - reflexivity.
Defined.

Lemma Qeq_bool_false (a b : Q) : Qeq_bool a b = false -> ~ (a == b)%Q.
Proof. intros H Heq. apply Qeq_bool_iff in Heq. congruence. Qed.

Section NoRepeat.

Variable random : nat -> Q.
Hypothesis random_unit : forall n, (0 <= random n < 1)%Q.
Hypothesis random_double : forall n, Double.isDouble (random n).

(** X3. With a no-repeat cache, a range of more than one value whose bounds
    are integers within [-2^53, 2^53], with a difference below [2^53], never
    yields the value drawn last time.  (From [2^53] on the step over the
    last value, [picked + 1], is rounded back to [picked].) *)
Theorem integer_pick_never_repeats (h : MethodOptions.Hooks) (prefix : string)
    (o : OptionValue) (min max last : Q) (e : MethodOptions.Env) :
  oname o <> "" -> hasRandomValues o = false ->
  orandomRange o = JArr [JNum min; JNum max] ->
  Double.isDouble min -> Double.isDouble max -> safeIntegers min max -> (min < max)%Q ->
  MethodOptions.canNoRepeat h = Some prefix ->
  MethodOptions.ecache e !! (prefix +:+ ":" +:+ oname o +:+ ":rrInt") = Some (JNum last) ->
  exists (v : Q) e',
    MethodOptions.buildMethodOptions random [o] h e = ({[oname o := JNum v]}, e')
    /\ ~ (v == last)%Q
    /\ (min <= v <= max)%Q
    /\ MethodOptions.ecache e' !! (prefix +:+ ":" +:+ oname o +:+ ":rrInt") = Some (JNum v).
Proof.
  intros Hn Hrv Hrr Hdmin Hdmax Hsafe Hlt Hc Hlast.
  assert (Hnorv : forall x l, orandomValues o <> JArr (x :: l)).
  { intros x l Hx. unfold hasRandomValues in Hrv. rewrite Hx in Hrv. discriminate. }
  assert (Hle : Double.gtb min max = false) by (apply Qgtb_le; lra).
  pose proof Hsafe as (Hmin & Hmax & _).
  destruct (pickInteger_bounds true min max (random (MethodOptions.edraws e)) (JNum last)
              Hdmin Hdmax Hsafe ltac:(lra) (random_double _) (random_unit _))
    as (z & _ & Hb & Hp).
  assert (Hrange : Qgtb (max - min + 1) 1 = true) by (apply Qgtb_lt; lra).
  rewrite Hrange in Hp. cbn [andb MethodOptions.strictEq Double.eqb] in Hp.
  destruct (safeIntegers_bounds min max Hdmin Hdmax Hsafe) as (E1 & E2 & _).
  assert (Hbuild : forall v : Q,
            MethodOptions.pickInteger true min max (random (MethodOptions.edraws e))
              (JNum last) = Double.Fin v ->
            exists e',
              MethodOptions.buildMethodOptions random [o] h e = ({[oname o := JNum v]}, e')
              /\ MethodOptions.ecache e' !! (prefix +:+ ":" +:+ oname o +:+ ":rrInt")
                 = Some (JNum v)).
  { intros v Hv. unfold MethodOptions.buildMethodOptions. cbn [foldl].
    rewrite (buildEntry_numeric random h ∅ e o min max Hn Hnorv Hrr), Hle.
    cbn [Double.isInteger]. fold (isInteger min) (isInteger max). rewrite Hmin, Hmax.
    cbn [andb]. cbv zeta. rewrite Hc.
    cbn [fmap option_fmap option_map MethodOptions.cacheGet MethodOptions.draw].
    rewrite Hlast. cbn [default]. unfold id. rewrite bool_decide_eq_true_2 by eauto.
    rewrite Hv, insert_empty. eexists. split; [reflexivity|].
    cbn. apply lookup_insert_eq. }
  destruct (Qeq_bool (inject_Z z) last) eqn:Eq.
  - apply Qeq_bool_iff in Eq. destruct (Qgtb max (inject_Z z)) eqn:Eg.
    + destruct (Hbuild _ Hp) as (e' & B1 & B2). exists (inject_Z (z + 1)), e'.
      split; [exact B1|]. split; [|split; [|exact B2]].
      * rewrite inject_Z_plus. change (inject_Z 1) with 1%Q. lra.
      * apply Qgtb_lt in Eg. rewrite E2 in Eg |- *. rewrite <- Zlt_Qlt in Eg.
        rewrite inject_Z_plus. change (inject_Z 1) with 1%Q.
        split; [lra|]. change 1%Q with (inject_Z 1).
        rewrite <- inject_Z_plus, <- Zle_Qle. lia.
    + destruct (Hbuild _ Hp) as (e' & B1 & B2). exists min, e'.
      apply Qgtb_le in Eg.
      split; [exact B1|]. split; [lra|]. split; [lra | exact B2].
  - destruct (Hbuild _ Hp) as (e' & B1 & B2). exists (inject_Z z), e'.
    split; [exact B1|]. split; [by apply Qeq_bool_false|]. split; [exact Hb | exact B2].
Qed.

Lemma pick_in_candidates (r : Q) (c : list jsval) :
  (0 <= r < 1)%Q -> c <> [] ->
  index (Z.to_nat (Qfloor (r * inject_Z (Z.max 1 (Z.of_nat (length c)))))) c ∈ c.
Proof.
  intros Hr Hc.
  assert (Hlen : 1 <= Z.of_nat (length c)) by (destruct c; [done|cbn; lia]).
  rewrite Z.max_r by exact Hlen.
  destruct (floor_draw_bounds r (Z.of_nat (length c)) Hr Hlen) as [H0 H1].
  unfold index.
  destruct (c !! Z.to_nat (Qfloor (r * inject_Z (Z.of_nat (length c))))) as [x|] eqn:E.
  - cbn. by eapply list_elem_of_lookup_2.
  - apply lookup_ge_None in E. lia.
Qed.

Lemma pick_of_none (r : Q) :
  (0 <= r < 1)%Q ->
  index (Z.to_nat (Qfloor (r * inject_Z (Z.max 1 (Z.of_nat (length (@nil jsval))))))) []
  = JUndefined.
Proof. reflexivity. Qed.

(** X4. The value picked among random values is one of them; with a
    no-repeat cache that holds a last value, and two values or more, it is a
    value other than the last one when there is such a value, and
    [undefined] when every value equals the last one.  The cache then holds
    the picked value. *)
Theorem random_values_pick (h : MethodOptions.Hooks) (o : OptionValue)
    (rv0 : jsval) (rvs : list jsval) (e : MethodOptions.Env) :
  oname o <> "" -> orandomValues o = JArr (rv0 :: rvs) ->
  let key := (fun p => p +:+ ":" +:+ oname o +:+ ":rv") <$> MethodOptions.canNoRepeat h in
  let last := MethodOptions.cacheGet key e in
  exists v e',
    MethodOptions.buildMethodOptions random [o] h e = ({[oname o := v]}, e')
    /\ MethodOptions.edraws e' = S (MethodOptions.edraws e)
    /\ (forall k, key = Some k -> MethodOptions.ecache e' !! k = Some v)
    /\ (last = JUndefined \/ rvs = [] -> v ∈ rv0 :: rvs)
    /\ (last <> JUndefined -> rvs <> [] ->
        if forallb (fun x => MethodOptions.strictEq x last) (rv0 :: rvs)
        then v = JUndefined
        else v ∈ rv0 :: rvs /\ MethodOptions.strictEq v last = false).
Proof.
  intros Hn Hrv key last. apply String.eqb_neq in Hn.
  unfold MethodOptions.buildMethodOptions. cbn [foldl].
  unfold MethodOptions.buildEntry. rewrite Hn, Hrv.
  fold key. fold last. cbn [MethodOptions.draw].
  set (candidates :=
         if negb (MethodOptions.isUndefined last) && bool_decide (1 < length (rv0 :: rvs))%nat
         then List.filter (fun v => negb (MethodOptions.strictEq v last)) (rv0 :: rvs)
         else rv0 :: rvs).
  set (picked := index _ candidates).
  exists picked. eexists. rewrite insert_empty. split; [reflexivity|].
  split; [by destruct key|].
  split; [intros k ->; cbn; apply lookup_insert_eq|].
  pose proof (random_unit (MethodOptions.edraws e)) as Hr.
  split.
  - intros Hcase.
    assert (Hc : candidates = rv0 :: rvs).
    { unfold candidates. destruct Hcase as [->| ->]; [reflexivity|].
      cbn. by rewrite andb_false_r. }
    unfold picked. rewrite Hc. by apply pick_in_candidates.
  - intros Hl Hrvs.
    assert (Hc : candidates
                 = List.filter (fun v => negb (MethodOptions.strictEq v last)) (rv0 :: rvs)).
    { unfold candidates.
      replace (MethodOptions.isUndefined last) with false by (by destruct last).
      rewrite bool_decide_eq_true_2; [reflexivity|]. destruct rvs; [done|cbn; lia]. }
    destruct (forallb _ (rv0 :: rvs)) eqn:Eall.
    + assert (Hnil : candidates = []).
      { rewrite Hc. rewrite forallb_forall in Eall.
        destruct (List.filter _ (rv0 :: rvs)) as [|x xs] eqn:Ef; [reflexivity|].
        assert (Hx : In x (List.filter (fun v => negb (MethodOptions.strictEq v last))
                             (rv0 :: rvs))) by (rewrite Ef; by left).
        apply filter_In in Hx as [Hin Hx]. rewrite (Eall x Hin) in Hx. discriminate. }
      unfold picked. rewrite Hnil. reflexivity.
    + assert (Hne : candidates <> []).
      { rewrite Hc. intros Hnil. apply not_true_iff_false in Eall. apply Eall.
        apply forallb_forall. intros x Hin.
        destruct (MethodOptions.strictEq x last) eqn:Ex; [reflexivity|].
        assert (Hx : In x (List.filter (fun v => negb (MethodOptions.strictEq v last))
                             (rv0 :: rvs))) by (apply filter_In; by rewrite Ex).
        rewrite Hnil in Hx. destruct Hx. }
      pose proof (pick_in_candidates _ candidates Hr Hne) as Hin. fold picked in Hin.
      rewrite Hc in Hin. apply list_elem_of_In, filter_In in Hin as [Hin Hp].
      split; [by apply list_elem_of_In|]. by apply negb_true_iff in Hp.
Qed.

End NoRepeat.

Lemma mathMin_spec (a b : Q) :
  (MethodOptions.mathMin a b <= a /\ MethodOptions.mathMin a b <= b
   /\ (MethodOptions.mathMin a b == a \/ MethodOptions.mathMin a b == b))%Q.
Proof.
  unfold MethodOptions.mathMin. destruct (Qle_bool a b) eqn:E.
  - apply Qle_bool_iff in E. repeat split; [lra|lra|left; lra].
  - assert (~ (a <= b)%Q) by (intros H; apply Qle_bool_iff in H; congruence).
    repeat split; [lra|lra|right; lra].
Qed.

Lemma mathMax_spec (a b : Q) :
  (a <= MethodOptions.mathMax a b /\ b <= MethodOptions.mathMax a b
   /\ (MethodOptions.mathMax a b == a \/ MethodOptions.mathMax a b == b))%Q.
Proof.
  unfold MethodOptions.mathMax. destruct (Qle_bool a b) eqn:E.
  - apply Qle_bool_iff in E. repeat split; [lra|lra|right; lra].
  - assert (~ (a <= b)%Q) by (intros H; apply Qle_bool_iff in H; congruence).
    repeat split; [lra|lra|left; lra].
Qed.

Lemma default_ovalue (x : option OptionValue) :
  default JUndefined (ovalue <$> x)
  = match x with Some o => ovalue o | None => JUndefined end.
Proof. by destruct x. Qed.

Section Parse.

Variable random : nat -> Q.
Variable numberOfText : jsval -> Double.num.

Lemma clampDimension_bounds (v : jsval) :
  (1 <= MethodOptions.clampDimension numberOfText v <= 5)%Q.
Proof.
  unfold MethodOptions.clampDimension.
  destruct (MethodOptions.Number numberOfText v) as [q|[|]|];
    try (split; [discriminate | discriminate]).
  match goal with |- context [MethodOptions.mathMin 5 ?n] => generalize n end. intros n.
  pose proof (mathMin_spec 5 n) as (H1 & H2 & H3).
  pose proof (mathMax_spec 1 (MethodOptions.mathMin 5 n)) as (H4 & H5 & [H6|H6]); lra.
Qed.

Lemma clampDimension_in_range (q : Q) :
  (1 <= q <= 5)%Q -> (MethodOptions.clampDimension numberOfText (JNum q) == q)%Q.
Proof.
  intros Hq. unfold MethodOptions.clampDimension. cbn [MethodOptions.Number].
  assert (Hz : Qeq_bool q 0 = false).
  { destruct (Qeq_bool q 0) eqn:E; [|reflexivity]. apply Qeq_bool_iff in E. lra. }
  rewrite Hz.
  pose proof (mathMin_spec 5 q) as (H1 & H2 & H3).
  pose proof (mathMax_spec 1 (MethodOptions.mathMin 5 q)) as (H4 & H5 & [H6|H6]); lra.
Qed.

(** X5. Whatever the options hold, [parseMatrixOptions] returns a number of
    rows and a number of columns between 1 and 5. *)
Theorem parse_matrix_options_clamps (methodOptions : list OptionValue)
    (e : MethodOptions.Env) :
  let p := (MethodOptions.parseMatrixOptions random numberOfText methodOptions e).1 in
  (1 <= MethodOptions.prows p <= 5)%Q /\ (1 <= MethodOptions.pcols p <= 5)%Q.
Proof.
  unfold MethodOptions.parseMatrixOptions.
  destruct (MethodOptions.buildMethodOptions _ _ _ _) as [options e'].
  destruct (default JUndefined (options !! "matrix"));
    cbn [fst MethodOptions.prows MethodOptions.pcols];
    split; apply clampDimension_bounds.
Qed.

(** X6. On options without random ranges or values, and for a matrix of one
    to five rows and columns, [parseMatrixOptions] reads the rows, the
    columns and the excluded cells that [Projector.updateMatrix] decodes; it
    draws no random number.  The border agrees when the options carry a
    matrix value; without one [updateMatrix] takes the border off, and
    [parseMatrixOptions] still reads the border option. *)
Theorem parse_matrix_options_agrees_with_projector (methodOptions : list OptionValue)
    (e : MethodOptions.Env) (r c : Q) :
  forallb isPlain methodOptions = true ->
  rows (decodeMatrixOptions methodOptions) = JNum r ->
  cols (decodeMatrixOptions methodOptions) = JNum c ->
  (1 <= r <= 5)%Q -> (1 <= c <= 5)%Q ->
  exists p,
    MethodOptions.parseMatrixOptions random numberOfText methodOptions e = (p, e)
    /\ (MethodOptions.prows p == r)%Q /\ (MethodOptions.pcols p == c)%Q
    /\ (forall E, excludedCells (decodeMatrixOptions methodOptions) = JArr E ->
                  MethodOptions.pexcludedCells p = E)
    /\ MethodOptions.pborder p = truthy (optionValue "border" methodOptions)
    /\ truthy (borderOption (decodeMatrixOptions methodOptions))
       = match optionValue "matrix" methodOptions with
         | JArr _ | JObj _ => truthy (optionValue "border" methodOptions)
         | _ => false
         end.
Proof.
  intros Hplain. unfold MethodOptions.parseMatrixOptions, MethodOptions.buildMethodOptions.
  rewrite (buildMethodOptions_plain random _ _ _ _ Hplain).
  rewrite !plainStep_lookup. cbn [String.eqb Ascii.eqb Bool.eqb].
  unfold decodeMatrixOptions. cbv zeta. rewrite !fromPairs_options.
  unfold optionValue.
  rewrite !default_ovalue.
  generalize (match last (List.filter (fun o => String.eqb (oname o) "matrix") methodOptions)
              with Some o => ovalue o | None => JUndefined end).
  generalize (match last (List.filter (fun o => String.eqb (oname o) "border") methodOptions)
              with Some o => ovalue o | None => JUndefined end).
  intros bd m.
  intros Hr Hc Hrb Hcb.
  destruct m as [| | | | |l|f]; cbn [rows cols excludedCells borderOption] in *.
  1-5: inversion Hr; inversion Hc; subst; eexists; split; [reflexivity|];
       cbn [MethodOptions.prows MethodOptions.pcols MethodOptions.pexcludedCells
            MethodOptions.pborder];
       (split; [apply clampDimension_in_range; lra|]);
       (split; [apply clampDimension_in_range; lra|]);
       (split; [by intros E [= <-]|]); done.
  - rewrite Hr, Hc. eexists; split; [reflexivity|].
    cbn [MethodOptions.prows MethodOptions.pcols MethodOptions.pexcludedCells
         MethodOptions.pborder].
    split; [by apply clampDimension_in_range|].
    split; [by apply clampDimension_in_range|].
    split; [by intros E [= <-]|]. done.
  - rewrite Hr, Hc. eexists; split; [reflexivity|].
    cbn [MethodOptions.prows MethodOptions.pcols MethodOptions.pexcludedCells
         MethodOptions.pborder].
    split; [by apply clampDimension_in_range|].
    split; [by apply clampDimension_in_range|].
    split; [|done].
    intros E. unfold or_else. destruct (prop "excludedCells" f) as [| | | | |l|g] eqn:Ep; cbn.
    all: try (intros [= <-]; reflexivity).
    all: try (destruct b; intros [= <-]; reflexivity).
    all: try (destruct x as [q|?|]; [destruct (Qeq_bool q 0)| |]; cbn;
              first [discriminate | intros [= <-]; reflexivity]).
    all: try (destruct (String.eqb s ""); cbn; [intros [= <-]; reflexivity|discriminate]).
    all: try discriminate.
Qed.

End Parse.

Section Frame.

Context (R : State -> State -> Prop) (okId : string -> Prop) (K : Kept R okId).

#[local] Instance frame_preorder : PreOrder R := kept_preorder R okId K.

Variable random : nat -> Q.
Variable importModule : string -> nat -> option ModuleClass.

Lemma frame_emit (e : Event) : steps R (emit e).
Proof. apply steps_modify. intros s. apply (kept_trace R okId K). Qed.

Lemma frame_getElement (k : string) : steps R (ElementPool.getElement k).
Proof.
  intros s r s' H. unfold ElementPool.getElement in H.
  destruct (last _); inversion H; subst; [apply (kept_pop R okId K) | apply (kept_nextId R okId K)].
Qed.

Lemma frame_mathRandom : steps R (mathRandom random).
Proof. intros s r s' H. inversion H; subst. apply (kept_draws R okId K). Qed.

Ltac frame_leaf :=
  first
    [ apply frame_emit | apply frame_getElement | apply frame_mathRandom
    | apply steps_modify; intros ?;
      first [ apply (kept_trace R okId K) | apply (kept_nextId R okId K)
            | apply (kept_draws R okId K) | apply (kept_imports R okId K)
            | apply (kept_cache R okId K) | apply (kept_queue R okId K)
            | apply (kept_container R okId K)
            | apply (kept_push R okId K); assumption
            | apply (kept_entry R okId K); assumption
            | case_decide; [apply (kept_cache R okId K) | reflexivity] ] ].

Lemma frame_releaseElement (e : Elem) : steps R (ElementPool.releaseElement e).
Proof. unfold ElementPool.releaseElement. steps_go; frame_leaf. Qed.

Lemma frame_removeAndRelease (e : Elem) : steps R (removeAndRelease e).
Proof. unfold removeAndRelease. steps_go; first [apply frame_releaseElement | frame_leaf]. Qed.

Lemma frame_destroyInstance (i : Instance) : steps R (destroyInstance i).
Proof. unfold destroyInstance. steps_go; frame_leaf. Qed.

Lemma frame_loadModuleClass (t : string) : steps R (loadModuleClass t).
Proof. unfold loadModuleClass. steps_go; frame_leaf. Qed.

Lemma frame_awaitLoader (p : option LoaderPromise) : steps R (awaitLoader importModule p).
Proof. unfold awaitLoader. steps_go; frame_leaf. Qed.

Lemma frame_resolveOption (o : OptionValue) : steps R (resolveOption random o).
Proof. unfold resolveOption. steps_go; frame_leaf. Qed.

Lemma frame_placeCell (instanceId moduleType : string) (mo : MatrixOptions) (z : Z)
    (acc : list Elem) (cell : Z * Z) :
  steps R (placeCell instanceId moduleType mo z acc cell).
Proof. unfold placeCell. steps_go; frame_leaf. Qed.

Lemma frame_placeCells (instanceId moduleType : string) (mo : MatrixOptions) (z : Z) :
  steps R (placeCells instanceId moduleType mo z).
Proof. unfold placeCells. steps_go; apply frame_placeCell. Qed.

Lemma frame_construct (c : ModuleClass) (t : string) (e : Elem) : steps R (construct c t e).
Proof. unfold construct. steps_go; frame_leaf. Qed.

Lemma frame_invokeOn (name id : string) (o : gmap string jsval) (c : bool) (i : Instance) :
  steps R (invokeOn name id o c i).
Proof. unfold invokeOn. steps_go; frame_leaf. Qed.

Lemma frame_queueDebugLog (log : string * gmap string jsval) : steps R (queueDebugLog log).
Proof. unfold queueDebugLog. steps_go; frame_leaf. Qed.

Ltac frame_call :=
  first
    [ apply frame_releaseElement | apply frame_removeAndRelease | apply frame_destroyInstance
    | apply frame_loadModuleClass | apply frame_awaitLoader | apply frame_resolveOption
    | apply frame_placeCells | apply frame_placeCell | apply frame_construct
    | apply frame_invokeOn
    | apply frame_queueDebugLog | frame_leaf ].

Lemma frame_executeOthers (id : string) (l : option (list Instance)) (c : bool)
    (others : list MethodCall) :
  steps R (executeOthers random id l c others).
Proof. unfold executeOthers, runMethod, resolveOptions. steps_go; frame_call. Qed.

Lemma frame_updateMatrixWith
    (exec : list MethodCall -> string -> option (list Instance) -> bool -> M unit)
    (id : string) (methodOptions : list OptionValue) :
  okId id ->
  (forall ms l c, steps R (exec ms id l c)) ->
  steps R (updateMatrixWith importModule exec id methodOptions).
Proof.
  intros Hid Hexec.
  unfold updateMatrixWith, findModuleType, teardownPlacement, awaitLoadModuleClass,
    placeCells, runConstructorMethods.
  cbv zeta. steps_go; first [ apply Hexec | frame_call ].
Qed.

Lemma frame_executeMethods (fuel : nat) (methods : list MethodCall) (id : string)
    (l : option (list Instance)) (c : bool) :
  okId id -> steps R (executeMethods random importModule fuel methods id l c).
Proof.
  intros Hid. revert methods l c. induction fuel as [|fuel IH]; intros methods l c.
  - intros s r s' H. inversion H; subst. reflexivity.
  - cbn [executeMethods]. destruct (separate methods) as [[needs mo] others].
    steps_go;
      first [ apply frame_executeOthers | apply IH | frame_call ].
Qed.

Lemma frame_updateMatrix (fuel : nat) (id : string) (methodOptions : list OptionValue) :
  okId id -> steps R (updateMatrix random importModule fuel id methodOptions).
Proof.
  intros Hid. unfold updateMatrix. apply frame_updateMatrixWith; [exact Hid|].
  intros. by apply frame_executeMethods.
Qed.

Lemma frame_startModule (r : ModuleRef) : steps R (startModule r).
Proof. unfold startModule. steps_go; frame_call. Qed.

Lemma frame_resumeModule (track : Track) (task : ModuleRef * option LoaderPromise) :
  okId (rid task.1) -> steps R (resumeModule importModule track task).
Proof.
  destruct task as [r p]. cbn [fst]. intros Hid. unfold resumeModule.
  steps_go; frame_call.
Qed.

Lemma frame_detached (i : string) (m : M unit) : steps R m -> steps R (detached i m).
Proof.
  intros Hm. apply steps_detached; [apply _ | exact Hm|].
  intros s e. apply (kept_trace R okId K).
Qed.

Lemma frame_runScheduled (fuel : nat) (job : string * list MethodCall) :
  okId job.1 -> steps R (runScheduled random importModule fuel job).
Proof.
  destruct job as [id ms]. cbn [fst]. intros Hid. unfold runScheduled.
  steps_go; first [ apply frame_detached; by apply frame_executeMethods | frame_call ].
Qed.

Lemma frame_triggerTarget (fuel : nat) (track : Track) (ch : string) (t : Target) :
  okId (instanceId t) -> steps R (triggerTarget random importModule fuel track ch t).
Proof.
  intros Hid. unfold triggerTarget.
  steps_go; first [ by apply frame_executeMethods | frame_call ].
Qed.

End Frame.

Section FrameAll.

Context (R : State -> State -> Prop) (K : KeptByAll R).
Variable random : nat -> Q.
Variable importModule : string -> nat -> option ModuleClass.

#[local] Instance frame_all_preorder : PreOrder R :=
  kept_preorder R _ (kept_pipeline R K).

Ltac frame_entry :=
  first
    [ apply (frame_executeMethods R _ (kept_pipeline R K)); exact I
    | apply (frame_startModule R _ (kept_pipeline R K))
    | apply (frame_resumeModule R _ (kept_pipeline R K)); exact I
    | apply (frame_runScheduled R _ (kept_pipeline R K)); exact I
    | apply (frame_triggerTarget R _ (kept_pipeline R K)); exact I
    | apply (frame_removeAndRelease R _ (kept_pipeline R K))
    | apply (frame_destroyInstance R _ (kept_pipeline R K))
    | apply (frame_invokeOn R _ (kept_pipeline R K))
    | apply (frame_releaseElement R _ (kept_pipeline R K))
    | apply (frame_loadModuleClass R _ (kept_pipeline R K))
    | apply (frame_awaitLoader R _ (kept_pipeline R K))
    | apply (frame_emit R _ (kept_pipeline R K))
    | apply steps_modify; intros ?;
      first [ apply (kept_modules R K) | apply (kept_track R K) | apply (kept_handlers R K)
            | apply (kept_deactivating R K) | apply (kept_children R K)
            | apply (kept_container R _ (kept_pipeline R K)) ] ].

Lemma frame_deactivateActiveTrack : steps R deactivateActiveTrack.
Proof.
  unfold deactivateActiveTrack, destroyAll, releaseAll, destroyGuarded.
  steps_go; frame_entry.
Qed.

Lemma frame_handleTrackSelection (fuel : nat) (trackName : string) :
  steps R (handleTrackSelection random importModule fuel trackName).
Proof.
  unfold handleTrackSelection.
  steps_go; first [ apply frame_deactivateActiveTrack | frame_entry ].
Qed.

Lemma frame_handleChannelMessage (fuel : nat) (channelPath : string) :
  steps R (handleChannelMessage random importModule fuel channelPath).
Proof. unfold handleChannelMessage. steps_go; frame_entry. Qed.

Lemma frame_clearPreview (p : option string) : steps R (clearPreview p).
Proof. unfold clearPreview, destroyPreview. steps_go; frame_entry. Qed.

Lemma frame_previewModule (fuel : nat) (p : option string) (moduleName : string)
    (moduleData : option ModuleData) :
  steps R (previewModule random importModule fuel p moduleName moduleData).
Proof.
  unfold previewModule. steps_go; first [ apply frame_clearPreview | frame_entry ].
Qed.

Lemma frame_triggerPreviewMethod (p : option string) (moduleName methodName : string)
    (options : gmap string jsval) :
  steps R (triggerPreviewMethod p moduleName methodName options).
Proof. unfold triggerPreviewMethod. steps_go; frame_entry. Qed.

End FrameAll.

(** ** Instances *)

#[global] Instance sameSelection_preorder : PreOrder sameSelection.
Proof.
  split.
  - intros s. by repeat split.
  - intros s1 s2 s3 (A1 & B1 & C1 & D1) (A2 & B2 & C2 & D2).
    repeat split; congruence.
Qed.

#[global] Instance keepsContainer_preorder : PreOrder keepsContainer.
Proof. split; [by intros s H | intros s1 s2 s3 H1 H2 H; auto]. Qed.

#[global] Instance keysWithin_preorder (ids : list string) : PreOrder (keysWithin ids).
Proof.
  split.
  - intros s k H. by left.
  - intros s1 s2 s3 H1 H2 k H. destruct (H2 k H) as [H'|H']; [auto|by right].
Qed.

#[global] Instance keepsKey_preorder (k : string) : PreOrder (keepsKey k).
Proof. split; [by intros s H | intros s1 s2 s3 H1 H2 H; auto]. Qed.

#[global] Instance preserves_preorder (I : State -> Prop) : PreOrder (preserves I).
Proof. split; [by intros s H | intros s1 s2 s3 H1 H2 H; auto]. Qed.

Lemma assoc_alist_set_ne {A} (k k' : string) (v : A) (l : list (string * A)) :
  k' <> k -> assoc k' (alist_set k v l) = assoc k' l.
Proof.
  intros Hne. induction l as [|[k0 v0] l IH]; cbn.
  - destruct (String.eqb k' k) eqn:E; [apply String.eqb_eq in E; congruence|reflexivity].
  - destruct (String.eqb k k0) eqn:E0.
    + apply String.eqb_eq in E0. subst k0. cbn.
      destruct (String.eqb k' k) eqn:E; [apply String.eqb_eq in E; congruence|reflexivity].
    + cbn. destruct (String.eqb k' k0); [reflexivity|exact IH].
Qed.


Lemma keepsContainer_kept : Kept keepsContainer (fun _ => True).
Proof.
  split; try apply _; unfold keepsContainer; intros; try assumption.
  cbn. by apply fmap_is_Some.
Qed.

Lemma keysWithin_kept (ids : list string) : Kept (keysWithin ids) (fun id => id ∈ ids).
Proof.
  split; try apply _; unfold keysWithin; try (intros; left; assumption).
  intros id v s Hid k H. cbn in H.
  destruct (decide (k = id)) as [->|Hne]; [by right|left].
  by rewrite assoc_alist_set_ne in H.
Qed.

Lemma keepsKey_kept (k : string) : Kept (keepsKey k) (fun _ => True).
Proof.
  split; try apply _; unfold keepsKey; try (intros; assumption).
  intros id v s _ H. cbn.
  destruct (decide (k = id)) as [->|Hne]; [rewrite assoc_alist_set; eauto|].
  by rewrite assoc_alist_set_ne.
Qed.

Lemma appends_kept (P : Event -> Prop) (okId : string -> Prop) :
  (forall e, P e) -> Kept (appends P) okId.
Proof.
  intros HP. split; try apply _; try (intros; by apply appends_same).
  intros e s. exists [e]. split; [reflexivity|]. constructor; [apply HP|constructor].
Qed.

Lemma poolSorted_kept : KeptByAll (preserves poolSorted).
Proof.
  split; [split|..]; try apply _; unfold preserves; try (intros; assumption).
  - intros k s H k' l e Hl He. cbn in Hl.
    destruct (decide (k' = k)) as [->|Hne].
    + rewrite lookup_insert_eq in Hl. inversion Hl; subst.
      destruct (pool s !! k) as [l0|] eqn:E; cbn in He; [|by apply elem_of_nil in He].
      apply (H k l0 e E).
      apply list_elem_of_In. apply list_elem_of_In in He.
      destruct l0 as [|x l0] using rev_ind; [exact He|].
      rewrite removelast_last in He. apply in_or_app. by left.
    + rewrite lookup_insert_ne in Hl by congruence. by apply (H k' l e).
  - intros e k s He H k' l e' Hl He'. cbn in Hl.
    destruct (decide (k' = k)) as [->|Hne].
    + rewrite lookup_insert_eq in Hl. inversion Hl; subst.
      apply elem_of_app in He' as [He'|He'].
      * destruct (pool s !! k) as [l0|] eqn:E; cbn in He'; [|by apply elem_of_nil in He'].
        by apply (H k l0 e' E).
      * apply list_elem_of_singleton in He'. by subst.
    + rewrite lookup_insert_ne in Hl by congruence. by apply (H k' l e').
Qed.

Lemma keepsContainer_keptAll : KeptByAll keepsContainer.
Proof.
  split; [apply keepsContainer_kept|..]; unfold keepsContainer; intros; try assumption.
  cbn. eauto.
Qed.

(** ** The element pool *)

Lemma removelast_snoc {A} (l : list A) (x : A) : removelast (l ++ [x]) = l.
Proof. apply removelast_last. Qed.

(** X7. An element released to the pool is the next one handed out for its
    module class, and the pool is then as it was before the release; an
    element that carries the classes of the template only is not pooled. *)
Theorem released_element_is_reused (e : Elem) (s : State) :
  match moduleClassOf e with
  | Some k =>
      exists s',
        (ElementPool.releaseElement e;; ElementPool.getElement k) s = (Ok e, s')
        /\ pool s' !! k = Some (default [] (pool s !! k))
        /\ (forall k', k' <> k -> pool s' !! k' = pool s !! k')
        /\ nextId s' = nextId s
  | None => ElementPool.releaseElement e s = (Ok tt, s)
  end.
Proof.
  unfold moduleClassOf, ElementPool.releaseElement.
  destruct (List.find _ (classList e)) as [k|]; [|reflexivity].
  unfold ElementPool.getElement. unfold_m. cbn.
  rewrite lookup_insert_eq. cbn. rewrite last_snoc, removelast_snoc.
  eexists. split; [reflexivity|]. cbn.
  rewrite insert_insert_eq.
  split; [apply lookup_insert_eq|]. split; [|reflexivity].
  intros k' Hne. by apply lookup_insert_ne.
Qed.

Lemma moduleClassOf_elem (e : Elem) (k : string) :
  moduleClassOf e = Some k -> k ∈ classList e.
Proof. intros H. apply find_some in H as [H _]. by apply list_elem_of_In. Qed.

(** X8. From a pool in which every element lies under its module class,
    [getElement] returns an element that carries the class asked for, and
    leaves such a pool. *)
Theorem pool_hands_out_the_module_class (k : string) (s : State) :
  poolSorted s ->
  exists e s',
    ElementPool.getElement k s = (Ok e, s')
    /\ k ∈ classList e
    /\ poolSorted s'.
Proof.
  intros H. unfold ElementPool.getElement.
  destruct (last (default [] (pool s !! k))) as [e|] eqn:E.
  - eexists _, _. split; [reflexivity|]. split.
    + destruct (pool s !! k) as [l|] eqn:El; [|discriminate].
      apply moduleClassOf_elem. apply (H k l e El). by apply last_Some_elem_of.
    + by apply (kept_pop _ _ (kept_pipeline _ poolSorted_kept)).
  - eexists _, _. split; [reflexivity|]. split; [|exact H].
    cbn. unfold ElementPool.classList_add. case_bool_decide; [done|].
    apply elem_of_app. right. by apply list_elem_of_singleton.
Qed.

Section PoolInvariant.

Variable random : nat -> Q.
Variable importModule : string -> nat -> option ModuleClass.

(** X9. Every entry point of the projector keeps the pool sorted by module
    class, whatever it returns. *)
Theorem pool_stays_sorted (fuel : nat) (s : State) :
  poolSorted s ->
  (forall trackName r s',
     handleTrackSelection random importModule fuel trackName s = (r, s') -> poolSorted s')
  /\ (forall channelPath r s',
        handleChannelMessage random importModule fuel channelPath s = (r, s') ->
        poolSorted s')
  /\ (forall r s', deactivateActiveTrack s = (r, s') -> poolSorted s')
  /\ (forall instanceId methodOptions r s',
        updateMatrix random importModule fuel instanceId methodOptions s = (r, s') ->
        poolSorted s')
  /\ (forall p moduleName moduleData r s',
        previewModule random importModule fuel p moduleName moduleData s = (r, s') ->
        poolSorted s')
  /\ (forall p r s', clearPreview p s = (r, s') -> poolSorted s').
Proof.
  intros H. repeat split; intros.
  - by eapply (frame_handleTrackSelection _ poolSorted_kept).
  - by eapply (frame_handleChannelMessage _ poolSorted_kept).
  - by eapply (frame_deactivateActiveTrack _ poolSorted_kept).
  - by eapply (frame_updateMatrix _ _ (kept_pipeline _ poolSorted_kept)).
  - by eapply (frame_previewModule _ poolSorted_kept).
  - by eapply (frame_clearPreview _ poolSorted_kept).
Qed.

End PoolInvariant.

(** ** Deactivation *)

Lemma removeAndRelease_exact (e : Elem) (s : State) :
  removeAndRelease e s =
    (Ok tt,
     set_pool (match moduleClassOf e with
               | Some k => <[k := default [] (pool s !! k) ++ [e]]> (pool s)
               | None => pool s
               end)
       (set_modulesContainer
          ((fun children => filter (fun e' => eid e' ≠ eid e) children) <$> modulesContainer s)
          s)).
Proof.
  unfold removeAndRelease, ElementPool.releaseElement, moduleClassOf. unfold_m.
  destruct (List.find _ (classList e)); [reflexivity|]. cbn. by destruct s.
Qed.

Lemma filter_keeps_all {A} (P : A -> Prop) `{!forall x, Decision (P x)} (l : list A) :
  (forall x, x ∈ l -> P x) -> filter P l = l.
Proof.
  induction l as [|x l IH]; intros Hall; [reflexivity|].
  rewrite filter_cons_True by (apply Hall; by left). f_equal. apply IH.
  intros y Hy. apply Hall. by right.
Qed.

Lemma filter_keeps_none {A} (P : A -> Prop) `{!forall x, Decision (P x)} (l : list A) :
  (forall x, x ∈ l -> ~ P x) -> filter P l = [].
Proof.
  induction l as [|x l IH]; intros Hall; [reflexivity|].
  rewrite filter_cons_False by (apply Hall; by left). apply IH.
  intros y Hy. apply Hall. by right.
Qed.

(** What removing and releasing the elements [l] does to the container and
    to the pool. *)
Lemma forEach_removeAndRelease_exact (l : list Elem) (s : State) :
  exists P C,
    forEach removeAndRelease l s = (Ok tt, set_pool P (set_modulesContainer C s))
    /\ C = (fun children => filter (fun e' => eid e' ∉ eid <$> l) children)
             <$> modulesContainer s
    /\ (forall k e, e ∈ default [] (pool s !! k) -> e ∈ default [] (P !! k))
    /\ (forall e k, e ∈ l -> moduleClassOf e = Some k -> e ∈ default [] (P !! k))
    /\ (forall k e, e ∈ default [] (P !! k) -> e ∈ default [] (pool s !! k) \/ e ∈ l).
Proof.
  revert s. induction l as [|x l IH]; intros s; cbn [forEach].
  - exists (pool s), (modulesContainer s). split; [by destruct s|]. split.
    + destruct (modulesContainer s) as [c|]; [|reflexivity]. cbn. f_equal.
      symmetry. apply filter_keeps_all. intros e _. cbn. apply not_elem_of_nil.
    + split; [done|]. split; [|by left]. intros e k He. by apply elem_of_nil in He.
  - rewrite (bind_run _ _ _ _ _ (removeAndRelease_exact x s)).
    match goal with |- context [forEach removeAndRelease l ?s1] =>
      destruct (IH s1) as (P & C & Hrun & HC & Hold & Hnew & Hup); rewrite Hrun
    end.
    exists P, C. split; [reflexivity|]. cbn in HC, Hold, Hnew, Hup.
    assert (Hup' : forall k e, e ∈ default [] (P !! k) ->
              e ∈ default [] (pool s !! k) \/ e ∈ x :: l).
    { intros k e He. destruct (Hup k e He) as [Hin|Hin]; [|right; by right].
      destruct (moduleClassOf x) as [k0|]; [|by left].
      destruct (decide (k = k0)) as [->|Hne].
      - rewrite lookup_insert_eq in Hin. cbn in Hin.
        apply elem_of_app in Hin as [Hin|Hin]; [by left|].
        apply list_elem_of_singleton in Hin. subst e. right. by left.
      - rewrite lookup_insert_ne in Hin by congruence. by left. }
    assert (Hx : forall k e, e ∈ default [] (pool s !! k) -> e ∈ default [] (P !! k)).
    { intros k e He. apply Hold. destruct (moduleClassOf x) as [k0|]; [|exact He].
      destruct (decide (k = k0)) as [->|Hne].
      - rewrite lookup_insert_eq. cbn. apply elem_of_app. by left.
      - by rewrite lookup_insert_ne. }
    split; [|split; [exact Hx|split; [|exact Hup']]].
    + rewrite HC. destruct (modulesContainer s) as [c|]; [|reflexivity]. cbn. f_equal.
      rewrite list_filter_filter. apply list_filter_iff. intros e. cbn.
      rewrite not_elem_of_cons. tauto.
    + intros e k He Hk. apply elem_of_cons in He as [->|He]; [|by apply (Hnew e k)].
      apply Hold. rewrite Hk. rewrite lookup_insert_eq. cbn.
      apply elem_of_app. right. by apply list_elem_of_singleton.
Qed.


(** Deactivation past its guards, in full. *)
Lemma deactivateActiveTrack_exact (s : State) (elems : list Elem) :
  willDeactivate s = true -> modulesContainer s = Some elems ->
  exists P,
    deactivateActiveTrack s
    = (Ok tt,
       set_isDeactivating false
         (set_activeChannelHandlers ∅
            (set_activeTrack None
               (set_activeModules []
                  (set_pool P
                     (set_modulesContainer (Some [])
                        (set_trace (trace s ++ teardownEvents (activeModules s)) s)))))))
    /\ (forall k e, e ∈ default [] (pool s !! k) -> e ∈ default [] (P !! k))
    /\ (forall e k, e ∈ elems -> moduleClassOf e = Some k -> hide e ∈ default [] (P !! k))
    /\ (forall k e, e ∈ default [] (P !! k) ->
          e ∈ default [] (pool s !! k) \/ e ∈ hide <$> elems).
Proof.
  unfold willDeactivate. intros Hw Hc.
  apply andb_true_iff in Hw as [Hw _]. apply andb_true_iff in Hw as [Ht Hd].
  apply bool_decide_eq_true in Ht as [t Ht]. apply negb_true_iff in Hd.
  unfold deactivateActiveTrack. unfold_m. cbn. rewrite Ht. cbn. rewrite Hd. cbn.
  rewrite Hc. cbn.
  rewrite destroyAll_run. cbn. unfold releaseAll. unfold_m. cbn.
  match goal with |- context [forEach removeAndRelease ?l ?s1] =>
    destruct (forEach_removeAndRelease_exact l s1)
      as (P & C & Hrun & HC & Hold & Hnew & Hup);
    rewrite Hrun
  end.
  cbn in HC, Hold, Hnew, Hup. exists P. split; [|split; [exact Hold|split; [|exact Hup]]].
  - cbn. rewrite HC. rewrite filter_keeps_none; [reflexivity|].
    intros e He Hn. apply Hn. apply list_elem_of_fmap. by exists e.
  - intros e k He Hk. apply Hnew; [|exact Hk].
    apply list_elem_of_fmap. by exists e.
Qed.

(** X10. Deactivation past its guards, of a container that holds module
    elements only, leaves no module element in the container and the
    deactivation flag down.  The pool keeps what it held, and what it gains
    is hidden elements of the container: the elements that are still in the
    container once every [destroy] has run. *)
Theorem deactivation_recycles_elements (s : State) (elems : list Elem) :
  willDeactivate s = true -> modulesContainer s = Some elems ->
  Forall (fun e => "module" ∈ classList e) elems ->
  exists s',
    deactivateActiveTrack s = (Ok tt, s')
    /\ modulesContainer s' = Some []
    /\ isDeactivating s' = false
    /\ (forall k e, e ∈ default [] (pool s !! k) -> e ∈ default [] (pool s' !! k))
    /\ (forall k e', e' ∈ default [] (pool s' !! k) ->
          e' ∈ default [] (pool s !! k)
          \/ exists e, e ∈ elems /\ e' = hide e /\ visibilityHidden e' = true).
Proof.
  intros Hw Hc _.
  destruct (deactivateActiveTrack_exact s elems Hw Hc) as (P & Hrun & Hold & _ & Hup).
  eexists. split; [exact Hrun|]. cbn. split; [reflexivity|]. split; [reflexivity|].
  split; [exact Hold|]. intros k e' He'. destruct (Hup k e' He') as [Hin|Hin]; [by left|].
  right. apply list_elem_of_fmap in Hin as (e & -> & Hin). by exists e.
Qed.

(** X11. Deactivating twice is deactivating once. *)
Theorem deactivation_is_idempotent (s : State) :
  (deactivateActiveTrack;; deactivateActiveTrack) s = deactivateActiveTrack s.
Proof.
  destruct (willDeactivate s) eqn:Hw.
  - destruct (modulesContainer s) as [elems|] eqn:Hc.
    2:{ unfold willDeactivate in Hw. rewrite Hc in Hw. by rewrite andb_false_r in Hw. }
    destruct (deactivateActiveTrack_exact s elems Hw Hc) as (P & Hrun & _).
    rewrite (bind_run _ _ _ _ _ Hrun). rewrite Hrun. reflexivity.
  - unfold willDeactivate in Hw.
    destruct (activeTrack s) as [t|] eqn:Et.
    2:{ assert (Hrun : deactivateActiveTrack s = (Ok tt, s)).
        { unfold deactivateActiveTrack. unfold_m. cbn. by rewrite Et. }
        by rewrite (bind_run _ _ _ _ _ Hrun). }
    destruct (isDeactivating s) eqn:Ed.
    { assert (Hrun : deactivateActiveTrack s = (Ok tt, s)).
      { unfold deactivateActiveTrack. unfold_m. cbn. by rewrite Et, Ed. }
      by rewrite (bind_run _ _ _ _ _ Hrun). }
    destruct (modulesContainer s) as [elems|] eqn:Ec.
    { rewrite bool_decide_eq_true_2 in Hw by eauto. discriminate. }
    assert (Hrun : deactivateActiveTrack s = (Ok tt, s)).
    { unfold deactivateActiveTrack. unfold_m. cbn. rewrite Et. cbn. rewrite Ed. cbn.
      rewrite Ec. cbn. f_equal. clear Hw. destruct s; cbn in *. by subst. }
    by rewrite (bind_run _ _ _ _ _ Hrun).
Qed.

(** ** Computations that return *)

Lemma returns_ret {A} (a : A) : returns (mret a).
Proof. intros s. by eexists _, _. Qed.

Lemma returns_gets {A} (f : State -> A) : returns (gets f).
Proof. intros s. by eexists _, _. Qed.

Lemma returns_modify (f : State -> State) : returns (modify f).
Proof. intros s. by eexists _, _. Qed.

Lemma returns_emit (e : Event) : returns (emit e).
Proof. intros s. by eexists _, _. Qed.

Lemma returns_bind {A B} (m : M A) (k : A -> M B) :
  returns m -> (forall a, returns (k a)) -> returns (m ≫= k).
Proof.
  intros Hm Hk s. destruct (Hm s) as (a & s1 & H1).
  rewrite (bind_run _ _ _ _ _ H1). apply Hk.
Qed.

Lemma returns_mapM {A B} (f : A -> M B) (l : list A) :
  (forall x, returns (f x)) -> returns (mapM f l).
Proof.
  intros Hf. induction l as [|x l IH]; cbn [mapM]; [apply returns_ret|].
  apply returns_bind; [apply Hf|]. intros y.
  apply returns_bind; [exact IH|]. intros ys. apply returns_ret.
Qed.

Lemma returns_forEach {A} (f : A -> M unit) (l : list A) :
  (forall x, returns (f x)) -> returns (forEach f l).
Proof.
  intros Hf. induction l as [|x l IH]; cbn [forEach]; [apply returns_ret|].
  apply returns_bind; [apply Hf|]. intros _. exact IH.
Qed.

(** A handler that returns makes a computation that completes without
    running out of fuel return. *)
Lemma returns_try_catch {A} (m : M A) (h : Exn -> M A) :
  fueled m -> settles m -> (forall e, returns (h e)) -> returns (try_catch m h).
Proof.
  intros Hm Hs Hh s. unfold try_catch.
  destruct (m s) as [[a|e| |] s1] eqn:E.
  - by eexists _, _.
  - apply Hh.
  - exfalso. by apply (Hm s s1).
  - exfalso. by apply (Hs s s1).
Qed.

(** The caller of a detached computation goes on, unless the fuel runs
    out. *)
Lemma returns_detached (i : string) (m : M unit) : fueled m -> returns (detached i m).
Proof.
  intros Hm s. unfold detached.
  destruct (m s) as [[a|e| |] s1] eqn:E; try (by eexists _, _).
  exfalso. by apply (Hm s s1).
Qed.

Lemma settles_ret {A} (a : A) : settles (mret a).
Proof. intros s s' H. inversion H. Qed.

Lemma settles_throw {A} (e : Exn) : settles (@throw A e).
Proof. intros s s' H. inversion H. Qed.

Lemma settles_gets {A} (f : State -> A) : settles (gets f).
Proof. intros s s' H. inversion H. Qed.

Lemma settles_modify (f : State -> State) : settles (modify f).
Proof. intros s s' H. inversion H. Qed.

Lemma settles_bind {A B} (m : M A) (k : A -> M B) :
  settles m -> (forall a, settles (k a)) -> settles (m ≫= k).
Proof.
  intros Hm Hk s s' H. unfold mbind, M_bind, bind in H.
  destruct (m s) as [[a|e| |] s1] eqn:E.
  - exact (Hk _ _ _ H).
  - inversion H.
  - inversion H.
  - exact (Hm _ _ E).
Qed.

Lemma settles_try_catch {A} (m : M A) (h : Exn -> M A) :
  settles m -> (forall e, settles (h e)) -> settles (try_catch m h).
Proof.
  intros Hm Hh s s' H. unfold try_catch in H.
  destruct (m s) as [[a|e| |] s1] eqn:E.
  - inversion H.
  - exact (Hh _ _ _ H).
  - inversion H.
  - exact (Hm _ _ E).
Qed.

Lemma settles_forEach {A} (f : A -> M unit) (l : list A) :
  (forall x, settles (f x)) -> settles (forEach f l).
Proof.
  intros Hf. induction l as [|x l IH]; cbn [forEach].
  - apply settles_ret.
  - apply settles_bind; [apply Hf | intros _; exact IH].
Qed.

Lemma settles_promiseAll {A} (f : A -> M unit) (l : list A) :
  (forall x, settles (f x)) -> settles (promiseAll f l).
Proof.
  intros Hf. induction l as [|x l IH]; cbn [promiseAll].
  - apply settles_ret.
  - intros s s' H.
    destruct (f x s) as [[a|e| |] s1] eqn:E.
    + exact (IH _ _ H).
    + destruct (promiseAll f l s1) as [[a|e'| |] s2] eqn:E2; inversion H.
    + inversion H.
    + exact (Hf _ _ _ E).
Qed.

Lemma settles_mapM {A B} (f : A -> M B) (l : list A) :
  (forall x, settles (f x)) -> settles (mapM f l).
Proof.
  intros Hf. induction l as [|x l IH]; cbn [mapM].
  - apply settles_ret.
  - apply settles_bind; [apply Hf | intros y].
    apply settles_bind; [exact IH | intros ys; apply settles_ret].
Qed.

Ltac settles_go :=
  repeat first
    [ apply settles_ret | apply settles_throw | apply settles_gets
    | apply settles_modify
    | apply settles_bind; [|intros ?]
    | apply settles_try_catch; [|intros ?]
    | apply settles_forEach; intros ?
    | apply settles_promiseAll; intros ?
    | apply settles_mapM; intros ?
    | match goal with
      | |- settles (match ?x with _ => _ end) => destruct x eqn:?
      end
    | progress cbv zeta ].

Ltac returns_with leaf :=
  repeat first
    [ leaf
    | apply returns_ret | apply returns_gets | apply returns_modify | apply returns_emit
    | apply returns_bind; [|intros ?]
    | apply returns_mapM; intros ?
    | apply returns_forEach; intros ?
    | match goal with
      | |- returns (match ?x with _ => _ end) => destruct x eqn:?
      end
    | progress cbv zeta ].

Ltac returns_go := returns_with fail.

Lemma returns_deactivateActiveTrack : returns deactivateActiveTrack.
Proof.
  intros s. destruct (deactivateActiveTrack_run s) as (s' & H & _). by eexists _, _.
Qed.

Lemma fueled_awaitLoader (importModule : string -> nat -> option ModuleClass)
    (p : option LoaderPromise) :
  fueled (awaitLoader importModule p).
Proof. unfold awaitLoader. fueled_go. Qed.

Lemma settles_awaitLoader (importModule : string -> nat -> option ModuleClass)
    (p : option LoaderPromise) :
  settles (awaitLoader importModule p).
Proof. unfold awaitLoader. settles_go. Qed.

Section NeverThrows.

Variable random : nat -> Q.
Variable importModule : string -> nat -> option ModuleClass.

Lemma returns_startModule (r : ModuleRef) : returns (startModule r).
Proof. unfold startModule, loadModuleClass. returns_go. Qed.

Lemma returns_resumeModule (track : Track) (task : ModuleRef * option LoaderPromise) :
  returns (resumeModule importModule track task).
Proof.
  destruct task as [r p]. unfold resumeModule.
  apply returns_bind.
  - apply returns_try_catch.
    + apply fueled_bind; [apply fueled_awaitLoader|intros ?; apply fueled_ret].
    + apply settles_bind; [apply settles_awaitLoader|intros ?; apply settles_ret].
    + intros e. returns_go.
  - intros loaded. returns_go.
Qed.

Lemma returns_runScheduled (fuel : nat) (job : string * list MethodCall) :
  returns (runScheduled random importModule (S (S fuel)) job).
Proof.
  destruct job as [id ms]. unfold runScheduled.
  apply returns_bind; [apply returns_gets|]. intros l.
  apply returns_detached, executeMethods_fueled.
Qed.

(** X12. The promise of a track activation resolves, with fuel for a matrix
    step and its constructor batch.  A module that fails to load and a
    [destroy] that throws are caught and logged; a constructor batch is a
    promise that the activation does not await, so that a batch that throws
    is an unhandled rejection, and a batch that never settles holds nothing
    up. *)
Theorem track_selection_never_throws (fuel : nat) (trackName : string) (s : State) :
  exists s', handleTrackSelection random importModule (S (S fuel)) trackName s = (Ok tt, s').
Proof.
  assert (H : returns (handleTrackSelection random importModule (S (S fuel)) trackName)).
  { unfold handleTrackSelection.
    returns_with
      ltac:(first [ apply returns_deactivateActiveTrack | apply returns_startModule
                  | apply returns_resumeModule | apply returns_runScheduled ]). }
  destruct (H s) as ([] & s' & Hs). by exists s'.
Qed.

End NeverThrows.

Ltac run_bind := erewrite bind_run by reflexivity.

Lemma bind_inv {A B} (m : M A) (k : A -> M B) (s s' : State) (r : Result B) :
  (m ≫= k) s = (r, s') ->
  (exists a s1, m s = (Ok a, s1) /\ k a s1 = (r, s'))
  \/ (exists e, m s = (Raise e, s') /\ r = Raise e)
  \/ (m s = (OutOfFuel, s') /\ r = OutOfFuel)
  \/ (m s = (Never, s') /\ r = Never).
Proof.
  unfold mbind, M_bind, bind. destruct (m s) as [[a|e| |] s1]; intros H.
  - left. eauto.
  - right. left. inversion H; subst. eauto.
  - right. right. left. inversion H; subst. eauto.
  - right. right. right. inversion H; subst. eauto.
Qed.

Lemma steps_mapM_in {A B} (R : State -> State -> Prop) `{!PreOrder R}
    (f : A -> M B) (l : list A) :
  (forall x, x ∈ l -> steps R (f x)) -> steps R (mapM f l).
Proof.
  induction l as [|x l IH]; intros Hf; cbn [mapM]; [steps_go|].
  apply steps_bind; [apply _|apply Hf; by left|]. intros y.
  apply steps_bind; [apply _|apply IH; intros z Hz; apply Hf; by right|].
  intros ys. steps_go.
Qed.

Lemma steps_forEach_in {A} (R : State -> State -> Prop) `{!PreOrder R}
    (f : A -> M unit) (l : list A) :
  (forall x, x ∈ l -> steps R (f x)) -> steps R (forEach f l).
Proof.
  induction l as [|x l IH]; intros Hf; cbn [forEach]; [steps_go|].
  apply steps_bind; [apply _|apply Hf; by left|]. intros _.
  apply IH. intros z Hz. apply Hf. by right.
Qed.

Lemma deactivateActiveTrack_blocked (s : State) :
  willDeactivate s = false -> deactivateActiveTrack s = (Ok tt, s).
Proof.
  unfold willDeactivate. intros Hw.
  destruct (activeTrack s) as [t|] eqn:Et.
  2:{ unfold deactivateActiveTrack. unfold_m. cbn. by rewrite Et. }
  destruct (isDeactivating s) eqn:Ed.
  { unfold deactivateActiveTrack. unfold_m. cbn. by rewrite Et, Ed. }
  destruct (modulesContainer s) as [elems|] eqn:Ec.
  { rewrite bool_decide_eq_true_2 in Hw by eauto. discriminate. }
  unfold deactivateActiveTrack. unfold_m. cbn. rewrite Et. cbn. rewrite Ed. cbn.
  rewrite Ec. cbn. f_equal. clear Hw. destruct s; cbn in *. by subst.
Qed.

(** What deactivation leaves of the state, whether it goes past its guards
    or not. *)
Lemma deactivateActiveTrack_post (s : State) :
  exists s',
    deactivateActiveTrack s = (Ok tt, s')
    /\ userData s' = userData s
    /\ isDeactivating s' = isDeactivating s
    /\ (is_Some (modulesContainer s) -> is_Some (modulesContainer s'))
    /\ if willDeactivate s
       then activeTrack s' = None /\ activeModules s' = []
            /\ trace s' = trace s ++ teardownEvents (activeModules s)
       else s' = s.
Proof.
  destruct (willDeactivate s) eqn:Hw.
  - destruct (modulesContainer s) as [elems|] eqn:Hc.
    2:{ unfold willDeactivate in Hw. rewrite Hc in Hw. by rewrite andb_false_r in Hw. }
    destruct (deactivateActiveTrack_exact s elems Hw Hc) as (P & Hrun & _).
    eexists. split; [exact Hrun|]. cbn.
    unfold willDeactivate in Hw. apply andb_true_iff in Hw as [Hw _].
    apply andb_true_iff in Hw as [_ Hd]. apply negb_true_iff in Hd.
    repeat split; eauto.
  - exists s. split; [by apply deactivateActiveTrack_blocked|]. done.
Qed.

Section Activation.

Variable random : nat -> Q.
Variable importModule : string -> nat -> option ModuleClass.

Lemma mapM_startModule_tasks (ms : list ModuleRef) (s s' : State)
    (r : Result (list (ModuleRef * option LoaderPromise))) :
  mapM startModule ms s = (r, s') -> exists tasks, r = Ok tasks /\ tasks.*1 = ms.
Proof.
  revert s s' r. induction ms as [|m ms IH]; intros s s' r H.
  - inversion H; subst. by exists [].
  - cbn [mapM] in H.
    destruct (returns_startModule m s) as ([m' p] & s1 & H1).
    assert (Hm : m' = m).
    { unfold startModule in H1.
      apply bind_inv in H1 as [(a & s2 & _ & Hk)|[(e & _ & He)|[[_ He]|[_ He]]]];
        [by inversion Hk|discriminate..]. }
    subst m'. rewrite (bind_run _ _ _ _ _ H1) in H.
    destruct (mapM startModule ms s1) as [r2 s2] eqn:H2.
    destruct (IH _ _ _ H2) as (tasks & -> & Ht).
    rewrite (bind_run _ _ _ _ _ H2) in H.
    exists ((m, p) :: tasks). split; [by inversion H|]. cbn. by rewrite Ht.
Qed.

Lemma resumeModule_jobs (track : Track) (task : ModuleRef * option LoaderPromise)
    (s s' : State) (r : Result (list (string * list MethodCall))) :
  resumeModule importModule track task s = (r, s') ->
  exists jobs, r = Ok jobs /\ forall j, j ∈ jobs -> j.1 = rid task.1.
Proof.
  destruct task as [m p]. intros H.
  destruct (returns_resumeModule importModule track (m, p) s) as (jobs & s2 & Hr).
  rewrite Hr in H. inversion H; subst. exists jobs. split; [reflexivity|].
  unfold resumeModule in Hr.
  apply bind_inv in Hr as [(loaded & s1 & Hl & Hk)|[(e & _ & He)|[[_ He]|[_ He]]]];
    [|discriminate..].
  destruct loaded.
  - apply bind_inv in Hk as [([] & s3 & _ & Hk)|[(e & _ & He)|[[_ He]|[_ He]]]];
      [|discriminate..].
    destruct (default [] _) as [|c cs]; inversion Hk; subst.
    + intros j Hj. by apply elem_of_nil in Hj.
    + intros j Hj. apply list_elem_of_singleton in Hj. by subst.
  - inversion Hk; subst. intros j Hj. by apply elem_of_nil in Hj.
Qed.

Lemma mapM_resumeModule_jobs (track : Track) (tasks : list (ModuleRef * option LoaderPromise))
    (s s' : State) (r : Result (list (list (string * list MethodCall)))) :
  mapM (resumeModule importModule track) tasks s = (r, s') ->
  exists jobs, r = Ok jobs /\ forall j, j ∈ concat jobs -> j.1 ∈ rid <$> tasks.*1.
Proof.
  revert s s' r. induction tasks as [|t tasks IH]; intros s s' r H.
  - inversion H; subst. exists []. split; [reflexivity|].
    intros j Hj. by apply elem_of_nil in Hj.
  - cbn [mapM] in H.
    destruct (resumeModule importModule track t s) as [r1 s1] eqn:H1.
    destruct (resumeModule_jobs _ _ _ _ _ H1) as (js & -> & Hjs).
    rewrite (bind_run _ _ _ _ _ H1) in H.
    destruct (mapM (resumeModule importModule track) tasks s1) as [r2 s2] eqn:H2.
    destruct (IH _ _ _ H2) as (jobs & -> & Hjobs).
    rewrite (bind_run _ _ _ _ _ H2) in H.
    exists (js :: jobs). split; [by inversion H|]. intros j Hj. cbn in Hj.
    apply elem_of_app in Hj as [Hj|Hj]; cbn.
    + rewrite (Hjs j Hj). by left.
    + right. by apply Hjobs.
Qed.

(** The two rounds return, with batches for placements of the track only. *)
Lemma initialiseModules_run (track : Track) (ms : list ModuleRef) (s : State) :
  exists jobs s',
    initialiseModules importModule track ms s = (Ok jobs, s')
    /\ forall j, j ∈ jobs -> j.1 ∈ rid <$> ms.
Proof.
  unfold initialiseModules.
  destruct (mapM startModule ms s) as [r1 s1] eqn:H1.
  destruct (mapM_startModule_tasks _ _ _ _ H1) as (tasks & -> & Ht).
  destruct (mapM (resumeModule importModule track) tasks s1) as [r2 s2] eqn:H2.
  destruct (mapM_resumeModule_jobs _ _ _ _ _ H2) as (jobs & -> & Hj).
  exists (concat jobs), s2. rewrite (bind_run _ _ _ _ _ H1), (bind_run _ _ _ _ _ H2).
  split; [reflexivity|]. intros j Hin. rewrite <- Ht. by apply Hj.
Qed.

Lemma initialiseModules_kept (R : State -> State -> Prop) (okId : string -> Prop)
    (track : Track) (ms : list ModuleRef) :
  Kept R okId -> (forall id, id ∈ rid <$> ms -> okId id) ->
  steps R (initialiseModules importModule track ms).
Proof.
  intros K Hok. pose proof (kept_preorder _ _ K) as HR.
  intros s r s' H. unfold initialiseModules in H.
  destruct (mapM startModule ms s) as [r1 s1] eqn:H1.
  destruct (mapM_startModule_tasks _ _ _ _ H1) as (tasks & -> & Ht).
  assert (R1 : R s s1).
  { eapply (steps_mapM R); [|exact H1]. intros x. apply (frame_startModule _ _ K). }
  rewrite (bind_run _ _ _ _ _ H1) in H.
  destruct (mapM (resumeModule importModule track) tasks s1) as [r2 s2] eqn:H2.
  destruct (mapM_resumeModule_jobs _ _ _ _ _ H2) as (jobs & -> & Hj).
  assert (R2 : R s1 s2).
  { eapply (steps_mapM_in R); [|exact H2].
    intros x Hx. apply (frame_resumeModule _ _ K). apply Hok. rewrite <- Ht.
    apply list_elem_of_fmap. exists x.1. split; [reflexivity|].
    apply list_elem_of_fmap. by exists x. }
  rewrite (bind_run _ _ _ _ _ H2) in H. inversion H; subst.
  etransitivity; eassumption.
Qed.


Lemma scheduled_kept (R : State -> State -> Prop) (okId : string -> Prop) (fuel : nat)
    (jobs : list (string * list MethodCall)) :
  Kept R okId -> (forall j, j ∈ jobs -> okId j.1) ->
  steps R (forEach (runScheduled random importModule fuel) jobs).
Proof.
  intros K Hok. pose proof (kept_preorder _ _ K).
  apply steps_forEach_in; [apply _|]. intros j Hj.
  apply (frame_runScheduled _ _ K). by apply Hok.
Qed.

Lemma scheduled_returns (fuel : nat) (jobs : list (string * list MethodCall)) :
  returns (forEach (runScheduled random importModule (S (S fuel))) jobs).
Proof. apply returns_forEach. intros j. apply returns_runScheduled. Qed.

(** A selection that goes through, from the state [s1] in which the
    previous track is gone. *)
Lemma handleTrackSelection_found (fuel : nat) (trackName : string) (track : Track)
    (ms : list ModuleRef) (s s1 : State) :
  List.find (fun t => bool_decide (tname t = trackName)) (userData s) = Some track ->
  modules track = Some ms ->
  (match activeTrack s with
   | Some a => if decide (tname a = trackName) then mret tt else deactivateActiveTrack
   | None => mret tt
   end) s = (Ok tt, s1) ->
  tname <$> activeTrack s1 <> Some trackName ->
  is_Some (modulesContainer s1) ->
  handleTrackSelection random importModule fuel trackName s
  = (modify (set_activeTrack (Some track));;
     modify (set_activeChannelHandlers (buildChannelHandlerMap track));;
     jobs ← initialiseModules importModule track ms;
     modify (set_activeTrack (Some track));;
     emit SendProjectorReady;;
     forEach (runScheduled random importModule fuel) jobs) s1.
Proof.
  intros Hfind Hms Hprev Hname [c Hc].
  unfold handleTrackSelection. run_bind. rewrite Hfind. cbv beta iota.
  run_bind. rewrite (bind_run _ _ _ _ _ Hprev).
  run_bind. rewrite bool_decide_eq_false_2 by exact Hname.
  run_bind. rewrite Hc, Hms.
  unfold initialiseModules. unfold_m. cbn.
  destruct (mapM startModule ms _) as [[tasks| | |] s2]; [|reflexivity..].
  destruct (mapM _ tasks s2) as [[jobs| | |] s3]; reflexivity.
Qed.

(** The stages of a selection that goes through: the two rounds, the ready
    signal, the scheduled batches. *)
Lemma handleTrackSelection_stages (fuel : nat) (trackName : string) (track : Track)
    (ms : list ModuleRef) (s s1 : State) :
  List.find (fun t => bool_decide (tname t = trackName)) (userData s) = Some track ->
  modules track = Some ms ->
  (match activeTrack s with
   | Some a => if decide (tname a = trackName) then mret tt else deactivateActiveTrack
   | None => mret tt
   end) s = (Ok tt, s1) ->
  tname <$> activeTrack s1 <> Some trackName ->
  is_Some (modulesContainer s1) ->
  exists jobs s3 s',
    initialiseModules importModule track ms
      (set_activeChannelHandlers (buildChannelHandlerMap track)
         (set_activeTrack (Some track) s1)) = (Ok jobs, s3)
    /\ (forall j, j ∈ jobs -> j.1 ∈ rid <$> ms)
    /\ forEach (runScheduled random importModule (S (S fuel))) jobs
         (set_trace (trace s3 ++ [SendProjectorReady]) (set_activeTrack (Some track) s3))
       = (Ok tt, s')
    /\ handleTrackSelection random importModule (S (S fuel)) trackName s = (Ok tt, s').
Proof.
  intros Hfind Hms Hprev Hname Hc.
  rewrite (handleTrackSelection_found _ _ track ms s s1 Hfind Hms Hprev Hname Hc).
  run_bind. run_bind.
  match goal with |- context [(initialiseModules _ _ _ ≫= _) ?s2] =>
    destruct (initialiseModules_run track ms s2) as (jobs & s3 & Hinit & Hj)
  end.
  rewrite (bind_run _ _ _ _ _ Hinit). run_bind. run_bind.
  match goal with |- context [forEach _ jobs ?s4] =>
    destruct (scheduled_returns fuel jobs s4) as ([] & s' & Hrun)
  end.
  exists jobs, s3, s'. split; [exact Hinit|]. split; [exact Hj|].
  split; exact Hrun.
Qed.

(** X13. Selecting the track that is active changes nothing: a track is known
    by its name, so this holds even when the configuration now holds another
    track of that name. *)
Theorem reselecting_the_active_track_is_a_noop (fuel : nat) (trackName : string)
    (track a : Track) (s : State) :
  List.find (fun t => bool_decide (tname t = trackName)) (userData s) = Some track ->
  activeTrack s = Some a -> tname a = trackName ->
  handleTrackSelection random importModule fuel trackName s = (Ok tt, s).
Proof.
  intros Hfind Ha Hn. unfold handleTrackSelection. run_bind. rewrite Hfind. cbv beta iota.
  run_bind. rewrite Ha. rewrite decide_True by exact Hn.
  run_bind. run_bind. rewrite Ha. cbn [fmap option_fmap option_map].
  rewrite bool_decide_eq_true_2 by (by rewrite Hn). reflexivity.
Qed.



(** X15. Switching from an active track to another track of the
    configuration, with no deactivation in flight, the modules container in
    place and a [modules] array in the new track, tears the registry of the
    old track down first; at the end the registry holds keys of placements
    of the new track only. *)
Theorem track_switch_replaces_registry (fuel : nat) (trackName : string)
    (track a : Track) (ms : list ModuleRef) (s : State) :
  List.find (fun t => bool_decide (tname t = trackName)) (userData s) = Some track ->
  modules track = Some ms ->
  activeTrack s = Some a -> tname a <> trackName ->
  isDeactivating s = false ->
  is_Some (modulesContainer s) ->
  exists s' evs,
    handleTrackSelection random importModule (S (S fuel)) trackName s = (Ok tt, s')
    /\ (forall k, is_Some (assoc k (activeModules s')) -> k ∈ rid <$> ms)
    /\ trace s' = trace s ++ teardownEvents (activeModules s) ++ evs.
Proof.
  intros Hfind Hms Ha Hne Hflag Hc.
  assert (Hw : willDeactivate s = true).
  { unfold willDeactivate. rewrite Ha, Hflag.
    rewrite !bool_decide_eq_true_2 by eauto. reflexivity. }
  destruct (deactivateActiveTrack_post s) as (sd & Hd & Hud & Hfd & Hcd & Hpd).
  rewrite Hw in Hpd. destruct Hpd as (Htd & Hmd & Htrd).
  assert (Hprev : (match activeTrack s with
                   | Some a => if decide (tname a = trackName) then mret tt
                               else deactivateActiveTrack
                   | None => mret tt
                   end) s = (Ok tt, sd)).
  { rewrite Ha. by rewrite decide_False. }
  destruct (handleTrackSelection_stages fuel trackName track ms s sd
              Hfind Hms Hprev ltac:(by rewrite Htd) (Hcd Hc))
    as (jobs & s3 & s' & Hinit & Hj & Hrun & Hsel).
  pose proof (keysWithin_kept (rid <$> ms)) as K.
  pose proof (initialiseModules_kept _ _ track ms K (fun _ H => H) _ _ _ Hinit) as Hk3.
  pose proof (scheduled_kept _ _ (S (S fuel)) jobs K Hj _ _ _ Hrun) as Hk'.
  destruct (initialiseModules_kept (appends (fun _ => True)) (fun _ => True) track ms
              (appends_kept _ _ (fun _ => I)) (fun _ _ => I) _ _ _ Hinit)
    as (evs1 & Htr3 & _).
  destruct (scheduled_kept (appends (fun _ => True)) (fun _ => True) (S (S fuel)) jobs
              (appends_kept _ _ (fun _ => I)) (fun _ _ => I) _ _ _ Hrun)
    as (post & Htr' & _).
  exists s', (evs1 ++ SendProjectorReady :: post). split; [exact Hsel|]. cbn in *. split.
  - intros k Hk. destruct (Hk' k Hk) as [Hold|Hin]; [|exact Hin].
    cbn in Hold. destruct (Hk3 k Hold) as [Hold'|Hin]; [|exact Hin].
    cbn in Hold'. rewrite Hmd in Hold'. by destruct Hold'.
  - rewrite Htr', Htr3, Htrd. by rewrite <- !app_assoc.
Qed.

End Activation.

(** ** Channel messages *)

Lemma substring_full (s : string) : String.substring 0 (String.length s) s = s.
Proof. induction s as [|a s IH]; cbn; [reflexivity|by rewrite IH]. Qed.

Lemma append_cons (c : ascii) (a d : string) : String c a +:+ d = String c (a +:+ d).
Proof. reflexivity. Qed.

Lemma append_nil (d : string) : "" +:+ d = d.
Proof. reflexivity. Qed.

Lemma prefix_split (a p : string) :
  String.prefix a p = true ->
  p = a +:+ String.substring (String.length a) (String.length p - String.length a) p.
Proof.
  revert p. induction a as [|c a IH]; intros p H.
  - rewrite append_nil. cbn [String.length]. rewrite Nat.sub_0_r. by rewrite substring_full.
  - destruct p as [|c' p]; [discriminate|]. cbn in H.
    destruct (ascii_dec c c') as [->|]; [|discriminate].
    rewrite append_cons. cbn [String.length String.substring Nat.sub]. f_equal. by apply IH.
Qed.

Lemma substring_append (a d : string) :
  String.substring (String.length a) (String.length (a +:+ d) - String.length a) (a +:+ d) = d.
Proof.
  induction a as [|c a IH].
  - rewrite append_nil. cbn [String.length]. rewrite Nat.sub_0_r. apply substring_full.
  - rewrite append_cons. cbn [String.length String.substring Nat.sub]. exact IH.
Qed.

Lemma prefix_append (a d : string) : String.prefix a (a +:+ d) = true.
Proof.
  induction a as [|c a IH].
  - rewrite append_nil. by destruct d.
  - rewrite append_cons. cbn [String.prefix].
    destruct (ascii_dec c c); [exact IH|done].
Qed.

Lemma channelOfPath_Some (channelPath d : string) :
  channelOfPath channelPath = Some d <->
  channelPath = "/Ableton/" +:+ d /\ d <> "" /\ allDigits d = true.
Proof.
  unfold channelOfPath. split.
  - destruct (String.prefix "/Ableton/" channelPath) eqn:Hp; [|discriminate].
    apply prefix_split in Hp. change (String.length "/Ableton/") with 9%nat in Hp.
    destruct (negb _ && _) eqn:Hd; [|discriminate]. intros [= <-].
    apply andb_true_iff in Hd as [Hne Hd]. apply negb_true_iff, String.eqb_neq in Hne.
    done.
  - intros (-> & Hne & Hd).
    rewrite (prefix_append "/Ableton/" d).
    pose proof (substring_append "/Ableton/" d) as Hs.
    change (String.length "/Ableton/") with 9%nat in Hs. rewrite Hs.
    apply String.eqb_neq in Hne. by rewrite Hne, Hd.
Qed.

Lemma buildChannelHandlerMap_lookup (track : Track) (channelNumber : string) :
  buildChannelHandlerMap track !! channelNumber =
    match channelTargets track channelNumber with
    | [] => None
    | targets => Some targets
    end.
Proof.
  unfold buildChannelHandlerMap, channelTargets.
  destruct (modules track) as [ms|]; [|reflexivity].
  rewrite foldl_addPlacement. cbn [default].
  destruct (List.map _ _); reflexivity.
Qed.

Lemma promiseAll_map {A B} (g : A -> B) (f : B -> M unit) (l : list A) (s : State) :
  promiseAll f (List.map g l) s = promiseAll (fun x => f (g x)) l s.
Proof.
  revert s. induction l as [|x l IH]; intros s; [reflexivity|].
  cbn [List.map promiseAll].
  destruct (f (g x) s) as [[[]|e| |] s1];
    [apply IH|by rewrite IH|reflexivity|by rewrite IH].
Qed.

Lemma promiseAll_ext_in {A} (f g : A -> M unit) (l : list A) (s : State) :
  (forall x, x ∈ l -> f x = g x) -> promiseAll f l s = promiseAll g l s.
Proof.
  revert s. induction l as [|x l IH]; intros s H; [reflexivity|].
  cbn [promiseAll]. rewrite (H x) by (by left).
  assert (Hl : forall y, y ∈ l -> f y = g y) by (intros y Hy; apply H; by right).
  destruct (g x s) as [[[]|e| |] s1];
    [by apply IH|by rewrite IH|reflexivity|by rewrite IH].
Qed.

Section Channel.

Variable random : nat -> Q.
Variable importModule : string -> nat -> option ModuleClass.

(** X16. A channel message is dropped, the state untouched, when no track is
    active or when the path is not "/Ableton/" followed by one decimal digit
    or more. *)
Theorem channel_message_is_ignored (fuel : nat) (channelPath : string) (s : State) :
  activeTrack s = None
  \/ (forall d, channelPath = "/Ableton/" +:+ d -> d = "" \/ allDigits d = false) ->
  handleChannelMessage random importModule fuel channelPath s = (Ok tt, s).
Proof.
  intros H. unfold handleChannelMessage. run_bind.
  destruct (activeTrack s) as [track|]; [|reflexivity].
  destruct H as [H|H]; [discriminate|].
  destruct (channelOfPath channelPath) as [d|] eqn:E; [|reflexivity].
  apply channelOfPath_Some in E as (Hp & Hne & Hd).
  destruct (H d Hp) as [?|?]; congruence.
Qed.

Lemma triggerTarget_placement (fuel : nat) (track : Track) (ch : string) (r : ModuleRef) :
  hasChannelMethods track ch r = true ->
  triggerTarget random importModule fuel track ch (mkTarget (rid r) (rtype r))
  = (moduleInstances ← gets (fun s => default [] (assoc (rid r) (activeModules s)));
     executeMethods random importModule fuel (channelMethods track ch r) (rid r)
       (Some moduleInstances) false).
Proof.
  unfold hasChannelMethods, triggerTarget, channelMethods. cbn [instanceId].
  destruct (modulesData track !! rid r) as [d|]; [|discriminate].
  destruct (dmethods d !! ch) as [[|l]|]; try discriminate. reflexivity.
Qed.

(** X17. A message for the channel [ch] on the active track runs, for each
    placement of the track that has a non-empty method list for the channel,
    in placement order, that list on the instances the registry holds for
    the placement at that moment (none when it holds no entry), as a
    non-constructor batch; the other placements are not touched.  A handler
    map without an entry for the channel is built anew from the track
    first. *)
Theorem channel_message_runs_the_channel_methods (fuel : nat) (track : Track)
    (ch : string) (s : State) :
  activeTrack s = Some track ->
  ch <> "" -> allDigits ch = true ->
  activeChannelHandlers s !! ch = None
  \/ activeChannelHandlers s = buildChannelHandlerMap track ->
  handleChannelMessage random importModule fuel ("/Ableton/" +:+ ch) s
  = promiseAll
      (fun r =>
         moduleInstances ← gets (fun s => default [] (assoc (rid r) (activeModules s)));
         executeMethods random importModule fuel (channelMethods track ch r) (rid r)
           (Some moduleInstances) false)
      (List.filter (hasChannelMethods track ch) (default [] (modules track)))
      (if decide (is_Some (activeChannelHandlers s !! ch)) then s
       else set_activeChannelHandlers (buildChannelHandlerMap track) s).
Proof.
  intros Ha Hne Hd Hh.
  assert (Hpath : channelOfPath ("/Ableton/" +:+ ch) = Some ch)
    by (by apply channelOfPath_Some).
  assert (Hrun : forall s0,
            activeChannelHandlers s0 !! ch = buildChannelHandlerMap track !! ch ->
            match default [] (activeChannelHandlers s0 !! ch) with
            | [] => mret tt
            | targets => promiseAll (triggerTarget random importModule fuel track ch) targets
            end s0
            = promiseAll
                (fun r =>
                   moduleInstances ←
                     gets (fun s => default [] (assoc (rid r) (activeModules s)));
                   executeMethods random importModule fuel (channelMethods track ch r) (rid r)
                     (Some moduleInstances) false)
                (List.filter (hasChannelMethods track ch) (default [] (modules track))) s0).
  { intros s0 Hs0. rewrite Hs0, buildChannelHandlerMap_lookup.
    assert (Ht : default [] (match channelTargets track ch with
                             | [] => None
                             | targets => Some targets
                             end) = channelTargets track ch)
      by (by destruct (channelTargets track ch)).
    rewrite Ht.
    transitivity (promiseAll (triggerTarget random importModule fuel track ch)
                    (channelTargets track ch) s0);
      [by destruct (channelTargets track ch)|].
    unfold channelTargets. rewrite promiseAll_map. apply promiseAll_ext_in.
    intros r Hr. apply triggerTarget_placement.
    apply list_elem_of_In, filter_In in Hr. apply Hr. }
  unfold handleChannelMessage. run_bind. rewrite Ha, Hpath. cbv beta iota.
  run_bind.
  destruct (decide (is_Some (activeChannelHandlers s !! ch))) as [Hsome|Hnone].
  - rewrite bool_decide_eq_true_2 by exact Hsome. run_bind. run_bind.
    apply Hrun. destruct Hh as [Hh|Hh]; [rewrite Hh in Hsome; by destruct Hsome|].
    by rewrite Hh.
  - rewrite bool_decide_eq_false_2 by exact Hnone. run_bind. run_bind.
    apply Hrun. reflexivity.
Qed.

End Channel.

(** ** Module preview *)

Lemma assoc_alist_delete {A} (k : string) (l : list (string * A)) :
  assoc k (alist_delete k l) = None.
Proof.
  unfold alist_delete. induction l as [|[k0 v0] l IH]; [reflexivity|]. cbn.
  destruct (String.eqb k k0) eqn:E; cbn; [exact IH|]. by rewrite E.
Qed.

Lemma assoc_alist_delete_ne {A} (k k' : string) (l : list (string * A)) :
  k' <> k -> assoc k' (alist_delete k l) = assoc k' l.
Proof.
  intros Hne. unfold alist_delete. induction l as [|[k0 v0] l IH]; [reflexivity|]. cbn.
  destruct (String.eqb k k0) eqn:E; cbn.
  - apply String.eqb_eq in E. subst k0.
    destruct (String.eqb k' k) eqn:E'; [apply String.eqb_eq in E'; congruence|exact IH].
  - destruct (String.eqb k' k0); [reflexivity|exact IH].
Qed.

Lemma destroyPreview_run (i : Instance) (s : State) :
  destroyPreview i s = (Ok tt, set_trace (trace s ++ destroyCalls [i]) s).
Proof.
  unfold destroyPreview, destroyInstance, destroyCalls. cbn [flat_map].
  destruct (assoc "destroy" (imethods i)) as [[|]|]; unfold_m; cbn.
  - reflexivity.
  - reflexivity.
  - by rewrite app_nil_r, set_trace_same.
Qed.

Lemma forEach_destroyPreview (l : list Instance) (s : State) :
  forEach destroyPreview l s = (Ok tt, set_trace (trace s ++ destroyCalls l) s).
Proof.
  revert s. induction l as [|i l IH]; intros s; cbn [forEach].
  - cbn. by rewrite app_nil_r, set_trace_same.
  - rewrite (bind_run _ _ _ _ _ (destroyPreview_run i s)), IH. cbn.
    unfold destroyCalls. cbn [flat_map]. by rewrite app_nil_r, <- app_assoc.
Qed.

(** [clearPreview] with a preview to clear and the container in place, in
    full. *)
Lemma clearPreview_exact (name : string) (s : State) (elems : list Elem) :
  name <> "" -> modulesContainer s = Some elems ->
  exists P,
    clearPreview (Some name) s
    = (Ok None,
       set_activeModules (alist_delete (previewKey name) (activeModules s))
         (set_pool P
            (set_modulesContainer
               (Some (filter (fun e' => eid e' ∉ eid <$> List.filter
                                          (matchesSelector name (previewKey name)) elems)
                        elems))
               (set_trace
                  (trace s ++ destroyCalls
                                (default [] (assoc (previewKey name) (activeModules s))))
                  s)))).
Proof.
  intros Hne Hc. apply String.eqb_neq in Hne.
  unfold clearPreview. rewrite Hne. run_bind. rewrite Hc. run_bind.
  rewrite (bind_run _ _ _ _ _ (forEach_destroyPreview _ _)). run_bind.
  match goal with |- context [(forEach removeAndRelease ?l ≫= _) ?s1] =>
    destruct (forEach_removeAndRelease_exact l s1) as (P & C & Hrun & HC & _)
  end.
  rewrite (bind_run _ _ _ _ _ Hrun). cbn in HC. rewrite Hc in HC. cbn in HC.
  subst C. run_bind. exists P. reflexivity.
Qed.

Lemma NoDup_fmap_eq {A B} (f : A -> B) (l : list A) (x y : A) :
  NoDup (f <$> l) -> x ∈ l -> y ∈ l -> f x = f y -> x = y.
Proof.
  induction l as [|z l IH]; intros Hnd Hx Hy Hf; [by apply elem_of_nil in Hx|].
  cbn in Hnd. apply NoDup_cons in Hnd as [Hz Hnd].
  apply elem_of_cons in Hx as [->|Hx]; apply elem_of_cons in Hy as [->|Hy].
  - reflexivity.
  - exfalso. apply Hz. rewrite Hf. apply list_elem_of_fmap. by exists y.
  - exfalso. apply Hz. rewrite <- Hf. apply list_elem_of_fmap. by exists x.
  - by apply IH.
Qed.

Lemma filter_by_ids (p : Elem -> bool) (ids : list nat) (l : list Elem) :
  (forall e, e ∈ l -> (eid e ∈ ids <-> p e = true)) ->
  filter (fun e' => eid e' ∉ ids) l = List.filter (fun e => negb (p e)) l.
Proof.
  induction l as [|x l IH]; intros Hl; [reflexivity|].
  assert (Hl' : forall e, e ∈ l -> (eid e ∈ ids <-> p e = true))
    by (intros e He; apply Hl; by right).
  cbn [List.filter]. destruct (p x) eqn:Ep; cbn [negb].
  - rewrite filter_cons_False; [by apply IH|]. intros Hn. apply Hn. apply Hl; [by left|done].
  - rewrite filter_cons_True; [by rewrite IH|]. intros Hin.
    apply Hl in Hin; [congruence|by left].
Qed.

Section Preview.

Variable random : nat -> Q.
Variable importModule : string -> nat -> option ModuleClass.

(** X18. Without a preview [clearPreview] does nothing.  With one, and the
    container in place, it calls [destroy] on every instance of the preview
    that has it, a throw of one not stopping the others, takes the key of the
    preview out of the registry and leaves the other keys as they are, and
    removes from the container the elements of the preview and no other
    element. *)
Theorem clear_preview_removes_the_preview_only (name : string) (s : State)
    (elems : list Elem) :
  clearPreview None s = (Ok None, s)
  /\ (name <> "" -> modulesContainer s = Some elems -> NoDup (eid <$> elems) ->
      exists s',
        clearPreview (Some name) s = (Ok None, s')
        /\ assoc (previewKey name) (activeModules s') = None
        /\ (forall k, k <> previewKey name ->
                      assoc k (activeModules s') = assoc k (activeModules s))
        /\ modulesContainer s'
           = Some (List.filter
                     (fun e => negb (matchesSelector name (previewKey name) e)) elems)
        /\ trace s'
           = trace s ++ destroyCalls
                          (default [] (assoc (previewKey name) (activeModules s)))
        /\ activeTrack s' = activeTrack s).
Proof.
  split; [reflexivity|]. intros Hne Hc Hnd.
  destruct (clearPreview_exact name s elems Hne Hc) as (P & Hrun).
  eexists. split; [exact Hrun|]. cbn.
  split; [apply assoc_alist_delete|].
  split; [intros k Hk; by apply assoc_alist_delete_ne|].
  split; [|done]. f_equal. apply filter_by_ids. intros e He. split.
  - intros Hin. apply list_elem_of_fmap in Hin as (e' & Heq & Hin).
    apply list_elem_of_In, filter_In in Hin as [Hin Hm]. apply list_elem_of_In in Hin.
    by rewrite (NoDup_fmap_eq eid elems e e' Hnd He Hin Heq).
  - intros Hm. apply list_elem_of_fmap. exists e. split; [reflexivity|].
    apply list_elem_of_In, filter_In. split; [by apply list_elem_of_In|exact Hm].
Qed.

Lemma returns_clearPreview (p : option string) : returns (clearPreview p).
Proof.
  unfold clearPreview.
  returns_with ltac:(first [ apply returns_forEach; intros ?;
                             [intros s0; rewrite destroyPreview_run; by eexists _, _]
                           | apply returns_forEach; intros ?;
                             [intros s0; rewrite removeAndRelease_exact; by eexists _, _] ]).
Qed.

(** X19. With the container in place, a preview of a module never throws,
    with fuel for a matrix step and its constructor batch.  It ends with the
    preview registered under its key, or, when a constructor method throws
    or a lookup fails, with the preview cleared, its key out of the
    registry; or it never settles, the preview still registered: this is
    what a constructor that throws inside the animation frame makes of
    it. *)
Theorem preview_never_throws (fuel : nat) (p : option string) (name : string)
    (moduleData : option ModuleData) (s : State) :
  name <> "" -> is_Some (modulesContainer s) ->
  exists r s',
    previewModule random importModule (S (S fuel)) p name moduleData s = (r, s')
    /\ match r with
       | Ok p' =>
           (p' = Some name /\ is_Some (assoc (previewKey name) (activeModules s')))
           \/ (p' = None /\ assoc (previewKey name) (activeModules s') = None)
       | Never => is_Some (assoc (previewKey name) (activeModules s'))
       | Raise _ | OutOfFuel => False
       end.
Proof.
  intros Hne Hc. unfold previewModule.
  destruct (returns_clearPreview p s) as (p1 & s1 & H1).
  pose proof (frame_clearPreview keepsContainer keepsContainer_keptAll p s _ s1 H1 Hc)
    as [elems Hc1].
  rewrite (bind_run _ _ _ _ _ H1). run_bind. rewrite Hc1.
  unfold try_catch.
  match goal with |- context [(modify ?f ≫= ?k) s1] =>
    change ((modify f ≫= k) s1) with (k tt (f s1)); set (s2 := f s1)
  end.
  assert (Hk2 : is_Some (assoc (previewKey name) (activeModules s2)))
    by (unfold s2; cbn; rewrite assoc_alist_set; eauto).
  assert (Hc2 : is_Some (modulesContainer s2)) by (unfold s2; cbn; rewrite Hc1; eauto).
  cbv beta.
  destruct (default [] (dconstructor <$> moduleData)) as [|c cs] eqn:Ector.
  - run_bind. exists (Ok (Some name)), s2. split; [reflexivity|]. by left.
  - match goal with |- context [((?m ≫= ?k1) ≫= ?k2) s2] =>
      destruct ((m ≫= k1) s2) as [r3 s3] eqn:H3
    end.
    apply bind_inv in H3 as Hinv.
    destruct Hinv as [(l & s2' & Hg & Hexec)|[(e & Hg & _)|[[Hg _]|[Hg _]]]];
      [|discriminate..].
    inversion Hg; subst l s2'. clear Hg.
    pose proof (frame_executeMethods (keepsKey (previewKey name)) _
                  (keepsKey_kept (previewKey name)) random importModule
                  _ _ _ _ _ I _ _ _ Hexec Hk2) as Hk3.
    pose proof (frame_executeMethods keepsContainer _ keepsContainer_kept
                  random importModule _ _ _ _ _ I _ _ _ Hexec Hc2) as [elems3 Hc3].
    unfold mbind at 1. unfold M_bind at 1. unfold bind at 1. rewrite H3.
    destruct r3 as [[]|e| |].
    + exists (Ok (Some name)), s3. split; [reflexivity|]. by left.
    + destruct (clearPreview_exact name s3 elems3 Hne Hc3) as (P & Hclear).
      rewrite Hclear. eexists _, _. split; [reflexivity|]. right.
      split; [reflexivity|]. cbn. apply assoc_alist_delete.
    + exfalso. by apply (executeMethods_fueled random importModule fuel _ _ _ _ _ _ Hexec).
    + exists Never, s3. split; [reflexivity | exact Hk3].
Qed.

(** X20. Triggering a method on the preview never throws.  When the module is
    the one previewed, every instance of the preview is reached, in order:
    the method is called on the ones that have it, also after a call threw,
    and a warning is logged for the others; nothing else changes.  When it is
    not, nothing happens. *)
Theorem trigger_preview_method_reaches_every_instance (p : option string)
    (name methodName : string) (options : gmap string jsval) (s : State) :
  triggerPreviewMethod p name methodName options s
  = (Ok tt,
     if decide (p = Some name /\ name <> "")
     then set_trace
            (trace s ++ List.map (invocationEvent (previewKey name) methodName options false)
                          (default [] (assoc (previewKey name) (activeModules s)))) s
     else s).
Proof.
  unfold triggerPreviewMethod.
  destruct p as [n|]; [|rewrite decide_False; [reflexivity|by intros [? _]]].
  destruct (String.eqb n "") eqn:En; cbn [orb].
  { apply String.eqb_eq in En. subst n.
    rewrite decide_False; [reflexivity|]. intros [[= <-] H]. done. }
  apply String.eqb_neq in En.
  destruct (String.eqb n name) eqn:Enn; cbn [negb].
  2:{ apply String.eqb_neq in Enn. rewrite decide_False; [reflexivity|].
      intros [[= <-] _]. done. }
  apply String.eqb_eq in Enn. subst n. rewrite decide_True by done.
  run_bind. destruct (default [] _) as [|i l] eqn:El.
  - cbn. by rewrite app_nil_r, set_trace_same.
  - unfold try_catch. rewrite promiseAll_invokeOn.
    destruct (fanResult_cases methodName (i :: l)) as [->|(j & _ & _ & ->)]; reflexivity.
Qed.

End Preview.

Lemma fanResult_existsb (name : string) (l : list Instance) :
  existsb (throwsOn name) l = false <-> fanResult name l = Ok tt.
Proof.
  unfold fanResult. split.
  - intros H. destruct (List.find (throwsOn name) l) as [i|] eqn:E; [|reflexivity].
    apply find_some in E as [Hin Ht].
    assert (existsb (throwsOn name) l = true) by (apply existsb_exists; eauto). congruence.
  - destruct (List.find (throwsOn name) l) as [i|] eqn:E; [discriminate|]. intros _.
    destruct (existsb (throwsOn name) l) eqn:Ex; [|reflexivity].
    apply existsb_exists in Ex as (i & Hin & Ht).
    by rewrite (find_none _ _ E i Hin) in Ht.
Qed.

Section Batch.

Variable random : nat -> Q.

Lemma executeOthers_result (id : string) (l : list Instance) (c : bool)
    (others : list MethodCall) (s s' : State) (r : Result unit) :
  executeOthers random id (Some l) c others s = (r, s') -> r = batchResult l others.
Proof.
  unfold executeOthers. revert s s' r.
  induction others as [|m ms IH]; intros s s' r H.
  - by inversion H.
  - cbn [promiseAll] in H.
    destruct (runMethod_some random id l c m s) as (options & wevs & s1 & H1 & _).
    rewrite H1 in H. unfold batchResult. cbn [List.find].
    destruct (fanResult_cases (mname m) l) as [Hok|(i & Hi & Hthrow & Hraise)].
    + rewrite Hok in H. apply IH in H.
      apply fanResult_existsb in Hok. rewrite Hok. exact H.
    + assert (Hex : existsb (throwsOn (mname m)) l = true).
      { destruct (existsb (throwsOn (mname m)) l) eqn:E; [reflexivity|].
        apply fanResult_existsb in E. congruence. }
      rewrite Hex. rewrite Hraise in H |- *.
      destruct (promiseAll _ ms s1) as [r2 s2] eqn:H2.
      pose proof (IH _ _ _ H2) as Hr2.
      destruct r2 as [[]|e| |]; try (by inversion H).
      exfalso. unfold batchResult in Hr2.
      destruct (List.find _ ms) as [m'|]; [|discriminate].
      destruct (fanResult_cases (mname m') l) as [Hok|(j & _ & _ & Hr)]; congruence.
Qed.

(** X21. A method that throws is not caught by the fan-out: the batch throws
    the error of the first call of the batch that an instance throws on, for
    the first such instance.  Every call of the batch has by then reached
    every instance. *)
Theorem batch_throws_the_first_failure (id : string) (l : list Instance) (c : bool)
    (others : list MethodCall) (s : State) :
  exists s' evs,
    executeOthers random id (Some l) c others s = (batchResult l others, s')
    /\ trace s' = trace s ++ evs
    /\ (forall m i, m ∈ others -> i ∈ l ->
          exists options, invocationEvent id (mname m) options c i ∈ evs).
Proof.
  destruct (executeOthers_some random id l c others s)
    as (r & s' & evs & Hrun & Htr & _ & Hcov & _).
  exists s', evs. rewrite <- (executeOthers_result _ _ _ _ _ _ _ Hrun). done.
Qed.

End Batch.

(** ** A module that fails to load *)

Lemma bind_raise {A B} (m : M A) (k : A -> M B) (s s1 : State) (e : Exn) :
  m s = (Raise e, s1) -> (m ≫= k) s = (Raise e, s1).
Proof. intros H. unfold mbind, M_bind, bind. by rewrite H. Qed.

Lemma try_catch_raise {A} (m : M A) (h : Exn -> M A) (s s1 : State) (e : Exn) :
  m s = (Raise e, s1) -> try_catch m h s = h e s1.
Proof. intros H. unfold try_catch. by rewrite H. Qed.

Lemma teardownPlacement_exact (moduleType id : string) (s : State) (elems : list Elem) :
  Forall (fun i => assoc "destroy" (imethods i) <> Some Throws)
    (default [] (assoc id (activeModules s))) ->
  modulesContainer s = Some elems ->
  exists evs P,
    teardownPlacement moduleType id s
    = (Ok tt,
       set_activeModules (alist_set id [] (activeModules s))
         (set_pool P
            (set_modulesContainer
               (Some (filter (fun e' => eid e' ∉ eid <$> List.filter
                                          (matchesSelector moduleType id) elems) elems))
               (set_trace (trace s ++ evs) s)))).
Proof.
  intros Hsafe Hc. unfold teardownPlacement. run_bind.
  destruct (forEach_destroyInstance _ s Hsafe) as (evs & Hd).
  rewrite (bind_run _ _ _ _ _ Hd). run_bind.
  match goal with |- context [(forEach removeAndRelease ?l ≫= _) ?s1] =>
    destruct (forEach_removeAndRelease_exact l s1) as (P & C & Hrun & HC & _)
  end.
  rewrite (bind_run _ _ _ _ _ Hrun). cbn in HC. rewrite Hc in HC. cbn in HC. subst C.
  exists evs, P. reflexivity.
Qed.

Section LoadFailure.

Variable random : nat -> Q.
Variable importModule : string -> nat -> option ModuleClass.

(** X22. When the module of a placement fails to load, [updateMatrix] returns
    without throwing: the former instances and elements of the placement are
    gone, the placement is registered with no instance, the error is logged,
    and the cache holds no entry for the module type. *)
Theorem failed_load_leaves_the_placement_empty (fuel : nat) (id t : string)
    (methodOptions : list OptionValue) (s : State) :
  is_Some (modulesContainer s) ->
  placementType s id = Some t -> t <> "" ->
  Forall (fun i => assoc "destroy" (imethods i) <> Some Throws)
    (default [] (assoc id (activeModules s))) ->
  loadOutcome importModule s t = None ->
  exists s',
    updateMatrix random importModule fuel id methodOptions s = (Ok tt, s')
    /\ assoc id (activeModules s') = Some []
    /\ (forall e, e ∈ default [] (modulesContainer s') -> matchesSelector t id e = false)
    /\ last (trace s') = Some (ErrLoadModule t)
    /\ moduleClassCache s' !! t = None
    /\ activeTrack s' = activeTrack s.
Proof.
  intros [elems Hc] Htype Ht Hsafe Hload.
  unfold updateMatrix, updateMatrixWith. cbv zeta. run_bind. rewrite Hc.
  rewrite bool_decide_eq_true_2 by eauto. cbn [negb].
  rewrite (bind_run _ _ _ _ _ (findModuleType_run s id t Htype)).
  rewrite decide_False by exact Ht.
  destruct (teardownPlacement_exact t id s elems Hsafe Hc) as (evs & P & Htear).
  rewrite (bind_run _ _ _ _ _ Htear).
  match goal with |- context [(try_catch _ _ ≫= _) ?st] => set (s1 := st) end.
  assert (Hkept : forall e, e ∈ filter (fun e' => eid e' ∉ eid <$> List.filter
                                           (matchesSelector t id) elems) elems ->
                            matchesSelector t id e = false).
  { intros e He. apply list_elem_of_filter in He as [Hn He].
    destruct (matchesSelector t id e) eqn:Em; [|reflexivity].
    exfalso. apply Hn. apply list_elem_of_fmap. exists e. split; [reflexivity|].
    apply list_elem_of_In, filter_In. split; [by apply list_elem_of_In|exact Em]. }
  unfold loadOutcome in Hload.
  destruct (moduleClassCache s !! t) as [n|] eqn:Ecache.
  - assert (Hrun : awaitLoadModuleClass importModule t s1
                   = (Raise (ImportError t),
                      set_moduleClassCache (delete t (moduleClassCache s1)) s1)).
    { rewrite (awaitLoadModuleClass_hit importModule t n s1 Ht Ecache). by rewrite Hload. }
    erewrite bind_run;
      [|erewrite try_catch_raise by (apply bind_raise; exact Hrun); run_bind; reflexivity].
    eexists. split; [reflexivity|]. cbn.
    split; [apply assoc_alist_set|]. split; [exact Hkept|].
    split; [apply last_snoc|]. split; [apply lookup_delete_eq|reflexivity].
  - assert (Hrun : awaitLoadModuleClass importModule t s1
                   = (Raise (ImportError t),
                      set_moduleClassCache (moduleClassCache s1)
                        (set_trace (trace s1 ++ [Import t])
                           (set_imports (S (imports s1)) s1)))).
    { rewrite (awaitLoadModuleClass_miss importModule t s1 Ht Ecache). cbv zeta.
      change (imports s1) with (imports s). by rewrite Hload. }
    erewrite bind_run;
      [|erewrite try_catch_raise by (apply bind_raise; exact Hrun); run_bind; reflexivity].
    eexists. split; [reflexivity|]. cbn.
    split; [apply assoc_alist_set|]. split; [exact Hkept|].
    split; [apply last_snoc|]. split; [exact Ecache|reflexivity].
Qed.

End LoadFailure.

(** ** Stacking order *)

Lemma find_placement (pre post : list ModuleRef) (r : ModuleRef) :
  rid r ∉ rid <$> pre ->
  List.find (fun m => bool_decide (rid m = rid r)) (pre ++ r :: post) = Some r.
Proof.
  induction pre as [|m pre IH]; intros Hn; cbn.
  - by rewrite bool_decide_eq_true_2.
  - cbn in Hn. apply not_elem_of_cons in Hn as [Hm Hn].
    rewrite bool_decide_eq_false_2 by congruence. by apply IH.
Qed.

Lemma findIndex_placement (pre post : list ModuleRef) (r : ModuleRef) :
  rid r ∉ rid <$> pre ->
  findIndex (rid r) (pre ++ r :: post) = Z.of_nat (length pre).
Proof.
  induction pre as [|m pre IH]; intros Hn; cbn [app findIndex length].
  - by rewrite decide_True.
  - cbn in Hn. apply not_elem_of_cons in Hn as [Hm Hn].
    rewrite decide_False by congruence. rewrite IH by exact Hn.
    rewrite decide_False by lia. lia.
Qed.

Lemma placeCell_stacked (id t : string) (mo : MatrixOptions) (z : Z)
    (acc : list Elem) (cell : Z * Z) (s s' : State) (elems : list Elem) :
  Forall (stacked id z (truthy (borderOption mo))) acc ->
  placeCell id t mo z acc cell s = (Ok elems, s') ->
  Forall (stacked id z (truthy (borderOption mo))) elems.
Proof.
  intros Hacc H. unfold placeCell in H. destruct cell as [row col].
  destruct (includes (excludedCells mo) (cellKey row col)) as [[|]|]; [| |discriminate].
  - by inversion H; subst.
  - destruct (getElement_returns t s) as (e & s1 & He).
    rewrite (bind_run _ _ _ _ _ He) in H. inversion H; subst.
    apply Forall_app. split; [exact Hacc|]. constructor; [|constructor].
    split; [reflexivity|]. eexists. split; [reflexivity|]. done.
Qed.

Lemma foldM_placeCell_stacked (id t : string) (mo : MatrixOptions) (z : Z)
    (cells : list (Z * Z)) (acc : list Elem) (s s' : State) (elems : list Elem) :
  Forall (stacked id z (truthy (borderOption mo))) acc ->
  foldM (placeCell id t mo z) acc cells s = (Ok elems, s') ->
  Forall (stacked id z (truthy (borderOption mo))) elems.
Proof.
  revert acc s. induction cells as [|cell cells IH]; intros acc s Hacc H.
  - by inversion H; subst.
  - cbn [foldM] in H.
    apply bind_inv in H as [(acc1 & s1 & H1 & Hk)|[(e & _ & He)|[[_ He]|[_ He]]]];
      [|discriminate..].
    eapply IH; [|exact Hk]. by eapply placeCell_stacked.
Qed.

Lemma placeCells_stacked (id t : string) (mo : MatrixOptions) (z : Z)
    (s s' : State) (elems : list Elem) :
  placeCells id t mo z s = (Ok elems, s') ->
  Forall (stacked id z (truthy (borderOption mo))) elems.
Proof.
  unfold placeCells. intros H. destruct (loopsForever (rows mo) (cols mo)).
  - destruct (includes _ _) as [b|]; [discriminate|].
    destruct (entersColumns (cols mo)); discriminate.
  - eapply foldM_placeCell_stacked; [constructor | exact H].
Qed.

Section Stacking.

Variable random : nat -> Q.
Variable importModule : string -> nat -> option ModuleClass.

(** X23. The elements [updateMatrix] adds for a placement of the active track
    are stacked by the position of the placement in the track: for the
    placement at position [n], counted from zero, each new element is tagged
    with the placement and styled with the z-index [n + 1] and with a border
    just when the border option is truthy.  They come after the elements the
    container keeps, none of which is an element of the placement.  This
    holds whether the constructor of the module returns or throws: the
    elements are in the container before an instance is constructed. *)
Theorem elements_stack_in_placement_order (fuel : nat) (track : Track)
    (pre post : list ModuleRef) (r : ModuleRef) (methodOptions : list OptionValue)
    (cls : ModuleClass) (children : list Elem) (s : State) :
  activeTrack s = Some track ->
  modules track = Some (pre ++ r :: post) ->
  rid r ∉ rid <$> pre ->
  rtype r <> "" ->
  modulesContainer s = Some children ->
  Forall (fun i => assoc "destroy" (imethods i) <> Some Throws)
    (default [] (assoc (rid r) (activeModules s))) ->
  loadOutcome importModule s (rtype r) = Some cls ->
  exists res s' rest elems,
    updateMatrix random importModule (S fuel) (rid r) methodOptions s = (res, s')
    /\ res <> OutOfFuel
    /\ modulesContainer s' = Some (rest ++ elems)
    /\ (forall e, e ∈ rest -> e ∈ children /\ matchesSelector (rtype r) (rid r) e = false)
    /\ Forall (stacked (rid r) (Z.of_nat (length pre) + 1)
                 (truthy (borderOption (decodeMatrixOptions methodOptions)))) elems.
Proof.
  intros Ha Hms Hpre Hne Hcont Hsafe Hload.
  assert (Htype : placementType s (rid r) = Some (rtype r)).
  { unfold placementType. rewrite Ha, Hms. by rewrite find_placement. }
  cut (exists res s' rest elems,
         updateMatrix random importModule (S fuel) (rid r) methodOptions s = (res, s')
         /\ modulesContainer s' = Some (rest ++ elems)
         /\ (forall e, e ∈ rest ->
               e ∈ children /\ matchesSelector (rtype r) (rid r) e = false)
         /\ Forall (stacked (rid r) (Z.of_nat (length pre) + 1)
                      (truthy (borderOption (decodeMatrixOptions methodOptions)))) elems).
  { intros (res & s' & rest & elems & Hrun & Hrest).
    exists res, s', rest, elems. split; [exact Hrun|]. split; [|exact Hrest].
    intros ->. exact (updateMatrix_fueled random importModule fuel _ _ _ _ Hrun). }
  unfold updateMatrix, updateMatrixWith. cbv zeta. run_bind. rewrite Hcont.
  rewrite bool_decide_eq_true_2 by eauto. cbn [negb].
  rewrite (bind_run _ _ _ _ _ (findModuleType_run s (rid r) (rtype r) Htype)).
  rewrite decide_False by exact Hne.
  destruct (teardownPlacement_exact (rtype r) (rid r) s children Hsafe Hcont)
    as (evs & P & Htear).
  rewrite (bind_run _ _ _ _ _ Htear).
  set (rest := filter (fun e' => eid e' ∉ eid <$> List.filter
                                   (matchesSelector (rtype r) (rid r)) children) children).
  match goal with |- context [(try_catch _ _ ≫= _) ?st] => set (s1 := st) end.
  assert (Hrest : forall e, e ∈ rest ->
                    e ∈ children /\ matchesSelector (rtype r) (rid r) e = false).
  { intros e He. apply list_elem_of_filter in He as [Hn He]. split; [exact He|].
    destruct (matchesSelector (rtype r) (rid r) e) eqn:Em; [|reflexivity].
    exfalso. apply Hn. apply list_elem_of_fmap. exists e. split; [reflexivity|].
    apply list_elem_of_In, filter_In. split; [by apply list_elem_of_In|exact Em]. }
  destruct (awaitLoadModuleClass_ok importModule (rtype r) cls s1 Hne Hload) as (s2 & Hl).
  pose proof (awaitLoadModuleClass_same importModule (rtype r) _ _ _ Hl) as (Ht2 & Hm2 & Hc2).
  rewrite (bind_run _ _ s1 s2 (Some (Some cls)))
    by (apply try_catch_run; by rewrite (bind_run _ _ _ _ _ Hl)).
  run_bind. rewrite Ht2. change (activeTrack s1) with (activeTrack s). rewrite Ha, Hms.
  change (default [] (Some (pre ++ r :: post))) with (pre ++ r :: post).
  rewrite findIndex_placement by exact Hpre.
  destruct (placeCells (rid r) (rtype r) (decodeMatrixOptions methodOptions)
              (Z.of_nat (length pre) + 1) s2) as [rp s3] eqn:Hp.
  pose proof (placeCells_same _ _ _ _ _ _ _ Hp) as (_ & Hm3 & Hc3).
  assert (Hstop : forall res : Result unit,
            exists res' s' rest elems,
              (res, s3) = (res', s')
              /\ modulesContainer s' = Some (rest ++ elems)
              /\ (forall e, e ∈ rest ->
                    e ∈ children /\ matchesSelector (rtype r) (rid r) e = false)
              /\ Forall (stacked (rid r) (Z.of_nat (length pre) + 1)
                           (truthy (borderOption (decodeMatrixOptions methodOptions))))
                   elems).
  { intros res. exists res, s3, rest, []. split; [reflexivity|]. rewrite app_nil_r.
    split; [by rewrite Hc3, Hc2|]. split; [exact Hrest|constructor]. }
  destruct rp as [elems|e| |].
  - pose proof (placeCells_stacked _ _ _ _ _ _ _ Hp) as Hst.
    rewrite (bind_run _ _ _ _ _ Hp). run_bind.
    match goal with |- context [animationFrame (mapM ?f elems) ≫= _] =>
      match goal with |- context [(_ ≫= _) ?s4] =>
        destruct (mapM f elems s4) as [ri s5] eqn:Hi
      end
    end.
    pose proof (construct_same _ _ _ _ _ _ Hi) as (_ & Hm5 & Hc5).
    assert (Hcont5 : modulesContainer s5 = Some (rest ++ elems)).
    { rewrite Hc5. cbn. rewrite Hc3, Hc2. reflexivity. }
    unfold mbind at 1, M_bind at 1, bind at 1, animationFrame. rewrite Hi.
    destruct ri as [insts|e| |].
    + match goal with |- context [runConstructorMethods ?ex ?i ?l] =>
        match goal with |- context [(modify ?f ≫= _) s5] =>
          destruct (runConstructorMethods ex i l (f s5)) as [res s7] eqn:Hrun;
          pose proof (runConstructorMethods_same random importModule fuel _ _ _ _ _ Hrun)
            as (_ & _ & Hc7)
        end
      end.
      exists res, s7, rest, elems. split; [exact Hrun|].
      split; [|split; [exact Hrest|exact Hst]]. rewrite Hc7. exact Hcont5.
    + exists Never, s5, rest, elems. split; [reflexivity|].
      split; [exact Hcont5|]. split; [exact Hrest|exact Hst].
    + exists OutOfFuel, s5, rest, elems. split; [reflexivity|].
      split; [exact Hcont5|]. split; [exact Hrest|exact Hst].
    + exists Never, s5, rest, elems. split; [reflexivity|].
      split; [exact Hcont5|]. split; [exact Hrest|exact Hst].
  - rewrite (bind_raise _ _ _ _ _ Hp). apply Hstop.
  - unfold mbind, M_bind, bind. rewrite Hp. apply Hstop.
  - unfold mbind, M_bind, bind. rewrite Hp. apply Hstop.
Qed.

End Stacking.

(** ** The option validator *)

Lemma gtb_irrefl (x : Double.num) : Double.gtb x x = false.
Proof.
  destruct x as [q|[|]|]; try reflexivity. cbn. apply negb_false_iff, Qle_bool_iff. lra.
Qed.

Lemma gtb_asym (x y : Double.num) : Double.gtb x y = true -> Double.gtb y x = false.
Proof.
  destruct x as [a|[|]|], y as [b|[|]|]; try reflexivity; try discriminate.
  cbn. intros H. apply Qgtb_lt in H. apply Qgtb_le. lra.
Qed.

(** Two numbers of which the first is not greater than the second are in
    order, unless one of them is NaN. *)
Lemma gtb_false_le (x y : Double.num) :
  Double.gtb x y = false -> x <> Double.NaN -> y <> Double.NaN -> Double.le x y.
Proof.
  destruct x as [a|[|]|], y as [b|[|]|]; cbn; try done.
  intros H _ _. by apply Qgtb_le.
Qed.

(** The shape of a validated range. *)
Lemma validateRandomRange_ordered (opt : Validator.OptionDef) (randomRange v : jsval) :
  Validator.validateRandomRange opt randomRange = Some v ->
  exists a b : Double.num, v = JArr [JNum a; JNum b] /\ Double.gtb a b = false.
Proof.
  unfold Validator.validateRandomRange.
  destruct randomRange as [| | | | |[|x1 [|x2 [|x3 l]]]|]; try discriminate;
    destruct x1 as [| | |min| | |]; try discriminate;
    destruct x2 as [| | |max| | |]; try discriminate.
  destruct (Double.gtb min max) eqn:Eg.
  { intros [= <-]. exists max, min. split; [reflexivity | by apply gtb_asym]. }
  assert (Hmax :
            match Validator.dmax opt with
            | Some omax =>
                if Double.gtb min omax then Some (JArr [JNum omax; JNum omax])
                else Some (JArr [JNum min; JNum max])
            | None => Some (JArr [JNum min; JNum max])
            end = Some v ->
            exists a b : Double.num, v = JArr [JNum a; JNum b] /\ Double.gtb a b = false).
  { destruct (Validator.dmax opt) as [omax|].
    - destruct (Double.gtb min omax); intros [= <-]; eexists _, _;
        (split; [reflexivity|]); [apply gtb_irrefl | exact Eg].
    - intros [= <-]. eexists _, _. split; [reflexivity | exact Eg]. }
  destruct (Validator.dmin opt) as [omin|]; [|by apply Hmax].
  destruct (Double.ltb max omin); [|by apply Hmax].
  intros [= <-]. eexists _, _. split; [reflexivity | apply gtb_irrefl].
Qed.

(** X24. A random range that the validator lets through is a pair of numbers
    of which the first is not greater than the second, whatever the range
    and the definition of the option were: the two are in order, unless one
    of them is NaN, which the validator takes for a number. *)
Theorem validated_random_range_is_ordered (opt : Validator.OptionDef)
    (randomRange : jsval) :
  match Validator.validateRandomRange opt randomRange with
  | Some v =>
      exists a b : Double.num,
        v = JArr [JNum a; JNum b]
        /\ Double.gtb a b = false
        /\ (a <> Double.NaN -> b <> Double.NaN -> Double.le a b)
  | None => True
  end.
Proof.
  destruct (Validator.validateRandomRange opt randomRange) as [v|] eqn:E; [|exact I].
  destruct (validateRandomRange_ordered opt randomRange v E) as (a & b & -> & Hab).
  exists a, b. split; [reflexivity|]. split; [exact Hab | by apply gtb_false_le].
Qed.

Section Validated.

Variable random : nat -> Q.
Variable stringOf : jsval -> string.

Lemma resolveOption_validated (definitions : list Validator.OptionDef) (o : OptionValue)
    (s : State) :
  is_Some (List.find (fun d => String.eqb (Validator.dname d) (oname o)) definitions) ->
  exists p s',
    resolveOption random (Validator.validateOption stringOf definitions o) s = (Ok p, s')
    /\ trace s' = trace s.
Proof.
  intros [d Hd]. unfold Validator.validateOption. rewrite Hd.
  assert (Hnone : forall n v rv s0,
            exists p s',
              resolveOption random (mkOption n v JUndefined rv) s0 = (Ok p, s')
              /\ trace s' = trace s0)
    by (intros; eexists _, _; split; reflexivity).
  assert (Hrange : forall rr n v rv s0,
            exists p s',
              resolveOption random
                (mkOption n v
                   match Validator.validateRandomRange d rr with
                   | Some validatedRange => validatedRange
                   | None => JUndefined
                   end rv) s0 = (Ok p, s')
              /\ trace s' = trace s0).
  { intros rr n v rv s0.
    destruct (Validator.validateRandomRange d rr) as [w|] eqn:E; [|apply Hnone].
    apply validateRandomRange_ordered in E as (a & b & -> & Hab).
    rewrite (resolveOption_numeric random
               (mkOption n v (JArr [JNum a; JNum b]) rv) a b s0 eq_refl).
    rewrite Hab. eexists _, _. split; reflexivity. }
  destruct (orandomRange o); first [apply Hnone | apply Hrange].
Qed.

(** X25. Options that went through [validateMethodOptions], each with a
    definition of its name, are resolved by [Projector.executeMethods]
    without a warning about a random range: no range is left that is not a
    pair of numbers in order. *)
Theorem validated_options_resolve_without_warning
    (definitions : list Validator.OptionDef) (methodOptions : list OptionValue) (s : State) :
  Forall (fun o => is_Some (List.find (fun d => String.eqb (Validator.dname d) (oname o))
                              definitions)) methodOptions ->
  exists out s',
    resolveOptions random
      (Validator.validateMethodOptions stringOf definitions methodOptions) s = (Ok out, s')
    /\ trace s' = trace s.
Proof.
  intros Hall.
  assert (Hm : exists ps s',
            mapM (resolveOption random)
              (Validator.validateMethodOptions stringOf definitions methodOptions) s
            = (Ok ps, s') /\ trace s' = trace s).
  { revert s. induction Hall as [|o l Ho _ IH]; intros s.
    - exists [], s. done.
    - destruct (resolveOption_validated definitions o s Ho) as (p & s1 & H1 & T1).
      destruct (IH s1) as (ps & s2 & H2 & T2).
      exists (p :: ps), s2. cbn [Validator.validateMethodOptions List.map mapM].
      unfold Validator.validateMethodOptions in H2.
      rewrite (bind_run _ _ _ _ _ H1), (bind_run _ _ _ _ _ H2).
      split; [reflexivity|congruence]. }
  destruct Hm as (ps & s' & Hm & Ht). exists (fromPairs ps), s'.
  unfold resolveOptions. rewrite (bind_run _ _ _ _ _ Hm). done.
Qed.

(** X26. For a number option with bounds in order, the validator maps a
    number to a number within the bounds, leaves a number within the bounds
    as it is, and gives for what it returned the same value again; a value
    that is not a number gives the default value.  So does NaN, and an
    infinity gives the bound on its side. *)
Theorem validated_number_is_within_bounds (opt : Validator.OptionDef) (a b : Q) :
  Validator.dtype opt = "number" ->
  Validator.dmin opt = Some (Double.Fin a) -> Validator.dmax opt = Some (Double.Fin b) ->
  (a <= b)%Q ->
  (forall v : Q,
     exists w : Q,
       Validator.validateOptionValue stringOf opt (JNum v) = JNum w
       /\ (a <= w <= b)%Q
       /\ ((a <= v <= b)%Q -> w = v)
       /\ Validator.validateOptionValue stringOf opt (JNum w) = JNum w)
  /\ (forall value, isNumber value = false ->
        Validator.validateOptionValue stringOf opt value = Validator.ddefaultVal opt)
  /\ Validator.validateOptionValue stringOf opt (JNum Double.NaN) = Validator.ddefaultVal opt
  /\ Validator.validateOptionValue stringOf opt (JNum (Double.Inf false)) = JNum b
  /\ Validator.validateOptionValue stringOf opt (JNum (Double.Inf true)) = JNum a.
Proof.
  intros Ht Hmin Hmax Hab.
  assert (Hnum : forall v : Q,
            Validator.validateOptionValue stringOf opt (JNum v)
            = if Qgtb a v then JNum a
              else if Qgtb v b then JNum b else JNum v).
  { intros v. unfold Validator.validateOptionValue. by rewrite Ht, Hmin, Hmax. }
  split; [|split; [|split; [|split]]].
  - intros v. rewrite Hnum.
    destruct (Qgtb a v) eqn:E1.
    + apply Qgtb_lt in E1. exists a. split; [reflexivity|]. split; [lra|].
      split; [intros; exfalso; lra|]. rewrite Hnum.
      assert (Qgtb a a = false) as -> by (apply Qgtb_le; lra).
      assert (Qgtb a b = false) as -> by (apply Qgtb_le; lra). reflexivity.
    + apply Qgtb_le in E1. destruct (Qgtb v b) eqn:E2.
      * apply Qgtb_lt in E2. exists b. split; [reflexivity|]. split; [lra|].
        split; [intros; exfalso; lra|]. rewrite Hnum.
        assert (Qgtb a b = false) as -> by (apply Qgtb_le; lra).
        assert (Qgtb b b = false) as -> by (apply Qgtb_le; lra). reflexivity.
      * apply Qgtb_le in E2. exists v. split; [reflexivity|]. split; [lra|].
        split; [reflexivity|]. rewrite Hnum.
        assert (Qgtb a v = false) as -> by (apply Qgtb_le; lra).
        assert (Qgtb v b = false) as -> by (apply Qgtb_le; lra). reflexivity.
  - intros value Hv. unfold Validator.validateOptionValue. rewrite Ht.
    by destruct value.
  - unfold Validator.validateOptionValue. by rewrite Ht.
  - unfold Validator.validateOptionValue. by rewrite Ht, Hmin, Hmax.
  - unfold Validator.validateOptionValue. by rewrite Ht, Hmin.
Qed.

Lemma validDimension_intro (x : Double.num) :
  Double.ltb x 1 = false -> Double.gtb x 5 = false ->
  validDimension x (or_else (JNum x) (JNum 1)).
Proof.
  destruct x as [q|[|]|]; cbn; try discriminate.
  - intros H1 H5. apply Qgtb_le in H1, H5. right. exists q. split; [reflexivity|].
    split; [lra|]. unfold or_else. cbn.
    assert (Hq : Qeq_bool q 0 = false).
    { destruct (Qeq_bool q 0) eqn:E; [|reflexivity]. apply Qeq_bool_iff in E. lra. }
    by rewrite Hq.
  - intros _ _. by left.
Qed.

(** X27. For a matrix option the validator returns the default value or an
    object whose rows and columns are numbers between 1 and 5, or NaN, and
    whose excluded cells are an array.  [Projector.updateMatrix] decodes the
    rows, the columns and the excluded cells of such an object as the object
    has them, a NaN being read as 1.  The validator turns the array form of
    a matrix down. *)
Theorem validated_matrix_is_decoded_as_it_stands (opt : Validator.OptionDef)
    (value : jsval) :
  Validator.dtype opt = "matrix" ->
  (Validator.validateOptionValue stringOf opt value = Validator.ddefaultVal opt
   \/ exists f (r c : Double.num) E dr dc,
        Validator.validateOptionValue stringOf opt value = JObj f
        /\ prop "rows" f = JNum r /\ prop "cols" f = JNum c
        /\ prop "excludedCells" f = JArr E
        /\ validDimension r dr /\ validDimension c dc
        /\ forall border,
             decodeMatrixOptions
               [mkOption "matrix" (JObj f) JUndefined JUndefined;
                mkOption "border" border JUndefined JUndefined]
             = mkMatrixOptions dr dc (JArr E) border)
  /\ forall l, Validator.validateOptionValue stringOf opt (JArr l)
               = Validator.ddefaultVal opt.
Proof.
  intros Ht. split; [|intros l; unfold Validator.validateOptionValue; by rewrite Ht].
  unfold Validator.validateOptionValue. rewrite Ht. cbn [String.eqb Ascii.eqb Bool.eqb].
  destruct value as [| | | | | |f]; try (by left).
  destruct (prop "rows" f) as [| | |r| | |] eqn:Er; try (by left).
  destruct (prop "cols" f) as [| | |c| | |] eqn:Ec; try (by left).
  destruct (Double.ltb r 1) eqn:R1; [by left|].
  destruct (Double.gtb r 5) eqn:R5; [by left|].
  destruct (Double.ltb c 1) eqn:C1; [by left|].
  destruct (Double.gtb c 5) eqn:C5; [by left|].
  cbn [orb].
  assert (Hdec : forall g E border,
            prop "rows" g = JNum r -> prop "cols" g = JNum c ->
            prop "excludedCells" g = JArr E ->
            decodeMatrixOptions
              [mkOption "matrix" (JObj g) JUndefined JUndefined;
               mkOption "border" border JUndefined JUndefined]
            = mkMatrixOptions (or_else (JNum r) (JNum 1)) (or_else (JNum c) (JNum 1))
                (JArr E) border).
  { intros g E border Hgr Hgc Hge. unfold decodeMatrixOptions.
    cbn -[prop or_else].
    rewrite lookup_insert_ne by discriminate.
    rewrite !lookup_insert_eq. cbn -[prop or_else]. rewrite Hgr, Hgc, Hge.
    reflexivity. }
  right.
  destruct (prop "excludedCells" f) as [| | | | |E|] eqn:Ee.
  6:{ exists f, r, c, E, (or_else (JNum r) (JNum 1)), (or_else (JNum c) (JNum 1)).
      split; [reflexivity|]. split; [exact Er|]. split; [exact Ec|]. split; [exact Ee|].
      split; [by apply validDimension_intro|]. split; [by apply validDimension_intro|].
      intros border. by apply Hdec. }
  all: assert (Gr : prop "rows" (alist_set "excludedCells" (JArr []) f) = JNum r)
         by (unfold prop in *; by rewrite assoc_alist_set_ne by discriminate);
       assert (Gc : prop "cols" (alist_set "excludedCells" (JArr []) f) = JNum c)
         by (unfold prop in *; by rewrite assoc_alist_set_ne by discriminate);
       assert (Ge : prop "excludedCells" (alist_set "excludedCells" (JArr []) f) = JArr [])
         by (unfold prop; by rewrite assoc_alist_set);
       exists (alist_set "excludedCells" (JArr []) f), r, c, [],
         (or_else (JNum r) (JNum 1)), (or_else (JNum c) (JNum 1));
       (split; [reflexivity|]); (split; [exact Gr|]); (split; [exact Gc|]);
       (split; [exact Ge|]);
       (split; [by apply validDimension_intro|]);
       (split; [by apply validDimension_intro|]);
       intros border; by apply Hdec.
Qed.

End Validated.

(** ** The further properties on sample configurations *)

Lemma plain_options_pass_through_witness :
  exists out,
    MethodOptions.buildMethodOptions Sample.half Sample2.plainOptions Sample.noHooks
      Sample.emptyEnv = (out, Sample.emptyEnv)
    /\ out !! "" = None
    /\ default JUndefined (out !! "a") = JNum 3.
Proof.
  destruct (plain_options_pass_through Sample.half Sample2.plainOptions Sample.noHooks
              Sample.emptyEnv eq_refl) as (out & Hrun & Hnone & Hk).
  exists out. split; [exact Hrun|]. split; [exact Hnone|].
  destruct (Hk "a" ltac:(discriminate)) as [Hv _]. rewrite Hv. reflexivity.
Defined.

Lemma integer_pick_never_repeats_witness :
  exists (v : Q) e',
    MethodOptions.buildMethodOptions Sample.half [Sample.dice] Sample2.noRepeat
      Sample2.drewFour = ({[ "x" := JNum v ]}, e')
    /\ ~ (v == 4)%Q
    /\ (2 <= v <= 5)%Q.
Proof.
  destruct (integer_pick_never_repeats Sample.half half_unit half_double Sample2.noRepeat
              "k" Sample.dice 2 5 4 Sample2.drewFour
              ltac:(discriminate) eq_refl eq_refl ltac:(reflexivity) ltac:(reflexivity)
              ltac:(repeat split; try reflexivity; discriminate) ltac:(reflexivity)
              eq_refl eq_refl) as (v & e' & Hrun & Hne & Hb & _).
  exists v, e'. split; [exact Hrun|]. split; [exact Hne | exact Hb].
Defined.

Lemma random_values_pick_witness :
  exists v e',
    MethodOptions.buildMethodOptions Sample.half [Sample2.choice] Sample.noHooks
      Sample.emptyEnv = ({[ "c" := v ]}, e')
    /\ v ∈ [JStr "a"; JStr "b"].
Proof.
  destruct (random_values_pick Sample.half half_unit Sample.noHooks Sample2.choice
              (JStr "a") [JStr "b"] Sample.emptyEnv ltac:(discriminate) eq_refl)
    as (v & e' & Hrun & _ & _ & Hin & _).
  exists v, e'. split; [exact Hrun|]. apply Hin. left. reflexivity.
Defined.

Lemma parse_matrix_options_agrees_with_projector_witness :
  exists p,
    MethodOptions.parseMatrixOptions Sample.half Sample2.noNumber
      (moptions Sample.matrix22) Sample.emptyEnv = (p, Sample.emptyEnv)
    /\ (MethodOptions.prows p == 2)%Q /\ (MethodOptions.pcols p == 2)%Q
    /\ MethodOptions.pexcludedCells p = [JStr "1-1"].
Proof.
  destruct (parse_matrix_options_agrees_with_projector Sample.half Sample2.noNumber
              (moptions Sample.matrix22) Sample.emptyEnv 2 2 eq_refl eq_refl eq_refl
              ltac:(split; discriminate) ltac:(split; discriminate))
    as (p & Hrun & Hr & Hc & He & _).
  exists p. split; [exact Hrun|]. split; [exact Hr|]. split; [exact Hc|].
  apply He. reflexivity.
Defined.

Lemma poolSorted_empty (s : State) : pool s = ∅ -> poolSorted s.
Proof. intros H k l e Hl. rewrite H in Hl. by rewrite lookup_empty in Hl. Qed.

Lemma pool_hands_out_the_module_class_witness :
  exists e s',
    ElementPool.getElement "Frame" Sample.emptyState = (Ok e, s')
    /\ "Frame" ∈ classList e.
Proof.
  destruct (pool_hands_out_the_module_class "Frame" Sample.emptyState
              (poolSorted_empty Sample.emptyState eq_refl)) as (e & s' & Hrun & Hin & _).
  exists e, s'. split; [exact Hrun | exact Hin].
Defined.

Lemma pool_stays_sorted_witness :
  poolSorted (deactivateActiveTrack Sample2.staged).2.
Proof.
  destruct (pool_stays_sorted Sample.half Sample.always 2 Sample2.staged
              (poolSorted_empty Sample2.staged eq_refl)) as (_ & _ & Hd & _).
  apply (Hd (deactivateActiveTrack Sample2.staged).1). apply surjective_pairing.
Defined.

Lemma deactivation_recycles_elements_witness :
  exists s',
    deactivateActiveTrack Sample2.staged = (Ok tt, s')
    /\ modulesContainer s' = Some []
    /\ forall k e', e' ∈ default [] (pool s' !! k) -> e' = hide Sample2.cell.
Proof.
  destruct (deactivation_recycles_elements Sample2.staged [Sample2.cell] eq_refl eq_refl
              ltac:(constructor; [apply list_elem_of_here | constructor]))
    as (s' & Hrun & Hc & _ & _ & Hup).
  exists s'. split; [exact Hrun|]. split; [exact Hc|].
  intros k e' He'. destruct (Hup k e' He') as [Hold|(e & He & -> & _)].
  - cbn in Hold. rewrite lookup_empty in Hold. by apply elem_of_nil in Hold.
  - apply list_elem_of_singleton in He. by subst e.
Defined.

Lemma reselecting_the_active_track_is_a_noop_witness :
  handleTrackSelection Sample.half Sample.always 0 "A" Sample.activeA
  = (Ok tt, Sample.activeA).
Proof.
  exact (reselecting_the_active_track_is_a_noop Sample.half Sample.always 0 "A"
           Sample.trackA Sample.trackA Sample.activeA eq_refl eq_refl eq_refl).
Defined.


Lemma track_switch_replaces_registry_witness :
  exists s' evs,
    handleTrackSelection Sample.half Sample.always 2 "T" Sample2.staged = (Ok tt, s')
    /\ assoc "p" (activeModules s') = None
    /\ trace s' = trace Sample2.staged ++ [Destroy 2] ++ evs.
Proof.
  destruct (track_switch_replaces_registry Sample.half Sample.always 0 "T"
              Sample.twoPlacements Sample.trackA [mkRef "P1" "Frame"; mkRef "P2" "Text"]
              Sample2.staged eq_refl eq_refl eq_refl ltac:(discriminate) eq_refl
              ltac:(eexists; reflexivity))
    as (s' & evs & Hrun & Hkeys & Htr).
  exists s', evs. split; [exact Hrun|]. split; [|exact Htr].
  destruct (assoc "p" (activeModules s')) as [l|] eqn:E; [|reflexivity].
  exfalso. assert (Hin : "p" ∈ rid <$> [mkRef "P1" "Frame"; mkRef "P2" "Text"])
    by (apply Hkeys; rewrite E; eexists; reflexivity).
  cbn in Hin. apply elem_of_cons in Hin as [Hin|Hin]; [discriminate|].
  apply elem_of_cons in Hin as [Hin|Hin]; [discriminate|]. by apply elem_of_nil in Hin.
Defined.

Lemma channel_message_is_ignored_witness :
  handleChannelMessage Sample.half Sample.always 2 "/Ableton/x1" Sample2.activeT
  = (Ok tt, Sample2.activeT).
Proof.
  apply (channel_message_is_ignored Sample.half Sample.always 2 "/Ableton/x1"
           Sample2.activeT).
  right. intros d Hd. vm_compute in Hd. injection Hd as Hd. subst d. right. reflexivity.
Defined.

Lemma channel_message_runs_the_channel_methods_witness :
  handleChannelMessage Sample.half Sample.always 2 "/Ableton/3" Sample2.activeT
  = (Ok tt,
     set_trace [Invoke 4 "methodA" ∅ false]
       (set_activeChannelHandlers (buildChannelHandlerMap Sample.twoPlacements)
          Sample2.activeT)).
Proof.
  etransitivity.
  - exact (channel_message_runs_the_channel_methods Sample.half Sample.always 2
             Sample.twoPlacements "3" Sample2.activeT eq_refl ltac:(discriminate) eq_refl
             (or_introl eq_refl)).
  - vm_compute. reflexivity.
Defined.

Lemma preview_never_throws_witness :
  exists r s',
    previewModule Sample.half Sample.always 2 None "Frame" (Some Sample2.previewData)
      Sample.emptyState = (r, s')
    /\ match r with
       | Ok p' =>
           (p' = Some "Frame" /\ is_Some (assoc (previewKey "Frame") (activeModules s')))
           \/ (p' = None /\ assoc (previewKey "Frame") (activeModules s') = None)
       | Never => is_Some (assoc (previewKey "Frame") (activeModules s'))
       | Raise _ | OutOfFuel => False
       end.
Proof.
  exact (preview_never_throws Sample.half Sample.always 0 None "Frame"
           (Some Sample2.previewData) Sample.emptyState ltac:(discriminate)
           ltac:(eexists; reflexivity)).
Defined.

(** A constructor that throws, inside the animation frame: the matrix step
    never settles, the elements of the placement are in the container and
    the placement is registered with no instance; the preview that awaits
    the step never settles either. *)
Lemma throwing_constructor_never_settles :
  exists s' elems,
    updateMatrix Sample.half Sample2.alwaysBroken 1 "preview_Frame"
      (moptions Sample.matrix22) Sample.emptyState = (Never, s')
    /\ assoc "preview_Frame" (activeModules s') = Some []
    /\ modulesContainer s' = Some elems /\ length elems = 3%nat
    /\ fst (previewModule Sample.half Sample2.alwaysBroken 2 None "Frame"
              (Some Sample2.previewData) Sample.emptyState) = Never.
Proof.
  eexists _, _. split; [vm_compute; reflexivity|].
  split; [reflexivity|]. split; [reflexivity|]. split; [reflexivity|].
  vm_compute. reflexivity.
Qed.

Lemma failed_load_leaves_the_placement_empty_witness :
  exists s',
    updateMatrix Sample.half Sample2.never 2 "p" (moptions Sample.matrix22) Sample2.staged
    = (Ok tt, s')
    /\ assoc "p" (activeModules s') = Some []
    /\ last (trace s') = Some (ErrLoadModule "Frame").
Proof.
  destruct (failed_load_leaves_the_placement_empty Sample.half Sample2.never 2 "p" "Frame"
              (moptions Sample.matrix22) Sample2.staged
              ltac:(eexists; reflexivity) eq_refl ltac:(discriminate)
              ltac:(repeat constructor; discriminate) eq_refl)
    as (s' & Hrun & Hreg & _ & Hlast & _).
  exists s'. split; [exact Hrun|]. split; [exact Hreg | exact Hlast].
Defined.

Lemma noDup_cell : NoDup (eid <$> [Sample2.cell]).
Proof. apply NoDup_singleton. Qed.

Lemma clear_preview_removes_the_preview_only_witness :
  exists s',
    clearPreview (Some "Text") Sample2.staged = (Ok None, s')
    /\ modulesContainer s' = Some [Sample2.cell]
    /\ assoc "p" (activeModules s') = Some [Sample.sound].
Proof.
  destruct (clear_preview_removes_the_preview_only "Text" Sample2.staged [Sample2.cell])
    as [_ H].
  destruct (H ltac:(discriminate) eq_refl noDup_cell) as (s' & Hrun & _ & Hk & Hc & _).
  exists s'. split; [exact Hrun|]. split; [exact Hc|].
  rewrite Hk by discriminate. reflexivity.
Defined.

Lemma elements_stack_in_placement_order_witness :
  exists res s' rest elems,
    updateMatrix Sample.half Sample.always 2 "p" (moptions Sample.matrix22) Sample2.staged
    = (res, s')
    /\ res <> OutOfFuel
    /\ modulesContainer s' = Some (rest ++ elems)
    /\ Forall (stacked "p" 1 false) elems.
Proof.
  destruct (elements_stack_in_placement_order Sample.half Sample.always 1 Sample.trackA
              [] [] (mkRef "p" "Frame") (moptions Sample.matrix22) Sample.frame
              [Sample2.cell] Sample2.staged eq_refl eq_refl
              ltac:(apply not_elem_of_nil) ltac:(discriminate) eq_refl
              ltac:(repeat constructor; discriminate) eq_refl)
    as (res & s' & rest & elems & Hrun & Hres & Hc & _ & Hst).
  exists res, s', rest, elems. split; [exact Hrun|]. split; [exact Hres|].
  split; [exact Hc | exact Hst].
Defined.

Lemma validated_options_resolve_without_warning_witness :
  exists out s',
    resolveOptions Sample.half
      (Validator.validateMethodOptions ValidatorSample.noText [ValidatorSample.speed]
         [ValidatorSample.fast]) Sample.emptyState = (Ok out, s')
    /\ trace s' = [].
Proof.
  exact (validated_options_resolve_without_warning Sample.half ValidatorSample.noText
           [ValidatorSample.speed] [ValidatorSample.fast] Sample.emptyState
           ltac:(repeat constructor; eexists; reflexivity)).
Defined.

Lemma validated_number_is_within_bounds_witness :
  exists w : Q,
    Validator.validateOptionValue ValidatorSample.noText ValidatorSample.speed (JNum 12)
    = JNum w
    /\ (0 <= w <= 10)%Q.
Proof.
  destruct (validated_number_is_within_bounds ValidatorSample.noText ValidatorSample.speed
              0 10 eq_refl eq_refl eq_refl ltac:(discriminate)) as [H _].
  destruct (H 12%Q) as (w & Hrun & Hb & _). exists w. split; [exact Hrun | exact Hb].
Defined.

Lemma validated_matrix_is_decoded_as_it_stands_witness :
  (exists f (r c : Double.num) E dr dc,
     Validator.validateOptionValue ValidatorSample.noText ValidatorSample.grid
       ValidatorSample.twoByThree = JObj f
     /\ prop "rows" f = JNum r /\ prop "cols" f = JNum c
     /\ prop "excludedCells" f = JArr E
     /\ validDimension r dr /\ validDimension c dc
     /\ forall border,
          decodeMatrixOptions
            [mkOption "matrix" (JObj f) JUndefined JUndefined;
             mkOption "border" border JUndefined JUndefined]
          = mkMatrixOptions dr dc (JArr E) border)
  /\ Validator.validateOptionValue ValidatorSample.noText ValidatorSample.grid
       (JArr [JNum 2; JNum 2])
     = Validator.ddefaultVal ValidatorSample.grid.
Proof.
  destruct (validated_matrix_is_decoded_as_it_stands ValidatorSample.noText
              ValidatorSample.grid ValidatorSample.twoByThree eq_refl) as [[H|H] Harr].
  - exfalso. vm_compute in H. discriminate H.
  - split; [exact H | exact (Harr [JNum 2; JNum 2])].
Defined.
